(** * Terrain generation core: a shallow embedding and its properties

    The development follows the JavaScript sources of the terrain generator:
    - [RNG]      : rng.js (hashSeed, LCG, MultiStreamRNG);
    - [Quantile] : quantile.js (findQuantile, solveSeaLevel, validateWaterCoverage);
    - [Poisson]  : poisson.js (poissonDiskSampling);
    - [Trees]    : slope.js (calculateSlopes) and treePlacement.js;
    - [Generator]: terrainGeneratorV1_1.js (TerrainGeneratorV1_1.generate).

    Number model.  32-bit integer code (the hash and the congruential
    generator) is modelled on [Z] with the wrap-around written out.
    JavaScript numbers are doubles; three models of them are used.
    - Exact: real numbers without rounding ([Quantile], [Poisson], [Trees],
      [Generator], [Histogram], [Distribution], [Curve], [Erosion]).  A
      computation that would produce Infinity or NaN, or throw, is reported
      through the [outcome] type.  The statements proved on this model are
      those that the rounding of the code does not change.
    - Rounded: real numbers with the result of every operation rounded to
      binary64, and to binary32 by a store into a Float32Array ([Rounding],
      [Rounded]); for statements about all inputs in which the rounding
      matters.
    - Executable: the binary64 numbers of the kernel ([Binary64],
      [Quantile64], [Poisson64]); for the evaluation of a call. *)

From Stdlib Require Import ZArith List String Ascii Bool Lia.
From Stdlib Require Import Reals Lra Zfloor Sorted Permutation.
From Stdlib Require Floats Uint63.
Import ListNotations.

Set Implicit Arguments.

(** Result of running a piece of JavaScript. *)
Inductive outcome (A : Type) : Type :=
| Ok (a : A)          (* normal completion with a finite value *)
| Throws              (* an exception is thrown *)
| NotFinite           (* the value involves Infinity or NaN *)
| OutOfFuel.          (* the loop bound given to the model was too small *)
Arguments Ok {A} a.
Arguments Throws {A}.
Arguments NotFinite {A}.
Arguments OutOfFuel {A}.

Definition bind {A B} (m : outcome A) (k : A -> outcome B) : outcome B :=
  match m with
  | Ok a => k a
  | Throws => Throws
  | NotFinite => NotFinite
  | OutOfFuel => OutOfFuel
  end.

Notation "x <- m ;; k" := (bind m (fun x => k))
  (at level 61, m at next level, right associativity).

(* ================================================================== *)
(** * rng.js *)
Module RNG.

Local Open Scope Z_scope.

(** ToInt32 and ToUint32 of an integral number. *)
Definition toInt32 (z : Z) : Z := (z + 2147483648) mod 4294967296 - 2147483648.
Definition toUint32 (z : Z) : Z := z mod 4294967296.

(** [a ^ b] *)
Definition xor32 (a b : Z) : Z := toInt32 (Z.lxor (toInt32 a) (toInt32 b)).
(** [Math.imul(a, b)] *)
Definition imul (a b : Z) : Z := toInt32 (toInt32 a * toInt32 b).
(** [a >>> k] *)
Definition ushr (a : Z) (k : Z) : Z := Z.shiftr (toUint32 a) k.

Definition charCodeAt (c : ascii) : Z := Z.of_N (N_of_ascii c).

(** The body of the loop over the label's characters. *)
Definition mixChar (hash : Z) (c : ascii) : Z :=
  let hash := xor32 hash (charCodeAt c) in
  let hash := imul hash 2246822507 (* 0x85ebca6b *) in
  xor32 hash (ushr hash 13).

Definition mixLabel (hash : Z) (label : string) : Z :=
  fold_left mixChar (list_ascii_of_string label) hash.

Definition hashSeed (seed : Z) (label : string) : Z :=
  let hash := xor32 seed 2654435769 (* 0x9e3779b9 *) in
  let hash := mixLabel hash label in
  let hash := imul hash 3266489909 (* 0xc2b2ae35 *) in
  let hash := xor32 hash (ushr hash 16) in
  ushr hash 0.

(** ** class LCG: the object is its [state] field. *)
Record LCG : Type := mkLCG { state : Z }.

Definition LCG_new (seed : Z) : LCG := mkLCG (toUint32 seed).

(** [next()]: the new state and the returned value in [0, 1). *)
Definition LCG_step (g : LCG) : LCG :=
  mkLCG (toUint32 (state g * 1664525 + 1013904223)).

Definition LCG_value (g : LCG) : R := (IZR (state g) / 4294967296)%R.

Definition next (g : LCG) : R * LCG :=
  let g' := LCG_step g in (LCG_value g', g').

(** [nextInt(min, max)] *)
Definition nextInt (g : LCG) (min max : Z) : Z * LCG :=
  let (v, g') := next g in
  (Zfloor (v * IZR (max - min)) + min, g').

(** [nextFloat(min, max)] *)
Definition nextFloat (g : LCG) (min max : R) : R * LCG :=
  let (v, g') := next g in ((v * (max - min) + min)%R, g').

(** The value returned by the [n]-th call (counting from 0) of [next()]. *)
Fixpoint nthNext (g : LCG) (n : nat) : R :=
  match n with
  | O => fst (next g)
  | S k => nthNext (snd (next g)) k
  end.

(** The generator after [n] calls of [next()]. *)
Fixpoint advance (g : LCG) (n : nat) : LCG :=
  match n with
  | O => g
  | S k => advance (snd (next g)) k
  end.

(** ** class MultiStreamRNG.  [streams] maps a label to the live generator,
    [subSeeds] records the derived seeds; both are keyed by the label and
    kept in insertion order. *)
Record MultiStreamRNG : Type := mkMulti {
  masterSeed : Z;
  streams : list (string * LCG);
  subSeeds : list (string * Z)
}.

Definition MultiStreamRNG_new (seed : Z) : MultiStreamRNG :=
  mkMulti seed [] [].

Fixpoint lookup {A} (label : string) (m : list (string * A)) : option A :=
  match m with
  | [] => None
  | (k, v) :: rest => if String.eqb k label then Some v else lookup label rest
  end.

Fixpoint store {A} (label : string) (v : A) (m : list (string * A))
  : list (string * A) :=
  match m with
  | [] => [(label, v)]
  | (k, w) :: rest =>
      if String.eqb k label then (k, v) :: rest
      else (k, w) :: store label v rest
  end.

(** [getStream(label)]: the manager after the call; the returned generator
    is the one stored under [label]. *)
Definition getStream (label : string) (m : MultiStreamRNG) : MultiStreamRNG :=
  match lookup label (streams m) with
  | Some _ => m
  | None =>
      let subSeed := hashSeed (masterSeed m) label in
      mkMulti (masterSeed m)
              (store label (LCG_new subSeed) (streams m))
              (store label subSeed (subSeeds m))
  end.

Definition streamOf (label : string) (m : MultiStreamRNG) : LCG :=
  match lookup label (streams m) with
  | Some g => g
  | None => LCG_new 0
  end.

(** A call [rng.next()] on the generator stored under [label]. *)
Definition streamNext (label : string) (m : MultiStreamRNG)
  : R * MultiStreamRNG :=
  let (v, g') := next (streamOf label m) in
  (v, mkMulti (masterSeed m) (store label g' (streams m)) (subSeeds m)).

(** The generator stored under [label] replaced by [g]. *)
Definition setStream (label : string) (g : LCG) (m : MultiStreamRNG)
  : MultiStreamRNG :=
  mkMulti (masterSeed m) (store label g (streams m)) (subSeeds m).

Definition streamNextInt (label : string) (min max : Z) (m : MultiStreamRNG)
  : Z * MultiStreamRNG :=
  let (v, g') := nextInt (streamOf label m) min max in
  (v, mkMulti (masterSeed m) (store label g' (streams m)) (subSeeds m)).

(** The sequence produced by the stream that a fresh manager with master
    seed [seed] hands out for [label]. *)
Definition streamSequence (seed : Z) (label : string) (n : nat) : R :=
  nthNext (streamOf label (getStream label (MultiStreamRNG_new seed))) n.

(** ** The other methods of LCG *)

(** [nextBool(probability)] *)
Definition nextBool (g : LCG) (probability : R) : bool * LCG :=
  let (v, g') := next g in
  ((if Rlt_dec v probability then true else false), g').

(** [a[i]] for an integral index: [None] stands for [undefined]. *)
Definition elementAt {A} (a : list A) (i : Z) : option A :=
  if i <? 0 then None else nth_error a (Z.to_nat i).

(** [a[i] = v] for an index inside the array. *)
Fixpoint assign {A} (a : list A) (i : nat) (v : A) : list A :=
  match a, i with
  | [], _ => []
  | _ :: rest, O => v :: rest
  | x :: rest, S j => x :: assign rest j v
  end.

(** [choice(array)] *)
Definition choice {A} (g : LCG) (array : list A) : option A * LCG :=
  let (i, g') := nextInt g 0 (Z.of_nat (List.length array)) in
  (elementAt array i, g').

(** [[array[i], array[j]] = [array[j], array[i]]] for two indexes inside the
    array: both elements are read, then [array[i]] and [array[j]] are
    written in this order.  [None] when an index is outside the array. *)
Definition swapItems {A} (array : list A) (i j : Z) : option (list A) :=
  match elementAt array i, elementAt array j with
  | Some x, Some y =>
      Some (assign (assign array (Z.to_nat i) y) (Z.to_nat j) x)
  | _, _ => None
  end.

(** The loop of [shuffle(array)], from index [i] down to 1. *)
Fixpoint shuffleFrom {A} (i : nat) (g : LCG) (array : list A)
  : option (list A) * LCG :=
  match i with
  | O => (Some array, g)
  | S i' =>
      let (j, g') := nextInt g 0 (Z.of_nat i + 1) in
      match swapItems array (Z.of_nat i) j with
      | Some array' => shuffleFrom i' g' array'
      | None => (None, g')
      end
  end.

(** [shuffle(array)]: the contents of the array after the call. *)
Definition shuffle {A} (g : LCG) (array : list A) : option (list A) * LCG :=
  shuffleFrom (List.length array - 1) g array.

(** [getState()] and [setState(state)] *)
Definition getState (g : LCG) : Z := state g.
Definition setState (g : LCG) (s : Z) : LCG := mkLCG (toUint32 s).

(** ** The other methods of MultiStreamRNG *)

(** [resetStream(label)].  [subSeeds] is a plain object: under the key
    __proto__ it holds no number (the assignment in [getStream] is ignored
    and the read gives the prototype object), and [new LCG] of a value that
    is not a number starts from state 0. *)
Definition resetStream (label : string) (m : MultiStreamRNG) : MultiStreamRNG :=
  match lookup label (streams m) with
  | Some _ =>
      let restarted :=
        if String.eqb label "__proto__" then LCG_new 0
        else match lookup label (subSeeds m) with
             | Some subSeed => LCG_new subSeed
             | None => LCG_new 0
             end in
      mkMulti (masterSeed m) (store label restarted (streams m)) (subSeeds m)
  | None => m
  end.

(** [resetAll()] *)
Definition resetAll (m : MultiStreamRNG) : MultiStreamRNG :=
  mkMulti (masterSeed m) [] [].

(** [getStreamStates()] *)
Definition getStreamStates (m : MultiStreamRNG) : list (string * Z) :=
  map (fun kv => (fst kv, getState (snd kv))) (streams m).

(** The managers that the methods produce from [new MultiStreamRNG(seed)];
    [next()] is called on a generator handed out by [getStream]. *)
Inductive reachable (seed : Z) : MultiStreamRNG -> Prop :=
| reach_new : reachable seed (MultiStreamRNG_new seed)
| reach_getStream label m :
    reachable seed m -> reachable seed (getStream label m)
| reach_next label m :
    reachable seed m -> lookup label (streams m) <> None ->
    reachable seed (snd (streamNext label m))
| reach_resetStream label m :
    reachable seed m -> reachable seed (resetStream label m)
| reach_resetAll m :
    reachable seed m -> reachable seed (resetAll m).

(** The affine map [s -> a * s + c] modulo 2^32, as a pair [(a, c)]; the
    map of one step of the generator, and the map applied twice. *)
Definition affine (ac : Z * Z) (s : Z) : Z := toUint32 (fst ac * s + snd ac).
Definition stepMap : Z * Z := (1664525, 1013904223).
Definition twice (ac : Z * Z) : Z * Z :=
  (toUint32 (fst ac * fst ac), toUint32 (fst ac * snd ac + snd ac)).

End RNG.

(* ================================================================== *)
(** * quantile.js *)
Module Quantile.

Local Open Scope R_scope.

Definition Rltb (x y : R) : bool := if Rlt_dec x y then true else false.
Definition Rleb (x y : R) : bool := if Rle_dec x y then true else false.
Definition Reqb (x y : R) : bool := if Req_dec_T x y then true else false.

(** The number of elements for which the loop's test holds. *)
Definition count (f : R -> bool) (data : list R) : nat :=
  List.length (filter f data).

(** [Array.from(data).sort((a, b) => a - b)]: ascending order.  On numbers
    the sorted array does not depend on the algorithm. *)
Fixpoint insert (x : R) (sorted : list R) : list R :=
  match sorted with
  | [] => [x]
  | y :: rest => if Rle_dec x y then x :: sorted else y :: insert x rest
  end.

Fixpoint sort (data : list R) : list R :=
  match data with
  | [] => []
  | x :: rest => insert x (sort rest)
  end.

(** [Math.min(...data)] and [Math.max(...data)]; on an empty array they are
    [Infinity] and [-Infinity]. *)
Definition Math_min (data : list R) : outcome R :=
  match data with
  | [] => NotFinite
  | x :: rest => Ok (fold_left Rmin rest x)
  end.

Definition Math_max (data : list R) : outcome R :=
  match data with
  | [] => NotFinite
  | x :: rest => Ok (fold_left Rmax rest x)
  end.

(** [a[i]] used as a number: [undefined] outside the array. *)
Definition item (a : list R) (i : Z) : outcome R :=
  if (i <? 0)%Z then NotFinite
  else match nth_error a (Z.to_nat i) with
       | Some v => Ok v
       | None => NotFinite
       end.

Definition findQuantile (data : list R) (quantile : R) : outcome R :=
  if Rltb quantile 0 || Rltb 1 quantile then Throws
  else match data with
  | [] => Ok 0
  | _ :: _ =>
    let sorted := sort data in
    let len := Z.of_nat (List.length sorted) in
    if Reqb quantile 0 then item sorted 0
    else if Reqb quantile 1 then item sorted (len - 1)
    else
      let position := quantile * IZR (len - 1) in
      let lower := Zfloor position in
      let upper := Zceil position in
      let weight := position - IZR lower in
      lo <- item sorted lower ;;
      hi <- item sorted upper ;;
      Ok (lo * (1 - weight) + hi * weight)
  end.

Record SeaLevelResult : Type := mkSeaLevelResult {
  seaLevel : R;
  actualPercentage : R;
  cellsBelowSeaLevel : nat;
  raised : nat;
  method : string
}.

(** The loop of the 0% branch: every cell below [floor] is set to [floor];
    the array after the loop and the number of cells changed. *)
Fixpoint raiseLoop (floor : R) (data : list R) : list R * nat :=
  match data with
  | [] => ([], O)
  | h :: rest =>
      let (rest', raised) := raiseLoop floor rest in
      if Rltb h floor then (floor :: rest', S raised) else (h :: rest', raised)
  end.

(** [solveSeaLevel(elevationData, targetWaterPercentage, epsilon)]: the
    returned record and the contents of [elevationData] after the call. *)
Definition solveSeaLevel (elevationData : list R) (targetWaterPercentage : R)
  (epsilon : R) : outcome (SeaLevelResult * list R) :=
  let totalCells := List.length elevationData in
  if Reqb targetWaterPercentage 0 then
    minHeight <- Math_min elevationData ;;
    let seaLevel := minHeight - epsilon in
    let (raisedData, raised) := raiseLoop (minHeight + epsilon) elevationData in
    Ok (mkSeaLevelResult seaLevel 0 0 raised "0%_raise", raisedData)
  else if Rleb 100 targetWaterPercentage then
    maxHeight <- Math_max elevationData ;;
    Ok (mkSeaLevelResult (maxHeight + epsilon) 100 totalCells 0 "100%_cover",
        elevationData)
  else
    let quantile := targetWaterPercentage / 100 in
    seaLevel <- findQuantile elevationData quantile ;;
    let cellsBelowSeaLevel := count (fun h => Rleb h seaLevel) elevationData in
    match totalCells with
    | O => NotFinite (* 0 / 0 *)
    | S _ =>
      let actualPercentage := INR cellsBelowSeaLevel / INR totalCells * 100 in
      Ok (mkSeaLevelResult seaLevel actualPercentage cellsBelowSeaLevel 0
                           "quantile", elevationData)
    end.

Record CoverageValidation : Type := mkCoverageValidation {
  passed : bool;
  measuredPercentage : R;
  error : R;
  cellsBelow : nat;
  cellsAtSeaLevel : nat
}.

(** [validateWaterCoverage(elevationData, seaLevel, targetPercentage, tolerance)] *)
Definition validateWaterCoverage (elevationData : list R) (seaLevel : R)
  (targetPercentage tolerance : R) : outcome CoverageValidation :=
  let below := count (fun h => Rltb h seaLevel) elevationData in
  let at_level := count (fun h => negb (Rltb h seaLevel)
                                  && Rltb (Rabs (h - seaLevel)) (1 / 1000))
                        elevationData in
  match elevationData with
  | [] => NotFinite (* 0 / 0 *)
  | _ :: _ =>
    let actual := INR (below + at_level) / INR (List.length elevationData) * 100 in
    let err := Rabs (actual - targetPercentage) in
    Ok (mkCoverageValidation (Rleb err tolerance) actual err below at_level)
  end.

(** The value computed by the last lines of [findQuantile] from the sorted
    copy, when both indexes are inside the array. *)
Definition interpolate (sorted : list R) (quantile : R) : R :=
  let position := quantile * IZR (Z.of_nat (List.length sorted) - 1) in
  let lower := Zfloor position in
  let upper := Zceil position in
  let weight := position - IZR lower in
  nth (Z.to_nat lower) sorted 0 * (1 - weight)
  + nth (Z.to_nat upper) sorted 0 * weight.

(** ** Notions of the specification, for comparison with the code *)

(** The fraction, in percent, of cells with [height <= level]. *)
Definition coverage (data : list R) (level : R) : R :=
  INR (count (fun h => Rleb h level) data) / INR (List.length data) * 100.



End Quantile.

(* ================================================================== *)
(** * poisson.js *)
Module Poisson.

Import Quantile.
Local Open Scope R_scope.

Record point : Type := mkPoint { px : R; py : R }.

(** The state shared by the closures of [poissonDiskSampling]: the background
    grid, the two arrays, and the number of calls made to [rng] so far. *)
Record state : Type := mkState {
  grid : list (option point);
  samples : list point;
  active : list point;
  calls : nat
}.

(** [a[i] = v] for an index inside the array. *)
Fixpoint setItem {A} (a : list A) (i : nat) (v : A) : list A :=
  match a, i with
  | [], _ => []
  | _ :: rest, O => v :: rest
  | x :: rest, S j => x :: setItem rest j v
  end.

(** [a.splice(index, 1)]: a negative index counts from the end, an index
    past the end removes nothing. *)
Fixpoint removeAt {A} (a : list A) (i : nat) : list A :=
  match a, i with
  | [], _ => []
  | _ :: rest, O => rest
  | x :: rest, S j => x :: removeAt rest j
  end.

Definition splice1 {A} (a : list A) (index : Z) : list A :=
  let len := Z.of_nat (List.length a) in
  let start := if (index <? 0)%Z then Z.max (len + index) 0 else Z.min index len in
  removeAt a (Z.to_nat start).

(** [a[index]] for an integral index: [None] stands for [undefined]. *)
Definition itemAt {A} (a : list A) (index : Z) : option A :=
  if (index <? 0)%Z then None else nth_error a (Z.to_nat index).

Section Sampler.

Variables width height minDistance : R.
(** [rng] is a function without arguments; [rng n] is the value returned by
    its [n]-th call. *)
Variable rng : nat -> R.
Variable maxAttempts : nat.
(** [None] is the default [null]; a mask returns a truthy or falsy value. *)
Variable suitabilityMask : option (R -> R -> bool).

Definition cellSize : R := minDistance / sqrt 2.
Definition gridWidth : Z := Zceil (width / cellSize).
Definition gridHeight : Z := Zceil (height / cellSize).

Definition inGrid (gx gy : Z) : bool :=
  ((0 <=? gx) && (gx <? gridWidth) && (0 <=? gy) && (gy <? gridHeight))%Z.

Definition gridIndex (x y : R) : Z :=
  let gx := Zfloor (x / cellSize) in
  let gy := Zfloor (y / cellSize) in
  if inGrid gx gy then (gy * gridWidth + gx)%Z else (-1)%Z.

(** [suitabilityMask && !suitabilityMask(x, y)] *)
Definition rejectedByMask (x y : R) : bool :=
  match suitabilityMask with
  | None => false
  | Some mask => negb (mask x y)
  end.

Definition offsets : list Z := [-2; -1; 0; 1; 2]%Z.

(** The test made on the grid cell [(nx, ny)] inside the two loops of
    [isValid]: [false] when the loops return [false] there. *)
Definition neighborOk (g : list (option point)) (x y : R) (nx ny : Z) : bool :=
  if inGrid nx ny then
    match nth (Z.to_nat (ny * gridWidth + nx)) g None with
    | None => true
    | Some neighbor =>
        let dist := sqrt ((x - px neighbor) ^ 2 + (y - py neighbor) ^ 2) in
        negb (Rltb dist minDistance)
    end
  else true.

Definition isValid (g : list (option point)) (x y : R) : bool :=
  if Rltb x 0 || Rleb width x || Rltb y 0 || Rleb height y
  then false
  else if rejectedByMask x y then false
  else
    let gx := Zfloor (x / cellSize) in
    let gy := Zfloor (y / cellSize) in
    forallb (fun dy =>
      forallb (fun dx => neighborOk g x y (gx + dx) (gy + dy)) offsets)
      offsets.

Definition addPoint (x y : R) (st : state) : state :=
  let point := mkPoint x y in
  let idx := gridIndex x y in
  mkState (if (0 <=? idx)%Z then setItem (grid st) (Z.to_nat idx) (Some point)
           else grid st)
          (samples st ++ [point])
          (active st ++ [point])
          (calls st).

(** The do-while loop choosing the initial point.  [tries] is the number of
    iterations left before [attempts > 100]; the result is [None] when the
    function returns the empty array. *)
Fixpoint initialPoint (tries : nat) (n : nat) : option (R * R) * nat :=
  let initialX := rng n * width in
  let initialY := rng (S n) * height in
  match tries with
  | O =>
      let centerX := width / 2 in
      let centerY := height / 2 in
      if rejectedByMask centerX centerY then (None, S (S n))
      else (Some (centerX, centerY), S (S n))
  | S tries' =>
      if rejectedByMask initialX initialY then initialPoint tries' (S (S n))
      else (Some (initialX, initialY), S (S n))
  end.

(** The [for] loop over the attempts around [point]; [i] iterations remain. *)
Fixpoint attemptLoop (i : nat) (point : option point) (st : state)
  (found : bool) : outcome (state * bool) :=
  match i with
  | O => Ok (st, found)
  | S i' =>
      match point with
      | None => Throws (* point is undefined *)
      | Some p =>
          let angle := rng (calls st) * PI * 2 in
          let radius := minDistance + rng (S (calls st)) * minDistance in
          let newX := px p + cos angle * radius in
          let newY := py p + sin angle * radius in
          let st1 := mkState (grid st) (samples st) (active st)
                             (S (S (calls st))) in
          if isValid (grid st1) newX newY
          then attemptLoop i' point (addPoint newX newY st1) true
          else attemptLoop i' point st1 found
      end
  end.

(** The [while (active.length > 0)] loop, run for at most [fuel] iterations. *)
Fixpoint activeLoop (fuel : nat) (st : state) : outcome state :=
  match active st with
  | [] => Ok st
  | _ :: _ =>
      match fuel with
      | O => OutOfFuel
      | S fuel' =>
          let index :=
            Zfloor (rng (calls st) * INR (List.length (active st))) in
          let point := itemAt (active st) index in
          let st0 := mkState (grid st) (samples st) (active st) (S (calls st)) in
          r <- attemptLoop maxAttempts point st0 false ;;
          let (st1, found) := (r : state * bool) in
          if found then activeLoop fuel' st1
          else activeLoop fuel'
                 (mkState (grid st1) (samples st1)
                          (splice1 (active st1) index) (calls st1))
      end
  end.

(** [new Array(n).fill(null)]: a RangeError unless [0 <= n < 2^32]. *)
Definition newGrid (n : Z) : outcome (list (option point)) :=
  if ((n <? 0) || (4294967295 <? n))%Z then Throws
  else Ok (repeat None (Z.to_nat n)).

(** The whole function: the final state, whose [samples] is the returned
    array.  With [minDistance = 0] the grid dimensions are not finite and the
    allocation of the grid throws. *)
Definition run (fuel : nat) : outcome state :=
  if Reqb minDistance 0 then Throws
  else
    g <- newGrid (gridWidth * gridHeight) ;;
    match initialPoint 100 O with
    | (None, n) => Ok (mkState g [] [] n)
    | (Some (initialX, initialY), n) =>
        activeLoop fuel (addPoint initialX initialY (mkState g [] [] n))
    end.

Definition poissonDiskSampling (fuel : nat) : outcome (list point) :=
  st <- run fuel ;; Ok (samples st).

End Sampler.

(** Squared Euclidean distance and distance of two points. *)
Definition distance (p q : point) : R :=
  sqrt ((px p - px q) ^ 2 + (py p - py q) ^ 2).

End Poisson.

(* ================================================================== *)
(** * slope.js (calculateSlopes) and treePlacement.js *)
Module Trees.

Import Quantile.
Local Open Scope R_scope.

(** [a[i]] for a typed array of numbers.  The arrays of a terrain record have
    [width * height] elements and the code reads them inside that range; the
    default stands for the [undefined] of a read outside. *)
Definition get (a : list R) (i : Z) : R :=
  if (i <? 0)%Z then 0 else nth (Z.to_nat i) a 0.

(** The terrain data record, as far as tree placement reads it. *)
Record TerrainData : Type := mkTerrainData {
  elevation : list R;
  seaLevel : R;
  width : Z;
  height : Z;
  cellSize : R
}.

(** The configuration fields read by tree placement; [None] is a field that
    is not set. *)
Record TreeConfig : Type := mkTreeConfig {
  FOREST_PERCENTAGE : option R;
  TREE_MIN_SPACING : option R;
  TREE_MAX_HEIGHT : option R;
  TREE_MAX_SLOPE : option R;
  TREE_BEACH_BUFFER : option R
}.

(** [field || fallback] *)
Definition orElse (field : option R) (fallback : R) : R :=
  match field with
  | Some v => if Reqb v 0 then fallback else v
  | None => fallback
  end.

(** The indexes [0 .. n-1] of an array of [n] cells. *)
Definition indexes (n : Z) : list Z := map Z.of_nat (seq 0 (Z.to_nat n)).

(** slope.js, [calculateSlopes]: the body of the two loops at cell [(x, y)]. *)
Definition slopeAt (elevationData : list R) (width height : Z) (cellSize : R)
  (x y : Z) : R :=
  let idx := (y * width + x)%Z in
  let hc := get elevationData idx in
  let hLeft := if (0 <? x)%Z then get elevationData (idx - 1) else hc in
  let hRight := if (x <? width - 1)%Z then get elevationData (idx + 1) else hc in
  let hUp := if (0 <? y)%Z then get elevationData (idx - width) else hc in
  let hDown :=
    if (y <? height - 1)%Z then get elevationData (idx + width) else hc in
  let dzdx := (hRight - hLeft) / (2 * cellSize) in
  let dzdy := (hDown - hUp) / (2 * cellSize) in
  let slopeMagnitude := sqrt (dzdx * dzdx + dzdy * dzdy) in
  atan slopeMagnitude * (180 / PI).

Definition calculateSlopes (elevationData : list R) (width height : Z)
  (cellSize : R) : list R :=
  flat_map (fun y =>
    map (fun x => slopeAt elevationData width height cellSize x y)
        (indexes width))
    (indexes height).

(** treePlacement.js, [createTreeSuitabilityMask]: the value written to
    [mask[i]] by the loop over [elevation]. *)
Definition suitableCell (minHeight maxHeight maxSlope : R) (h slopeDegrees : R)
  : R :=
  if Rltb h minHeight then 0
  else if Rltb maxHeight h then 0
  else if Rltb maxSlope slopeDegrees then 0
  else 1.

(** The thresholds of the strict mask. *)
Definition strictMinHeight (seaLevel : R) (config : TreeConfig) : R :=
  seaLevel + orElse (TREE_BEACH_BUFFER config) 2.
Definition treeMaxHeight (config : TreeConfig) : R :=
  orElse (TREE_MAX_HEIGHT config) 60.
Definition strictMaxSlope (config : TreeConfig) : R :=
  orElse (TREE_MAX_SLOPE config) 35.

Definition createTreeSuitabilityMask (elevation slopes : list R)
  (width height : Z) (seaLevel : R) (config : TreeConfig) : list R :=
  let minHeight := strictMinHeight seaLevel config in
  let maxHeight := treeMaxHeight config in
  let maxSlope := strictMaxSlope config in
  map (fun i =>
         if (i <? Z.of_nat (List.length elevation))%Z
         then suitableCell minHeight maxHeight maxSlope
                           (get elevation i) (get slopes i)
         else 0)
      (indexes (width * height)).

(** The thresholds and the mask of the relaxation pass. *)
Definition relaxedMinHeight (seaLevel : R) : R := seaLevel + 1.
Definition relaxedMaxSlope : R := 45.

Definition relaxedCell (seaLevel : R) (config : TreeConfig) (h s : R) : R :=
  if Rltb (relaxedMinHeight seaLevel) h
     && Rltb h (treeMaxHeight config)
     && Rleb s relaxedMaxSlope
  then 1 else 0.

Definition relaxedMask (elevation slopes : list R) (seaLevel : R)
  (config : TreeConfig) (len : nat) : list R :=
  map (fun i => relaxedCell seaLevel config (get elevation i) (get slopes i))
      (indexes (Z.of_nat len)).

(** The count of the cells with [mask[i] > 0]. *)
Definition countSuitable (mask : list R) : nat := count (fun v => Rltb 0 v) mask.

(** The closure [suitabilityFn] handed to the sampler. *)
Definition suitabilityFn (mask : list R) (width height : Z) (cellSize : R)
  (x z : R) : bool :=
  let cellX := Zfloor (x / cellSize) in
  let cellZ := Zfloor (z / cellSize) in
  if ((cellX <? 0) || (width <=? cellX) || (cellZ <? 0) || (height <=? cellZ))%Z
  then false
  else negb (Reqb (get mask (cellZ * width + cellX)) 0).

(** [getHeightAt]: bilinear interpolation of the height field. *)
Definition getHeightAt (worldX worldZ : R) (elevation : list R)
  (width height : Z) (cellSize : R) : R :=
  let cellX := worldX / cellSize in
  let cellZ := worldZ / cellSize in
  let x0 := Z.max 0 (Z.min (width - 1) (Zfloor cellX)) in
  let z0 := Z.max 0 (Z.min (height - 1) (Zfloor cellZ)) in
  let x1 := Z.min (width - 1) (x0 + 1) in
  let z1 := Z.min (height - 1) (z0 + 1) in
  let fx := cellX - IZR x0 in
  let fz := cellZ - IZR z0 in
  let h00 := get elevation (z0 * width + x0) in
  let h10 := get elevation (z0 * width + x1) in
  let h01 := get elevation (z1 * width + x0) in
  let h11 := get elevation (z1 * width + x1) in
  let h0 := h00 * (1 - fx) + h10 * fx in
  let h1 := h01 * (1 - fx) + h11 * fx in
  h0 * (1 - fz) + h1 * fz.

(** A placement [{x, z, height}]; [score] is present on the placements that
    went through the scoring branch. *)
Record placement : Type := mkPlacement {
  x : R;
  z : R;
  placedHeight : R;
  score : option R
}.

Definition scoreOf (p : placement) : R :=
  match score p with Some s => s | None => 0 end.

(** [scoredCandidates.sort((a, b) => b.score - a.score)]: descending and
    stable. *)
Fixpoint insertByScore (p : placement) (sorted : list placement)
  : list placement :=
  match sorted with
  | [] => [p]
  | q :: rest =>
      if Rltb (scoreOf p) (scoreOf q) then q :: insertByScore p rest
      else p :: sorted
  end.

Fixpoint sortByScore (l : list placement) : list placement :=
  match l with
  | [] => []
  | p :: rest => insertByScore p (sortByScore rest)
  end.

(** The [map] that scores the candidates: one call of [rngStream.next()] per
    candidate, in order. *)
Fixpoint scoreCandidates (rng : nat -> R) (n : nat)
  (candidates : list Poisson.point) (elevation : list R) (width height : Z)
  (cellSize : R) : list placement :=
  match candidates with
  | [] => []
  | pos :: rest =>
      let h := getHeightAt (Poisson.px pos) (Poisson.py pos)
                           elevation width height cellSize in
      let midElevationScore := 1 - Rabs (h - 25) / 25 in
      let randomScore := rng n in
      let totalScore := midElevationScore * (7 / 10) + randomScore * (3 / 10) in
      mkPlacement (Poisson.px pos) (Poisson.py pos) h (Some totalScore)
        :: scoreCandidates rng (S n) rest elevation width height cellSize
  end.

Definition selectBestTreePositions (candidates : list Poisson.point)
  (targetCount : Z) (elevation : list R) (width height : Z) (cellSize : R)
  (rng : nat -> R) (n : nat) : list placement :=
  if (Z.of_nat (List.length candidates) <=? targetCount)%Z then
    map (fun pos =>
           mkPlacement (Poisson.px pos) (Poisson.py pos)
             (getHeightAt (Poisson.px pos) (Poisson.py pos)
                          elevation width height cellSize)
             None)
        candidates
  else
    firstn (Z.to_nat targetCount)
      (sortByScore
         (scoreCandidates rng n candidates elevation width height cellSize)).

(** The mask used for candidate generation and the count of its suitable
    cells: the strict mask, or the relaxed one when the strict mask has no
    suitable cell.  [None]: the relaxed mask is empty too and the function
    returns the empty array. *)
Definition chooseMask (terrainData : TerrainData) (config : TreeConfig)
  : option (list R * nat) :=
  let slopes := calculateSlopes (elevation terrainData) (width terrainData)
                  (height terrainData) (cellSize terrainData) in
  let suitabilityMask :=
    createTreeSuitabilityMask (elevation terrainData) slopes
      (width terrainData) (height terrainData) (seaLevel terrainData) config in
  let suitableCells := countSuitable suitabilityMask in
  match suitableCells with
  | S _ => Some (suitabilityMask, suitableCells)
  | O =>
      let relaxed := relaxedMask (elevation terrainData) slopes
                       (seaLevel terrainData) config
                       (List.length suitabilityMask) in
      let relaxedCount := countSuitable relaxed in
      match relaxedCount with
      | O => None
      | S _ => Some (relaxed, relaxedCount)
      end
  end.

(** [generateTreePositions(terrainData, config, rngStream)].  [rng n] is the
    value of the [n]-th call of [rngStream.next()]; [fuel] bounds the main
    loop of the sampler. *)
Definition generateTreePositions (terrainData : TerrainData)
  (config : TreeConfig) (rng : nat -> R) (fuel : nat)
  : outcome (list placement) :=
  match chooseMask terrainData config with
  | None => Ok []
  | Some (suitabilityMask, suitableCells) =>
    let forestPercentage := orElse (FOREST_PERCENTAGE config) 0 in
    if Rleb forestPercentage 0 then Ok []
    else
      let cellsPerTree := 3 in
      let targetForestCells := INR suitableCells * forestPercentage / 100 in
      let targetTreeCount := Zfloor (targetForestCells / cellsPerTree) in
      let mapWidth := IZR (width terrainData) * cellSize terrainData in
      let mapHeight := IZR (height terrainData) * cellSize terrainData in
      let minSpacing := orElse (TREE_MIN_SPACING config) 3 in
      st <- Poisson.run mapWidth mapHeight minSpacing rng 30
              (Some (suitabilityFn suitabilityMask (width terrainData)
                       (height terrainData) (cellSize terrainData)))
              fuel ;;
      Ok (selectBestTreePositions (Poisson.samples st) targetTreeCount
            (elevation terrainData) (width terrainData) (height terrainData)
            (cellSize terrainData) rng (Poisson.calls st))
  end.

(** [validateTreePositions]: the post-placement filter. *)
Definition validateTreePositions (positions : list placement)
  (elevation : list R) (width height : Z) (cellSize : R) (seaLevel : R)
  : list placement :=
  let beachHeight := seaLevel + 4 in
  flat_map (fun pos =>
    let h := getHeightAt (x pos) (z pos) elevation width height cellSize in
    if Rleb h seaLevel then []
    else if Rleb h beachHeight then []
    else [mkPlacement (x pos) (z pos) h (score pos)])
    positions.

(** ** Abbreviations used in the statements *)

(** The slopes and the two masks of a terrain record. *)
Definition slopesOf (t : TerrainData) : list R :=
  calculateSlopes (elevation t) (width t) (height t) (cellSize t).

Definition strictMaskOf (t : TerrainData) (config : TreeConfig) : list R :=
  createTreeSuitabilityMask (elevation t) (slopesOf t) (width t) (height t)
    (seaLevel t) config.

Definition relaxedMaskOf (t : TerrainData) (config : TreeConfig) : list R :=
  relaxedMask (elevation t) (slopesOf t) (seaLevel t) config
    (List.length (strictMaskOf t config)).

(** A terrain record of constant height, used as a test input. *)
Definition flatTerrain (h0 seaLevel : R) (width height : Z) (cellSize : R)
  : TerrainData :=
  mkTerrainData (repeat h0 (Z.to_nat (width * height))) seaLevel width height
                cellSize.

(** Test inputs: a strip of three cells at 1.5 m above a sea level of 0 with
    the default thresholds and full forest coverage, the stream "trees" of
    master seed 12345, and a single cell at 100 m with a beach buffer of
    0.5 m and a maximum slope of 50 degrees. *)
Definition lowStrip : TerrainData := flatTerrain (3 / 2) 0 3 1 1.
Definition defaultTrees : TreeConfig :=
  mkTreeConfig (Some 100) None None None None.
Definition treesStream : nat -> R := RNG.streamSequence 12345 "trees".
Definition highCell : TerrainData := flatTerrain 100 0 1 1 1.
Definition narrowTrees : TreeConfig :=
  mkTreeConfig (Some 25) None None (Some 50) (Some (1 / 2)).

End Trees.

(* ================================================================== *)
(** * terrainGeneratorV1_1.js: class TerrainGeneratorV1_1 *)
Module Generator.

Import Quantile.
Local Open Scope R_scope.

Record NoiseParams : Type := mkNoiseParams {
  octaves : Z;
  frequency : R;
  gain : R;
  lacunarity : R;
  amplitude : R
}.

(** The configuration record.  The fields of tree placement, among them
    FOREST_PERCENTAGE, are grouped in [TREES]. *)
Record Config : Type := mkConfig {
  SEED : Z;
  MAP_WIDTH : Z;
  MAP_HEIGHT : Z;
  CELL_SIZE : R;
  ELEVATION_SCALE : R;
  ELEVATION_CURVE : string;
  SEA_LEVEL : R;
  WATER_PERCENTAGE : R;
  WATER_EPSILON : R;
  WATER_TOLERANCE : R;
  LAKE_MIN_SPACING : R;
  LAKE_DEPTH_MIN : R;
  LAKE_DEPTH_MAX : R;
  LAKE_SHAPE_SQUARENESS : R;
  LAKE_EDGE_NOISE_AMP : R;
  NOISE_MACRO : NoiseParams;
  NOISE_MESO : NoiseParams;
  NOISE_MICRO : NoiseParams;
  NOISE_MOIST : NoiseParams;
  NOISE_TEMP : NoiseParams;
  TEMP_LAPSE_RATE : R;
  TEMP_LATITUDE_EFFECT : R;
  EROSION_ITERATIONS : Z;
  EROSION_STRENGTH : R;
  EROSION_DROPLET_COUNT : R;
  TREES : Trees.TreeConfig
}.

(** The configuration with FOREST_PERCENTAGE replaced. *)
Definition withForestPercentage (config : Config) (p : option R) : Config :=
  mkConfig (SEED config) (MAP_WIDTH config) (MAP_HEIGHT config)
    (CELL_SIZE config) (ELEVATION_SCALE config) (ELEVATION_CURVE config)
    (SEA_LEVEL config) (WATER_PERCENTAGE config) (WATER_EPSILON config)
    (WATER_TOLERANCE config) (LAKE_MIN_SPACING config) (LAKE_DEPTH_MIN config)
    (LAKE_DEPTH_MAX config) (LAKE_SHAPE_SQUARENESS config)
    (LAKE_EDGE_NOISE_AMP config) (NOISE_MACRO config) (NOISE_MESO config)
    (NOISE_MICRO config) (NOISE_MOIST config) (NOISE_TEMP config)
    (TEMP_LAPSE_RATE config) (TEMP_LATITUDE_EFFECT config)
    (EROSION_ITERATIONS config) (EROSION_STRENGTH config)
    (EROSION_DROPLET_COUNT config)
    (Trees.mkTreeConfig p
       (Trees.TREE_MIN_SPACING (TREES config))
       (Trees.TREE_MAX_HEIGHT (TREES config))
       (Trees.TREE_MAX_SLOPE (TREES config))
       (Trees.TREE_BEACH_BUFFER (TREES config))).

Record WaterCoverage : Type := mkWaterCoverage {
  target : R;
  actual : R;
  coverageError : R;
  validated : bool;
  solvedSeaLevel : R;
  solverMethod : string
}.

Record Invariants : Type := mkInvariants {
  waterCoverageMatch : bool;
  heightsValid : bool;
  seaLevelValid : bool
}.

(** [this.metrics]; [buildTime] maps a phase to its duration. *)
Record Metrics : Type := mkMetrics {
  buildTime : list (string * R);
  waterCoverage : option WaterCoverage;
  invariants : option Invariants
}.

(** The mutable part of a generator instance, together with the number of
    readings of the clock made so far. *)
Record Instance : Type := mkInstance {
  rng : RNG.MultiStreamRNG;
  metrics : Metrics;
  clockReads : nat
}.

(** The record returned by [generate()].  The biome and splat-weight arrays
    (phases 5 and 6, which only read the other arrays) are left out. *)
Record TerrainData : Type := mkTerrainData {
  elevation : list R;
  seaLevel : R;
  moisture : list R;
  temperature : list R;
  width : Z;
  height : Z;
  cellSize : R;
  outMetrics : Metrics;
  subSeeds : list (string * Z);
  rngStates : list (string * Z)
}.

Section Pipeline.

(** Numeric kernels of other modules, each a function of the arguments the
    generator passes to it: noise.js [generateNoiseField(width, height, seed,
    params)], elevationCurve.js [getPreset(name).evaluate(x)], [Math.pow],
    and erosion.js [new HydraulicErosion(width, height).erode(heightField,
    iterations, strength)] as the contents of [heightField] after the call. *)
Variable generateNoiseField : Z -> Z -> Z -> NoiseParams -> list R.
Variable curveEvaluate : string -> R -> R.
Variable Math_pow : R -> R -> R.
Variable erode : Z -> Z -> list R -> Z -> R -> list R.

(** [performance_now n] is the reading of the clock at its [n]-th call. *)
Variable performance_now : nat -> R.

Variable config : Config.

Definition now (g : Instance) : R * Instance :=
  (performance_now (clockReads g),
   mkInstance (rng g) (metrics g) (S (clockReads g))).

Definition setBuildTime (phase : string) (t : R) (g : Instance) : Instance :=
  mkInstance (rng g)
    (mkMetrics (RNG.store phase t (buildTime (metrics g)))
               (waterCoverage (metrics g)) (invariants (metrics g)))
    (clockReads g).

Definition withRng (m : RNG.MultiStreamRNG) (g : Instance) : Instance :=
  mkInstance m (metrics g) (clockReads g).

(** [new TerrainGeneratorV1_1(config)] *)
Definition newInstance : Instance :=
  mkInstance (RNG.MultiStreamRNG_new (SEED config)) (mkMetrics [] None None) O.

(** [for (i...) elevation[i] += band[i] * weight] *)
Definition addBand (elevation band : list R) (weight : R) : list R :=
  map (fun i => Trees.get elevation i + Trees.get band i * weight)
      (Trees.indexes (Z.of_nat (List.length elevation))).

(** [_normalizeArray(arr)] *)
Definition normalizeArray (arr : list R) : list R :=
  match arr with
  | [] => arr
  | x :: rest =>
      let min := fold_left Rmin rest x in
      let max := fold_left Rmax rest x in
      let range := max - min in
      if Rltb 0 range then map (fun v => (v - min) / range) arr else arr
  end.

(** One band of noise: drawn only when its amplitude is positive. *)
Definition addNoiseBand (params : NoiseParams) (acc : list R * Instance)
  : list R * Instance :=
  let (elevation, g) := acc in
  if Rltb 0 (amplitude params) then
    let (seed, m) := RNG.streamNextInt "terrain" 0 1000000 (rng g) in
    let band := generateNoiseField (MAP_WIDTH config) (MAP_HEIGHT config)
                                   seed params in
    (addBand elevation band (amplitude params), withRng m g)
  else (elevation, g).

(** The integers [lo, lo+1, ..., hi]. *)
Definition range (lo hi : Z) : list Z :=
  map (fun k => (lo + Z.of_nat k)%Z) (seq 0 (Z.to_nat (hi - lo + 1))).

(** [_carveLake]: the body of the two loops at cell [(xi, yi)].  The state is
    the height field, the generator of the lakes stream and the count of
    carved cells.  With a zero radius or a zero squareness [dist] is Infinity
    or NaN and the test [dist < 1.0] fails. *)
Definition carveCell (cx cy : Z) (radiusX radiusY depth : R) (xi yi : Z)
  (st : list R * RNG.LCG * nat) : list R * RNG.LCG * nat :=
  let '(elevation, lcg, cellsCarved) := st in
  let squareness := LAKE_SHAPE_SQUARENESS config in
  let seaLevelEst := SEA_LEVEL config in
  let dx := IZR (xi - cx) in
  let dy := IZR (yi - cy) in
  if Reqb radiusX 0 || Reqb radiusY 0 || Reqb squareness 0 then st
  else
    let distX := Rabs dx / radiusX in
    let distY := Rabs dy / radiusY in
    let dist := Math_pow (Math_pow distX squareness + Math_pow distY squareness)
                         (1 / squareness) in
    if Rltb dist 1 then
      let idx := (yi * MAP_WIDTH config + xi)%Z in
      let falloff := cos (dist * PI / 2) in
      let (r, lcg') := RNG.next lcg in
      let edgeNoise := (r - 1 / 2) * LAKE_EDGE_NOISE_AMP config in
      let depthBelowSea := depth * Rmax 0 (falloff + edgeNoise) in
      let targetHeight := Rmax 0 (seaLevelEst - depthBelowSea) in
      if Rltb targetHeight (Trees.get elevation idx)
      then (Poisson.setItem elevation (Z.to_nat idx) targetHeight, lcg',
            S cellsCarved)
      else (elevation, lcg', cellsCarved)
    else st.

Definition carveLake (elevation : list R) (cx cy : Z)
  (radiusX radiusY depth : R) (lcg : RNG.LCG) : list R * RNG.LCG * nat :=
  let minY := Z.max 0 (Zfloor (IZR cy - radiusY * 2)) in
  let maxY := Z.min (MAP_HEIGHT config - 1) (Zceil (IZR cy + radiusY * 2)) in
  let minX := Z.max 0 (Zfloor (IZR cx - radiusX * 2)) in
  let maxX := Z.min (MAP_WIDTH config - 1) (Zceil (IZR cx + radiusX * 2)) in
  fold_left (fun st yi =>
     fold_left (fun st xi => carveCell cx cy radiusX radiusY depth xi yi st)
               (range minX maxX) st)
     (range minY maxY) (elevation, lcg, O).

(** The loop over the lake centers. *)
Definition carveLakes (avgRadius : R) (centers : list Poisson.point)
  (elevation : list R) (lcg : RNG.LCG) : list R * RNG.LCG :=
  fold_left (fun (st : list R * RNG.LCG) center =>
     let (elevation, lcg) := st in
     let cx := Zfloor (Poisson.px center) in
     let cy := Zfloor (Poisson.py center) in
     let (r1, lcg1) := RNG.next lcg in
     let sizeVariation := 7 / 10 + r1 * (6 / 10) in
     let radiusX := avgRadius * sizeVariation in
     let radiusY := avgRadius * sizeVariation in
     let depthRange := LAKE_DEPTH_MAX config - LAKE_DEPTH_MIN config in
     let (r2, lcg2) := RNG.next lcg1 in
     let depth := LAKE_DEPTH_MIN config + r2 * depthRange in
     let '(elevation', lcg3, _) :=
       carveLake elevation cx cy radiusX radiusY depth lcg2 in
     (elevation', lcg3))
    centers (elevation, lcg).

(** [_addLakes(elevation)] *)
Definition addLakes (fuel : nat) (elevation : list R) (g : Instance)
  : outcome (list R * Instance) :=
  if Rleb (WATER_PERCENTAGE config) 0 then Ok (elevation, g)
  else
    let (start, g) := now g in
    let m := RNG.getStream "lakes" (rng g) in
    let lakesRng := RNG.streamOf "lakes" m in
    let totalCells := IZR (MAP_WIDTH config * MAP_HEIGHT config) in
    let targetWaterCells :=
      Zfloor (WATER_PERCENTAGE config / 100 * totalCells) in
    st <- Poisson.run (IZR (MAP_WIDTH config)) (IZR (MAP_HEIGHT config))
            (LAKE_MIN_SPACING config) (RNG.nthNext lakesRng) 30 None fuel ;;
    let lakeCenters := Poisson.samples st in
    let lakesRng := RNG.advance lakesRng (Poisson.calls st) in
    match lakeCenters with
    | [] => Ok (elevation, withRng (RNG.setStream "lakes" lakesRng m) g)
    | _ :: _ =>
        let cellsPerLake :=
          Zfloor (IZR targetWaterCells / INR (List.length lakeCenters)) in
        let avgRadius := sqrt (IZR cellsPerLake / PI) in
        let (elevation', lakesRng') :=
          carveLakes avgRadius lakeCenters elevation lakesRng in
        let g := withRng (RNG.setStream "lakes" lakesRng' m) g in
        let (stop, g) := now g in
        Ok (elevation', setBuildTime "lakes" (stop - start) g)
    end.

(** Phase 1: [_generateElevation()] *)
Definition generateElevation (fuel : nat) (g : Instance)
  : outcome (list R * Instance) :=
  let (start, g) := now g in
  let g := withRng (RNG.getStream "terrain" (rng g)) g in
  let elevation := repeat 0 (Z.to_nat (MAP_WIDTH config * MAP_HEIGHT config)) in
  let acc := addNoiseBand (NOISE_MACRO config) (elevation, g) in
  let acc := addNoiseBand (NOISE_MESO config) acc in
  let (elevation, g) := addNoiseBand (NOISE_MICRO config) acc in
  let elevation := normalizeArray elevation in
  let elevation :=
    map (fun e => Rmin 1 (Rmax 0 (Math_pow e (9 / 10)))) elevation in
  let elevation := map (curveEvaluate (ELEVATION_CURVE config)) elevation in
  r <- addLakes fuel elevation g ;;
  let (elevation, g) := (r : list R * Instance) in
  let elevation := map (fun e => e * ELEVATION_SCALE config) elevation in
  let (stop, g) := now g in
  Ok (elevation, setBuildTime "elevation" (stop - start) g).

(** Phase 2: [_applyErosion(elevation)] *)
Definition applyErosion (elevation : list R) (g : Instance)
  : list R * Instance :=
  let (start, g) := now g in
  let g := withRng (RNG.getStream "erosion" (rng g)) g in
  let elevation := erode (MAP_WIDTH config) (MAP_HEIGHT config) elevation
                         (EROSION_ITERATIONS config) (EROSION_STRENGTH config) in
  let (stop, g) := now g in
  (elevation, setBuildTime "erosion" (stop - start) g).

(** Phase 3: [_solveSeaLevel(elevation)]; the second component is the height
    field after the call. *)
Definition solveSeaLevelPhase (elevation : list R) (g : Instance)
  : outcome (SeaLevelResult * list R * Instance) :=
  let (start, g) := now g in
  r <- solveSeaLevel elevation (WATER_PERCENTAGE config) (WATER_EPSILON config) ;;
  let (result, elevation) := (r : SeaLevelResult * list R) in
  validation <- validateWaterCoverage elevation (Quantile.seaLevel result)
                  (WATER_PERCENTAGE config) (WATER_TOLERANCE config) ;;
  let coverage :=
    mkWaterCoverage (WATER_PERCENTAGE config) (actualPercentage result)
      (error validation) (passed validation) (Quantile.seaLevel result)
      (method result) in
  let g := mkInstance (rng g)
             (mkMetrics (buildTime (metrics g)) (Some coverage)
                        (invariants (metrics g)))
             (clockReads g) in
  let (stop, g) := now g in
  Ok (result, elevation, setBuildTime "seaLevel" (stop - start) g).

(** Phase 4a: [_generateMoisture()] *)
Definition generateMoisture (g : Instance) : list R * Instance :=
  let (start, g) := now g in
  let m := RNG.getStream "moisture" (rng g) in
  let (seed, m) := RNG.streamNextInt "moisture" 0 1000000 m in
  let moisture := generateNoiseField (MAP_WIDTH config) (MAP_HEIGHT config)
                                     seed (NOISE_MOIST config) in
  let (stop, g) := now (withRng m g) in
  (moisture, setBuildTime "moisture" (stop - start) g).

(** Phase 4b: [_generateTemperature(elevation, seaLevel)] *)
Definition generateTemperature (elevation : list R) (seaLevel : R)
  (g : Instance) : list R * Instance :=
  let (start, g) := now g in
  let m := RNG.getStream "temperature" (rng g) in
  let (seed, m) := RNG.streamNextInt "temperature" 0 1000000 m in
  let temperature := generateNoiseField (MAP_WIDTH config) (MAP_HEIGHT config)
                                        seed (NOISE_TEMP config) in
  let temperature :=
    map (fun i =>
           let heightAboveSeaLevel := Rmax 0 (Trees.get elevation i - seaLevel) in
           Trees.get temperature i + heightAboveSeaLevel * TEMP_LAPSE_RATE config)
        (Trees.indexes (Z.of_nat (List.length temperature))) in
  let temperature :=
    if Rltb 0 (TEMP_LATITUDE_EFFECT config) then
      map (fun i =>
             let y := (i / MAP_WIDTH config)%Z in
             let latitudeFactor :=
               Rabs (IZR y / IZR (MAP_HEIGHT config) - 1 / 2) * 2 in
             let tempAdjust := - latitudeFactor * TEMP_LATITUDE_EFFECT config in
             Trees.get temperature i + tempAdjust)
          (Trees.indexes (Z.of_nat (List.length temperature)))
    else temperature in
  let temperature := normalizeArray temperature in
  let (stop, g) := now (withRng m g) in
  (temperature, setBuildTime "temperature" (stop - start) g).

(** Phases 5 and 6 read the arrays and the clock. *)
Definition timedPhase (phase : string) (g : Instance) : Instance :=
  let (start, g) := now g in
  let (stop, g) := now g in
  setBuildTime phase (stop - start) g.

(** [_calculateMetrics(elevation, seaLevelData)] *)
Definition calculateMetrics (elevation : list R) (seaLevelData : SeaLevelResult)
  (g : Instance) : Instance :=
  let min := match elevation with
             | [] => 0 | x :: rest => fold_left Rmin rest x end in
  let max := match elevation with
             | [] => 0 | x :: rest => fold_left Rmax rest x end in
  let inv :=
    mkInvariants
      (Rleb (Rabs (actualPercentage seaLevelData - WATER_PERCENTAGE config))
            (WATER_TOLERANCE config))
      (Rleb 0 min && Rleb max (ELEVATION_SCALE config))
      (Rleb 0 (Quantile.seaLevel seaLevelData)
       && Rleb (Quantile.seaLevel seaLevelData) (ELEVATION_SCALE config)) in
  mkInstance (rng g)
    (mkMetrics (buildTime (metrics g)) (waterCoverage (metrics g)) (Some inv))
    (clockReads g).

(** [generate()] on the instance [g]. *)
Definition generateOn (fuel : nat) (g : Instance) : outcome TerrainData :=
  let (totalStart, g) := now g in
  r <- generateElevation fuel g ;;
  let (elevation, g) := (r : list R * Instance) in
  let (elevation, g) :=
    if (0 <? EROSION_ITERATIONS config)%Z then applyErosion elevation g
    else (elevation, g) in
  r <- solveSeaLevelPhase elevation g ;;
  let '(seaLevelData, elevation, g) := r in
  let (moisture, g) := generateMoisture g in
  let (temperature, g) :=
    generateTemperature elevation (Quantile.seaLevel seaLevelData) g in
  let g := timedPhase "biomes" g in
  let g := timedPhase "splatWeights" g in
  let g := calculateMetrics elevation seaLevelData g in
  let (stop, g) := now g in
  let g := setBuildTime "total" (stop - totalStart) g in
  Ok (mkTerrainData elevation (Quantile.seaLevel seaLevelData) moisture
        temperature (MAP_WIDTH config) (MAP_HEIGHT config) (CELL_SIZE config)
        (metrics g) (RNG.subSeeds (rng g))
        (map (fun kv => (fst kv, RNG.state (snd kv))) (RNG.streams (rng g)))).

(** [new TerrainGeneratorV1_1(config).generate()] *)
Definition generate (fuel : nat) : outcome TerrainData :=
  generateOn fuel newInstance.

End Pipeline.

(** ** Test inputs *)

(** The default configuration of config.js. *)
Definition DEFAULT_CONFIG : Config :=
  mkConfig 12345 128 128 1 80 "SHARP_ALPS" (35 / 100) 15 (1 / 100) (1 / 10)
    15 (5 / 100) (15 / 100) 2 (15 / 100)
    (mkNoiseParams 2 (3 / 1000) (6 / 10) 2 (45 / 100))
    (mkNoiseParams 3 (1 / 100) (4 / 10) 2 (45 / 100))
    (mkNoiseParams 4 (4 / 100) (35 / 100) 2 (20 / 100))
    (mkNoiseParams 2 (15 / 1000) (3 / 10) 2 0)
    (mkNoiseParams 2 (8 / 1000) (4 / 10) 2 0)
    (- (6 / 1000)) (3 / 10) 20 (15 / 100) 5000
    (Trees.mkTreeConfig (Some 25) (Some 3) (Some 60) (Some 35) (Some 2)).

(** Kernels of the right shape for running the pipeline on a test input: a
    constant noise field, the identity curve, a power function that ignores
    the exponent, and an erosion that changes nothing. *)
Definition constantNoise (width height seed : Z) (params : NoiseParams)
  : list R := repeat (1 / 2) (Z.to_nat (width * height)).
Definition identityCurve (name : string) (x : R) : R := x.
Definition basePower (x y : R) : R := x.
Definition noErosion (width height : Z) (heightField : list R)
  (iterations : Z) (strength : R) : list R := heightField.

(** Two clocks. *)
Definition stoppedClock (n : nat) : R := 0.
Definition tickingClock (n : nat) : R := INR n.

End Generator.

(* ================================================================== *)
(** * quantile.js: the histogram, the raise step and the statistics *)
Module Histogram.

Import Quantile.
Local Open Scope R_scope.

(** [raiseTerrainAboveSeaLevel(elevationData, seaLevel, epsilon)]: the
    contents of [elevationData] after the call and the returned count. *)
Definition raiseTerrainAboveSeaLevel (elevationData : list R)
  (seaLevel epsilon : R) : list R * nat :=
  let targetHeight := seaLevel + epsilon in
  raiseLoop targetHeight elevationData.

Record TerrainStats : Type := mkTerrainStats {
  statsMin : R;
  statsMax : R;
  mean : R;
  stdDev : R;
  variance : R;
  statsRange : R
}.

(** [calculateTerrainStats(elevationData)].  On the empty array the minimum
    is Infinity and the mean is NaN; the square root of a negative variance
    is NaN. *)
Definition calculateTerrainStats (elevationData : list R)
  : outcome TerrainStats :=
  match elevationData with
  | [] => NotFinite
  | first :: rest =>
      let min := fold_left Rmin rest first in
      let max := fold_left Rmax rest first in
      let sum := fold_left Rplus elevationData 0 in
      let sumSquares := fold_left (fun s h => s + h * h) elevationData 0 in
      let n := INR (List.length elevationData) in
      let mean := sum / n in
      let variance := sumSquares / n - mean * mean in
      if Rltb variance 0 then NotFinite
      else Ok (mkTerrainStats min max mean (sqrt variance) variance (max - min))
  end.

Record HeightHistogram : Type := mkHeightHistogram {
  bins : list nat;
  cdf : list nat;
  cdfPercent : list R;
  binWidth : R;
  minHeight : R;
  maxHeight : R;
  binCount : nat
}.

(** The index computed for a cell; [None] when it is NaN or -Infinity, which
    happens only with a bin width of 0. *)
Definition binIndex (binCount : nat) (minHeight binWidth height : R)
  : option Z :=
  if Reqb binWidth 0 then
    if Rltb minHeight height then Some (Z.of_nat binCount - 1)%Z else None
  else
    Some (Z.min (Z.of_nat binCount - 1)
                (Zfloor ((height - minHeight) / binWidth))).

(** [bins[i]++] for an index inside the array. *)
Fixpoint bump (bins : list nat) (i : nat) : list nat :=
  match bins, i with
  | [], _ => []
  | c :: rest, O => S c :: rest
  | c :: rest, S j => c :: bump rest j
  end.

(** [bins[binIndex]++]: an index that is negative or not a number names a
    property of the array object and leaves the bins as they are; the index
    is never beyond the last bin. *)
Definition countCell (bins : list nat) (index : option Z) : list nat :=
  match index with
  | Some i => if (i <? 0)%Z then bins else bump bins (Z.to_nat i)
  | None => bins
  end.

(** The cumulative counts [cdf[i] = cdf[i - 1] + bins[i]]. *)
Fixpoint runningTotal (previous : nat) (bins : list nat) : list nat :=
  match bins with
  | [] => []
  | b :: rest => (previous + b)%nat :: runningTotal (previous + b) rest
  end.

(** [createHeightHistogram(elevationData, binCount, minHeight, maxHeight)];
    [None] is the default [null] of a bound.  Without bins the bin width is
    not finite, and without cells the percentages are NaN. *)
Definition createHeightHistogram (elevationData : list R) (binCount : nat)
  (minHeight maxHeight : option R) : outcome HeightHistogram :=
  minHeight <- match minHeight with
               | Some v => Ok v
               | None => Math_min elevationData
               end ;;
  maxHeight <- match maxHeight with
               | Some v => Ok v
               | None => Math_max elevationData
               end ;;
  match binCount, elevationData with
  | O, _ => NotFinite
  | _, [] => NotFinite
  | S _, _ :: _ =>
      let binWidth := (maxHeight - minHeight) / INR binCount in
      let bins :=
        fold_left (fun bins height =>
                     countCell bins (binIndex binCount minHeight binWidth height))
                  elevationData (repeat O binCount) in
      let cdf := runningTotal 0 bins in
      let totalCells := INR (List.length elevationData) in
      let cdfPercent := map (fun count => INR count / totalCells * 100) cdf in
      Ok (mkHeightHistogram bins cdf cdfPercent binWidth minHeight maxHeight
                            binCount)
  end.

(** The loop of [seaLevelFromHistogram] from bin [i] on, with [n] bins left.
    A percentage read outside [cdfPercent] is [undefined]: the test on it
    fails, and the interpolation from it is NaN. *)
Fixpoint scanBins (histogram : HeightHistogram) (targetPercentage : R)
  (n i : nat) : outcome R :=
  match n with
  | O => Ok (maxHeight histogram)
  | S n' =>
      match nth_error (cdfPercent histogram) i with
      | Some current =>
          if Rleb targetPercentage current then
            let binStart := minHeight histogram + INR i * binWidth histogram in
            match i with
            | O => Ok binStart
            | S j =>
                match nth_error (cdfPercent histogram) j with
                | Some prevPercent =>
                    if Reqb (current - prevPercent) 0 then NotFinite
                    else
                      let weight := (targetPercentage - prevPercent)
                                    / (current - prevPercent) in
                      Ok (binStart + weight * binWidth histogram)
                | None => NotFinite
                end
            end
          else scanBins histogram targetPercentage n' (S i)
      | None => scanBins histogram targetPercentage n' (S i)
      end
  end.

(** [seaLevelFromHistogram(histogram, targetPercentage)] *)
Definition seaLevelFromHistogram (histogram : HeightHistogram)
  (targetPercentage : R) : outcome R :=
  scanBins histogram targetPercentage (binCount histogram) 0.

End Histogram.

(* ================================================================== *)
(** * poisson.js: stratified sampling and the validation of a sample set *)
Module Distribution.

Import Quantile Poisson.
Local Open Scope R_scope.

Section Stratified.

Variables width height minDistance : R.
(** [rng n] is the value returned by the [n]-th call of [rng]. *)
Variable rng : nat -> R.
Variable strataCount : nat.
Variable suitabilityMask : option (R -> R -> bool).

Definition strataWidth : R := width / INR strataCount.
Definition strataHeight : R := height / INR strataCount.

(** The strata in the order of the two loops: [sy] outside, [sx] inside. *)
Definition strata : list (nat * nat) :=
  flat_map (fun sy => map (fun sx => (sx, sy)) (seq 0 strataCount))
           (seq 0 strataCount).

(** The body of the inner loop for the stratum [(sx, sy)].  The state is
    [allSamples] and the number of calls made to [rng] so far: the sampler
    of a stratum goes on drawing where the previous one stopped. *)
Definition sampleStratum (fuel : nat) (stratum : nat * nat)
  (acc : list point * nat) : outcome (list point * nat) :=
  let (sx, sy) := stratum in
  let (allSamples, drawn) := acc in
  let offsetX := INR sx * strataWidth in
  let offsetY := INR sy * strataHeight in
  let localMask :=
    match suitabilityMask with
    | Some mask => Some (fun x y => mask (x + offsetX) (y + offsetY))
    | None => None
    end in
  st <- run strataWidth strataHeight minDistance (fun n => rng (drawn + n)%nat)
          30 localMask fuel ;;
  Ok (allSamples
        ++ map (fun sample => mkPoint (px sample + offsetX)
                                      (py sample + offsetY))
               (samples st),
      (drawn + calls st)%nat).

Fixpoint strataLoop (fuel : nat) (cells : list (nat * nat))
  (acc : list point * nat) : outcome (list point * nat) :=
  match cells with
  | [] => Ok acc
  | stratum :: rest =>
      r <- sampleStratum fuel stratum acc ;; strataLoop fuel rest r
  end.

(** [stratifiedPoissonSampling(width, height, minDistance, rng, strataCount,
    suitabilityMask)]; [fuel] bounds the main loop of each sampler. *)
Definition stratifiedPoissonSampling (fuel : nat) : outcome (list point) :=
  r <- strataLoop fuel strata ([], O) ;; Ok (fst r).

End Stratified.

Record DistributionReport : Type := mkDistributionReport {
  sampleCount : nat;
  (** [None] is Infinity: no pair of samples was measured. *)
  minObservedDist : option R;
  violations : nat;
  density : R;
  theoreticalMaxDensity : R;
  efficiency : R
}.

(** The distances computed by the two loops over the pairs [i < j], in the
    order of the loops. *)
Fixpoint pairDistances (samples : list point) : list R :=
  match samples with
  | [] => []
  | p :: rest =>
      map (fun q =>
             let dx := px p - px q in
             let dy := py p - py q in
             sqrt (dx * dx + dy * dy))
          rest
      ++ pairDistances rest
  end.

(** [if (dist < minObservedDist) minObservedDist = dist] *)
Definition observe (minObservedDist : option R) (dist : R) : option R :=
  match minObservedDist with
  | None => Some dist
  | Some m => if Rltb dist m then Some dist else Some m
  end.

(** [validatePoissonDistribution(samples, minDistance, width, height)].  The
    density is not finite on a domain of area 0, and the theoretical maximum
    is not finite for a minimum distance of 0. *)
Definition validatePoissonDistribution (samples : list point)
  (minDistance width height : R) : outcome DistributionReport :=
  let distances := pairDistances samples in
  let minObservedDist := fold_left observe distances None in
  let violations :=
    count (fun dist => Rltb dist (minDistance - 1 / 1000)) distances in
  if Reqb (width * height) 0 || Reqb minDistance 0 then NotFinite
  else
    let density := INR (List.length samples) / (width * height) in
    let theoreticalMax := 1 / (PI * (minDistance / 2) ^ 2) in
    Ok (mkDistributionReport (List.length samples) minObservedDist violations
          density theoreticalMax (density / theoreticalMax)).

End Distribution.

(* ================================================================== *)
(** * elevationCurve.js *)
Module Curve.

Import Quantile.
Local Open Scope R_scope.

Record controlPoint : Type := mkControlPoint { x : R; y : R }.

(** [points.sort((a, b) => a.x - b.x)]: ascending in [x] and stable. *)
Fixpoint insertByX (p : controlPoint) (sorted : list controlPoint)
  : list controlPoint :=
  match sorted with
  | [] => [p]
  | q :: rest =>
      if Rltb (x q) (x p) then q :: insertByX p rest else p :: sorted
  end.

Fixpoint sortByX (points : list controlPoint) : list controlPoint :=
  match points with
  | [] => []
  | p :: rest => insertByX p (sortByX rest)
  end.

(** [class PiecewiseLinearCurve]: the object is its [points] field.  The
    constructor sorts the points and reads the first one. *)
Definition PiecewiseLinearCurve : Type := list controlPoint.

Definition PiecewiseLinearCurve_new (points : list controlPoint)
  : outcome PiecewiseLinearCurve :=
  match points with
  | [] => Throws
  | _ :: _ => Ok (sortByX points)
  end.

(** The loop of [evaluate] over the segments, and the return after it. *)
Fixpoint segments (points : list controlPoint) (v : R) : outcome R :=
  match points with
  | [] => Throws
  | p0 :: rest =>
      match rest with
      | [] => Ok (y p0)
      | p1 :: _ =>
          if Rleb (x p0) v && Rleb v (x p1) then
            if Reqb (x p1 - x p0) 0 then NotFinite
            else
              let t := (v - x p0) / (x p1 - x p0) in
              Ok (y p0 + t * (y p1 - y p0))
          else segments rest v
      end
  end.

(** [evaluate(x)] *)
Definition evaluate (curve : PiecewiseLinearCurve) (v : R) : outcome R :=
  segments curve (Rmax 0 (Rmin 1 v)).

(** [applyToArray(input, output)]: the contents of [output] after the call. *)
Fixpoint applyToArray (curve : PiecewiseLinearCurve) (input : list R)
  : outcome (list R) :=
  match input with
  | [] => Ok []
  | v :: rest =>
      w <- evaluate curve v ;;
      ws <- applyToArray curve rest ;;
      Ok (w :: ws)
  end.

Definition TERRACED_RTS : PiecewiseLinearCurve :=
  [mkControlPoint 0 0; mkControlPoint (4 / 10) (2 / 10);
   mkControlPoint (6 / 10) (4 / 10); mkControlPoint (8 / 10) (7 / 10);
   mkControlPoint 1 1].
Definition ROLLING_HILLS : PiecewiseLinearCurve :=
  [mkControlPoint 0 (1 / 10); mkControlPoint (3 / 10) (3 / 10);
   mkControlPoint (7 / 10) (6 / 10); mkControlPoint 1 (95 / 100)].
Definition SHARP_ALPS : PiecewiseLinearCurve :=
  [mkControlPoint 0 0; mkControlPoint (5 / 10) (3 / 10);
   mkControlPoint (7 / 10) (5 / 10); mkControlPoint (9 / 10) (8 / 10);
   mkControlPoint 1 1].
Definition FLATLANDS : PiecewiseLinearCurve :=
  [mkControlPoint 0 (25 / 100); mkControlPoint (7 / 10) (35 / 100);
   mkControlPoint (9 / 10) (5 / 10); mkControlPoint 1 (7 / 10)].
Definition VOLCANIC : PiecewiseLinearCurve :=
  [mkControlPoint 0 0; mkControlPoint (3 / 10) (1 / 10);
   mkControlPoint (4 / 10) (4 / 10); mkControlPoint (7 / 10) (5 / 10);
   mkControlPoint (9 / 10) (7 / 10); mkControlPoint 1 1].
Definition CANYONS : PiecewiseLinearCurve :=
  [mkControlPoint 0 0; mkControlPoint (2 / 10) (5 / 100);
   mkControlPoint (3 / 10) (5 / 10); mkControlPoint (8 / 10) (55 / 100);
   mkControlPoint 1 (6 / 10)].
Definition LINEAR : PiecewiseLinearCurve :=
  [mkControlPoint 0 0; mkControlPoint 1 1].

(** The own properties of the object [ELEVATION_PRESETS]. *)
Definition ELEVATION_PRESETS : list (string * PiecewiseLinearCurve) :=
  [("TERRACED_RTS"%string, TERRACED_RTS); ("ROLLING_HILLS"%string, ROLLING_HILLS);
   ("SHARP_ALPS"%string, SHARP_ALPS); ("FLATLANDS"%string, FLATLANDS);
   ("VOLCANIC"%string, VOLCANIC); ("CANYONS"%string, CANYONS);
   ("LINEAR"%string, LINEAR)].

(** The properties that a plain object inherits from [Object.prototype]:
    [ELEVATION_PRESETS[name]] is truthy for them, and is not a curve. *)
Definition inheritedKeys : list string :=
  ["constructor"; "__proto__"; "hasOwnProperty"; "isPrototypeOf";
   "propertyIsEnumerable"; "toLocaleString"; "toString"; "valueOf";
   "__defineGetter__"; "__defineSetter__"; "__lookupGetter__";
   "__lookupSetter__"]%string.

(** [getPreset(name)]; [None] is a value that is not a curve. *)
Definition getPreset (name : string) : option PiecewiseLinearCurve :=
  match RNG.lookup name ELEVATION_PRESETS with
  | Some preset => Some preset
  | None =>
      if existsb (String.eqb name) inheritedKeys then None else Some LINEAR
  end.

(** [getPreset(name).evaluate(v)] where it is a number. *)
Definition presetEvaluate (name : string) (v : R) : R :=
  match getPreset name with
  | Some curve => match evaluate curve v with Ok w => w | _ => 0 end
  | None => 0
  end.

(** [applyElevationCurve(noiseData, curve)] for a preset name; a value that
    is not a curve has no method [applyToArray]. *)
Definition applyElevationCurve (noiseData : list R) (name : string)
  : outcome (list R) :=
  match getPreset name with
  | Some curve => applyToArray curve noiseData
  | None => Throws
  end.

(** [generateCurvePreview(curve, sampleCount)] for a curve object: the
    samples at [i / sampleCount] for [i = 0 .. sampleCount]. *)
Fixpoint previewFrom (curve : PiecewiseLinearCurve) (sampleCount : nat)
  (i n : nat) : outcome (list (R * R)) :=
  match n with
  | O => Ok []
  | S n' =>
      match sampleCount with
      | O => NotFinite (* 0 / 0 *)
      | S _ =>
          let v := INR i / INR sampleCount in
          w <- evaluate curve v ;;
          rest <- previewFrom curve sampleCount (S i) n' ;;
          Ok ((v, w) :: rest)
      end
  end.

Definition generateCurvePreview (curve : PiecewiseLinearCurve)
  (sampleCount : nat) : outcome (list (R * R)) :=
  previewFrom curve sampleCount 0 (S sampleCount).

End Curve.

(* ================================================================== *)
(** * erosion.js: class HydraulicErosion *)
Module Erosion.

Import Quantile.
Local Open Scope R_scope.

(** The methods are modelled on a height field of [width * height] cells,
    as the generator passes it: every read of [heights] and of [flow] is
    then inside the array. *)
Section HydraulicErosion.

(** [this.width] and [this.height] *)
Variables width height : Z.

Record cell : Type := mkCell { cellX : Z; cellY : Z; cellHeight : R }.

(** The list [cells] in row order. *)
Definition cellsOf (heights : list R) : list cell :=
  flat_map (fun y =>
    map (fun x => mkCell x y (Trees.get heights (y * width + x)))
        (Trees.indexes width))
    (Trees.indexes height).

(** [cells.sort((a, b) => b.height - a.height)]: descending and stable. *)
Fixpoint insertByHeight (c : cell) (sorted : list cell) : list cell :=
  match sorted with
  | [] => [c]
  | q :: rest =>
      if Rltb (cellHeight c) (cellHeight q) then q :: insertByHeight c rest
      else c :: sorted
  end.

Fixpoint sortByHeight (cells : list cell) : list cell :=
  match cells with
  | [] => []
  | c :: rest => insertByHeight c (sortByHeight rest)
  end.

(** The eight directions [(dx, dy)] in the order of the two loops. *)
Definition directions : list (Z * Z) :=
  [(-1, -1); (0, -1); (1, -1); (-1, 0); (1, 0); (-1, 1); (0, 1); (1, 1)]%Z.

(** The search of the lowest neighbor of a cell: [lowestNeighbor] and
    [lowestHeight] after the two loops. *)
Definition lowestNeighbor (heights : list R) (c : cell) : option Z * R :=
  fold_left (fun (st : option Z * R) (d : Z * Z) =>
     let nx := (cellX c + fst d)%Z in
     let ny := (cellY c + snd d)%Z in
     if ((0 <=? nx) && (nx <? width) && (0 <=? ny) && (ny <? height))%Z then
       let nIdx := (ny * width + nx)%Z in
       if Rltb (Trees.get heights nIdx) (snd st)
       then (Some nIdx, Trees.get heights nIdx)
       else st
     else st)
    directions (None, cellHeight c).

(** [_calculateFlow(heights, flow)]: the contents of [flow] after the call. *)
Definition calculateFlow (heights : list R) : list R :=
  fold_left (fun flow c =>
     let idx := (cellY c * width + cellX c)%Z in
     match fst (lowestNeighbor heights c) with
     | Some n =>
         Poisson.setItem flow (Z.to_nat n)
           (Trees.get flow n + Trees.get flow idx)
     | None => flow
     end)
    (sortByHeight (cellsOf heights))
    (repeat 1 (Z.to_nat (width * height))).

(** [_normalize(arr)] *)
Definition normalize (arr : list R) : list R :=
  match arr with
  | [] => arr
  | first :: rest =>
      let min := fold_left (fun m v => if Rltb v m then v else m) rest first in
      let max := fold_left (fun m v => if Rltb m v then v else m) rest first in
      let range := max - min in
      if Rltb 0 range then map (fun v => (v - min) / range) arr else arr
  end.

(** [_applyErosion(heights, flow, strength)].  The flow of a cell is at
    least 1 and the largest flow is positive, so that the normalized flow is
    positive and its power 0.5 is its square root. *)
Definition applyErosion (heights flow : list R) (strength : R) : list R :=
  match flow with
  | [] => heights
  | first :: rest =>
      let maxFlow := fold_left Rmax rest first in
      let eroded :=
        map (fun i =>
               let normalizedFlow := Trees.get flow i / maxFlow in
               let erosion := sqrt normalizedFlow * strength * (1 / 100) in
               Trees.get heights i - erosion)
            (Trees.indexes (Z.of_nat (List.length heights))) in
      normalize eroded
  end.

(** The loop of [erode] over the iterations. *)
Fixpoint iterate (n : nat) (heightField : list R) (strength : R) : list R :=
  match n with
  | O => heightField
  | S n' =>
      let flow := calculateFlow heightField in
      iterate n' (applyErosion heightField flow strength) strength
  end.

(** [erode(heightField, iterations, strength)]: the contents of
    [heightField] after the call. *)
Definition erode (heightField : list R) (iterations : Z) (strength : R)
  : list R :=
  iterate (Z.to_nat iterations) heightField strength.

End HydraulicErosion.

End Erosion.

(* ================================================================== *)
(** * Rounding to nearest in a binary format *)

Module Rounding.

Local Open Scope R_scope.

(** The integer nearest to [x]; halfway between two integers, the even one. *)
Definition nearestEven (x : R) : Z :=
  let f := Zfloor x in
  if Rlt_dec (x - IZR f) (1 / 2) then f
  else if Rlt_dec (1 / 2) (x - IZR f) then (f + 1)%Z
  else if Z.even f then f else (f + 1)%Z.

(** The binade of [x]: the [k] with [2^k <= |x| < 2^(k+1)], for [x <> 0]. *)
Definition binade (x : R) : Z := Zfloor (ln (Rabs x) / ln 2).

(** The exponent of the unit in the last place of [x] in a binary format with
    [prec] significant bits whose least exponent is [emin] (where the
    subnormal numbers lie). *)
Definition ulpExponent (prec emin : Z) (x : R) : Z :=
  Z.max emin (binade x - (prec - 1)).

(** Rounding to nearest, ties to even, in that format. *)
Definition roundTo (prec emin : Z) (x : R) : R :=
  let e := ulpExponent prec emin x in
  IZR (nearestEven (x * powerRZ 2 (- e))) * powerRZ 2 e.

(** binary64, the format of JavaScript numbers, and binary32, the format of
    the elements of a Float32Array. *)
Definition round64 : R -> R := roundTo 53 (-1074).
Definition round32 : R -> R := roundTo 24 (-149).

(** The relative and the absolute rounding error of binary64. *)
Definition u64 : R := powerRZ 2 (-53).
Definition eta64 : R := powerRZ 2 (-1075).

End Rounding.

(* ================================================================== *)
(** * Doubles *)

Module Binary64.

Import PrimFloat FloatOps SpecFloat.
Local Open Scope float_scope.
#[local] Set Warnings "-inexact-float".

(** How a piece of JavaScript run on doubles ends. *)
Inductive completion (A : Type) : Type :=
| Returns (a : A)     (* normal completion *)
| Raises              (* an exception is thrown *)
| Unfinished          (* the loop bound given to the model was too small *)
| NotAnIndex          (* NaN or an infinity where an array position is needed *)
| Unspecified.        (* a value the language leaves to the implementation *)
Arguments Returns {A} a.
Arguments Raises {A}.
Arguments Unfinished {A}.
Arguments NotAnIndex {A}.
Arguments Unspecified {A}.

Definition andThen {A B} (m : completion A) (k : A -> completion B)
  : completion B :=
  match m with
  | Returns a => k a
  | Raises => Raises
  | Unfinished => Unfinished
  | NotAnIndex => NotAnIndex
  | Unspecified => Unspecified
  end.

Notation "x <~ m ;; k" := (andThen m (fun x => k))
  (at level 61, m at next level, right associativity).

(** An integer as a double; exact below [2^53] in magnitude. *)
Definition ofZ (k : Z) : float :=
  if (k <? 0)%Z then - of_uint63 (Uint63.of_Z (- k))
  else of_uint63 (Uint63.of_Z k).

Definition ofNat (n : nat) : float := ofZ (Z.of_nat n).

(** [Math.floor(x)] as an integer: a double is [m * 2^e] for integers [m]
    and [e], and shifting [m] rounds towards minus infinity. *)
Definition floorZ (x : float) : completion Z :=
  match Prim2SF x with
  | S754_zero _ => Returns 0%Z
  | S754_finite s m e => Returns (Z.shiftl (if s then Zneg m else Zpos m) e)
  | S754_infinity _ | S754_nan => NotAnIndex
  end.

(** [Math.ceil(x)] as an integer. *)
Definition ceilZ (x : float) : completion Z :=
  k <~ floorZ (- x)%float ;; Returns (- k)%Z.

(** [Math.floor(x)] and [Math.ceil(x)] as doubles, for [|x| < 2^53]; larger
    doubles, the infinities and NaN are their own floor. *)
Definition Math_floor (x : float) : float :=
  match Prim2SF x with
  | S754_finite s m e =>
      if (e <? 0)%Z then ofZ (Z.shiftl (if s then Zneg m else Zpos m) e) else x
  | _ => x
  end.

Definition Math_ceil (x : float) : float := - Math_floor (- x).

Definition Math_SQRT2 : float := 0x1.6a09e667f3bcdp+0.
Definition Math_PI : float := 0x1.921fb54442d18p+1.

(** [Math.cos] and [Math.sin] are implementation-approximated; the language
    fixes their values at zero only. *)
Definition Math_cos (x : float) : completion float :=
  if is_zero x then Returns 1 else Unspecified.

Definition Math_sin (x : float) : completion float :=
  if is_zero x then Returns x else Unspecified.

(** [a[i]] for a position held in a double: [None] stands for [undefined]
    (a position that is negative or not an integer; NaN and the infinities
    likewise). *)
Definition itemAt {A} (a : list A) (index : float) : option A :=
  match Prim2SF index with
  | S754_zero _ => nth_error a 0
  | S754_finite false m e =>
      if (0 <=? e)%Z then nth_error a (Z.to_nat (Z.shiftl (Zpos m) e))
      else if (Z.shiftl (Z.shiftl (Zpos m) e) (- e) =? Zpos m)%Z
           then nth_error a (Z.to_nat (Z.shiftl (Zpos m) e))
           else None
  | _ => None
  end.

(** [Math.fround(x)], the rounding made by a store into a Float32Array. *)
Definition Math_fround (x : float) : float :=
  match Prim2SF x with
  | S754_finite s m e =>
      SF2Prim (binary_normalize 24 128 (if s then Zneg m else Zpos m) e s)
  | _ => x
  end.

(** The two kinds of arrays of numbers the code is given. *)
Inductive elements : Type := NumberArray | Float32Array.

(** [a[i] = v] stores [v] as it is in an Array and rounds it to binary32 in
    a Float32Array. *)
Definition store (kind : elements) (v : float) : float :=
  match kind with
  | NumberArray => v
  | Float32Array => Math_fround v
  end.

End Binary64.

(* ================================================================== *)
(** * quantile.js on doubles *)

Module Quantile64.

Import PrimFloat Binary64.
Local Open Scope float_scope.
#[local] Set Warnings "-inexact-float".

(** [Array.from(data).sort((a, b) => a - b)] on numbers other than NaN. *)
Fixpoint insert (x : float) (sorted : list float) : list float :=
  match sorted with
  | [] => [x]
  | y :: rest => if x <=? y then x :: sorted else y :: insert x rest
  end.

Fixpoint sort (data : list float) : list float :=
  match data with
  | [] => []
  | x :: rest => insert x (sort rest)
  end.

(** [Math.min(...data)] and [Math.max(...data)] on numbers other than NaN. *)
Definition Math_min (data : list float) : float :=
  fold_left (fun least h => if h <? least then h else least) data infinity.

Definition Math_max (data : list float) : float :=
  fold_left (fun greatest h => if greatest <? h then h else greatest) data
            neg_infinity.

(** [a[i]] used as a number: [undefined] turns the arithmetic into NaN. *)
Definition item (a : list float) (i : float) : float :=
  match itemAt a i with
  | Some v => v
  | None => nan
  end.

Definition findQuantile (data : list float) (quantile : float)
  : completion float :=
  if (quantile <? 0) || (1 <? quantile) then Raises
  else match data with
  | [] => Returns 0
  | _ :: _ =>
    let sorted := sort data in
    let len := Z.of_nat (List.length sorted) in
    if quantile =? 0 then Returns (item sorted 0)
    else if quantile =? 1 then Returns (item sorted (ofZ (len - 1)))
    else
      let position := quantile * ofZ (len - 1) in
      let lower := Math_floor position in
      let upper := Math_ceil position in
      let weight := position - lower in
      Returns (item sorted lower * (1 - weight) + item sorted upper * weight)
  end.

Record SeaLevelResult : Type := mkSeaLevelResult {
  seaLevel : float;
  actualPercentage : float;
  cellsBelowSeaLevel : nat;
  raised : nat;
  method : string
}.

(** The loop of the 0% branch on an array of the given kind. *)
Fixpoint raiseLoop (kind : elements) (floor : float) (data : list float)
  : list float * nat :=
  match data with
  | [] => ([], O)
  | h :: rest =>
      let (rest', raised) := raiseLoop kind floor rest in
      if h <? floor then (store kind floor :: rest', S raised)
      else (h :: rest', raised)
  end.

Definition count (f : float -> bool) (data : list float) : nat :=
  List.length (filter f data).

(** [solveSeaLevel(elevationData, targetWaterPercentage, epsilon)]: the
    returned record and the contents of [elevationData] after the call. *)
Definition solveSeaLevel (kind : elements) (elevationData : list float)
  (targetWaterPercentage epsilon : float)
  : completion (SeaLevelResult * list float) :=
  let totalCells := List.length elevationData in
  if targetWaterPercentage =? 0 then
    let minHeight := Math_min elevationData in
    let seaLevel := minHeight - epsilon in
    let (raisedData, raised) :=
      raiseLoop kind (minHeight + epsilon) elevationData in
    Returns (mkSeaLevelResult seaLevel 0 0 raised "0%_raise", raisedData)
  else if 100 <=? targetWaterPercentage then
    let maxHeight := Math_max elevationData in
    Returns (mkSeaLevelResult (maxHeight + epsilon) 100 totalCells 0
                              "100%_cover", elevationData)
  else
    let quantile := targetWaterPercentage / 100 in
    seaLevel <~ findQuantile elevationData quantile ;;
    let cellsBelowSeaLevel := count (fun h => h <=? seaLevel) elevationData in
    let actualPercentage :=
      ofNat cellsBelowSeaLevel / ofNat totalCells * 100 in
    Returns (mkSeaLevelResult seaLevel actualPercentage cellsBelowSeaLevel 0
                              "quantile", elevationData).


End Quantile64.

(* ================================================================== *)
(** * poisson.js on doubles *)

Module Poisson64.

Import PrimFloat Binary64.
Local Open Scope float_scope.
#[local] Set Warnings "-inexact-float".

Record point : Type := mkPoint { px : float; py : float }.

(** The state shared by the closures of [poissonDiskSampling]: the background
    grid, the two arrays, and the number of calls made to [rng] so far. *)
Record state : Type := mkState {
  grid : list (option point);
  samples : list point;
  active : list point;
  calls : nat
}.

Section Sampler.

Variables width height minDistance : float.
(** [rng n] is the value returned by the [n]-th call of [rng]. *)
Variable rng : nat -> float.
Variable maxAttempts : nat.
Variable suitabilityMask : option (float -> float -> bool).

Definition cellSize : float := minDistance / Math_SQRT2.

(** [suitabilityMask && !suitabilityMask(x, y)] *)
Definition rejectedByMask (x y : float) : bool :=
  match suitabilityMask with
  | None => false
  | Some mask => negb (mask x y)
  end.

Section Grid.

(** [Math.ceil(width / cellSize)] and [Math.ceil(height / cellSize)]. *)
Variables gridWidth gridHeight : Z.

Definition inGrid (gx gy : Z) : bool :=
  ((0 <=? gx) && (gx <? gridWidth) && (0 <=? gy) && (gy <? gridHeight))%Z.

Definition gridIndex (x y : float) : completion Z :=
  gx <~ floorZ (x / cellSize) ;;
  gy <~ floorZ (y / cellSize) ;;
  Returns (if inGrid gx gy then (gy * gridWidth + gx)%Z else (-1)%Z).

(** The test made on the grid cell [(nx, ny)] inside the two loops of
    [isValid]: [false] when the loops return [false] there.  The squares
    [d ** 2] are taken as the products [d * d]. *)
Definition neighborOk (g : list (option point)) (x y : float) (nx ny : Z)
  : bool :=
  if inGrid nx ny then
    match nth (Z.to_nat (ny * gridWidth + nx)) g None with
    | None => true
    | Some neighbor =>
        let dx := x - px neighbor in
        let dy := y - py neighbor in
        let dist := sqrt (dx * dx + dy * dy) in
        negb (dist <? minDistance)
    end
  else true.

Definition isValid (g : list (option point)) (x y : float) : completion bool :=
  if (x <? 0) || (width <=? x) || (y <? 0) || (height <=? y)
  then Returns false
  else if rejectedByMask x y then Returns false
  else
    gx <~ floorZ (x / cellSize) ;;
    gy <~ floorZ (y / cellSize) ;;
    Returns
      (forallb (fun dy =>
         forallb (fun dx => neighborOk g x y (gx + dx) (gy + dy))
                 Poisson.offsets)
         Poisson.offsets).

Definition addPoint (x y : float) (st : state) : completion state :=
  let point := mkPoint x y in
  idx <~ gridIndex x y ;;
  Returns
    (mkState (if (0 <=? idx)%Z
              then Poisson.setItem (grid st) (Z.to_nat idx) (Some point)
              else grid st)
             (samples st ++ [point])
             (active st ++ [point])
             (calls st)).

(** The [for] loop over the attempts around [point]; [i] iterations remain. *)
Fixpoint attemptLoop (i : nat) (point : option point) (st : state)
  (found : bool) : completion (state * bool) :=
  match i with
  | O => Returns (st, found)
  | S i' =>
      match point with
      | None => Raises (* point is undefined *)
      | Some p =>
          let angle := rng (calls st) * Math_PI * 2 in
          let radius := minDistance + rng (S (calls st)) * minDistance in
          c <~ Math_cos angle ;;
          s <~ Math_sin angle ;;
          let newX := px p + c * radius in
          let newY := py p + s * radius in
          let st1 := mkState (grid st) (samples st) (active st)
                             (S (S (calls st))) in
          ok <~ isValid (grid st1) newX newY ;;
          if (ok : bool)
          then st2 <~ addPoint newX newY st1 ;; attemptLoop i' point st2 true
          else attemptLoop i' point st1 found
      end
  end.

(** The [while (active.length > 0)] loop, run for at most [fuel] iterations. *)
Fixpoint activeLoop (fuel : nat) (st : state) : completion state :=
  match active st with
  | [] => Returns st
  | _ :: _ =>
      match fuel with
      | O => Unfinished
      | S fuel' =>
          let index :=
            Math_floor (rng (calls st) * ofNat (List.length (active st))) in
          let point := itemAt (active st) index in
          let st0 := mkState (grid st) (samples st) (active st) (S (calls st)) in
          r <~ attemptLoop maxAttempts point st0 false ;;
          let (st1, found) := (r : state * bool) in
          if found then activeLoop fuel' st1
          else
            position <~ floorZ index ;;
            activeLoop fuel'
              (mkState (grid st1) (samples st1)
                       (Poisson.splice1 (active st1) position) (calls st1))
      end
  end.

End Grid.

(** The do-while loop choosing the initial point.  [tries] is the number of
    iterations left before [attempts > 100]; the result is [None] when the
    function returns the empty array. *)
Fixpoint initialPoint (tries : nat) (n : nat) : option (float * float) * nat :=
  let initialX := rng n * width in
  let initialY := rng (S n) * height in
  match tries with
  | O =>
      let centerX := width / 2 in
      let centerY := height / 2 in
      if rejectedByMask centerX centerY then (None, S (S n))
      else (Some (centerX, centerY), S (S n))
  | S tries' =>
      if rejectedByMask initialX initialY then initialPoint tries' (S (S n))
      else (Some (initialX, initialY), S (S n))
  end.

(** [new Array(n).fill(null)]: a RangeError unless [0 <= n < 2^32]. *)
Definition newGrid (n : Z) : completion (list (option point)) :=
  if ((n <? 0) || (4294967295 <? n))%Z then Raises
  else Returns (repeat None (Z.to_nat n)).

(** The whole function: the final state, whose [samples] is the returned
    array. *)
Definition run (fuel : nat) : completion state :=
  gridWidth <~ ceilZ (width / cellSize) ;;
  gridHeight <~ ceilZ (height / cellSize) ;;
  g <~ newGrid (gridWidth * gridHeight) ;;
  match initialPoint 100 O with
  | (None, n) => Returns (mkState g [] [] n)
  | (Some (initialX, initialY), n) =>
      st <~ addPoint gridWidth gridHeight initialX initialY
              (mkState g [] [] n) ;;
      activeLoop gridWidth gridHeight fuel st
  end.

Definition poissonDiskSampling (fuel : nat) : completion (list point) :=
  st <~ run fuel ;; Returns (samples st).

End Sampler.

(** [Math.sqrt((p.x - q.x) ** 2 + (p.y - q.y) ** 2)] *)
Definition distance (p q : point) : float :=
  let dx := px p - px q in
  let dy := py p - py q in
  sqrt (dx * dx + dy * dy).

(** ** Two calls

    A minimum distance whose cell size [minDistance / Math.SQRT2] is the
    double below 1/3, and the largest double below 1 as a value of [rng]. *)

Definition narrowDistance : float := 0.47140452079103168.
Definition almostOne : float := 0x1.fffffffffffffp-1.

(** [rng] returns 0, [almostOne] at its second call. *)
Definition edgeRng (n : nat) : float :=
  if Nat.eqb n 1 then almostOne else 0.

(** [rng] returns 0, except: [almostOne] at its second call, 1/32 at its
    seventh call and 1/2 at its tenth and twelfth calls. *)
Definition crowdingRng (n : nat) : float :=
  if Nat.eqb n 1 then almostOne
  else if Nat.eqb n 6 then 0x1p-5
  else if Nat.eqb n 9 || Nat.eqb n 11 then 0.5
  else 0.

End Poisson64.

(* ================================================================== *)
(** * quantile.js with the rounding of every operation

    The same functions as in [Quantile], on real numbers, with the result of
    every arithmetic operation rounded to binary64 as the code rounds it.
    The model has no infinities and no NaN: it follows the code as long as
    the magnitudes stay below [2^1024], and the statements about it bound the
    magnitudes of the inputs. *)

Module Rounded.

Import Rounding Quantile.
Local Open Scope R_scope.

(** [a[i] = v] on an Array and on a Float32Array. *)
Definition store (kind : Binary64.elements) (v : R) : R :=
  match kind with
  | Binary64.NumberArray => v
  | Binary64.Float32Array => round32 v
  end.


Definition findQuantile (data : list R) (quantile : R) : outcome R :=
  if Rltb quantile 0 || Rltb 1 quantile then Throws
  else match data with
  | [] => Ok 0
  | _ :: _ =>
    let sorted := sort data in
    let len := Z.of_nat (List.length sorted) in
    if Reqb quantile 0 then item sorted 0
    else if Reqb quantile 1 then item sorted (len - 1)
    else
      let position := round64 (quantile * IZR (len - 1)) in
      let lower := Zfloor position in
      let upper := Zceil position in
      let weight := round64 (position - IZR lower) in
      lo <- item sorted lower ;;
      hi <- item sorted upper ;;
      Ok (round64 (round64 (lo * round64 (1 - weight)) + round64 (hi * weight)))
  end.

(** The loop of the 0% branch on an array of the given kind. *)
Fixpoint raiseLoop (kind : Binary64.elements) (floor : R) (data : list R)
  : list R * nat :=
  match data with
  | [] => ([], O)
  | h :: rest =>
      let (rest', raised) := raiseLoop kind floor rest in
      if Rltb h floor then (store kind floor :: rest', S raised)
      else (h :: rest', raised)
  end.

Definition solveSeaLevel (kind : Binary64.elements) (elevationData : list R)
  (targetWaterPercentage : R) (epsilon : R)
  : outcome (SeaLevelResult * list R) :=
  let totalCells := List.length elevationData in
  if Reqb targetWaterPercentage 0 then
    minHeight <- Math_min elevationData ;;
    let seaLevel := round64 (minHeight - epsilon) in
    let (raisedData, raised) :=
      raiseLoop kind (round64 (minHeight + epsilon)) elevationData in
    Ok (mkSeaLevelResult seaLevel 0 0 raised "0%_raise", raisedData)
  else if Rleb 100 targetWaterPercentage then
    maxHeight <- Math_max elevationData ;;
    Ok (mkSeaLevelResult (round64 (maxHeight + epsilon)) 100 totalCells 0
                         "100%_cover", elevationData)
  else
    let quantile := round64 (targetWaterPercentage / 100) in
    seaLevel <- findQuantile elevationData quantile ;;
    let cellsBelowSeaLevel := count (fun h => Rleb h seaLevel) elevationData in
    match totalCells with
    | O => NotFinite (* 0 / 0 *)
    | S _ =>
      let actualPercentage :=
        round64 (round64 (INR cellsBelowSeaLevel / INR totalCells) * 100) in
      Ok (mkSeaLevelResult seaLevel actualPercentage cellsBelowSeaLevel 0
                           "quantile", elevationData)
    end.

(** The position of a quantile in the sorted copy and the weight of the
    upper entry, as [findQuantile] computes them. *)
Definition position (sorted : list R) (quantile : R) : R :=
  round64 (quantile * IZR (Z.of_nat (List.length sorted) - 1)).

Definition weight (sorted : list R) (quantile : R) : R :=
  round64 (position sorted quantile - IZR (Zfloor (position sorted quantile))).

(** The convex combination that the last line of [findQuantile] computes
    with rounding, from the sorted copy. *)
Definition blend (sorted : list R) (quantile : R) : R :=
  nth (Z.to_nat (Zfloor (position sorted quantile))) sorted 0
  * (1 - weight sorted quantile)
  + nth (Z.to_nat (Zceil (position sorted quantile))) sorted 0
    * weight sorted quantile.

(** What [findQuantile] returns but for the rounding of its last line. *)
Definition ideal (data : list R) (quantile : R) : R :=
  let sorted := sort data in
  if Reqb quantile 0 then nth 0 sorted 0
  else if Reqb quantile 1 then nth (List.length sorted - 1) sorted 0
  else blend sorted quantile.

(** The rounding of the four operations of that line, for heights of
    magnitude at most [M]. *)
Definition slack (M : R) : R := 6 * u64 * M + 4 * eta64.

End Rounded.

Module RoundedRNG.

Import Rounding RNG.
Local Open Scope R_scope.

(** [nextInt(min, max)] on doubles: the difference, the product and the sum
    are rounded; [this.state / 0x100000000] is exact. *)
Definition nextInt (g : LCG) (min max : R) : R * LCG :=
  let (v, g') := next g in
  (round64 (IZR (Zfloor (round64 (v * round64 (max - min)))) + min), g').

End RoundedRNG.

Module RoundedTrees.

Import Rounding Trees.
Local Open Scope R_scope.

(** [getHeightAt] on doubles: the two divisions, the two differences and
    the operations of the three interpolation lines are rounded; the cell
    indexes are integers. *)
Definition getHeightAt (worldX worldZ : R) (elevation : list R)
  (width height : Z) (cellSize : R) : R :=
  let cellX := round64 (worldX / cellSize) in
  let cellZ := round64 (worldZ / cellSize) in
  let x0 := Z.max 0 (Z.min (width - 1) (Zfloor cellX)) in
  let z0 := Z.max 0 (Z.min (height - 1) (Zfloor cellZ)) in
  let x1 := Z.min (width - 1) (x0 + 1) in
  let z1 := Z.min (height - 1) (z0 + 1) in
  let fx := round64 (cellX - IZR x0) in
  let fz := round64 (cellZ - IZR z0) in
  let h00 := get elevation (z0 * width + x0) in
  let h10 := get elevation (z0 * width + x1) in
  let h01 := get elevation (z1 * width + x0) in
  let h11 := get elevation (z1 * width + x1) in
  let h0 := round64 (round64 (h00 * round64 (1 - fx)) + round64 (h10 * fx)) in
  let h1 := round64 (round64 (h01 * round64 (1 - fx)) + round64 (h11 * fx)) in
  round64 (round64 (h0 * round64 (1 - fz)) + round64 (h1 * fz)).

(** The rounding of the three interpolation lines, for heights of magnitude
    at most [M]. *)
Definition bilinearSlack (M : R) : R := 13 * u64 * M + 9 * eta64.

End RoundedTrees.

(* ================================================================== *)
(** * Tree placement: test inputs *)

Module TreeInputs.
Import Trees.
Local Open Scope R_scope.

(** Test inputs: a strip of seven cells, alternately at 1.5 m and 2.5 m,
    above a sea level of 0; a stream whose [next()] returns 1/4 and then 0. *)
Definition ridges : TerrainData :=
  mkTerrainData [3 / 2; 5 / 2; 3 / 2; 5 / 2; 3 / 2; 5 / 2; 3 / 2] 0 7 1 1.

Definition quarterThenZero (n : nat) : R :=
  match n with
  | O => 1 / 4
  | S _ => 0
  end.

End TreeInputs.

(* ================================================================== *)
(** * Properties of the random streams *)
Module RNGProps.

Import RNG.
Local Open Scope Z_scope.

(* The statements below mention [hashSeed] applied to variables. *)
Unset Implicit Arguments.

Lemma toUint32_range z : 0 <= toUint32 z < 4294967296.
Proof. unfold toUint32. apply Z.mod_pos_bound. lia. Qed.

Lemma toUint32_small z : 0 <= z < 4294967296 -> toUint32 z = z.
Proof. intros H. unfold toUint32. apply Z.mod_small. exact H. Qed.

Lemma hashSeed_range seed label : 0 <= hashSeed seed label < 4294967296.
Proof.
  unfold hashSeed, ushr. rewrite Z.shiftr_0_r. apply toUint32_range.
Qed.

(** The multiplier of the generator is invertible modulo 2^32, so one step
    of the generator is injective on 32-bit states. *)
Lemma step_invertible x :
  0 <= x < 4294967296 ->
  ((toUint32 (x * 1664525 + 1013904223) + (4294967296 - 1013904223))
     * 4276115653) mod 4294967296 = x.
Proof.
  intros Hx. unfold toUint32.
  pose proof (Z.div_mod (x * 1664525 + 1013904223) 4294967296 ltac:(lia)) as Hd.
  set (q := (x * 1664525 + 1013904223) / 4294967296) in *.
  set (r := (x * 1664525 + 1013904223) mod 4294967296) in *.
  replace ((r + (4294967296 - 1013904223)) * 4276115653)
    with (x + (x * 1657219 + 4276115653 - q * 4276115653) * 4294967296) by lia.
  rewrite Z.mod_add by lia. apply Z.mod_small. exact Hx.
Qed.

Lemma step_injective x y :
  0 <= x < 4294967296 -> 0 <= y < 4294967296 ->
  toUint32 (x * 1664525 + 1013904223) = toUint32 (y * 1664525 + 1013904223) ->
  x = y.
Proof.
  intros Hx Hy E.
  rewrite <- (step_invertible x Hx), <- (step_invertible y Hy), E. reflexivity.
Qed.

Lemma LCG_value_injective g h : LCG_value g = LCG_value h -> state g = state h.
Proof.
  unfold LCG_value. intros E. apply eq_IZR.
  apply (Rmult_eq_reg_r (/ 4294967296)%R); [exact E|].
  apply Rinv_neq_0_compat. lra.
Qed.

(** The values of [next()] lie in [0, 1). *)
Lemma LCG_value_range g :
  0 <= state g < 4294967296 -> (0 <= LCG_value g < 1)%R.
Proof.
  intros [H0 H1]. unfold LCG_value.
  apply IZR_le in H0. apply IZR_lt in H1. split.
  - apply Rmult_le_pos; [exact H0|lra].
  - apply (Rmult_lt_reg_r 4294967296); [lra|].
    unfold Rdiv. rewrite Rmult_assoc, Rinv_l by lra. lra.
Qed.

Lemma nthNext_range n : forall g, (0 <= nthNext g n < 1)%R.
Proof.
  induction n as [|n IH]; intros g; cbn.
  - apply LCG_value_range. cbn. apply toUint32_range.
  - apply IH.
Qed.

Lemma fresh_stream seed label :
  streamOf label (getStream label (MultiStreamRNG_new seed))
  = LCG_new (hashSeed seed label).
Proof.
  unfold getStream, streamOf, MultiStreamRNG_new. cbn [lookup streams store masterSeed].
  rewrite String.eqb_refl. reflexivity.
Qed.

Lemma step_new_state h :
  state (LCG_step (LCG_new h))
  = toUint32 (toUint32 h * 1664525 + 1013904223).
Proof. reflexivity. Qed.

(** Two generators started from different 32-bit seeds differ at the first
    value. *)
Lemma first_value_injective h1 h2 :
  0 <= h1 < 4294967296 -> 0 <= h2 < 4294967296 ->
  LCG_value (LCG_step (LCG_new h1)) = LCG_value (LCG_step (LCG_new h2)) ->
  h1 = h2.
Proof.
  intros H1 H2 E.
  pose proof (LCG_value_injective (LCG_step (LCG_new h1))
                (LCG_step (LCG_new h2)) E) as Es.
  rewrite !step_new_state in Es.
  rewrite (toUint32_small _ H1), (toUint32_small _ H2) in Es.
  exact (step_injective _ _ H1 H2 Es).
Qed.

Lemma first_value seed label :
  streamSequence seed label 0
  = LCG_value (LCG_step (LCG_new (hashSeed seed label))).
Proof. unfold streamSequence. rewrite fresh_stream. reflexivity. Qed.

(** C8, as stated, fails: with master seed 12345 the labels "ggdj" and
    "dbzaa" are distinct and derive the same sub-seed (31677426), hence the
    same sequence of [next()] values. *)
Lemma C8_colliding_labels :
  "ggdj"%string <> "dbzaa"%string
  /\ hashSeed 12345 "ggdj" = 31677426
  /\ hashSeed 12345 "dbzaa" = 31677426
  /\ forall n : nat,
       streamSequence 12345 "ggdj" n = streamSequence 12345 "dbzaa" n.
Proof.
  assert (E1 : hashSeed 12345 "ggdj" = 31677426) by (vm_compute; reflexivity).
  assert (E2 : hashSeed 12345 "dbzaa" = 31677426) by (vm_compute; reflexivity).
  split; [discriminate|]. split; [exact E1|]. split; [exact E2|].
  intros n. unfold streamSequence. rewrite !fresh_stream, E1, E2. reflexivity.
Qed.

(** C8, amended: two labels whose derived sub-seeds differ give streams that
    differ already at the first [next()] value, for every master seed. *)
Theorem C8_distinct_subseeds_distinct_streams (seed : Z) (l1 l2 : string) :
  hashSeed seed l1 <> hashSeed seed l2 ->
  streamSequence seed l1 0 <> streamSequence seed l2 0.
Proof.
  intros Hne E. apply Hne. rewrite !first_value in E.
  exact (first_value_injective _ _ (hashSeed_range seed l1)
           (hashSeed_range seed l2) E).
Qed.

Lemma C8_distinct_subseeds_witness :
  hashSeed 12345 "terrain" <> hashSeed 12345 "lakes"
  /\ streamSequence 12345 "terrain" 0 <> streamSequence 12345 "lakes" 0.
Proof.
  assert (H : hashSeed 12345 "terrain" <> hashSeed 12345 "lakes")
    by (vm_compute; discriminate).
  split; [exact H|].
  exact (C8_distinct_subseeds_distinct_streams 12345 "terrain" "lakes" H).
Defined.

Set Implicit Arguments.

End RNGProps.

(* ================================================================== *)
(** * Properties of the sea-level solver *)
Module QuantileProps.

Import Quantile.
Local Open Scope R_scope.

(** ** The boolean comparisons *)

Lemma Rltb_true x y : Rltb x y = true <-> x < y.
Proof. unfold Rltb. destruct (Rlt_dec x y); split; intros; try easy. Qed.

Lemma Rltb_false x y : Rltb x y = false <-> y <= x.
Proof.
  unfold Rltb. destruct (Rlt_dec x y); split; intros; try easy; lra.
Qed.

Lemma Rleb_true x y : Rleb x y = true <-> x <= y.
Proof. unfold Rleb. destruct (Rle_dec x y); split; intros; try easy. Qed.

Lemma Rleb_false x y : Rleb x y = false <-> y < x.
Proof.
  unfold Rleb. destruct (Rle_dec x y); split; intros; try easy; lra.
Qed.

Lemma Reqb_true x y : Reqb x y = true <-> x = y.
Proof. unfold Reqb. destruct (Req_dec_T x y); split; intros; try easy. Qed.

Lemma Reqb_false x y : Reqb x y = false <-> x <> y.
Proof. unfold Reqb. destruct (Req_dec_T x y); split; intros; try easy. Qed.

(** Decide the comparisons of the goal whose outcome [lra] can settle. *)
Ltac rdecide :=
  repeat match goal with
  | |- context [Rltb ?a ?b] =>
      first [ rewrite (proj2 (Rltb_true a b)) by lra
            | rewrite (proj2 (Rltb_false a b)) by lra ]
  | |- context [Rleb ?a ?b] =>
      first [ rewrite (proj2 (Rleb_true a b)) by lra
            | rewrite (proj2 (Rleb_false a b)) by lra ]
  | |- context [Reqb ?a ?b] =>
      first [ rewrite (proj2 (Reqb_true a b)) by lra
            | rewrite (proj2 (Reqb_false a b)) by lra ]
  end.

(** ** Sorting *)

Lemma insert_perm x l : Permutation (insert x l) (x :: l).
Proof.
  induction l as [|y l IH]; cbn.
  - apply Permutation_refl.
  - destruct (Rle_dec x y).
    + apply Permutation_refl.
    + apply perm_trans with (y :: x :: l).
      * apply perm_skip. exact IH.
      * apply perm_swap.
Qed.

Lemma sort_perm l : Permutation (sort l) l.
Proof.
  induction l as [|x l IH]; cbn.
  - apply perm_nil.
  - apply perm_trans with (x :: sort l).
    + apply insert_perm.
    + apply perm_skip. exact IH.
Qed.

Lemma sort_length l : List.length (sort l) = List.length l.
Proof. apply Permutation_length, sort_perm. Qed.

Lemma insert_sorted x l :
  StronglySorted Rle l -> StronglySorted Rle (insert x l).
Proof.
  induction 1 as [|y l Hs IH Hall]; cbn.
  - constructor; constructor.
  - destruct (Rle_dec x y) as [Hxy|Hxy].
    + constructor.
      * constructor; assumption.
      * constructor; [exact Hxy|].
        rewrite Forall_forall in *. intros z Hz. specialize (Hall z Hz). lra.
    + constructor; [exact IH|].
      rewrite Forall_forall in *. intros z Hz.
      apply (Permutation_in _ (insert_perm x l)) in Hz.
      destruct Hz as [<-|Hz]; [lra|]. apply Hall. exact Hz.
Qed.

Lemma sort_sorted l : StronglySorted Rle (sort l).
Proof.
  induction l as [|x l IH]; cbn.
  - constructor.
  - apply insert_sorted. exact IH.
Qed.

(** In a sorted list the entries grow with the index. *)
Lemma sorted_nth_le l :
  StronglySorted Rle l ->
  forall i j, (i <= j < List.length l)%nat -> nth i l 0 <= nth j l 0.
Proof.
  induction 1 as [|x l Hs IH Hall]; intros i j Hij; cbn in Hij.
  - lia.
  - destruct i as [|i], j as [|j]; cbn; try lia.
    + lra.
    + rewrite Forall_forall in Hall. apply Hall. apply nth_In. lia.
    + apply IH. lia.
Qed.


(** ** Counting *)



Lemma count_all f l : (forall x, In x l -> f x = true) -> count f l = List.length l.
Proof.
  unfold count. induction l as [|x l IH]; intros H; cbn.
  - reflexivity.
  - rewrite (H x) by (left; reflexivity). cbn. f_equal.
    apply IH. intros y Hy. apply H. right. exact Hy.
Qed.

Lemma count_none f l : (forall x, In x l -> f x = false) -> count f l = O.
Proof.
  unfold count. induction l as [|x l IH]; intros H; cbn.
  - reflexivity.
  - rewrite (H x) by (left; reflexivity).
    apply IH. intros y Hy. apply H. right. exact Hy.
Qed.

Lemma count_le_length f l : (count f l <= List.length l)%nat.
Proof. unfold count. apply filter_length_le. Qed.


(** ** Minimum and maximum *)

Lemma fold_min_le rest : forall x y,
  In y (x :: rest) -> fold_left Rmin rest x <= y.
Proof.
  induction rest as [|z rest IH]; intros x y Hy; cbn in *.
  - destruct Hy as [<-|[]]. lra.
  - destruct Hy as [<-|[<-|Hy]].
    + apply Rle_trans with (Rmin x z); [|apply Rmin_l].
      apply IH. left. reflexivity.
    + apply Rle_trans with (Rmin x z); [|apply Rmin_r].
      apply IH. left. reflexivity.
    + apply IH. right. exact Hy.
Qed.

Lemma fold_max_ge rest : forall x y,
  In y (x :: rest) -> y <= fold_left Rmax rest x.
Proof.
  induction rest as [|z rest IH]; intros x y Hy; cbn in *.
  - destruct Hy as [<-|[]]. lra.
  - destruct Hy as [<-|[<-|Hy]].
    + apply Rle_trans with (Rmax x z); [apply Rmax_l|].
      apply IH. left. reflexivity.
    + apply Rle_trans with (Rmax x z); [apply Rmax_r|].
      apply IH. left. reflexivity.
    + apply IH. right. exact Hy.
Qed.

Lemma Math_min_spec data :
  data <> [] ->
  exists m, Math_min data = Ok m /\ forall y, In y data -> m <= y.
Proof.
  destruct data as [|x rest]; [congruence|]. intros _.
  exists (fold_left Rmin rest x). split; [reflexivity|].
  intros y Hy. apply fold_min_le. exact Hy.
Qed.

Lemma Math_max_spec data :
  data <> [] ->
  exists m, Math_max data = Ok m /\ forall y, In y data -> y <= m.
Proof.
  destruct data as [|x rest]; [congruence|]. intros _.
  exists (fold_left Rmax rest x). split; [reflexivity|].
  intros y Hy. apply fold_max_ge. exact Hy.
Qed.

(** ** The interpolation of [findQuantile] *)

Lemma item_in_range a i :
  (0 <= i < Z.of_nat (List.length a))%Z ->
  item a i = Ok (nth (Z.to_nat i) a 0).
Proof.
  intros Hi. unfold item.
  replace (i <? 0)%Z with false by (symmetry; apply Z.ltb_ge; lia).
  destruct (nth_error a (Z.to_nat i)) as [v|] eqn:E.
  - rewrite (nth_error_nth _ _ 0 E). reflexivity.
  - apply nth_error_None in E. lia.
Qed.

(** The position of the quantile in the sorted copy, and the two indexes
    around it. *)
Lemma position_bounds (n : nat) (q : R) :
  (1 <= n)%nat -> 0 <= q <= 1 ->
  let position := q * IZR (Z.of_nat n - 1) in
  (0 <= Zfloor position)%Z
  /\ (Zfloor position <= Zceil position)%Z
  /\ (Zceil position <= Z.of_nat n - 1)%Z.
Proof.
  intros Hn Hq position.
  assert (Hn1 : 0 <= IZR (Z.of_nat n - 1)) by (apply IZR_le; lia).
  assert (Hp0 : 0 <= position) by (unfold position; nra).
  assert (Hp1 : position <= IZR (Z.of_nat n - 1)) by (unfold position; nra).
  pose proof (Zfloor_bound position) as Hf.
  pose proof (Zceil_bound position) as Hc.
  repeat split.
  - apply (Zfloor_lub 0). exact Hp0.
  - apply le_IZR. lra.
  - apply Z.lt_succ_r. apply lt_IZR. rewrite succ_IZR. lra.
Qed.

(** [Zceil] is [Zfloor] at an integral position and [Zfloor + 1] elsewhere. *)
Lemma ceil_cases x :
  (x = IZR (Zfloor x) /\ Zceil x = Zfloor x)
  \/ (IZR (Zfloor x) < x /\ Zceil x = (Zfloor x + 1)%Z).
Proof.
  pose proof (Zfloor_bound x) as Hf.
  destruct (Req_dec_T x (IZR (Zfloor x))) as [E|N].
  - left. split; [exact E|]. apply Zceil_eq. lra.
  - right. split; [lra|]. apply Zceil_eq. rewrite plus_IZR. lra.
Qed.

Lemma findQuantile_interior data quantile :
  data <> [] -> 0 < quantile < 1 ->
  findQuantile data quantile = Ok (interpolate (sort data) quantile).
Proof.
  intros Hne Hq. unfold findQuantile. rdecide. cbn [orb].
  destruct data as [|x rest]; [congruence|].
  set (sorted := sort (x :: rest)).
  assert (Hlen : (1 <= List.length sorted)%nat)
    by (unfold sorted; rewrite sort_length; cbn; lia).
  destruct (position_bounds (n := List.length sorted) (q := quantile) Hlen ltac:(lra))
    as (H0 & H1 & H2).
  rewrite !item_in_range by lia. reflexivity.
Qed.

(** What the interpolation needs to know about its position. *)
Record located (sorted : list R) (quantile : R) (k : nat) (w : R) : Prop := {
  loc_floor : Zfloor (quantile * IZR (Z.of_nat (List.length sorted) - 1))
              = Z.of_nat k;
  loc_weight : w = quantile * IZR (Z.of_nat (List.length sorted) - 1) - INR k;
  loc_range : (k < List.length sorted)%nat;
  loc_unit : 0 <= w < 1;
  loc_value :
    (w = 0 /\ interpolate sorted quantile = nth k sorted 0)
    \/ (0 < w /\ (S k < List.length sorted)%nat
        /\ interpolate sorted quantile
           = nth k sorted 0 + w * (nth (S k) sorted 0 - nth k sorted 0))
}.

Lemma interpolate_located sorted quantile :
  (1 <= List.length sorted)%nat -> 0 <= quantile <= 1 ->
  exists k w, located sorted quantile k w.
Proof.
  intros Hlen Hq.
  destruct (position_bounds (n := List.length sorted) (q := quantile) Hlen Hq)
    as (H0 & H1 & H2).
  set (position := quantile * IZR (Z.of_nat (List.length sorted) - 1)) in *.
  pose proof (Zfloor_bound position) as Hf.
  exists (Z.to_nat (Zfloor position)), (position - IZR (Zfloor position)).
  assert (Hk : INR (Z.to_nat (Zfloor position)) = IZR (Zfloor position))
    by (rewrite INR_IZR_INZ, Z2Nat.id by lia; reflexivity).
  split.
  - fold position. rewrite Z2Nat.id by lia. reflexivity.
  - fold position. rewrite Hk. reflexivity.
  - lia.
  - lra.
  - unfold interpolate. fold position.
    destruct (ceil_cases position) as [[E Hc]|[Hlt Hc]].
    + left. split; [lra|]. rewrite Hc.
      replace (position - IZR (Zfloor position)) with 0 by lra. ring.
    + right. split; [lra|]. split; [lia|].
      rewrite Hc. replace (Z.to_nat (Zfloor position + 1))
        with (S (Z.to_nat (Zfloor position))) by lia.
      ring.
Qed.


(** The interpolated value lies between the two entries around it. *)
Lemma interpolate_between sorted quantile k w :
  StronglySorted Rle sorted -> located sorted quantile k w ->
  nth k sorted 0 <= interpolate sorted quantile
  /\ (forall j, (k < j < List.length sorted)%nat ->
       interpolate sorted quantile <= nth j sorted 0).
Proof.
  intros Hs [Hfl Hw Hr Hu Hv].
  destruct Hv as [[Hw0 ->]|(Hw0 & Hk & ->)].
  - split; [lra|]. intros j Hj. apply sorted_nth_le; [exact Hs|lia].
  - pose proof (sorted_nth_le Hs (i := k) (j := S k) ltac:(lia)) as Hstep.
    split; [nra|]. intros j Hj.
    pose proof (sorted_nth_le Hs (i := S k) (j := j) ltac:(lia)). nra.
Qed.

(** The interpolated value grows with the quantile. *)
Lemma interpolate_monotone sorted q1 q2 :
  StronglySorted Rle sorted -> (1 <= List.length sorted)%nat ->
  0 <= q1 -> q1 <= q2 -> q2 <= 1 ->
  interpolate sorted q1 <= interpolate sorted q2.
Proof.
  intros Hs Hlen H0 H12 H1.
  destruct (@interpolate_located sorted q1 Hlen ltac:(lra))
    as (k1 & w1 & L1).
  destruct (@interpolate_located sorted q2 Hlen ltac:(lra))
    as (k2 & w2 & L2).
  destruct (interpolate_between Hs L2) as [Hlo2 _].
  destruct (interpolate_between Hs L1) as [_ Hhi1].
  assert (Hn1 : 0 <= IZR (Z.of_nat (List.length sorted) - 1))
    by (apply IZR_le; lia).
  assert (Hk : (k1 <= k2)%nat).
  { apply Nat2Z.inj_le. rewrite <- (loc_floor L1), <- (loc_floor L2).
    apply Zfloor_le. nra. }
  destruct (Nat.eq_dec k1 k2) as [<-|Hne].
  - destruct L1 as [_ Hw1 _ _ Hv1], L2 as [_ Hw2 Hr2 _ Hv2].
    assert (Hw : w1 <= w2) by (rewrite Hw1, Hw2; nra).
    destruct Hv1 as [[Hz1 ->]|(Hp1 & Hk1 & ->)].
    + exact Hlo2.
    + destruct Hv2 as [[Hz2 _]|(Hp2 & _ & ->)]; [lra|].
      pose proof (sorted_nth_le Hs (i := k1) (j := S k1) ltac:(lia)). nra.
  - apply Rle_trans with (nth k2 sorted 0); [|exact Hlo2].
    apply Hhi1. pose proof (loc_range L2). lia.
Qed.

Lemma interpolate_range data quantile lo hi :
  data <> [] -> 0 <= quantile <= 1 ->
  (forall y, In y data -> lo <= y) -> (forall y, In y data -> y <= hi) ->
  lo <= interpolate (sort data) quantile <= hi.
Proof.
  intros Hne Hq Hlo Hhi.
  assert (Hlen : (1 <= List.length (sort data))%nat).
  { rewrite sort_length. destruct data; [congruence|cbn; lia]. }
  assert (Hin : forall i, (i < List.length (sort data))%nat ->
                          lo <= nth i (sort data) 0 <= hi).
  { intros i Hi.
    assert (In (nth i (sort data) 0) data)
      by (apply (Permutation_in _ (sort_perm data)), nth_In; exact Hi).
    split; [apply Hlo|apply Hhi]; assumption. }
  destruct (@interpolate_located (sort data) quantile Hlen Hq) as (k & w & L).
  destruct (interpolate_between (sort_sorted data) L) as [Hlow Hup].
  pose proof (Hin k (loc_range L)) as Hk. split; [lra|].
  destruct (loc_value L) as [[_ ->]|(_ & HSk & _)]; [lra|].
  pose proof (Hup (S k) ltac:(lia)). pose proof (Hin (S k) HSk). lra.
Qed.

(** ** The three branches of [solveSeaLevel] *)

Lemma raiseLoop_spec floor data :
  raiseLoop floor data
  = (map (fun h => if Rltb h floor then floor else h) data,
     count (fun h => Rltb h floor) data).
Proof.
  unfold count. induction data as [|h rest IH]; cbn.
  - reflexivity.
  - rewrite IH. destruct (Rltb h floor); reflexivity.
Qed.

Lemma solve_zero_branch data epsilon m :
  Math_min data = Ok m ->
  solveSeaLevel data 0 epsilon
  = Ok (mkSeaLevelResult (m - epsilon) 0 0
          (count (fun h => Rltb h (m + epsilon)) data) "0%_raise",
        map (fun h => if Rltb h (m + epsilon) then m + epsilon else h) data).
Proof.
  intros Hm. unfold solveSeaLevel. rdecide. rewrite Hm. cbn [bind].
  rewrite raiseLoop_spec. reflexivity.
Qed.

Lemma solve_full_branch data p epsilon M :
  100 <= p -> Math_max data = Ok M ->
  solveSeaLevel data p epsilon
  = Ok (mkSeaLevelResult (M + epsilon) 100 (List.length data) 0 "100%_cover",
        data).
Proof.
  intros Hp HM. unfold solveSeaLevel. rdecide. rewrite HM. reflexivity.
Qed.

Lemma solve_quantile_branch data p epsilon :
  data <> [] -> 0 < p < 100 ->
  let level := interpolate (sort data) (p / 100) in
  solveSeaLevel data p epsilon
  = Ok (mkSeaLevelResult level (coverage data level)
          (count (fun h => Rleb h level) data) 0 "quantile",
        data).
Proof.
  intros Hne Hp level. unfold solveSeaLevel. rdecide.
  rewrite findQuantile_interior by (try assumption; lra). cbn [bind].
  destruct data as [|x rest]; [congruence|]. reflexivity.
Qed.

(** ** Coverage of the interpolated level over pairwise distinct heights *)



(** ** The claims about [solveSeaLevel] *)




(** The sea level found by each branch. *)
Lemma solved_level data p epsilon :
  data <> [] -> 0 <= p ->
  exists res data' lo hi,
    solveSeaLevel data p epsilon = Ok (res, data')
    /\ (forall y, In y data -> lo <= y <= hi)
    /\ In lo data /\ In hi data
    /\ ((p = 0 /\ seaLevel res = lo - epsilon)
        \/ (0 < p < 100 /\ seaLevel res = interpolate (sort data) (p / 100))
        \/ (100 <= p /\ seaLevel res = hi + epsilon)).
Proof.
  intros Hne Hp.
  destruct data as [|x rest]; [congruence|].
  set (data := x :: rest).
  set (lo := fold_left Rmin rest x). set (hi := fold_left Rmax rest x).
  assert (Hb : forall y, In y data -> lo <= y <= hi).
  { intros y Hy. split; [apply fold_min_le|apply fold_max_ge]; exact Hy. }
  assert (Hlo : In lo data).
  { unfold lo, data. clear. revert x.
    induction rest as [|z rest IH]; intros x; cbn.
    - left. reflexivity.
    - destruct (IH (Rmin x z)) as [E|H].
      + rewrite <- E. unfold Rmin. destruct (Rle_dec x z); auto.
      + right. right. exact H. }
  assert (Hhi : In hi data).
  { unfold hi, data. clear. revert x.
    induction rest as [|z rest IH]; intros x; cbn.
    - left. reflexivity.
    - destruct (IH (Rmax x z)) as [E|H].
      + rewrite <- E. unfold Rmax. destruct (Rle_dec x z); auto.
      + right. right. exact H. }
  destruct (Req_dec_T p 0) as [E0|N0].
  - subst p. eexists _, _, lo, hi. split.
    + apply (@solve_zero_branch data epsilon lo). reflexivity.
    + cbn [seaLevel]. auto 6.
  - destruct (Rlt_dec p 100) as [Hlt|Hge].
    + eexists _, _, lo, hi. split.
      * apply solve_quantile_branch; [discriminate|lra].
      * cbn [seaLevel]. repeat split; try assumption; try apply Hb; auto.
        right. left. split; [lra|reflexivity].
    + eexists _, _, lo, hi. split.
      * apply (@solve_full_branch data p epsilon hi); [lra|reflexivity].
      * cbn [seaLevel]. repeat split; try assumption; try apply Hb; auto.
        right. right. split; [lra|reflexivity].
Qed.

End QuantileProps.

(* ================================================================== *)
(** * Properties of the Poisson disk sampler *)
Module PoissonProps.

Import Quantile QuantileProps Poisson.
Local Open Scope R_scope.

(** ** Arithmetic of the background grid *)

Lemma sqrt2_sq : sqrt 2 * sqrt 2 = 2.
Proof. apply sqrt_sqrt. lra. Qed.

Lemma sqrt2_bounds : 1 < sqrt 2 < 2.
Proof.
  pose proof sqrt2_sq. pose proof Rlt_sqrt2_0. split; nra.
Qed.

Lemma sqrt_below a r : 0 <= a -> 0 < r -> (sqrt a < r <-> a < r * r).
Proof.
  intros Ha Hr. rewrite <- (sqrt_square r) at 1 by lra. split.
  - apply sqrt_lt_0_alt.
  - intros H. apply sqrt_lt_1_alt. lra.
Qed.

Lemma floor_div_close c a b :
  0 < c -> Rabs (a - b) < 2 * c ->
  (-2 <= Zfloor (b / c) - Zfloor (a / c) <= 2)%Z.
Proof.
  intros Hc Hab.
  pose proof (Zfloor_bound (a / c)) as Ha.
  pose proof (Zfloor_bound (b / c)) as Hb.
  assert (Hd : Rabs (a / c - b / c) < 2).
  { replace (a / c - b / c) with ((a - b) / c) by (field; lra).
    unfold Rdiv. rewrite Rabs_mult, (Rabs_pos_eq (/ c)).
    - apply (Rmult_lt_reg_r c); [exact Hc|].
      rewrite Rmult_assoc, Rinv_l by lra. lra.
    - left. apply Rinv_0_lt_compat. exact Hc. }
  apply Rabs_def2 in Hd.
  split.
  - apply Z.lt_succ_r. apply lt_IZR. rewrite succ_IZR, minus_IZR. simpl. lra.
  - apply Z.lt_succ_r. apply lt_IZR. rewrite succ_IZR, minus_IZR. simpl. lra.
Qed.

Lemma floor_div_same c a b :
  0 < c -> Zfloor (a / c) = Zfloor (b / c) -> Rabs (a - b) < c.
Proof.
  intros Hc E.
  pose proof (Zfloor_bound (a / c)) as Ha.
  pose proof (Zfloor_bound (b / c)) as Hb.
  rewrite E in Ha.
  assert (Hd : Rabs (a / c - b / c) < 1) by (apply Rabs_def1; lra).
  replace (a - b) with ((a / c - b / c) * c) by (field; lra).
  rewrite Rabs_mult, (Rabs_pos_eq c) by lra. nra.
Qed.

Lemma floor_div_nonneg c a : 0 < c -> 0 <= a -> (0 <= Zfloor (a / c))%Z.
Proof.
  intros Hc Ha. apply (Zfloor_lub 0).
  apply Rmult_le_pos; [exact Ha|]. left. apply Rinv_0_lt_compat. exact Hc.
Qed.

Lemma floor_div_below_ceil c a w :
  0 < c -> a < w -> (Zfloor (a / c) < Zceil (w / c))%Z.
Proof.
  intros Hc Haw.
  pose proof (Zfloor_bound (a / c)) as Ha.
  pose proof (Zceil_bound (w / c)) as Hw.
  assert (a / c < w / c).
  { unfold Rdiv. apply Rmult_lt_compat_r; [|exact Haw].
    apply Rinv_0_lt_compat. exact Hc. }
  apply lt_IZR. lra.
Qed.

Lemma square_le_sum a b : a * a <= a * a + b * b.
Proof. nra. Qed.

Lemma abs_below_of_square a r : 0 < r -> a * a < r * r -> Rabs a < r.
Proof. intros Hr H. apply Rabs_def1; nra. Qed.

Lemma offsets_spec d : In d offsets <-> (-2 <= d <= 2)%Z.
Proof. unfold offsets. cbn. lia. Qed.

(** ** Updating an array *)

Lemma setItem_length {A} (a : list A) i v :
  List.length (setItem a i v) = List.length a.
Proof.
  revert i. induction a as [|x a IH]; intros [|i]; cbn; auto.
Qed.

Lemma setItem_same {A} (a : list A) i v d :
  (i < List.length a)%nat -> nth i (setItem a i v) d = v.
Proof.
  revert i. induction a as [|x a IH]; intros [|i] Hi; cbn in *; try lia.
  - reflexivity.
  - apply IH. lia.
Qed.

Lemma setItem_other {A} (a : list A) i j v d :
  i <> j -> nth j (setItem a i v) d = nth j a d.
Proof.
  revert i j. induction a as [|x a IH]; intros [|i] [|j] Hij; cbn;
    try reflexivity; try congruence.
  apply IH. congruence.
Qed.

Lemma removeAt_length {A} (a : list A) i :
  (i < List.length a)%nat -> S (List.length (removeAt a i)) = List.length a.
Proof.
  revert i. induction a as [|x a IH]; intros [|i] Hi; cbn in *; try lia.
  rewrite IH by lia. reflexivity.
Qed.

Lemma distance_sym p q : distance p q = distance q p.
Proof. unfold distance. f_equal. ring. Qed.

Lemma distance_below p q r :
  0 < r ->
  (distance p q < r
   <-> (px p - px q) * (px p - px q) + (py p - py q) * (py p - py q) < r * r).
Proof.
  intros Hr. unfold distance.
  replace ((px p - px q) ^ 2 + (py p - py q) ^ 2)
    with ((px p - px q) * (px p - px q) + (py p - py q) * (py p - py q)) by ring.
  apply sqrt_below; [|exact Hr].
  apply Rplus_le_le_0_compat; apply Rle_0_sqr.
Qed.

(** ** The invariant of the sampler on a domain of positive size *)
Section Spacing.

Variables width height minDistance : R.
Variable suitabilityMask : option (R -> R -> bool).
Hypothesis Hr : 0 < minDistance.

Local Abbreviation csize := (cellSize minDistance).
Local Abbreviation gwidth := (gridWidth width minDistance).
Local Abbreviation gheight := (gridHeight height minDistance).

Lemma csize_pos : 0 < csize.
Proof.
  unfold cellSize. apply Rmult_lt_0_compat; [exact Hr|].
  apply Rinv_0_lt_compat, Rlt_sqrt2_0.
Qed.

Lemma csize_diagonal : 2 * (csize * csize) = minDistance * minDistance.
Proof.
  pose proof sqrt2_sq as Hs. pose proof Rlt_sqrt2_0 as Hp.
  unfold cellSize.
  transitivity (minDistance * minDistance * (2 / (sqrt 2 * sqrt 2)));
    [field; lra|].
  rewrite Hs. field.
Qed.

Lemma csize_reach : minDistance < 2 * csize.
Proof.
  pose proof sqrt2_bounds as Hs. pose proof csize_pos as Hc.
  assert (E : csize * sqrt 2 = minDistance)
    by (unfold cellSize; field; lra).
  remember csize as c eqn:Hdef. clear Hdef. nra.
Qed.

Definition cellX (p : point) : Z := Zfloor (px p / csize).
Definition cellY (p : point) : Z := Zfloor (py p / csize).
Definition slot (p : point) : nat := Z.to_nat (cellY p * gwidth + cellX p).
Definition inside (p : point) : Prop :=
  0 <= px p < width /\ 0 <= py p < height.

Lemma inside_cell p :
  inside p ->
  (0 <= cellX p < gwidth)%Z /\ (0 <= cellY p < gheight)%Z.
Proof.
  intros [Hx Hy]. pose proof csize_pos as Hc. unfold cellX, cellY.
  repeat split;
    first [ apply floor_div_nonneg; [exact Hc|lra]
          | apply floor_div_below_ceil; [exact Hc|lra] ].
Qed.

Lemma inside_inGrid p :
  inside p -> inGrid width height minDistance (cellX p) (cellY p) = true.
Proof.
  intros Hp. destruct (inside_cell Hp) as [Hx Hy]. unfold inGrid.
  rewrite !andb_true_iff, !Z.leb_le, !Z.ltb_lt. lia.
Qed.

Lemma slot_in_grid p :
  inside p -> (slot p < Z.to_nat (gwidth * gheight))%nat.
Proof.
  intros Hp. destruct (inside_cell Hp) as [Hx Hy]. unfold slot.
  apply Z2Nat.inj_lt; nia.
Qed.

Lemma slot_injective p q :
  inside p -> inside q -> slot p = slot q ->
  cellX p = cellX q /\ cellY p = cellY q.
Proof.
  intros Hp Hq E.
  destruct (inside_cell Hp) as [Hxp Hyp], (inside_cell Hq) as [Hxq Hyq].
  unfold slot in E. apply Z2Nat.inj in E; [|nia|nia].
  assert (cellY p = cellY q) by nia. split; [nia|assumption].
Qed.

(** Two points in one cell of the grid are closer than [minDistance]. *)
Lemma same_cell_close p q :
  cellX p = cellX q -> cellY p = cellY q -> distance p q < minDistance.
Proof.
  intros Ex Ey. pose proof csize_pos as Hc.
  apply distance_below; [exact Hr|].
  pose proof (floor_div_same (px p) (px q) Hc Ex) as Hx.
  pose proof (floor_div_same (py p) (py q) Hc Ey) as Hy.
  apply Rabs_def2 in Hx. apply Rabs_def2 in Hy.
  rewrite <- csize_diagonal.
  assert ((px p - px q) * (px p - px q) < csize * csize) by nra.
  assert ((py p - py q) * (py p - py q) < csize * csize) by nra.
  lra.
Qed.

(** Two points closer than [minDistance] are at most two cells apart in
    each direction. *)
Lemma close_cells p q :
  distance p q < minDistance ->
  (-2 <= cellX q - cellX p <= 2)%Z /\ (-2 <= cellY q - cellY p <= 2)%Z.
Proof.
  intros Hd. pose proof csize_pos as Hc. pose proof csize_reach as Hreach.
  apply distance_below in Hd; [|exact Hr].
  pose proof (Rle_0_sqr (px p - px q)) as Hx.
  pose proof (Rle_0_sqr (py p - py q)) as Hy.
  unfold Rsqr in Hx, Hy.
  split; apply floor_div_close; try exact Hc;
    apply Rlt_trans with minDistance; try exact Hreach;
    apply abs_below_of_square; try exact Hr; lra.
Qed.

Record Inv (st : state) : Prop := {
  inv_len : List.length (grid st) = Z.to_nat (gwidth * gheight);
  inv_inside : forall p, In p (samples st) -> inside p;
  inv_reg : forall p, In p (samples st) ->
            nth (slot p) (grid st) None = Some p;
  inv_far : forall i j p q, (i < j)%nat ->
            nth_error (samples st) i = Some p ->
            nth_error (samples st) j = Some q ->
            minDistance <= distance p q
}.

(** A point accepted by [isValid] is inside the domain, passes the mask and
    is at least [minDistance] away from every sample. *)
Lemma isValid_far st x y :
  Inv st ->
  isValid width height minDistance suitabilityMask (grid st) x y = true ->
  inside (mkPoint x y)
  /\ rejectedByMask suitabilityMask x y = false
  /\ forall p, In p (samples st) -> minDistance <= distance p (mkPoint x y).
Proof.
  intros HI Hv. unfold isValid in Hv.
  destruct (Rltb x 0 || Rleb width x || Rltb y 0 || Rleb height y) eqn:Hb;
    [discriminate|].
  rewrite !orb_false_iff in Hb. destruct Hb as [[[Hx0 Hxw] Hy0] Hyh].
  apply Rltb_false in Hx0, Hy0. apply Rleb_false in Hxw, Hyh.
  destruct (rejectedByMask suitabilityMask x y) eqn:Hm; [discriminate|].
  assert (Hin : inside (mkPoint x y)) by (unfold inside; cbn; lra).
  split; [exact Hin|]. split; [reflexivity|].
  intros p Hp. destruct (Rle_dec minDistance (distance p (mkPoint x y)))
    as [Hfar|Hclose]; [exact Hfar|exfalso].
  assert (Hd : distance (mkPoint x y) p < minDistance)
    by (rewrite distance_sym; lra).
  destruct (close_cells _ _ Hd) as [Hcx Hcy].
  rewrite forallb_forall in Hv.
  specialize (Hv (cellY p - cellY (mkPoint x y))%Z
                 (proj2 (offsets_spec _) Hcy)).
  rewrite forallb_forall in Hv.
  specialize (Hv (cellX p - cellX (mkPoint x y))%Z
                 (proj2 (offsets_spec _) Hcx)).
  unfold neighborOk in Hv.
  change (Zfloor (x / csize)) with (cellX (mkPoint x y)) in Hv.
  change (Zfloor (y / csize)) with (cellY (mkPoint x y)) in Hv.
  replace (cellX (mkPoint x y) + (cellX p - cellX (mkPoint x y)))%Z
    with (cellX p) in Hv by lia.
  replace (cellY (mkPoint x y) + (cellY p - cellY (mkPoint x y)))%Z
    with (cellY p) in Hv by lia.
  rewrite (inside_inGrid (inv_inside HI p Hp)) in Hv.
  change (Z.to_nat (cellY p * gwidth + cellX p)) with (slot p) in Hv.
  rewrite (inv_reg HI p Hp) in Hv.
  apply negb_true_iff, Rltb_false in Hv.
  unfold distance in Hd. cbn [px py] in Hd. lra.
Qed.

(** Adding a point that is inside the domain and far from every sample
    keeps the invariant. *)
Lemma addPoint_inv st x y :
  Inv st -> inside (mkPoint x y) ->
  (forall p, In p (samples st) -> minDistance <= distance p (mkPoint x y)) ->
  Inv (addPoint width height minDistance x y st).
Proof.
  intros HI Hin Hfar.
  assert (Hidx : gridIndex width height minDistance x y
                 = (cellY (mkPoint x y) * gwidth + cellX (mkPoint x y))%Z).
  { unfold gridIndex.
    change (Zfloor (x / csize)) with (cellX (mkPoint x y)).
    change (Zfloor (y / csize)) with (cellY (mkPoint x y)).
    rewrite (inside_inGrid Hin). reflexivity. }
  assert (Hnn : (0 <=? gridIndex width height minDistance x y)%Z = true).
  { rewrite Hidx. destruct (inside_cell Hin). apply Z.leb_le. nia. }
  unfold addPoint. rewrite Hnn, Hidx.
  change (Z.to_nat (cellY (mkPoint x y) * gwidth + cellX (mkPoint x y)))
    with (slot (mkPoint x y)).
  split; cbn [grid samples active calls].
  - rewrite setItem_length. apply (inv_len HI).
  - intros p Hp. apply in_app_iff in Hp. destruct Hp as [Hp|[<-|[]]].
    + apply (inv_inside HI p Hp).
    + exact Hin.
  - intros p Hp. apply in_app_iff in Hp. destruct Hp as [Hp|[<-|[]]].
    + rewrite setItem_other; [apply (inv_reg HI p Hp)|].
      intros E. symmetry in E.
      destruct (slot_injective (inv_inside HI p Hp) Hin E) as [Ex Ey].
      pose proof (same_cell_close _ _ Ex Ey). specialize (Hfar p Hp). lra.
    + apply setItem_same. rewrite (inv_len HI). apply slot_in_grid. exact Hin.
  - intros i j p q Hij Hi Hj.
    assert (Hlen : (j <= List.length (samples st))%nat).
    { assert (Hs : nth_error (samples st ++ [mkPoint x y]) j <> None)
        by (rewrite Hj; discriminate).
      apply nth_error_Some in Hs. rewrite length_app in Hs. cbn in Hs. lia. }
    rewrite nth_error_app1 in Hi by lia.
    destruct (Nat.eq_dec j (List.length (samples st))) as [->|Hne].
    + rewrite nth_error_app2, Nat.sub_diag in Hj by lia. cbn in Hj.
      injection Hj as <-. apply Hfar. eapply nth_error_In. exact Hi.
    + rewrite nth_error_app1 in Hj by lia. exact (inv_far HI Hij Hi Hj).
Qed.

Lemma Inv_same st st' :
  grid st' = grid st -> samples st' = samples st -> Inv st -> Inv st'.
Proof.
  intros Hg Hs [H1 H2 H3 H4]. split; rewrite ?Hg, ?Hs; assumption.
Qed.

Variable rng : nat -> R.
Variable maxAttempts : nat.

(** A point was accepted: [isValid] held for it on the grid of the moment. *)
Definition accepted (q : point) : Prop :=
  exists g,
    isValid width height minDistance suitabilityMask g (px q) (py q) = true.

(** What a run of the inner loop does to the two arrays. *)
Lemma attemptLoop_shape i : forall point st found st' found',
  attemptLoop width height minDistance rng suitabilityMask i point st found
  = Ok (st', found') ->
  exists new,
    samples st' = samples st ++ new
    /\ active st' = active st ++ new
    /\ Forall accepted new
    /\ (new = [] -> grid st' = grid st /\ found' = found)
    /\ (new <> [] -> found' = true).
Proof.
  induction i as [|i IH]; intros point st found st' found' Hrun; cbn in Hrun.
  - injection Hrun as <- <-. exists []. rewrite !app_nil_r.
    repeat split; auto; congruence.
  - destruct point as [p|]; [|discriminate].
    match type of Hrun with
    | (if isValid _ _ _ _ ?g ?x ?y then _ else _) = _ =>
        destruct (isValid width height minDistance suitabilityMask g x y)
          eqn:Hv; set (newX := x) in *; set (newY := y) in *
    end.
    + apply IH in Hrun. destruct Hrun as (new & Hs & Ha & Hn & He & Hne).
      cbn [addPoint samples active grid calls] in Hs, Ha.
      exists (mkPoint newX newY :: new).
      rewrite <- !app_assoc in Hs, Ha. cbn [app] in Hs, Ha.
      split; [exact Hs|]. split; [exact Ha|]. split.
      * constructor; [|exact Hn]. eexists. exact Hv.
      * split; [discriminate|]. intros _.
        destruct new as [|q new]; [apply He; reflexivity|apply Hne; discriminate].
    + apply IH in Hrun. destruct Hrun as (new & Hs & Ha & Hn & He & Hne).
      cbn [samples active grid] in *. exists new. auto.
Qed.

Lemma attemptLoop_inv i : forall point st found st' found',
  attemptLoop width height minDistance rng suitabilityMask i point st found
  = Ok (st', found') ->
  Inv st -> Inv st'.
Proof.
  induction i as [|i IH]; intros point st found st' found' Hrun HI;
    cbn in Hrun.
  - injection Hrun as <- <-. exact HI.
  - destruct point as [p|]; [|discriminate].
    match type of Hrun with
    | (if isValid _ _ _ _ ?g ?x ?y then _ else _) = _ =>
        destruct (isValid width height minDistance suitabilityMask g x y)
          eqn:Hv; set (newX := x) in *; set (newY := y) in *
    end.
    + apply IH in Hrun; [exact Hrun|].
      cbn [grid] in Hv. destruct (isValid_far _ _ HI Hv) as (Hin & _ & Hfar).
      apply addPoint_inv; [|exact Hin|exact Hfar].
      apply (Inv_same (st := st)); [reflexivity|reflexivity|exact HI].
    + apply IH in Hrun; [exact Hrun|].
      apply (Inv_same (st := st)); [reflexivity|reflexivity|exact HI].
Qed.

(** With a point to start from, the inner loop always completes. *)
Lemma attemptLoop_total i : forall p st found,
  exists st' found',
    attemptLoop width height minDistance rng suitabilityMask i (Some p) st found
    = Ok (st', found').
Proof.
  induction i as [|i IH]; intros p st found; cbn.
  - eauto.
  - match goal with
    | |- context [if ?b then _ else _] => destruct b
    end; apply IH.
Qed.

(** The main loop: shape of the result and preservation of the invariant. *)
Lemma activeLoop_shape fuel : forall st st',
  activeLoop width height minDistance rng maxAttempts suitabilityMask fuel st
  = Ok st' ->
  exists new, samples st' = samples st ++ new /\ Forall accepted new.
Proof.
  induction fuel as [|fuel IH]; intros st st' Hrun; cbn in Hrun.
  - destruct (active st); [|discriminate]. injection Hrun as <-.
    exists []. rewrite app_nil_r. auto.
  - destruct (active st) eqn:Ha.
    + injection Hrun as <-. exists []. rewrite app_nil_r. auto.
    + match type of Hrun with
      | bind ?m _ = _ => destruct m as [[st1 found]| | |] eqn:Hat;
                           try discriminate
      end.
      cbn [bind] in Hrun.
      apply attemptLoop_shape in Hat.
      destruct Hat as (new1 & Hs1 & _ & Hn1 & _ & _). cbn [samples] in Hs1.
      destruct found; apply IH in Hrun;
        destruct Hrun as (new2 & Hs2 & Hn2); cbn [samples] in Hs2;
        exists (new1 ++ new2); rewrite Hs2, Hs1, app_assoc;
        (split; [reflexivity|apply Forall_app; auto]).
Qed.

Lemma activeLoop_inv fuel : forall st st',
  activeLoop width height minDistance rng maxAttempts suitabilityMask fuel st
  = Ok st' ->
  Inv st -> Inv st'.
Proof.
  induction fuel as [|fuel IH]; intros st st' Hrun HI; cbn in Hrun.
  - destruct (active st); [|discriminate]. injection Hrun as <-. exact HI.
  - destruct (active st) eqn:Ha.
    + injection Hrun as <-. exact HI.
    + match type of Hrun with
      | bind ?m _ = _ => destruct m as [[st1 found]| | |] eqn:Hat;
                           try discriminate
      end.
      cbn [bind] in Hrun.
      apply attemptLoop_inv in Hat;
        [|apply (Inv_same (st := st)); [reflexivity|reflexivity|exact HI]].
      destruct found; apply IH in Hrun; try exact Hrun; try exact Hat.
      apply (Inv_same (st := st1)); [reflexivity|reflexivity|exact Hat].
Qed.

(** Every sample has a grid cell of its own, so there are at most as many
    samples as cells. *)
Lemma Inv_bound st :
  Inv st -> (List.length (samples st) <= Z.to_nat (gwidth * gheight))%nat.
Proof.
  intros HI.
  assert (Hnd : NoDup (map slot (samples st))).
  { apply NoDup_nth_error. intros i j Hi E.
    rewrite length_map in Hi.
    destruct (nth_error (samples st) i) as [p|] eqn:Hp;
      [|apply nth_error_None in Hp; lia].
    rewrite !nth_error_map, Hp in E. cbn in E.
    destruct (nth_error (samples st) j) as [q|] eqn:Hq; [|discriminate].
    cbn in E. injection E as E.
    destruct (Nat.eq_dec i j) as [|Hne]; [assumption|exfalso].
    assert (Hpi : inside p) by (eapply (inv_inside HI), nth_error_In; eauto).
    assert (Hqi : inside q) by (eapply (inv_inside HI), nth_error_In; eauto).
    destruct (slot_injective Hpi Hqi E) as [Ex Ey].
    pose proof (same_cell_close _ _ Ex Ey) as Hclose.
    destruct (Nat.lt_ge_cases i j) as [Hlt|Hge].
    - pose proof (inv_far HI Hlt Hp Hq). lra.
    - pose proof (inv_far HI (i := j) (j := i) ltac:(lia) Hq Hp) as Hfar.
      rewrite distance_sym in Hfar. lra. }
  assert (Hincl : incl (map slot (samples st))
                       (seq 0 (Z.to_nat (gwidth * gheight)))).
  { intros k Hk. apply in_map_iff in Hk. destruct Hk as (p & <- & Hp).
    apply in_seq. pose proof (slot_in_grid (inv_inside HI p Hp)). lia. }
  pose proof (NoDup_incl_length Hnd Hincl) as Hlen.
  rewrite length_map, length_seq in Hlen. exact Hlen.
Qed.

(** The index drawn in the main loop is inside the active list. *)
Lemma drawn_index_in_range (u : R) (n : nat) :
  0 <= u < 1 -> (0 < n)%nat ->
  (0 <= Zfloor (u * INR n) < Z.of_nat n)%Z.
Proof.
  intros Hu Hn.
  assert (HN : 0 < INR n) by (apply lt_0_INR; exact Hn).
  pose proof (Zfloor_bound (u * INR n)) as Hf.
  split.
  - apply (Zfloor_lub 0). nra.
  - apply lt_IZR. rewrite <- INR_IZR_INZ. nra.
Qed.

Lemma itemAt_in_range {A} (a : list A) index :
  (0 <= index < Z.of_nat (List.length a))%Z ->
  exists v, itemAt a index = Some v.
Proof.
  intros Hi. unfold itemAt.
  replace (index <? 0)%Z with false by (symmetry; apply Z.ltb_ge; lia).
  destruct (nth_error a (Z.to_nat index)) as [v|] eqn:E; [eauto|].
  apply nth_error_None in E. lia.
Qed.

Lemma splice1_length {A} (a : list A) index :
  (0 <= index < Z.of_nat (List.length a))%Z ->
  S (List.length (splice1 a index)) = List.length a.
Proof.
  intros Hi. unfold splice1.
  replace (index <? 0)%Z with false by (symmetry; apply Z.ltb_ge; lia).
  apply removeAt_length. lia.
Qed.

Hypothesis Hrng : forall n, 0 <= rng n < 1.

(** Every iteration of the main loop adds samples, of which there can be at
    most as many as grid cells, or removes a point from the active list:
    the loop completes within the fuel given by that measure. *)
Lemma activeLoop_terminates fuel : forall st,
  Inv st ->
  (2 * (Z.to_nat (gwidth * gheight) - List.length (samples st))
   + List.length (active st) < fuel)%nat ->
  exists st',
    activeLoop width height minDistance rng maxAttempts suitabilityMask fuel st
    = Ok st'.
Proof.
  induction fuel as [|fuel IH]; intros st HI Hm; [lia|].
  cbn. destruct (active st) as [|a0 rest] eqn:Ha; [eauto|].
  rewrite <- Ha in Hm |- *.
  assert (Hlen : (0 < List.length (active st))%nat) by (rewrite Ha; cbn; lia).
  pose proof (drawn_index_in_range (Hrng (calls st)) Hlen) as Hidx.
  destruct (@itemAt_in_range _ _ _ Hidx) as (p & Hp). rewrite Hp.
  set (st0 := mkState (grid st) (samples st) (active st) (S (calls st))).
  destruct (attemptLoop_total maxAttempts p st0 false) as (st1 & found & Hat).
  rewrite Hat. cbn [bind].
  assert (HI0 : Inv st0)
    by (apply (Inv_same (st := st)); [reflexivity|reflexivity|exact HI]).
  pose proof Hat as HI1. apply attemptLoop_inv in HI1; [|exact HI0].
  pose proof Hat as Hsh. apply attemptLoop_shape in Hsh.
  destruct Hsh as (new & Hs & Hact & _ & He & Hne).
  cbn [samples active st0] in Hs, Hact.
  pose proof (Inv_bound HI1) as Hb1. pose proof (Inv_bound HI) as Hb.
  rewrite Hs, length_app in Hb1.
  destruct found.
  - apply IH; [exact HI1|].
    destruct new as [|q new]; [destruct (He eq_refl); discriminate|].
    rewrite Hs, Hact, !length_app. cbn [List.length] in *. lia.
  - destruct new as [|q new]; [|specialize (Hne ltac:(discriminate)); discriminate].
    rewrite app_nil_r in Hs, Hact.
    apply IH.
    + apply (Inv_same (st := st1)); [reflexivity|reflexivity|exact HI1].
    + cbn [samples active]. rewrite Hs, Hact.
      pose proof (@splice1_length _ _ _ Hidx). lia.
Qed.

(** ** The initial point and the whole function *)

Lemma initialPoint_some tries : forall n x y n',
  initialPoint width height rng suitabilityMask tries n = (Some (x, y), n') ->
  rejectedByMask suitabilityMask x y = false
  /\ ((exists k, x = rng k * width /\ y = rng (S k) * height)
      \/ (x = width / 2 /\ y = height / 2)).
Proof.
  induction tries as [|tries IH]; intros n x y n' H; cbn in H.
  - destruct (rejectedByMask suitabilityMask (width / 2) (height / 2)) eqn:E;
      [discriminate|].
    injection H as <- <- <-. split; [exact E|]. right. split; reflexivity.
  - destruct (rejectedByMask suitabilityMask (rng n * width)
                (rng (S n) * height)) eqn:E.
    + apply IH in H. exact H.
    + injection H as <- <- <-. split; [exact E|]. left. eauto.
Qed.

Lemma initialPoint_inside tries n x y n' :
  0 < width -> 0 < height ->
  initialPoint width height rng suitabilityMask tries n = (Some (x, y), n') ->
  inside (mkPoint x y).
Proof.
  intros Hw Hh H. apply initialPoint_some in H.
  destruct H as [_ [(k & -> & ->)|[-> ->]]]; unfold inside; cbn [px py].
  - pose proof (Hrng k). pose proof (Hrng (S k)). nra.
  - lra.
Qed.

Lemma empty_inv g n :
  List.length g = Z.to_nat (gwidth * gheight) -> Inv (mkState g [] [] n).
Proof.
  intros Hg. split; cbn [grid samples].
  - exact Hg.
  - intros p [].
  - intros p [].
  - intros i j p q _ Hi. destruct i; discriminate.
Qed.

Lemma newGrid_ok n g :
  newGrid n = Ok g -> List.length g = Z.to_nat n.
Proof.
  unfold newGrid. destruct ((n <? 0)%Z || (4294967295 <? n)%Z); [discriminate|].
  intros H. injection H as <-. apply repeat_length.
Qed.

(** On a domain of positive size the final state satisfies the invariant. *)
Lemma run_inv fuel st :
  0 < width -> 0 < height ->
  run width height minDistance rng maxAttempts suitabilityMask fuel = Ok st ->
  Inv st.
Proof.
  intros Hw Hh Hrun. unfold run in Hrun.
  destruct (Reqb minDistance 0); [discriminate|].
  destruct (newGrid (gwidth * gheight)) as [g| | |] eqn:Hg; try discriminate.
  cbn [bind] in Hrun. apply newGrid_ok in Hg.
  destruct (initialPoint width height rng suitabilityMask 100 0)
    as [[[x y]|] n] eqn:Hinit.
  - apply activeLoop_inv in Hrun; [exact Hrun|].
    apply addPoint_inv.
    + apply empty_inv. exact Hg.
    + eapply initialPoint_inside; eauto.
    + intros p [].
  - injection Hrun as <-. apply empty_inv. exact Hg.
Qed.

(** Every sample passed the mask. *)
Lemma run_mask fuel st :
  run width height minDistance rng maxAttempts suitabilityMask fuel = Ok st ->
  Forall (fun p => rejectedByMask suitabilityMask (px p) (py p) = false)
         (samples st).
Proof.
  intros Hrun. unfold run in Hrun.
  destruct (Reqb minDistance 0); [discriminate|].
  destruct (newGrid (gwidth * gheight)) as [g| | |] eqn:Hg; try discriminate.
  cbn [bind] in Hrun.
  assert (Hacc : forall new, Forall accepted new ->
            Forall (fun p => rejectedByMask suitabilityMask (px p) (py p) = false)
                   new).
  { intros new. apply Forall_impl. intros p [g' Hv]. unfold isValid in Hv.
    destruct (Rltb (px p) 0 || Rleb width (px p) || Rltb (py p) 0
              || Rleb height (py p)); [discriminate|].
    destruct (rejectedByMask suitabilityMask (px p) (py p));
      [discriminate|reflexivity]. }
  destruct (initialPoint width height rng suitabilityMask 100 0)
    as [[[x y]|] n] eqn:Hinit.
  - apply activeLoop_shape in Hrun. destruct Hrun as (new & -> & Hnew).
    cbn [addPoint samples app]. constructor.
    + apply initialPoint_some in Hinit. apply Hinit.
    + apply Hacc. exact Hnew.
  - injection Hrun as <-. constructor.
Qed.

(** On a domain without points [isValid] never holds, and the result has at
    most the initial point. *)
Lemma run_empty_domain fuel st :
  ~ (0 < width /\ 0 < height) ->
  run width height minDistance rng maxAttempts suitabilityMask fuel = Ok st ->
  (List.length (samples st) <= 1)%nat.
Proof.
  intros Hdom Hrun. unfold run in Hrun.
  destruct (Reqb minDistance 0); [discriminate|].
  destruct (newGrid (gwidth * gheight)) as [g| | |] eqn:Hg; try discriminate.
  cbn [bind] in Hrun.
  assert (Hnone : forall new, Forall accepted new -> new = []).
  { intros [|p new] H; [reflexivity|exfalso].
    inversion H as [|? ? [g' Hv] _]; subst. unfold isValid in Hv.
    destruct (Rltb (px p) 0 || Rleb width (px p) || Rltb (py p) 0
              || Rleb height (py p)) eqn:Hb; [discriminate|].
    rewrite !orb_false_iff in Hb. destruct Hb as [[[Hx0 Hxw] Hy0] Hyh].
    apply Rltb_false in Hx0, Hy0. apply Rleb_false in Hxw, Hyh.
    apply Hdom. lra. }
  destruct (initialPoint width height rng suitabilityMask 100 0)
    as [[[x y]|] n] eqn:Hinit.
  - apply activeLoop_shape in Hrun. destruct Hrun as (new & -> & Hnew).
    rewrite (Hnone new Hnew). cbn. lia.
  - injection Hrun as <-. cbn. lia.
Qed.

(** Pairwise spacing of the returned points. *)
Lemma run_spacing fuel st :
  run width height minDistance rng maxAttempts suitabilityMask fuel = Ok st ->
  forall i j p q, i <> j ->
    nth_error (samples st) i = Some p -> nth_error (samples st) j = Some q ->
    minDistance <= distance p q.
Proof.
  intros Hrun i j p q Hij Hp Hq.
  destruct (Rlt_dec 0 width) as [Hw|Hw];
    [destruct (Rlt_dec 0 height) as [Hh|Hh]|].
  - assert (HI : Inv st) by (eapply run_inv; eauto).
    destruct (Nat.lt_ge_cases i j) as [Hlt|Hge].
    + exact (inv_far HI Hlt Hp Hq).
    + rewrite distance_sym. apply (inv_far HI (i := j) (j := i)); auto. lia.
  - exfalso.
    assert (Hlen : (List.length (samples st) <= 1)%nat)
      by (eapply run_empty_domain; [|exact Hrun]; tauto).
    assert (nth_error (samples st) i <> None) as Hi by congruence.
    assert (nth_error (samples st) j <> None) as Hj by congruence.
    apply nth_error_Some in Hi, Hj. lia.
  - exfalso.
    assert (Hlen : (List.length (samples st) <= 1)%nat)
      by (eapply run_empty_domain; [|exact Hrun]; tauto).
    assert (nth_error (samples st) i <> None) as Hi by congruence.
    assert (nth_error (samples st) j <> None) as Hj by congruence.
    apply nth_error_Some in Hi, Hj. lia.
Qed.

(** When the first point drawn passes the mask, the result is not empty. *)
Lemma run_nonempty fuel st :
  run width height minDistance rng maxAttempts suitabilityMask fuel = Ok st ->
  rejectedByMask suitabilityMask (rng 0%nat * width) (rng 1%nat * height)
  = false ->
  samples st <> [].
Proof.
  intros Hrun Hfirst. unfold run in Hrun.
  destruct (Reqb minDistance 0); [discriminate|].
  destruct (newGrid (gwidth * gheight)) as [g| | |]; try discriminate.
  cbn [bind] in Hrun.
  change (initialPoint width height rng suitabilityMask 100 0)
    with (if rejectedByMask suitabilityMask (rng 0%nat * width)
               (rng 1%nat * height)
          then initialPoint width height rng suitabilityMask 99 2
          else (Some (rng 0%nat * width, rng 1%nat * height), 2%nat)) in Hrun.
  rewrite Hfirst in Hrun.
  apply activeLoop_shape in Hrun. destruct Hrun as (new & Hs & _).
  rewrite Hs. cbn [addPoint samples app]. discriminate.
Qed.

(** The grid of a domain of positive size has at least one cell. *)
Lemma grid_positive :
  0 < width -> 0 < height -> (1 <= gwidth)%Z /\ (1 <= gheight)%Z.
Proof.
  intros Hw Hh. pose proof csize_pos as Hc.
  assert (Hiv : 0 < / csize) by (apply Rinv_0_lt_compat; exact Hc).
  pose proof (Zceil_bound (width / csize)) as H1.
  pose proof (Zceil_bound (height / csize)) as H2.
  unfold gridWidth, gridHeight.
  assert (0 < width / csize) by (unfold Rdiv; nra).
  assert (0 < height / csize) by (unfold Rdiv; nra).
  split; apply (Zlt_le_succ 0), lt_IZR; lra.
Qed.

(** The sampler returns, within a number of iterations of the main loop that
    is twice the number of grid cells, unless the grid cannot be allocated. *)
Lemma run_terminates fuel :
  0 < width -> 0 < height ->
  (2 * Z.to_nat (gwidth * gheight) <= fuel)%nat ->
  if (4294967295 <? gwidth * gheight)%Z
  then run width height minDistance rng maxAttempts suitabilityMask fuel
       = Throws
  else exists st,
       run width height minDistance rng maxAttempts suitabilityMask fuel = Ok st
       /\ (List.length (samples st) <= Z.to_nat (gwidth * gheight))%nat.
Proof.
  intros Hw Hh Hfuel. destruct (grid_positive Hw Hh) as [Hgw Hgh].
  unfold run. rewrite (proj2 (Reqb_false minDistance 0)) by lra.
  unfold newGrid.
  replace (gwidth * gheight <? 0)%Z with false
    by (symmetry; apply Z.ltb_ge; nia).
  cbn [orb]. destruct (4294967295 <? gwidth * gheight)%Z; [reflexivity|].
  cbn [bind].
  set (g := repeat None (Z.to_nat (gwidth * gheight))).
  assert (Hg : List.length g = Z.to_nat (gwidth * gheight))
    by apply repeat_length.
  destruct (initialPoint width height rng suitabilityMask 100 0)
    as [[[x y]|] n] eqn:Hinit.
  - assert (HI : Inv (addPoint width height minDistance x y (mkState g [] [] n))).
    { apply addPoint_inv.
      - apply empty_inv. exact Hg.
      - eapply initialPoint_inside; eauto.
      - intros p []. }
    destruct (@activeLoop_terminates fuel _ HI) as (st' & Hrun).
    + cbn [addPoint samples active app List.length].
      assert (1 <= Z.to_nat (gwidth * gheight))%nat by (apply (Z2Nat.inj_le 1); nia).
      lia.
    + exists st'. split; [exact Hrun|].
      apply Inv_bound. eapply activeLoop_inv; eauto.
  - eexists. split; [reflexivity|]. cbn. lia.
Qed.

End Spacing.

(** ** More fuel does not change the result *)

Lemma activeLoop_fuel width height minDistance rng maxAttempts suitabilityMask
  fuel : forall fuel' st st',
  (fuel <= fuel')%nat ->
  activeLoop width height minDistance rng maxAttempts suitabilityMask fuel st
  = Ok st' ->
  activeLoop width height minDistance rng maxAttempts suitabilityMask fuel' st
  = Ok st'.
Proof.
  induction fuel as [|fuel IH]; intros fuel' st st' Hle Hrun.
  - cbn in Hrun. destruct (active st) eqn:Ha; [|discriminate].
    destruct fuel'; cbn; rewrite Ha; exact Hrun.
  - destruct fuel' as [|fuel']; [lia|]. cbn in Hrun |- *.
    destruct (active st); [exact Hrun|].
    match type of Hrun with
    | bind ?m _ = _ => destruct m as [[st1 found]| | |]; try discriminate
    end.
    cbn [bind] in Hrun |- *.
    destruct found; apply IH; try exact Hrun; lia.
Qed.

Lemma run_fuel width height minDistance rng maxAttempts suitabilityMask
  fuel fuel' st :
  (fuel <= fuel')%nat ->
  run width height minDistance rng maxAttempts suitabilityMask fuel = Ok st ->
  run width height minDistance rng maxAttempts suitabilityMask fuel' = Ok st.
Proof.
  intros Hle. unfold run.
  destruct (Reqb minDistance 0); [discriminate|].
  destruct (newGrid (gridWidth width minDistance * gridHeight height minDistance))
    as [g| | |]; try discriminate.
  cbn [bind].
  destruct (initialPoint width height rng suitabilityMask 100 0)
    as [[[x y]|] n]; [|auto].
  apply activeLoop_fuel. exact Hle.
Qed.

(** ** The claims about [poissonDiskSampling] *)

Lemma poissonDiskSampling_run width height minDistance rng maxAttempts
  suitabilityMask fuel points :
  poissonDiskSampling width height minDistance rng maxAttempts suitabilityMask
    fuel = Ok points ->
  exists st,
    run width height minDistance rng maxAttempts suitabilityMask fuel = Ok st
    /\ points = samples st.
Proof.
  unfold poissonDiskSampling.
  destruct (run width height minDistance rng maxAttempts suitabilityMask fuel)
    as [st| | |]; try discriminate.
  cbn [bind]. intros H. injection H as <-. eauto.
Qed.

(** The grid of the unit square with minimum distance 1 has 2 x 2 cells. *)
Lemma unit_grid : gridWidth 1 1 = 2%Z /\ gridHeight 1 1 = 2%Z.
Proof.
  pose proof sqrt2_bounds as Hs.
  assert (E : 1 / cellSize 1 = sqrt 2) by (unfold cellSize; field; lra).
  unfold gridWidth, gridHeight. rewrite E.
  split; apply Zceil_eq; lra.
Qed.

Lemma unit_square_sampled :
  exists points,
    poissonDiskSampling 1 1 1 (fun _ => 0) 30 None 8 = Ok points.
Proof.
  destruct unit_grid as [Hgw Hgh].
  assert (Hrng : forall n : nat, 0 <= (fun _ : nat => 0) n < 1) by (intros; lra).
  pose proof (@run_terminates 1 1 1 None ltac:(lra) (fun _ => 0) 30 Hrng 8
                ltac:(lra) ltac:(lra)) as H.
  rewrite Hgw, Hgh in H. cbn in H.
  destruct (H ltac:(lia)) as (st & Hrun & _).
  exists (samples st). unfold poissonDiskSampling. rewrite Hrun. reflexivity.
Defined.

End PoissonProps.

(* ================================================================== *)
(** * Properties of tree placement *)
Module TreesProps.

Import Quantile QuantileProps Trees.
Local Open Scope R_scope.

(** ** Reading the masks *)

Lemma get_map_indexes (f : Z -> R) (n i : Z) :
  get (map f (indexes n)) i
  = if ((0 <=? i) && (i <? n))%Z then f i else 0.
Proof.
  unfold get, indexes.
  destruct (i <? 0)%Z eqn:Hneg.
  - apply Z.ltb_lt in Hneg.
    replace (0 <=? i)%Z with false by (symmetry; apply Z.leb_gt; lia).
    reflexivity.
  - apply Z.ltb_ge in Hneg.
    replace (0 <=? i)%Z with true by (symmetry; apply Z.leb_le; lia).
    cbn [andb]. rewrite map_map.
    destruct (i <? n)%Z eqn:Hlt.
    + apply Z.ltb_lt in Hlt.
      rewrite (nth_indep _ 0 (f (Z.of_nat 0)))
        by (rewrite length_map, length_seq; lia).
      rewrite (map_nth (fun k => f (Z.of_nat k))), seq_nth by lia.
      cbn [Nat.add]. rewrite Z2Nat.id by lia. reflexivity.
    + apply Z.ltb_ge in Hlt. apply nth_overflow.
      rewrite length_map, length_seq. lia.
Qed.

Lemma suitabilityFn_true mask width height cellSize x z :
  suitabilityFn mask width height cellSize x z = true ->
  (0 <= Zfloor (x / cellSize) < width)%Z
  /\ (0 <= Zfloor (z / cellSize) < height)%Z
  /\ get mask (Zfloor (z / cellSize) * width + Zfloor (x / cellSize)) <> 0.
Proof.
  unfold suitabilityFn. intros H.
  set (cellX := Zfloor (x / cellSize)) in *.
  set (cellZ := Zfloor (z / cellSize)) in *.
  destruct ((cellX <? 0)%Z || (width <=? cellX)%Z || (cellZ <? 0)%Z
            || (height <=? cellZ)%Z) eqn:Hb; [discriminate|].
  rewrite !orb_false_iff in Hb. destruct Hb as [[[H1 H2] H3] H4].
  apply Z.ltb_ge in H1, H3. apply Z.leb_gt in H2, H4.
  apply negb_true_iff, Reqb_false in H. repeat split; try lia. exact H.
Qed.

Lemma strict_cell elevation slopes width height seaLevel config i :
  get (createTreeSuitabilityMask elevation slopes width height seaLevel config) i
  <> 0 ->
  strictMinHeight seaLevel config <= get elevation i
  /\ get elevation i <= treeMaxHeight config
  /\ get slopes i <= strictMaxSlope config.
Proof.
  unfold createTreeSuitabilityMask. rewrite get_map_indexes.
  destruct ((0 <=? i)%Z && (i <? width * height)%Z); [|congruence].
  destruct (i <? Z.of_nat (List.length elevation))%Z; [|congruence].
  unfold suitableCell.
  destruct (Rltb (get elevation i) (strictMinHeight seaLevel config)) eqn:E1;
    [congruence|].
  destruct (Rltb (treeMaxHeight config) (get elevation i)) eqn:E2;
    [congruence|].
  destruct (Rltb (strictMaxSlope config) (get slopes i)) eqn:E3;
    [congruence|].
  intros _. apply Rltb_false in E1, E2, E3. auto.
Qed.

Lemma relaxed_cell elevation slopes seaLevel config len i :
  get (relaxedMask elevation slopes seaLevel config len) i <> 0 ->
  relaxedMinHeight seaLevel < get elevation i
  /\ get elevation i < treeMaxHeight config
  /\ get slopes i <= relaxedMaxSlope.
Proof.
  unfold relaxedMask. rewrite get_map_indexes.
  destruct ((0 <=? i)%Z && (i <? Z.of_nat len)%Z); [|congruence].
  unfold relaxedCell.
  destruct (Rltb (relaxedMinHeight seaLevel) (get elevation i)) eqn:E1;
    [|cbn; congruence].
  destruct (Rltb (get elevation i) (treeMaxHeight config)) eqn:E2;
    [|cbn; congruence].
  destruct (Rleb (get slopes i) relaxedMaxSlope) eqn:E3; [|cbn; congruence].
  intros _. apply Rltb_true in E1, E2. apply Rleb_true in E3. auto.
Qed.

Lemma chooseMask_cases t config :
  chooseMask t config =
  match countSuitable (strictMaskOf t config) with
  | S _ => Some (strictMaskOf t config, countSuitable (strictMaskOf t config))
  | O =>
      match countSuitable (relaxedMaskOf t config) with
      | O => None
      | S _ => Some (relaxedMaskOf t config,
                     countSuitable (relaxedMaskOf t config))
      end
  end.
Proof. reflexivity. Qed.

(** ** The positions kept by the selection *)

Lemma insertByScore_in p l q : In q (insertByScore p l) -> q = p \/ In q l.
Proof.
  induction l as [|r l IH]; cbn.
  - intros [<-|[]]. auto.
  - destruct (Rltb (scoreOf p) (scoreOf r)); cbn.
    + intros [<-|H]; auto. destruct (IH H); auto.
    + intros [<-|[<-|H]]; auto.
Qed.

Lemma sortByScore_in l q : In q (sortByScore l) -> In q l.
Proof.
  induction l as [|p l IH]; cbn; [auto|].
  intros H. apply insertByScore_in in H. destruct H as [->|H]; auto.
Qed.

Lemma insertByScore_length p l :
  List.length (insertByScore p l) = S (List.length l).
Proof.
  induction l as [|r l IH]; cbn; [reflexivity|].
  destruct (Rltb (scoreOf p) (scoreOf r)); cbn; [rewrite IH|]; reflexivity.
Qed.

Lemma sortByScore_length l : List.length (sortByScore l) = List.length l.
Proof.
  induction l as [|p l IH]; cbn; [reflexivity|].
  rewrite insertByScore_length, IH. reflexivity.
Qed.

Lemma scoreCandidates_in rng candidates elevation width height cellSize :
  forall n q,
  In q (scoreCandidates rng n candidates elevation width height cellSize) ->
  exists pos, In pos candidates
    /\ x q = Poisson.px pos /\ z q = Poisson.py pos
    /\ placedHeight q
       = getHeightAt (x q) (z q) elevation width height cellSize.
Proof.
  induction candidates as [|pos rest IH]; intros n q; cbn; [intros []|].
  intros [<-|H].
  - exists pos. cbn. auto.
  - destruct (IH _ _ H) as (pos' & Hin & Hq). exists pos'. auto.
Qed.

Lemma scoreCandidates_length rng candidates elevation width height cellSize :
  forall n,
  List.length (scoreCandidates rng n candidates elevation width height cellSize)
  = List.length candidates.
Proof.
  induction candidates as [|pos rest IH]; intros n; cbn; [reflexivity|].
  rewrite IH. reflexivity.
Qed.

Lemma firstn_in {A} (n : nat) (l : list A) (a : A) :
  In a (firstn n l) -> In a l.
Proof.
  intros H. rewrite <- (firstn_skipn n l). apply in_or_app. left. exact H.
Qed.

Lemma selectBest_in candidates targetCount elevation width height cellSize
  rng n q :
  In q (selectBestTreePositions candidates targetCount elevation width height
          cellSize rng n) ->
  exists pos, In pos candidates
    /\ x q = Poisson.px pos /\ z q = Poisson.py pos
    /\ placedHeight q
       = getHeightAt (x q) (z q) elevation width height cellSize.
Proof.
  unfold selectBestTreePositions.
  destruct (Z.of_nat (List.length candidates) <=? targetCount)%Z.
  - intros H. apply in_map_iff in H. destruct H as (pos & <- & Hin).
    exists pos. cbn. auto.
  - intros H. apply firstn_in, sortByScore_in in H.
    eapply scoreCandidates_in. exact H.
Qed.

Lemma selectBest_nonempty candidates targetCount elevation width height
  cellSize rng n :
  candidates <> [] -> (1 <= targetCount)%Z ->
  selectBestTreePositions candidates targetCount elevation width height
    cellSize rng n <> [].
Proof.
  intros Hc Ht. unfold selectBestTreePositions.
  destruct (Z.of_nat (List.length candidates) <=? targetCount)%Z.
  - destruct candidates; [congruence|discriminate].
  - intros E. apply (f_equal (@List.length _)) in E.
    rewrite length_firstn, sortByScore_length, scoreCandidates_length in E.
    destruct candidates; [congruence|]. cbn [List.length] in E. lia.
Qed.

(** ** Placements lie in suitable cells *)

Lemma placement_passes_mask t config rng fuel placements p :
  generateTreePositions t config rng fuel = Ok placements ->
  In p placements ->
  exists mask count,
    chooseMask t config = Some (mask, count)
    /\ suitabilityFn mask (width t) (height t) (cellSize t) (x p) (z p) = true
    /\ placedHeight p
       = getHeightAt (x p) (z p) (elevation t) (width t) (height t) (cellSize t).
Proof.
  unfold generateTreePositions. intros Hrun Hp.
  destruct (chooseMask t config) as [[mask count]|]; [|].
  - destruct (Rleb (orElse (FOREST_PERCENTAGE config) 0) 0).
    + injection Hrun as <-. destruct Hp.
    + match type of Hrun with
      | bind ?m _ = _ => destruct m as [st| | |] eqn:Hst; try discriminate
      end.
      cbn [bind] in Hrun. injection Hrun as <-.
      apply selectBest_in in Hp. destruct Hp as (pos & Hin & Hx & Hz & Hh).
      apply PoissonProps.run_mask in Hst. rewrite Forall_forall in Hst.
      specialize (Hst pos Hin). cbn [Poisson.rejectedByMask] in Hst.
      apply negb_false_iff in Hst. rewrite <- Hx, <- Hz in Hst.
      exists mask, count. auto.
  - injection Hrun as <-. destruct Hp.
Qed.

(** ** The relaxation pass *)

(** ** A terrain of constant height *)

Lemma in_indexes n i : In i (indexes n) <-> (0 <= i < n)%Z.
Proof.
  unfold indexes. rewrite in_map_iff. split.
  - intros (k & <- & Hk). apply in_seq in Hk. lia.
  - intros Hi. exists (Z.to_nat i). split; [lia|]. apply in_seq. lia.
Qed.

Lemma indexes_length n : List.length (indexes n) = Z.to_nat n.
Proof. unfold indexes. rewrite length_map, length_seq. reflexivity. Qed.

Lemma get_repeat h0 n i :
  (0 <= i < Z.of_nat n)%Z -> get (repeat h0 n) i = h0.
Proof.
  intros Hi. unfold get.
  replace (i <? 0)%Z with false by (symmetry; apply Z.ltb_ge; lia).
  rewrite (nth_indep _ 0 h0) by (rewrite repeat_length; lia).
  apply nth_repeat.
Qed.

Lemma get_all_zero l i : (forall v, In v l -> v = 0) -> get l i = 0.
Proof.
  intros H. unfold get. destruct (i <? 0)%Z; [reflexivity|].
  destruct (Nat.lt_ge_cases (Z.to_nat i) (List.length l)) as [Hlt|Hge].
  - apply H, nth_In. exact Hlt.
  - apply nth_overflow. exact Hge.
Qed.

Section Flat.

Variables (h0 level : R) (w h : Z) (csize : R).
Hypothesis Hw : (0 < w)%Z.
Hypothesis Hh : (0 < h)%Z.

Local Abbreviation flat := (flatTerrain h0 level w h csize).

Lemma flat_get i : (0 <= i < w * h)%Z -> get (elevation flat) i = h0.
Proof. intros Hi. cbn [flatTerrain elevation]. apply get_repeat. lia. Qed.

Lemma flat_slopeAt x y :
  (0 <= x < w)%Z -> (0 <= y < h)%Z ->
  slopeAt (elevation flat) w h csize x y = 0.
Proof.
  intros Hx Hy. unfold slopeAt.
  assert (Hc : get (elevation flat) (y * w + x) = h0)
    by (apply flat_get; nia).
  assert (Hl : (if (0 <? x)%Z then get (elevation flat) (y * w + x - 1)
                else get (elevation flat) (y * w + x)) = h0).
  { destruct (0 <? x)%Z eqn:E; [|exact Hc].
    apply Z.ltb_lt in E. apply flat_get. nia. }
  assert (Hri : (if (x <? w - 1)%Z then get (elevation flat) (y * w + x + 1)
                 else get (elevation flat) (y * w + x)) = h0).
  { destruct (x <? w - 1)%Z eqn:E; [|exact Hc].
    apply Z.ltb_lt in E. apply flat_get. nia. }
  assert (Hu : (if (0 <? y)%Z then get (elevation flat) (y * w + x - w)
                else get (elevation flat) (y * w + x)) = h0).
  { destruct (0 <? y)%Z eqn:E; [|exact Hc].
    apply Z.ltb_lt in E. apply flat_get. nia. }
  assert (Hd : (if (y <? h - 1)%Z then get (elevation flat) (y * w + x + w)
                else get (elevation flat) (y * w + x)) = h0).
  { destruct (y <? h - 1)%Z eqn:E; [|exact Hc].
    apply Z.ltb_lt in E. apply flat_get. nia. }
  rewrite Hl, Hri, Hu, Hd.
  replace ((h0 - h0) / (2 * csize)) with 0 by (unfold Rdiv; ring).
  replace (0 * 0 + 0 * 0) with 0 by ring.
  rewrite sqrt_0, atan_0. ring.
Qed.

Lemma flat_slopes i : get (slopesOf flat) i = 0.
Proof.
  apply get_all_zero. intros v Hv.
  unfold slopesOf, calculateSlopes in Hv. cbn [flatTerrain width height cellSize] in Hv.
  apply in_flat_map in Hv. destruct Hv as (y & Hy & Hv).
  apply in_map_iff in Hv. destruct Hv as (x & <- & Hx).
  apply in_indexes in Hx, Hy. apply flat_slopeAt; assumption.
Qed.

Lemma strictMask_length config :
  List.length (strictMaskOf flat config) = Z.to_nat (w * h).
Proof.
  unfold strictMaskOf, createTreeSuitabilityMask.
  rewrite length_map, indexes_length. reflexivity.
Qed.

(** Below the strict minimum height, or above the maximum height, no cell
    is strictly suitable. *)
Lemma flat_strict_empty config :
  h0 < strictMinHeight level config \/ treeMaxHeight config < h0 ->
  countSuitable (strictMaskOf flat config) = O.
Proof.
  intros Hout. unfold countSuitable. apply count_none. intros v Hv.
  unfold strictMaskOf, createTreeSuitabilityMask in Hv.
  apply in_map_iff in Hv. destruct Hv as (i & <- & Hi).
  apply in_indexes in Hi. cbn [flatTerrain width height seaLevel] in Hi.
  destruct (i <? Z.of_nat (List.length (elevation flat)))%Z;
    [|apply Rltb_false; lra].
  rewrite flat_get by exact Hi. unfold suitableCell.
  cbn [flatTerrain seaLevel].
  destruct (Rltb h0 (strictMinHeight level config)) eqn:E1;
    [apply Rltb_false; lra|].
  apply Rltb_false in E1.
  destruct Hout as [Hlow|Hhigh]; [lra|].
  rewrite (proj2 (Rltb_true _ _) Hhigh). apply Rltb_false. lra.
Qed.

(** Between the relaxed bounds every cell is suitable after relaxation. *)
Lemma flat_relaxed_full config i :
  relaxedMinHeight level < h0 -> h0 < treeMaxHeight config ->
  (0 <= i < w * h)%Z ->
  get (relaxedMaskOf flat config) i = 1.
Proof.
  intros Hlo Hhi Hi. unfold relaxedMaskOf, relaxedMask.
  rewrite get_map_indexes, strictMask_length.
  replace ((0 <=? i)%Z && (i <? Z.of_nat (Z.to_nat (w * h)))%Z) with true
    by (symmetry; apply andb_true_iff; split;
        [apply Z.leb_le|apply Z.ltb_lt]; lia).
  rewrite flat_get, flat_slopes by exact Hi. unfold relaxedCell.
  cbn [flatTerrain seaLevel].
  rewrite (proj2 (Rltb_true _ _) Hlo), (proj2 (Rltb_true _ _) Hhi).
  unfold relaxedMaxSlope. rdecide. reflexivity.
Qed.

Lemma flat_relaxed_count config :
  relaxedMinHeight level < h0 -> h0 < treeMaxHeight config ->
  countSuitable (relaxedMaskOf flat config) = Z.to_nat (w * h).
Proof.
  intros Hlo Hhi. unfold countSuitable.
  rewrite count_all.
  - unfold relaxedMaskOf, relaxedMask.
    rewrite length_map, indexes_length, strictMask_length. lia.
  - intros v Hv. unfold relaxedMaskOf, relaxedMask in Hv.
    apply in_map_iff in Hv. destruct Hv as (i & <- & Hi).
    apply in_indexes in Hi. rewrite strictMask_length in Hi.
    rewrite flat_get, flat_slopes by lia. unfold relaxedCell.
    cbn [flatTerrain seaLevel].
    rewrite (proj2 (Rltb_true _ _) Hlo), (proj2 (Rltb_true _ _) Hhi).
    unfold relaxedMaxSlope. rdecide. cbn. apply Rltb_true. lra.
Qed.

(** The interpolated height of a flat terrain is its height. *)
Lemma flat_getHeightAt worldX worldZ :
  getHeightAt worldX worldZ (elevation flat) w h csize = h0.
Proof.
  unfold getHeightAt.
  rewrite !flat_get by nia. ring.
Qed.

(** A mask without a zero inside the grid accepts every point of the map. *)
Lemma suitabilityFn_full mask worldX worldZ :
  0 < csize ->
  0 <= worldX < IZR w * csize -> 0 <= worldZ < IZR h * csize ->
  (forall i, (0 <= i < w * h)%Z -> get mask i <> 0) ->
  suitabilityFn mask w h csize worldX worldZ = true.
Proof.
  intros Hc Hx Hz Hmask. unfold suitabilityFn.
  assert (Hiv : 0 < / csize) by (apply Rinv_0_lt_compat; exact Hc).
  assert (Hcell : forall v n, 0 <= v < IZR n * csize ->
                              (0 <= Zfloor (v / csize) < n)%Z).
  { intros v n Hv. pose proof (Zfloor_bound (v / csize)) as Hf.
    assert (Hq : 0 <= v / csize < IZR n).
    { split.
      - unfold Rdiv. apply Rmult_le_pos; lra.
      - apply (Rmult_lt_reg_r csize); [exact Hc|].
        unfold Rdiv. rewrite Rmult_assoc, Rinv_l by lra. lra. }
    split; [apply (Zfloor_lub 0); lra|apply lt_IZR; lra]. }
  pose proof (Hcell _ _ Hx) as Hcx. pose proof (Hcell _ _ Hz) as Hcz.
  replace ((Zfloor (worldX / csize) <? 0)%Z) with false
    by (symmetry; apply Z.ltb_ge; lia).
  replace ((w <=? Zfloor (worldX / csize))%Z) with false
    by (symmetry; apply Z.leb_gt; lia).
  replace ((Zfloor (worldZ / csize) <? 0)%Z) with false
    by (symmetry; apply Z.ltb_ge; lia).
  replace ((h <=? Zfloor (worldZ / csize))%Z) with false
    by (symmetry; apply Z.leb_gt; lia).
  cbn [orb]. apply negb_true_iff, Reqb_false, Hmask. nia.
Qed.

End Flat.

(** ** The test inputs *)

Lemma treesStream_range n : 0 <= treesStream n < 1.
Proof. unfold treesStream, RNG.streamSequence. apply RNGProps.nthNext_range. Qed.

Lemma strip_grid :
  Poisson.gridWidth (IZR 3 * 1) 3 = 2%Z /\ Poisson.gridHeight (IZR 1 * 1) 3 = 1%Z.
Proof.
  pose proof PoissonProps.sqrt2_bounds as Hs.
  assert (E1 : IZR 3 * 1 / Poisson.cellSize 3 = sqrt 2)
    by (unfold Poisson.cellSize; field; lra).
  assert (E2 : IZR 1 * 1 / Poisson.cellSize 3 = sqrt 2 / 3)
    by (unfold Poisson.cellSize; field; lra).
  unfold Poisson.gridWidth, Poisson.gridHeight. rewrite E1, E2.
  split; apply Zceil_eq; lra.
Qed.

Lemma strip_mask :
  chooseMask lowStrip defaultTrees
  = Some (relaxedMaskOf lowStrip defaultTrees, 3%nat).
Proof.
  rewrite chooseMask_cases. unfold lowStrip.
  rewrite flat_strict_empty
    by (try lia; left; unfold strictMinHeight, defaultTrees, orElse; cbn; lra).
  rewrite flat_relaxed_count
    by (try lia; unfold relaxedMinHeight, treeMaxHeight, defaultTrees, orElse;
        cbn; lra).
  reflexivity.
Qed.

Lemma strip_target : Zfloor (INR 3 * 100 / 100 / 3) = 1%Z.
Proof.
  apply Zfloor_eq. rewrite INR_IZR_INZ. change (Z.of_nat 3) with 3%Z. lra.
Qed.

(** On the strip the relaxation pass is in force and the placement made has
    the height of the terrain, 1.5 m. *)
Lemma strip_placements :
  exists placements p,
    generateTreePositions lowStrip defaultTrees treesStream 4 = Ok placements
    /\ In p placements
    /\ forall q, In q placements -> placedHeight q = 3 / 2.
Proof.
  destruct strip_grid as [Hgw Hgh].
  set (fn := suitabilityFn (relaxedMaskOf lowStrip defaultTrees) 3 1 1).
  pose proof (@PoissonProps.run_terminates (IZR 3 * 1) (IZR 1 * 1) 3 (Some fn)
                ltac:(lra) treesStream 30 treesStream_range 4
                ltac:(lra) ltac:(lra)) as Hterm.
  rewrite Hgw, Hgh in Hterm. cbn in Hterm.
  destruct (Hterm ltac:(lia)) as (st & Hrun & _).
  assert (Hfirst : Poisson.rejectedByMask (Some fn)
                     (treesStream 0 * (IZR 3 * 1)) (treesStream 1 * (IZR 1 * 1))
                   = false).
  { cbn [Poisson.rejectedByMask]. apply negb_false_iff. unfold fn.
    pose proof (treesStream_range 0). pose proof (treesStream_range 1).
    apply suitabilityFn_full; try lra; try lia.
    intros i Hi. unfold lowStrip.
    rewrite flat_relaxed_full;
      try lia; try lra;
      unfold relaxedMinHeight, treeMaxHeight, defaultTrees, orElse; cbn; lra. }
  assert (Hne : Poisson.samples st <> [])
    by (eapply PoissonProps.run_nonempty; [exact Hrun|exact Hfirst]).
  assert (Hgen : generateTreePositions lowStrip defaultTrees treesStream 4
                 = Ok (selectBestTreePositions (Poisson.samples st) 1
                         (elevation lowStrip) 3 1 1 treesStream
                         (Poisson.calls st))).
  { unfold generateTreePositions. rewrite strip_mask.
    assert (Hfp : orElse (FOREST_PERCENTAGE defaultTrees) 0 = 100)
      by (unfold orElse, defaultTrees; cbn [FOREST_PERCENTAGE]; rdecide;
          reflexivity).
    rewrite Hfp. rdecide.
    assert (Hsp : orElse (TREE_MIN_SPACING defaultTrees) 3 = 3) by reflexivity.
    rewrite Hsp.
    change (width lowStrip) with 3%Z. change (height lowStrip) with 1%Z.
    change (cellSize lowStrip) with 1. fold fn.
    rewrite Hrun. cbn [bind]. rewrite strip_target. reflexivity. }
  pose proof (@selectBest_nonempty (Poisson.samples st) 1 (elevation lowStrip)
                3 1 1 treesStream (Poisson.calls st) Hne ltac:(lia)) as Hsel.
  destruct (selectBestTreePositions (Poisson.samples st) 1
              (elevation lowStrip) 3 1 1 treesStream (Poisson.calls st))
    as [|p rest] eqn:Hpl; [congruence|].
  exists (p :: rest), p. split; [exact Hgen|]. split; [left; reflexivity|].
  intros q Hq. rewrite <- Hpl in Hq. apply selectBest_in in Hq.
  destruct Hq as (_ & _ & _ & _ & ->).
  unfold lowStrip. apply flat_getHeightAt; lia.
Qed.

(** When no cell is strictly suitable the relaxation pass places trees below
    the beach buffer as well: on a strip of three cells at 1.5 m, sea level 0
    and the default beach buffer of 2 m, the relaxed mask is in force and the
    placement returned has the sampled height 1.5. *)
Lemma relaxed_placement_under_beach_buffer :
  exists placements p,
    generateTreePositions lowStrip defaultTrees treesStream 4 = Ok placements
    /\ In p placements
    /\ placedHeight p = 3 / 2
    /\ ~ (seaLevel lowStrip + orElse (TREE_BEACH_BUFFER defaultTrees) 2
           < placedHeight p).
Proof.
  destruct strip_placements as (placements & p & Hrun & Hp & Hh).
  exists placements, p. split; [exact Hrun|]. split; [exact Hp|].
  split; [apply Hh; exact Hp|].
  rewrite (Hh p Hp). unfold lowStrip, defaultTrees, orElse. cbn. lra.
Qed.

(** The single cell at 100 m is above the maximum height of the relaxation
    pass as well. *)
Lemma highCell_relaxed_empty :
  countSuitable (relaxedMaskOf highCell narrowTrees) = O.
Proof.
  unfold countSuitable. apply count_none. intros v Hv.
  unfold relaxedMaskOf, relaxedMask in Hv.
  apply in_map_iff in Hv. destruct Hv as (i & <- & Hi).
  apply in_indexes in Hi. unfold highCell in *.
  rewrite strictMask_length in Hi by lia.
  rewrite flat_get by lia. unfold relaxedCell.
  cbn [flatTerrain seaLevel].
  destruct (Rltb (relaxedMinHeight 0) 100); [|apply Rltb_false; cbn; lra].
  assert (Hhi : Rltb 100 (treeMaxHeight narrowTrees) = false).
  { apply Rltb_false. unfold treeMaxHeight, narrowTrees, orElse. cbn. lra. }
  rewrite Hhi. apply Rltb_false. cbn. lra.
Qed.

(** C9: the relaxation pass does not relax.  With a beach buffer of 0.5 m
    and a maximum slope of 50 degrees, on a single cell at 100 m (above the
    maximum height, so that no cell is strictly suitable), the thresholds of
    the pass announced as "Relaxing constraints" are the constants
    seaLevel + 1 and 45: its minimum height is higher than the strict
    seaLevel + 0.5, and its maximum slope is smaller than 50.  The pass
    accepts no cell and the call returns the empty array. *)
Theorem C9_relaxed_thresholds_not_wider :
  Z.of_nat (List.length (elevation highCell))
  = (width highCell * height highCell)%Z
  /\ countSuitable (strictMaskOf highCell narrowTrees) = O
  /\ strictMinHeight (seaLevel highCell) narrowTrees = 1 / 2
  /\ relaxedMinHeight (seaLevel highCell) = 1
  /\ strictMaxSlope narrowTrees = 50
  /\ relaxedMaxSlope = 45
  /\ ~ (relaxedMinHeight (seaLevel highCell)
         < strictMinHeight (seaLevel highCell) narrowTrees)
  /\ ~ (strictMaxSlope narrowTrees < relaxedMaxSlope)
  /\ forall rngStream fuel,
       generateTreePositions highCell narrowTrees rngStream fuel = Ok [].
Proof.
  assert (Hmin : strictMinHeight (seaLevel highCell) narrowTrees = 1 / 2).
  { unfold strictMinHeight, narrowTrees, orElse, highCell.
    cbn [TREE_BEACH_BUFFER flatTerrain seaLevel]. rdecide. lra. }
  assert (Hslope : strictMaxSlope narrowTrees = 50).
  { unfold strictMaxSlope, narrowTrees, orElse. cbn [TREE_MAX_SLOPE].
    rdecide. reflexivity. }
  assert (Hrel : relaxedMinHeight (seaLevel highCell) = 1).
  { unfold relaxedMinHeight, highCell. cbn [flatTerrain seaLevel]. lra. }
  assert (Hstrict : countSuitable (strictMaskOf highCell narrowTrees) = O).
  { unfold highCell. apply flat_strict_empty; try lia. right.
    unfold treeMaxHeight, narrowTrees, orElse. cbn. lra. }
  split; [reflexivity|]. split; [exact Hstrict|].
  split; [exact Hmin|]. split; [exact Hrel|]. split; [exact Hslope|].
  split; [reflexivity|]. rewrite Hmin, Hrel, Hslope.
  unfold relaxedMaxSlope. split; [lra|]. split; [lra|].
  intros rngStream fuel. unfold generateTreePositions.
  rewrite chooseMask_cases, Hstrict, highCell_relaxed_empty. reflexivity.
Qed.

End TreesProps.

(* ================================================================== *)
(** * Properties of the generation pipeline *)
Module GeneratorProps.

Import Quantile Generator.
Local Open Scope R_scope.

(** ** The clock does not flow into the terrain *)
Section Clock.

Variable generateNoiseField : Z -> Z -> Z -> NoiseParams -> list R.
Variable curveEvaluate : string -> R -> R.
Variable Math_pow : R -> R -> R.
Variable erode : Z -> Z -> list R -> Z -> R -> list R.
(** The clocks of two runs. *)
Variables clock1 clock2 : nat -> R.
Variable config : Config.

Lemma addNoiseBand_clock params elevation g1 g2 :
  rng g1 = rng g2 ->
  fst (addNoiseBand generateNoiseField config params (elevation, g1))
  = fst (addNoiseBand generateNoiseField config params (elevation, g2))
  /\ rng (snd (addNoiseBand generateNoiseField config params (elevation, g1)))
     = rng (snd (addNoiseBand generateNoiseField config params (elevation, g2))).
Proof.
  intros Hsim. unfold addNoiseBand. rewrite Hsim.
  destruct (Rltb 0 (amplitude params)); [|auto].
  destruct (RNG.streamNextInt "terrain" 0 1000000 (rng g2)) as [seed m].
  cbn. auto.
Qed.

Lemma addLakes_clock fuel fuel' elevation g1 g2 elevation' g1' :
  rng g1 = rng g2 -> (fuel <= fuel')%nat ->
  addLakes Math_pow clock1 config fuel elevation g1 = Ok (elevation', g1') ->
  exists g2',
    addLakes Math_pow clock2 config fuel' elevation g2 = Ok (elevation', g2')
    /\ rng g1' = rng g2'.
Proof.
  intros Hsim Hle H. unfold addLakes in *.
  destruct (Rleb (WATER_PERCENTAGE config) 0).
  - injection H as <- <-. eauto.
  - unfold now, withRng, setBuildTime in *.
    cbn [rng clockReads metrics] in *. rewrite Hsim in H.
    match type of H with
    | bind ?m _ = _ => destruct m as [st| | |] eqn:Hrun; try discriminate
    end.
    rewrite (@PoissonProps.run_fuel _ _ _ _ _ _ _ _ _ Hle Hrun).
    cbn [bind] in *.
    destruct (Poisson.samples st) as [|center centers].
    + injection H as <- <-. eexists. split; [reflexivity|]. reflexivity.
    + match type of H with
      | context [carveLakes ?a ?b ?c ?d ?e ?f] =>
          destruct (carveLakes a b c d e f) as [carved lakesRng']
      end.
      injection H as <- <-. eexists. split; [reflexivity|]. reflexivity.
Qed.

Lemma addNoiseBand_related params acc1 acc2 :
  fst acc1 = fst acc2 -> rng (snd acc1) = rng (snd acc2) ->
  fst (addNoiseBand generateNoiseField config params acc1)
  = fst (addNoiseBand generateNoiseField config params acc2)
  /\ rng (snd (addNoiseBand generateNoiseField config params acc1))
     = rng (snd (addNoiseBand generateNoiseField config params acc2)).
Proof.
  destruct acc1 as [e1 g1], acc2 as [e2 g2]. cbn [fst snd].
  intros <- Hsim. apply addNoiseBand_clock. exact Hsim.
Qed.

Lemma generateElevation_clock fuel fuel' g1 g2 elevation g1' :
  rng g1 = rng g2 -> (fuel <= fuel')%nat ->
  generateElevation generateNoiseField curveEvaluate Math_pow clock1 config
    fuel g1 = Ok (elevation, g1') ->
  exists g2',
    generateElevation generateNoiseField curveEvaluate Math_pow clock2 config
      fuel' g2 = Ok (elevation, g2')
    /\ rng g1' = rng g2'.
Proof.
  intros Hsim Hle H. unfold generateElevation in *.
  unfold now, withRng, setBuildTime in *. cbn [rng clockReads metrics] in *.
  match type of H with
  | context [addNoiseBand ?k ?c (NOISE_MICRO ?c) ?acc] =>
      set (A1 := addNoiseBand k c (NOISE_MICRO c) acc) in H
  end.
  match goal with
  | |- context [addNoiseBand ?k ?c (NOISE_MICRO ?c) ?acc] =>
      set (A2 := addNoiseBand k c (NOISE_MICRO c) acc)
  end.
  assert (Hacc : fst A1 = fst A2 /\ rng (snd A1) = rng (snd A2)).
  { unfold A1, A2.
    apply addNoiseBand_related; apply addNoiseBand_related;
      try (apply addNoiseBand_related; cbn [fst snd rng]; rewrite ?Hsim;
           reflexivity). }
  destruct A1 as [e1 ga], A2 as [e2 gb]. cbn [fst snd] in Hacc.
  destruct Hacc as [<- Hrng].
  match type of H with
  | bind ?m _ = _ => destruct m as [[lakes gl]| | |] eqn:HL; try discriminate
  end.
  destruct (@addLakes_clock fuel fuel' _ ga gb lakes gl Hrng Hle HL)
    as (gl2 & HL2 & Hrng2).
  rewrite HL2. cbn [bind] in *. injection H as <- <-.
  eexists. split; [reflexivity|]. cbn [rng]. exact Hrng2.
Qed.

Lemma applyErosion_clock elevation g1 g2 :
  rng g1 = rng g2 ->
  fst (applyErosion erode clock1 config elevation g1)
  = fst (applyErosion erode clock2 config elevation g2)
  /\ rng (snd (applyErosion erode clock1 config elevation g1))
     = rng (snd (applyErosion erode clock2 config elevation g2)).
Proof.
  intros Hsim. unfold applyErosion, now, withRng, setBuildTime.
  cbn [fst snd rng clockReads metrics]. rewrite Hsim. auto.
Qed.

Lemma solveSeaLevelPhase_clock elevation g1 g2 result elevation' g1' :
  rng g1 = rng g2 ->
  solveSeaLevelPhase clock1 config elevation g1
  = Ok (result, elevation', g1') ->
  exists g2',
    solveSeaLevelPhase clock2 config elevation g2
    = Ok (result, elevation', g2')
    /\ rng g1' = rng g2'.
Proof.
  intros Hsim H. unfold solveSeaLevelPhase in *.
  unfold now, setBuildTime in *. cbn [rng clockReads metrics] in *.
  destruct (solveSeaLevel elevation (WATER_PERCENTAGE config)
              (WATER_EPSILON config)) as [[res e']| | |]; try discriminate.
  cbn [bind] in *.
  destruct (validateWaterCoverage e' (Quantile.seaLevel res)
              (WATER_PERCENTAGE config) (WATER_TOLERANCE config))
    as [validation| | |]; try discriminate.
  cbn [bind] in *. injection H as <- <- <-.
  eexists. split; [reflexivity|]. cbn [rng]. exact Hsim.
Qed.

Lemma generateMoisture_clock g1 g2 :
  rng g1 = rng g2 ->
  fst (generateMoisture generateNoiseField clock1 config g1)
  = fst (generateMoisture generateNoiseField clock2 config g2)
  /\ rng (snd (generateMoisture generateNoiseField clock1 config g1))
     = rng (snd (generateMoisture generateNoiseField clock2 config g2)).
Proof.
  intros Hsim. unfold generateMoisture, now, withRng, setBuildTime.
  cbn [rng clockReads metrics]. rewrite Hsim.
  destruct (RNG.streamNextInt "moisture" 0 1000000
              (RNG.getStream "moisture" (rng g2))) as [seed m].
  cbn [fst snd rng]. auto.
Qed.

Lemma generateTemperature_clock elevation level g1 g2 :
  rng g1 = rng g2 ->
  fst (generateTemperature generateNoiseField clock1 config elevation level g1)
  = fst (generateTemperature generateNoiseField clock2 config elevation level g2)
  /\ rng (snd (generateTemperature generateNoiseField clock1 config elevation
                 level g1))
     = rng (snd (generateTemperature generateNoiseField clock2 config elevation
                   level g2)).
Proof.
  intros Hsim. unfold generateTemperature, now, withRng, setBuildTime.
  cbn [rng clockReads metrics]. rewrite Hsim.
  destruct (RNG.streamNextInt "temperature" 0 1000000
              (RNG.getStream "temperature" (rng g2))) as [seed m].
  cbn [fst snd rng]. auto.
Qed.

Lemma timedPhase_rng clock phase g : rng (timedPhase clock phase g) = rng g.
Proof. reflexivity. Qed.

Lemma calculateMetrics_rng elevation result g :
  rng (calculateMetrics config elevation result g) = rng g.
Proof. reflexivity. Qed.

(** What two terrain records share when only the clock differed. *)
Definition sameTerrain (r1 r2 : TerrainData) : Prop :=
  elevation r1 = elevation r2
  /\ seaLevel r1 = seaLevel r2
  /\ moisture r1 = moisture r2
  /\ temperature r1 = temperature r2
  /\ subSeeds r1 = subSeeds r2
  /\ rngStates r1 = rngStates r2.

Lemma generateOn_clock fuel fuel' g1 g2 r1 :
  rng g1 = rng g2 -> (fuel <= fuel')%nat ->
  generateOn generateNoiseField curveEvaluate Math_pow erode clock1 config
    fuel g1 = Ok r1 ->
  exists r2,
    generateOn generateNoiseField curveEvaluate Math_pow erode clock2 config
      fuel' g2 = Ok r2
    /\ sameTerrain r1 r2.
Proof.
  intros Hsim Hle H. unfold generateOn in *.
  unfold now at 1 in H. unfold now at 1. cbn [rng clockReads metrics] in *.
  match type of H with
  | bind ?m _ = _ => destruct m as [[e1 ga]| | |] eqn:HE; try discriminate
  end.
  match type of HE with
  | generateElevation _ _ _ _ _ _ ?g = _ => set (g1s := g) in HE
  end.
  match goal with
  | |- context [generateElevation _ _ _ clock2 _ _ ?g] => set (g2s := g)
  end.
  assert (Hs : rng g1s = rng g2s) by exact Hsim.
  destruct (@generateElevation_clock fuel fuel' g1s g2s e1 ga Hs Hle HE)
    as (gb & HE2 & Hrng).
  rewrite HE2. cbn [bind] in *. clear HE HE2.
  (* erosion *)
  assert (Hero : exists e2 gc gd,
            (if (0 <? EROSION_ITERATIONS config)%Z
             then applyErosion erode clock1 config e1 ga else (e1, ga))
            = (e2, gc)
            /\ (if (0 <? EROSION_ITERATIONS config)%Z
                then applyErosion erode clock2 config e1 gb else (e1, gb))
               = (e2, gd)
            /\ rng gc = rng gd).
  { destruct (0 <? EROSION_ITERATIONS config)%Z; [|eauto 6].
    destruct (@applyErosion_clock e1 ga gb Hrng) as [Hf Hr].
    destruct (applyErosion erode clock1 config e1 ga) as [ea gc].
    destruct (applyErosion erode clock2 config e1 gb) as [eb gd].
    cbn [fst snd] in Hf, Hr. subst eb. eauto 6. }
  destruct Hero as (e2 & gc & gd & Hc1 & Hc2 & Hrng2).
  rewrite Hc1 in H. rewrite Hc2. clear Hc1 Hc2.
  match type of H with
  | bind ?m _ = _ => destruct m as [[[res e3] ge]| | |] eqn:HS; try discriminate
  end.
  destruct (@solveSeaLevelPhase_clock e2 gc gd res e3 ge Hrng2 HS)
    as (gf & HS2 & Hrng3).
  rewrite HS2. cbn [bind] in *. clear HS HS2.
  destruct (@generateMoisture_clock ge gf Hrng3) as [Hm Hrng4].
  destruct (generateMoisture generateNoiseField clock1 config ge) as [m1 gm1].
  destruct (generateMoisture generateNoiseField clock2 config gf) as [m2 gm2].
  cbn [fst snd] in Hm, Hrng4. subst m2.
  destruct (@generateTemperature_clock e3 (Quantile.seaLevel res) gm1 gm2 Hrng4)
    as [Ht Hrng5].
  destruct (generateTemperature generateNoiseField clock1 config e3
              (Quantile.seaLevel res) gm1) as [t1 gt1].
  destruct (generateTemperature generateNoiseField clock2 config e3
              (Quantile.seaLevel res) gm2) as [t2 gt2].
  cbn [fst snd] in Ht, Hrng5. subst t2.
  unfold now, setBuildTime in *. cbn [rng clockReads metrics] in *.
  injection H as <-. eexists. split; [reflexivity|].
  unfold sameTerrain.
  cbn [elevation seaLevel moisture temperature subSeeds rngStates].
  rewrite !calculateMetrics_rng, !timedPhase_rng, Hrng5. auto 10.
Qed.

End Clock.

Lemma sameTerrain_sym r1 r2 : sameTerrain r1 r2 -> sameTerrain r2 r1.
Proof. unfold sameTerrain. intuition congruence. Qed.

Lemma sameTerrain_trans r1 r2 r3 :
  sameTerrain r1 r2 -> sameTerrain r2 r3 -> sameTerrain r1 r3.
Proof. unfold sameTerrain. intuition congruence. Qed.

Section Runs.

Variable generateNoiseField : Z -> Z -> Z -> NoiseParams -> list R.
Variable curveEvaluate : string -> R -> R.
Variable Math_pow : R -> R -> R.
Variable erode : Z -> Z -> list R -> Z -> R -> list R.

Local Abbreviation run := (generate generateNoiseField curveEvaluate Math_pow erode).

(** A run that returns is reproduced by any run with another clock and at
    least as much fuel. *)
Lemma generate_again clock1 clock2 config fuel fuel' r1 :
  (fuel <= fuel')%nat ->
  run clock1 config fuel = Ok r1 ->
  exists r2, run clock2 config fuel' = Ok r2 /\ sameTerrain r1 r2.
Proof.
  intros Hle H. unfold generate in *.
  eapply generateOn_clock; eauto.
Qed.

(** Two runs that return agree. *)
Lemma generate_agree clock1 clock2 config fuel1 fuel2 r1 r2 :
  run clock1 config fuel1 = Ok r1 ->
  run clock2 config fuel2 = Ok r2 ->
  sameTerrain r1 r2.
Proof.
  intros H1 H2.
  destruct (@generate_again clock1 clock2 config fuel1 (Nat.max fuel1 fuel2) r1
              (Nat.le_max_l _ _) H1) as (ra & Ha & Hsa).
  destruct (@generate_again clock2 clock2 config fuel2 (Nat.max fuel1 fuel2) r2
              (Nat.le_max_r _ _) H2) as (rb & Hb & Hsb).
  rewrite Ha in Hb. injection Hb as <-.
  eapply sameTerrain_trans; [exact Hsa|apply sameTerrain_sym; exact Hsb].
Qed.

(** The pipeline does not read FOREST_PERCENTAGE. *)
Lemma generate_forest clock config p fuel :
  run clock (withForestPercentage config p) fuel = run clock config fuel.
Proof. reflexivity. Qed.

End Runs.

(** ** The pipeline returns *)

Lemma fold_left_invariant {A B} (P : A -> Prop) (f : A -> B -> A) l :
  (forall a b, P a -> P (f a b)) -> forall a, P a -> P (fold_left f l a).
Proof.
  intros Hf. induction l as [|b l IH]; intros a Ha; cbn; auto.
Qed.

Lemma addBand_length elevation band weight :
  List.length (addBand elevation band weight) = List.length elevation.
Proof.
  unfold addBand. rewrite length_map, TreesProps.indexes_length. lia.
Qed.

Lemma normalizeArray_length arr :
  List.length (normalizeArray arr) = List.length arr.
Proof.
  unfold normalizeArray. destruct arr as [|x rest]; [reflexivity|].
  destruct (Rltb 0 (fold_left Rmax rest x - fold_left Rmin rest x));
    [apply length_map|reflexivity].
Qed.

Lemma solveSeaLevel_length data p epsilon res data' :
  solveSeaLevel data p epsilon = Ok (res, data') ->
  List.length data' = List.length data.
Proof.
  unfold solveSeaLevel.
  destruct (Reqb p 0).
  - destruct (Math_min data) as [m| | |]; try discriminate. cbn [bind].
    rewrite QuantileProps.raiseLoop_spec. intros H. injection H as _ <-.
    apply length_map.
  - destruct (Rleb 100 p).
    + destruct (Math_max data) as [m| | |]; try discriminate. cbn [bind].
      intros H. injection H as _ <-. reflexivity.
    + destruct (findQuantile data (p / 100)) as [q| | |]; try discriminate.
      cbn [bind]. destruct data as [|x rest]; [discriminate|].
      cbn [List.length]. intros H. injection H as _ <-. reflexivity.
Qed.

Section Totality.

Variable generateNoiseField : Z -> Z -> Z -> NoiseParams -> list R.
Variable curveEvaluate : string -> R -> R.
Variable Math_pow : R -> R -> R.
Variable erode : Z -> Z -> list R -> Z -> R -> list R.
Variable clock : nat -> R.
Variable config : Config.

Lemma addNoiseBand_length params acc :
  List.length (fst (addNoiseBand generateNoiseField config params acc))
  = List.length (fst acc).
Proof.
  unfold addNoiseBand. destruct acc as [elevation g]. cbn [fst].
  destruct (Rltb 0 (amplitude params)); [|reflexivity].
  destruct (RNG.streamNextInt "terrain" 0 1000000 (rng g)) as [seed m].
  cbn [fst]. apply addBand_length.
Qed.

Lemma carveCell_length cx cy radiusX radiusY depth xi yi st :
  List.length (fst (fst (carveCell Math_pow config cx cy radiusX radiusY depth
                           xi yi st)))
  = List.length (fst (fst st)).
Proof.
  unfold carveCell. destruct st as [[elevation lcg] carved]. cbn [fst].
  destruct (Reqb radiusX 0 || Reqb radiusY 0
            || Reqb (LAKE_SHAPE_SQUARENESS config) 0); [reflexivity|].
  match goal with
  | |- context [if Rltb ?d 1 then _ else _] => destruct (Rltb d 1)
  end; [|reflexivity].
  destruct (RNG.next lcg) as [r lcg'].
  match goal with
  | |- context [if ?b then _ else _] => destruct b
  end; cbn [fst]; [apply PoissonProps.setItem_length|reflexivity].
Qed.

Lemma carveLake_length elevation cx cy radiusX radiusY depth lcg :
  List.length (fst (fst (carveLake Math_pow config elevation cx cy radiusX
                           radiusY depth lcg)))
  = List.length elevation.
Proof.
  unfold carveLake.
  apply (fold_left_invariant
           (fun st : list R * RNG.LCG * nat =>
              List.length (fst (fst st)) = List.length elevation));
    [|reflexivity].
  intros st yi Hst.
  apply (fold_left_invariant
           (fun st : list R * RNG.LCG * nat =>
              List.length (fst (fst st)) = List.length elevation));
    [|exact Hst].
  intros st' xi Hst'. rewrite carveCell_length. exact Hst'.
Qed.

Lemma carveLakes_length avgRadius centers elevation lcg :
  List.length (fst (carveLakes Math_pow config avgRadius centers elevation lcg))
  = List.length elevation.
Proof.
  unfold carveLakes.
  apply (fold_left_invariant
           (fun st : list R * RNG.LCG =>
              List.length (fst st) = List.length elevation));
    [|reflexivity].
  intros [e l] center Hst. cbn [fst] in Hst.
  destruct (RNG.next l) as [r1 l1]. destruct (RNG.next l1) as [r2 l2].
  match goal with
  | |- context [carveLake ?a ?b ?c ?d ?e' ?f ?g ?h ?i] =>
      pose proof (carveLake_length c d e' f g h i) as Hl;
      destruct (carveLake a b c d e' f g h i) as [[e3 l3] n3]
  end.
  cbn [fst] in Hl |- *. congruence.
Qed.

(** The conditions under which the allocation and the loops of the lake
    sampler complete within [fuel] iterations. *)
Definition lakesFit (fuel : nat) : Prop :=
  WATER_PERCENTAGE config <= 0
  \/ (0 < LAKE_MIN_SPACING config
      /\ let cells :=
           (Poisson.gridWidth (IZR (MAP_WIDTH config)) (LAKE_MIN_SPACING config)
            * Poisson.gridHeight (IZR (MAP_HEIGHT config))
                (LAKE_MIN_SPACING config))%Z in
         (cells <= 4294967295)%Z /\ (2 * Z.to_nat cells <= fuel)%nat).

Hypothesis Hwidth : (0 < MAP_WIDTH config)%Z.
Hypothesis Hheight : (0 < MAP_HEIGHT config)%Z.

Lemma addLakes_returns fuel elevation g :
  lakesFit fuel ->
  exists elevation' g',
    addLakes Math_pow clock config fuel elevation g = Ok (elevation', g')
    /\ List.length elevation' = List.length elevation.
Proof.
  intros Hfit. unfold addLakes.
  destruct (Rleb (WATER_PERCENTAGE config) 0) eqn:Hwp; [eauto|].
  apply QuantileProps.Rleb_false in Hwp.
  destruct Hfit as [Hno|(Hsp & Hcells & Hfuel)]; [lra|].
  unfold now, withRng, setBuildTime. cbn [rng clockReads metrics].
  set (lakesRng := RNG.streamOf "lakes" (RNG.getStream "lakes" (rng g))).
  pose proof (@PoissonProps.run_terminates (IZR (MAP_WIDTH config))
                (IZR (MAP_HEIGHT config)) (LAKE_MIN_SPACING config) None Hsp
                (RNG.nthNext lakesRng) 30
                (fun n => RNGProps.nthNext_range n lakesRng) fuel
                (IZR_lt _ _ Hwidth) (IZR_lt _ _ Hheight) Hfuel) as Hrun.
  replace (4294967295 <? _)%Z with false in Hrun
    by (symmetry; apply Z.ltb_ge; exact Hcells).
  destruct Hrun as (st & Hrun & _). rewrite Hrun. cbn [bind].
  destruct (Poisson.samples st) as [|center centers]; [eauto|].
  match goal with
  | |- context [carveLakes ?a ?b ?c ?d ?e ?f] =>
      pose proof (carveLakes_length c d e f) as Hl;
      destruct (carveLakes a b c d e f) as [carved lakesRng']
  end.
  cbn [fst] in Hl. eauto.
Qed.

Lemma generateElevation_returns fuel g :
  lakesFit fuel ->
  exists elevation g',
    generateElevation generateNoiseField curveEvaluate Math_pow clock config
      fuel g = Ok (elevation, g')
    /\ List.length elevation
       = Z.to_nat (MAP_WIDTH config * MAP_HEIGHT config).
Proof.
  intros Hfit. unfold generateElevation.
  unfold now, withRng, setBuildTime. cbn [rng clockReads metrics].
  match goal with
  | |- context [addNoiseBand ?k ?c (NOISE_MICRO ?c) ?acc] =>
      set (A := addNoiseBand k c (NOISE_MICRO c) acc)
  end.
  assert (Hlen : List.length (fst A)
                 = Z.to_nat (MAP_WIDTH config * MAP_HEIGHT config)).
  { unfold A. rewrite !addNoiseBand_length. cbn [fst]. apply repeat_length. }
  destruct A as [e1 ga]. cbn [fst] in Hlen.
  match goal with
  | |- context [addLakes _ _ _ _ ?e ?gg] =>
      destruct (@addLakes_returns fuel e gg Hfit) as (e2 & gl & Hrun & Hl2)
  end.
  rewrite Hrun. cbn [bind]. eexists _, _. split; [reflexivity|].
  rewrite length_map, Hl2, !length_map, normalizeArray_length. exact Hlen.
Qed.

Hypothesis Hwater : 0 <= WATER_PERCENTAGE config.
(** Erosion works in place, on an array of the same length. *)
Hypothesis Herode : forall elevation,
  List.length (erode (MAP_WIDTH config) (MAP_HEIGHT config) elevation
                 (EROSION_ITERATIONS config) (EROSION_STRENGTH config))
  = List.length elevation.

Lemma generate_returns fuel :
  lakesFit fuel ->
  exists r,
    generate generateNoiseField curveEvaluate Math_pow erode clock config fuel
    = Ok r.
Proof.
  intros Hfit. unfold generate, generateOn.
  unfold now at 1. cbn [rng clockReads metrics].
  match goal with
  | |- context [generateElevation _ _ _ _ _ _ ?g] =>
      destruct (@generateElevation_returns fuel g Hfit)
        as (e1 & ga & Hrun & Hlen)
  end.
  rewrite Hrun. cbn [bind].
  assert (Hpos : (0 < Z.to_nat (MAP_WIDTH config * MAP_HEIGHT config))%nat)
    by (apply (Z2Nat.inj_lt 0); nia).
  assert (Hero : exists e2 gb,
            (if (0 <? EROSION_ITERATIONS config)%Z
             then applyErosion erode clock config e1 ga else (e1, ga))
            = (e2, gb) /\ List.length e2 = List.length e1).
  { destruct (0 <? EROSION_ITERATIONS config)%Z; [|eauto].
    unfold applyErosion, now, withRng, setBuildTime.
    cbn [rng clockReads metrics]. eexists _, _. split; [reflexivity|].
    apply Herode. }
  destruct Hero as (e2 & gb & -> & Hlen2).
  assert (Hne : e2 <> []).
  { intros ->. cbn in Hlen2. lia. }
  destruct (@QuantileProps.solved_level e2 (WATER_PERCENTAGE config)
              (WATER_EPSILON config) Hne Hwater)
    as (res & e3 & lo & hi & Hsolve & _).
  pose proof (solveSeaLevel_length _ _ _ Hsolve) as Hlen3.
  unfold solveSeaLevelPhase, now, setBuildTime.
  cbn [rng clockReads metrics]. rewrite Hsolve. cbn [bind].
  unfold validateWaterCoverage.
  destruct e3 as [|x3 rest3]; [cbn in Hlen3; lia|].
  cbn [bind].
  match goal with
  | |- context [generateMoisture ?a ?b ?c ?d] =>
      destruct (generateMoisture a b c d) as [m1 gm]
  end.
  match goal with
  | |- context [generateTemperature ?a ?b ?c ?d ?e ?f] =>
      destruct (generateTemperature a b c d e f) as [t1 gt]
  end.
  eexists. reflexivity.
Qed.

End Totality.

(** ** The claims about [generate] *)

(** C2: for a fixed configuration, two independent runs of [generate()] on
    fresh generator instances produce the same elevation array and the same
    sea level.  The runs differ in the readings of the clock, which only go
    to the build times of the metrics: a run that returns is reproduced by
    any other run, and any two runs that return agree. *)
Theorem C2_generate_deterministic
  (generateNoiseField : Z -> Z -> Z -> NoiseParams -> list R)
  (curveEvaluate : string -> R -> R) (Math_pow : R -> R -> R)
  (erode : Z -> Z -> list R -> Z -> R -> list R)
  (clock1 clock2 : nat -> R) (config : Config) (fuel1 : nat)
  (r1 : TerrainData) :
  generate generateNoiseField curveEvaluate Math_pow erode clock1 config fuel1
  = Ok r1 ->
  (forall fuel2, (fuel1 <= fuel2)%nat ->
     exists r2,
       generate generateNoiseField curveEvaluate Math_pow erode clock2 config
         fuel2 = Ok r2
       /\ elevation r2 = elevation r1 /\ seaLevel r2 = seaLevel r1)
  /\ (forall fuel2 r2,
       generate generateNoiseField curveEvaluate Math_pow erode clock2 config
         fuel2 = Ok r2 ->
       elevation r2 = elevation r1 /\ seaLevel r2 = seaLevel r1).
Proof.
  intros H1. split.
  - intros fuel2 Hle.
    destruct (@generate_again generateNoiseField curveEvaluate Math_pow erode
                clock1 clock2 config fuel1 fuel2 r1 Hle H1)
      as (r2 & H2 & He & Hs & _).
    exists r2. auto.
  - intros fuel2 r2 H2.
    destruct (@generate_agree generateNoiseField curveEvaluate Math_pow erode
                clock1 clock2 config fuel1 fuel2 r1 r2 H1 H2)
      as (He & Hs & _).
    auto.
Qed.

(** The lake sampler of the default configuration fits in 648 iterations. *)
Lemma default_lakes_fit : lakesFit DEFAULT_CONFIG 648.
Proof.
  right. cbn [DEFAULT_CONFIG LAKE_MIN_SPACING MAP_WIDTH MAP_HEIGHT].
  split; [lra|].
  pose proof PoissonProps.sqrt2_bounds as Hs.
  destruct (@PoissonProps.grid_positive 128 128 15 ltac:(lra) ltac:(lra)
              ltac:(lra)) as [Hgw Hgh].
  assert (Hside : forall g, g = Zceil (128 / Poisson.cellSize 15) ->
                            (g <= 18)%Z).
  { intros g ->. pose proof (Zceil_bound (128 / Poisson.cellSize 15)) as Hc.
    assert (E : 128 / Poisson.cellSize 15 = 128 * sqrt 2 / 15)
      by (unfold Poisson.cellSize; field; lra).
    apply Z.lt_succ_r, lt_IZR. rewrite succ_IZR.
    assert (128 * sqrt 2 / 15 < 18) by lra. lra. }
  pose proof (Hside _ eq_refl : (Poisson.gridWidth 128 15 <= 18)%Z) as Hw.
  pose proof (Hside _ eq_refl : (Poisson.gridHeight 128 15 <= 18)%Z) as Hh.
  cbv zeta. split; [nia|].
  assert (Z.to_nat (Poisson.gridWidth 128 15 * Poisson.gridHeight 128 15)
          <= 324)%nat by (apply (Nat2Z.inj_le _ 324); rewrite Z2Nat.id; nia).
  lia.
Qed.

Lemma default_run_returns clock :
  exists r,
    generate constantNoise identityCurve basePower noErosion clock
      DEFAULT_CONFIG 648 = Ok r.
Proof.
  apply generate_returns.
  - reflexivity.
  - reflexivity.
  - cbn [DEFAULT_CONFIG WATER_PERCENTAGE]. lra.
  - reflexivity.
  - apply default_lakes_fit.
Qed.

Lemma C2_generate_deterministic_witness :
  exists r1 r2,
    generate constantNoise identityCurve basePower noErosion stoppedClock
      DEFAULT_CONFIG 648 = Ok r1
    /\ generate constantNoise identityCurve basePower noErosion tickingClock
         DEFAULT_CONFIG 648 = Ok r2
    /\ elevation r2 = elevation r1 /\ seaLevel r2 = seaLevel r1.
Proof.
  destruct (default_run_returns stoppedClock) as (r1 & H1).
  destruct (@C2_generate_deterministic constantNoise identityCurve basePower
              noErosion stoppedClock tickingClock DEFAULT_CONFIG 648 r1 H1)
    as [Hagain _].
  destruct (Hagain 648%nat (Nat.le_refl _)) as (r2 & H2 & He & Hs).
  exists r1, r2. auto.
Defined.

(** C3: for the same SEED and all other fields fixed, changing
    FOREST_PERCENTAGE changes neither the elevation array nor the sea level
    produced by [generate()]: a run that returns is reproduced, in these two
    outputs, by any run on the configuration with another forest percentage,
    and any two such runs that return agree. *)
Theorem C3_forest_percentage_independent
  (generateNoiseField : Z -> Z -> Z -> NoiseParams -> list R)
  (curveEvaluate : string -> R -> R) (Math_pow : R -> R -> R)
  (erode : Z -> Z -> list R -> Z -> R -> list R)
  (clock1 clock2 : nat -> R) (config : Config) (forest : option R)
  (fuel1 : nat) (r1 : TerrainData) :
  generate generateNoiseField curveEvaluate Math_pow erode clock1 config fuel1
  = Ok r1 ->
  (forall fuel2, (fuel1 <= fuel2)%nat ->
     exists r2,
       generate generateNoiseField curveEvaluate Math_pow erode clock2
         (withForestPercentage config forest) fuel2 = Ok r2
       /\ elevation r2 = elevation r1 /\ seaLevel r2 = seaLevel r1)
  /\ (forall fuel2 r2,
       generate generateNoiseField curveEvaluate Math_pow erode clock2
         (withForestPercentage config forest) fuel2 = Ok r2 ->
       elevation r2 = elevation r1 /\ seaLevel r2 = seaLevel r1).
Proof.
  intros H1. split.
  - intros fuel2 Hle. rewrite generate_forest.
    destruct (@generate_again generateNoiseField curveEvaluate Math_pow erode
                clock1 clock2 config fuel1 fuel2 r1 Hle H1)
      as (r2 & H2 & He & Hs & _).
    exists r2. auto.
  - intros fuel2 r2 H2. rewrite generate_forest in H2.
    destruct (@generate_agree generateNoiseField curveEvaluate Math_pow erode
                clock1 clock2 config fuel1 fuel2 r1 r2 H1 H2)
      as (He & Hs & _).
    auto.
Qed.

Lemma C3_forest_percentage_independent_witness :
  exists r1 r2,
    generate constantNoise identityCurve basePower noErosion stoppedClock
      DEFAULT_CONFIG 648 = Ok r1
    /\ generate constantNoise identityCurve basePower noErosion tickingClock
         (withForestPercentage DEFAULT_CONFIG (Some 60)) 648 = Ok r2
    /\ elevation r2 = elevation r1 /\ seaLevel r2 = seaLevel r1.
Proof.
  destruct (default_run_returns stoppedClock) as (r1 & H1).
  destruct (@C3_forest_percentage_independent constantNoise identityCurve
              basePower noErosion stoppedClock tickingClock DEFAULT_CONFIG
              (Some 60) 648 r1 H1)
    as [Hagain _].
  destruct (Hagain 648%nat (Nat.le_refl _)) as (r2 & H2 & He & Hs).
  exists r1, r2. auto.
Defined.

End GeneratorProps.

(* ================================================================== *)
(** * rng.js: the generator and the stream manager *)
Module RNGLaws.

Import RNG.
Local Open Scope Z_scope.

Unset Implicit Arguments.

(** ** Ranges of the drawn values *)

Lemma next_range g : (0 <= fst (next g) < 1)%R.
Proof.
  cbn. apply RNGProps.LCG_value_range. cbn. apply RNGProps.toUint32_range.
Qed.

Lemma floor_scaled v n :
  (0 <= v < 1)%R -> 0 < n -> 0 <= Zfloor (v * IZR n) < n.
Proof.
  intros [Hv0 Hv1] Hn. apply IZR_lt in Hn.
  pose proof (Zfloor_bound (v * IZR n)) as [Hlo Hhi]. split.
  - apply Zfloor_lub. cbn. nra.
  - apply lt_IZR. nra.
Qed.

Lemma nextInt_bounds g min max :
  min < max -> min <= fst (nextInt g min max) < max.
Proof.
  intros Hlt. unfold nextInt.
  pose proof (next_range g) as Hv. destruct (next g) as [v g']. cbn [fst] in *.
  pose proof (floor_scaled v (max - min) Hv ltac:(lia)). lia.
Qed.

(** [nextFloat(min, max)] with [min < max] returns a number of
    [[min, max)]. *)
Lemma nextFloat_in_range (g : LCG) (min max : R) :
  (min < max)%R -> (min <= fst (nextFloat g min max) < max)%R.
Proof.
  intros Hlt. unfold nextFloat.
  pose proof (next_range g) as Hv. destruct (next g) as [v g']. cbn [fst] in *.
  split; nra.
Qed.

Lemma nextFloat_in_range_witness :
  (1 <= fst (nextFloat (LCG_new 12345) 1 3) < 3)%R.
Proof. apply nextFloat_in_range. lra. Defined.

(** ** [choice] and [shuffle] *)

Lemma advance_snd_next g n : advance (snd (next g)) n = advance g (S n).
Proof. reflexivity. Qed.

Lemma advance_succ n : forall g, advance g (S n) = snd (next (advance g n)).
Proof.
  induction n as [|n IH]; intros g; [reflexivity|].
  change (advance g (S (S n))) with (advance (snd (next g)) (S n)).
  rewrite IH. reflexivity.
Qed.

Lemma elementAt_some {A} (a : list A) i :
  0 <= i < Z.of_nat (List.length a) ->
  exists x, elementAt a i = Some x /\ In x a.
Proof.
  intros Hi. unfold elementAt.
  replace (i <? 0) with false by (symmetry; apply Z.ltb_ge; lia).
  destruct (nth_error a (Z.to_nat i)) as [x|] eqn:E.
  - exists x. split; [reflexivity|]. eapply nth_error_In; eauto.
  - apply nth_error_None in E. lia.
Qed.

(** [choice(array)] on a non-empty array returns one of its elements, and
    on the empty array it returns [undefined]; in both cases the generator
    advances by one step. *)
Theorem choice_member {A : Type} (g : LCG) (array : list A) :
  snd (choice g array) = snd (next g)
  /\ match array with
     | [] => fst (choice g array) = None
     | _ :: _ => exists x, fst (choice g array) = Some x /\ In x array
     end.
Proof.
  unfold choice.
  pose proof (nextInt_bounds g 0 (Z.of_nat (List.length array))) as Hr.
  unfold nextInt in *. destruct (next g) as [v g'] eqn:Hn. cbn [fst snd] in *.
  split; [reflexivity|]. destruct array as [|a rest].
  - cbn. replace (v * 0)%R with (IZR 0) by (cbn; lra).
    rewrite ZfloorZ. reflexivity.
  - apply elementAt_some. apply Hr. cbn [List.length]. lia.
Qed.

Lemma assign_length {A} (a : list A) : forall i v,
  List.length (assign a i v) = List.length a.
Proof.
  induction a as [|x a IH]; intros [|i] v; cbn; auto.
Qed.

Lemma nth_error_assign_same {A} (a : list A) : forall i v,
  (i < List.length a)%nat -> nth_error (assign a i v) i = Some v.
Proof.
  induction a as [|x a IH]; intros [|i] v H; cbn in *; try lia; auto.
  apply IH. lia.
Qed.

Lemma nth_error_assign_other {A} (a : list A) : forall i j v,
  i <> j -> nth_error (assign a i v) j = nth_error a j.
Proof.
  induction a as [|x a IH]; intros [|i] [|j] v H; cbn; auto; try congruence.
Qed.

(** Exchanging two elements of a list gives a permutation of it. *)
Lemma assign_swap_perm {A} (a : list A) : forall i j x y,
  nth_error a i = Some x -> nth_error a j = Some y ->
  Permutation a (assign (assign a i y) j x).
Proof.
  induction a as [|h a IH]; intros i j x y Hi Hj.
  - destruct i; discriminate.
  - destruct i as [|i], j as [|j]; cbn in *.
    + injection Hi as ->. injection Hj as ->. reflexivity.
    + injection Hi as ->.
      (* the head goes to position j of the tail *)
      clear IH. revert j y Hj.
      induction a as [|h a IH]; intros j y Hj; [destruct j; discriminate|].
      destruct j as [|j]; cbn in *.
      * injection Hj as ->. apply perm_swap.
      * specialize (IH j y Hj).
        apply perm_trans with (h :: x :: a); [apply perm_swap|].
        apply perm_trans with (h :: y :: assign a j x);
          [apply perm_skip; exact IH|apply perm_swap].
    + injection Hj as ->.
      clear IH. revert i x Hi.
      induction a as [|h a IH]; intros i x Hi; [destruct i; discriminate|].
      destruct i as [|i]; cbn in *.
      * injection Hi as ->. apply perm_swap.
      * specialize (IH i x Hi).
        apply perm_trans with (h :: y :: a); [apply perm_swap|].
        apply perm_trans with (h :: x :: assign a i y);
          [apply perm_skip; exact IH|apply perm_swap].
    + apply perm_skip. apply IH; assumption.
Qed.

Lemma swapItems_perm {A} (a : list A) i j :
  0 <= i < Z.of_nat (List.length a) -> 0 <= j < Z.of_nat (List.length a) ->
  exists a', swapItems a i j = Some a' /\ Permutation a a'
             /\ List.length a' = List.length a.
Proof.
  intros Hi Hj. unfold swapItems.
  destruct (elementAt_some a i Hi) as (x & Ex & _).
  destruct (elementAt_some a j Hj) as (y & Ey & _).
  rewrite Ex, Ey. eexists. split; [reflexivity|].
  unfold elementAt in Ex, Ey.
  replace (i <? 0) with false in Ex by (symmetry; apply Z.ltb_ge; lia).
  replace (j <? 0) with false in Ey by (symmetry; apply Z.ltb_ge; lia).
  split.
  - apply assign_swap_perm; assumption.
  - rewrite !assign_length. reflexivity.
Qed.

Lemma shuffleFrom_perm {A} (i : nat) : forall (g : LCG) (a : list A),
  (i < List.length a)%nat ->
  exists a', shuffleFrom i g a = (Some a', advance g i) /\ Permutation a a'.
Proof.
  induction i as [|i IH]; intros g a Hi.
  - exists a. split; reflexivity.
  - cbn [shuffleFrom].
    pose proof (nextInt_bounds g 0 (Z.of_nat (S i) + 1) ltac:(lia)) as Hj.
    assert (Hg : snd (nextInt g 0 (Z.of_nat (S i) + 1)) = snd (next g))
      by (unfold nextInt; destruct (next g); reflexivity).
    destruct (nextInt g 0 (Z.of_nat (S i) + 1)) as [j g'].
    cbn [fst snd] in Hj, Hg. subst g'.
    destruct (swapItems_perm a (Z.of_nat (S i)) j ltac:(lia) ltac:(lia))
      as (a1 & E1 & P1 & L1).
    rewrite E1.
    destruct (IH (snd (next g)) a1 ltac:(lia)) as (a' & E' & P').
    exists a'. split.
    + rewrite E'. reflexivity.
    + eapply perm_trans; eauto.
Qed.

(** [shuffle(array)] never reads or writes outside the array, leaves in it a
    permutation of its contents, and draws one value for each element but
    the first. *)
Theorem shuffle_permutes {A : Type} (g : LCG) (array : list A) :
  exists shuffled,
    shuffle g array = (Some shuffled, advance g (List.length array - 1))
    /\ Permutation array shuffled.
Proof.
  unfold shuffle. destruct array as [|x rest].
  - exists []. split; reflexivity.
  - apply shuffleFrom_perm. cbn [List.length]. lia.
Qed.

(** ** The stream manager *)

Lemma lookup_store_same {A} label (v : A) m :
  lookup label (store label v m) = Some v.
Proof.
  induction m as [|[k w] m IH]; cbn.
  - rewrite String.eqb_refl. reflexivity.
  - destruct (String.eqb k label) eqn:E; cbn; rewrite E; auto.
Qed.

Lemma lookup_store_other {A} a b (v : A) m :
  a <> b -> lookup b (store a v m) = lookup b m.
Proof.
  intros Hab. induction m as [|[k w] m IH]; cbn.
  - destruct (String.eqb a b) eqn:E; [|reflexivity].
    apply String.eqb_eq in E. contradiction.
  - destruct (String.eqb k a) eqn:E; cbn.
    + apply String.eqb_eq in E. subst k.
      destruct (String.eqb a b) eqn:E'; [|reflexivity].
      apply String.eqb_eq in E'. contradiction.
    + destruct (String.eqb k b); auto.
Qed.

Lemma streams_getStream_other a b m :
  a <> b -> lookup b (streams (getStream a m)) = lookup b (streams m).
Proof.
  intros Hab. unfold getStream.
  destruct (lookup a (streams m)); [reflexivity|].
  cbn [streams]. apply lookup_store_other. exact Hab.
Qed.

Lemma streams_next_other a b m :
  a <> b ->
  lookup b (streams (snd (streamNext a m))) = lookup b (streams m).
Proof.
  intros Hab. unfold streamNext. destruct (next (streamOf a m)).
  cbn [snd streams]. apply lookup_store_other. exact Hab.
Qed.

Lemma streams_reset_other a b m :
  a <> b -> lookup b (streams (resetStream a m)) = lookup b (streams m).
Proof.
  intros Hab. unfold resetStream.
  destruct (lookup a (streams m)); [|reflexivity].
  cbn [streams]. apply lookup_store_other. exact Hab.
Qed.

(** Streams are isolated from each other: creating, drawing from or
    resetting the stream of one label leaves the generator stored under any
    other label as it is, so the values that the other stream yields next
    are the same. *)
Theorem streams_isolated (a b : string) (m : MultiStreamRNG) :
  a <> b ->
  lookup b (streams (getStream a m)) = lookup b (streams m)
  /\ lookup b (streams (snd (streamNext a m))) = lookup b (streams m)
  /\ lookup b (streams (resetStream a m)) = lookup b (streams m)
  /\ forall n,
       nthNext (streamOf b (snd (streamNext a (getStream a m)))) n
       = nthNext (streamOf b m) n.
Proof.
  intros Hab. split; [apply streams_getStream_other; exact Hab|].
  split; [apply streams_next_other; exact Hab|].
  split; [apply streams_reset_other; exact Hab|].
  intros n. unfold streamOf.
  rewrite streams_next_other, streams_getStream_other by exact Hab.
  reflexivity.
Qed.

Lemma streams_isolated_witness :
  let m := getStream "trees" (MultiStreamRNG_new 12345) in
  lookup "trees" (streams (snd (streamNext "lakes" m)))
  = lookup "trees" (streams m).
Proof.
  intros m.
  exact (proj1 (proj2 (streams_isolated "lakes" "trees" m
                         ltac:(discriminate)))).
Defined.

(** A request for a stream that exists hands out the live generator: the
    stream is not restarted, and the values already drawn are not drawn
    again. *)
Lemma getStream_live label m g :
  lookup label (streams m) = Some g -> getStream label m = m.
Proof. intros H. unfold getStream. rewrite H. reflexivity. Qed.

(** What holds of every manager reached from [new MultiStreamRNG(seed)]. *)
Record consistent (seed : Z) (m : MultiStreamRNG) : Prop := {
  cons_seed : masterSeed m = seed;
  cons_sub : forall label g,
    lookup label (streams m) = Some g ->
    lookup label (subSeeds m) = Some (hashSeed seed label);
  cons_state : forall label g,
    lookup label (streams m) = Some g -> 0 <= state g < 4294967296
}.

Lemma lookup_store_cases {A} a b (v : A) m :
  lookup b (store a v m) = if String.eqb a b then Some v else lookup b m.
Proof.
  destruct (String.eqb a b) eqn:E.
  - apply String.eqb_eq in E. subst b. apply lookup_store_same.
  - apply lookup_store_other. intros ->. rewrite String.eqb_refl in E.
    discriminate.
Qed.

Lemma reachable_consistent seed m : reachable seed m -> consistent seed m.
Proof.
  induction 1 as [|label m Hm IH|label m Hm IH Hl|label m Hm IH|m Hm IH].
  - split; cbn; [reflexivity|discriminate|discriminate].
  - unfold getStream.
    destruct (lookup label (streams m)) as [g0|] eqn:E; [exact IH|].
    destruct IH as [Hs Hsub Hst]. split; cbn [masterSeed streams subSeeds].
    + exact Hs.
    + intros l g. rewrite !lookup_store_cases.
      destruct (String.eqb label l) eqn:El.
      * apply String.eqb_eq in El. subst l. rewrite Hs. reflexivity.
      * apply Hsub.
    + intros l g. rewrite lookup_store_cases.
      destruct (String.eqb label l).
      * intros [= <-]. cbn. apply RNGProps.toUint32_range.
      * apply Hst.
  - destruct IH as [Hs Hsub Hst]. unfold streamNext.
    destruct (next (streamOf label m)) as [v g'] eqn:En.
    split; cbn [snd masterSeed streams subSeeds].
    + exact Hs.
    + intros l g. rewrite lookup_store_cases.
      destruct (String.eqb label l) eqn:El.
      * apply String.eqb_eq in El. subst l. intros _.
        destruct (lookup label (streams m)) as [g0|] eqn:E0; [|contradiction].
        eapply Hsub; eauto.
      * apply Hsub.
    + intros l g. rewrite lookup_store_cases.
      destruct (String.eqb label l).
      * intros [= <-]. injection En as _ <-. cbn.
        apply RNGProps.toUint32_range.
      * apply Hst.
  - unfold resetStream.
    destruct (lookup label (streams m)) as [g0|] eqn:E; [|exact IH].
    destruct IH as [Hs Hsub Hst]. split; cbn [masterSeed streams subSeeds].
    + exact Hs.
    + intros l g. rewrite lookup_store_cases.
      destruct (String.eqb label l) eqn:El.
      * apply String.eqb_eq in El. subst l. intros _. eapply Hsub; eauto.
      * apply Hsub.
    + intros l g. rewrite lookup_store_cases.
      destruct (String.eqb label l).
      * intros [= <-].
        destruct (String.eqb label "__proto__");
          [|destruct (lookup label (subSeeds m))];
          unfold LCG_new; cbn [state]; apply RNGProps.toUint32_range.
      * apply Hst.
  - destruct IH as [Hs _ _]. split; cbn; [exact Hs|discriminate|discriminate].
Qed.

(** [resetStream(label)] restarts an existing stream from its sub-seed: the
    stream then yields again the sequence it yielded when it was created,
    whatever was drawn from it before.  (The label __proto__ is the
    exception: its sub-seed is not recorded.)  On a label without a stream
    it changes nothing. *)
Theorem resetStream_replays (seed : Z) (m : MultiStreamRNG) (label : string) :
  reachable seed m ->
  label <> "__proto__"%string ->
  match lookup label (streams m) with
  | Some _ =>
      streamOf label (resetStream label m) = LCG_new (hashSeed seed label)
      /\ forall n, nthNext (streamOf label (resetStream label m)) n
                   = streamSequence seed label n
  | None => resetStream label m = m
  end.
Proof.
  intros Hm Hl. apply reachable_consistent in Hm.
  destruct Hm as [Hs Hsub _].
  assert (Hfresh : streamOf label (getStream label (MultiStreamRNG_new seed))
                   = LCG_new (hashSeed seed label)).
  { unfold getStream, streamOf. cbn [MultiStreamRNG_new streams lookup store
      masterSeed]. rewrite String.eqb_refl. reflexivity. }
  unfold resetStream. destruct (lookup label (streams m)) as [g|] eqn:E;
    [|reflexivity].
  assert (Hreset : streamOf label
            (mkMulti (masterSeed m)
               (store label
                  (if String.eqb label "__proto__" then LCG_new 0
                   else match lookup label (subSeeds m) with
                        | Some subSeed => LCG_new subSeed
                        | None => LCG_new 0
                        end) (streams m)) (subSeeds m))
          = LCG_new (hashSeed seed label)).
  { unfold streamOf. cbn [streams]. rewrite lookup_store_same.
    destruct (String.eqb label "__proto__") eqn:Ep;
      [apply String.eqb_eq in Ep; contradiction|].
    rewrite (Hsub label g E). reflexivity. }
  split; [exact Hreset|].
  intros n. unfold streamSequence. rewrite Hreset, Hfresh. reflexivity.
Qed.

Lemma resetStream_replays_witness :
  let m := snd (streamNext "lakes" (getStream "lakes" (MultiStreamRNG_new 12345))) in
  streamOf "lakes" (resetStream "lakes" m)
  = LCG_new (hashSeed 12345 "lakes").
Proof.
  intros m.
  assert (Hm : reachable 12345 m).
  { apply reach_next; [apply reach_getStream, reach_new|]. discriminate. }
  pose proof (resetStream_replays 12345 m "lakes" Hm ltac:(discriminate)) as H.
  assert (E : lookup "lakes" (streams m) <> None).
  { unfold m, streamNext. destruct (next _). cbn [snd streams].
    rewrite lookup_store_same. discriminate. }
  destruct (lookup "lakes" (streams m)); [exact (proj1 H)|contradiction].
Defined.

(** ** The state of a generator *)

Lemma advance_state_range n : forall g,
  0 <= state g < 4294967296 -> 0 <= state (advance g n) < 4294967296.
Proof.
  induction n as [|n IH]; intros g Hg; [exact Hg|].
  cbn [advance]. apply IH. cbn. apply RNGProps.toUint32_range.
Qed.

(** The state of a generator is always an unsigned 32-bit integer, so that
    [setState(getState())] on any generator gives a generator equal to the
    one whose state was read: it continues with the same values. *)
Lemma state_round_trip (seed : Z) (n : nat) (other : LCG) :
  let g := advance (LCG_new seed) n in
  0 <= getState g < 4294967296
  /\ setState other (getState g) = g
  /\ forall k, nthNext (setState other (getState g)) k = nthNext g k.
Proof.
  intros g.
  assert (Hg : 0 <= state g < 4294967296).
  { apply advance_state_range. cbn. apply RNGProps.toUint32_range. }
  assert (E : setState other (getState g) = g).
  { unfold setState, getState. rewrite RNGProps.toUint32_small by exact Hg.
    destruct g. reflexivity. }
  split; [exact Hg|]. split; [exact E|]. intros k. rewrite E. reflexivity.
Qed.

(** ** The period of the generator *)

Lemma advance_add n : forall m g,
  advance g (n + m) = advance (advance g n) m.
Proof.
  induction n as [|n IH]; intros m g; [reflexivity|].
  cbn [Nat.add advance]. apply IH.
Qed.

Lemma advance_iter n g : advance g (N.to_nat n) = N.iter n LCG_step g.
Proof.
  induction n as [|n IH] using N.peano_ind; [reflexivity|].
  replace (N.to_nat (N.succ n)) with (S (N.to_nat n)) by lia.
  rewrite advance_succ, IH, N.iter_succ. reflexivity.
Qed.

Lemma affine_twice ac s : affine (twice ac) s = affine ac (affine ac s).
Proof.
  destruct ac as [a c]. unfold affine, twice, toUint32. cbn [fst snd].
  rewrite Zplus_mod, Zmult_mod_idemp_l, Zmod_mod, <- Zplus_mod.
  rewrite (Zplus_mod (a * _)), Zmult_mod_idemp_r, <- Zplus_mod.
  f_equal. ring.
Qed.

Fixpoint doubled (k : nat) : Z * Z :=
  match k with
  | O => stepMap
  | S k' => twice (doubled k')
  end.

Lemma iter_pow2 k : forall s,
  N.iter (2 ^ N.of_nat k) LCG_step (mkLCG s) = mkLCG (affine (doubled k) s).
Proof.
  induction k as [|k IH]; intros s.
  - cbn. unfold LCG_step, affine, stepMap. cbn [state fst snd].
    f_equal. f_equal. ring.
  - replace (N.of_nat (S k)) with (N.succ (N.of_nat k)) by lia.
    rewrite N.pow_succ_r by lia.
    replace (2 * 2 ^ N.of_nat k)%N with (2 ^ N.of_nat k + 2 ^ N.of_nat k)%N
      by lia.
    rewrite N.iter_add, !IH. cbn [doubled]. rewrite affine_twice. reflexivity.
Qed.

(** 2^31 steps add 2^31 to the state. *)
Lemma half_period s :
  N.iter 2147483648 LCG_step (mkLCG s) = mkLCG (toUint32 (s + 2147483648)).
Proof.
  change 2147483648%N with (2 ^ N.of_nat 31)%N. rewrite iter_pow2.
  replace (doubled 31) with (1, 2147483648) by (vm_compute; reflexivity).
  unfold affine. cbn [fst snd]. f_equal. f_equal. ring.
Qed.

Lemma half_periods m : forall s,
  0 <= s < 4294967296 ->
  N.iter (m * 2147483648) LCG_step (mkLCG s)
  = mkLCG (toUint32 (s + Z.of_N m * 2147483648)).
Proof.
  induction m as [|m IH] using N.peano_ind; intros s Hs.
  - cbn. rewrite Z.add_0_r, RNGProps.toUint32_small by exact Hs. reflexivity.
  - replace (N.succ m * 2147483648)%N
      with (2147483648 + m * 2147483648)%N by lia.
    rewrite N.iter_add, IH by exact Hs. rewrite half_period.
    f_equal. unfold toUint32. rewrite Zplus_mod_idemp_l. f_equal. lia.
Qed.

Lemma iter_multiple f (g : LCG) n :
  N.iter n f g = g -> forall j, N.iter (j * n) f g = g.
Proof.
  intros H j. induction j as [|j IH] using N.peano_ind; [reflexivity|].
  replace (N.succ j * n)%N with (n + j * n)%N by lia.
  rewrite N.iter_add, IH. exact H.
Qed.

(** Every positive number is a power of two times an odd number. *)
Lemma two_adic (p : positive) :
  exists k m, Npos p = (2 ^ k * (2 * m + 1))%N.
Proof.
  induction p as [p _|p (k & m & E)|].
  - exists 0%N, (Npos p). cbn. lia.
  - exists (N.succ k), m. rewrite N.pow_succ_r by lia.
    change (N.pos p~0) with (2 * N.pos p)%N. rewrite E. lia.
  - exists 0%N, 0%N. reflexivity.
Qed.

Lemma no_short_cycle s n :
  0 <= s < 4294967296 -> (0 < n < 4294967296)%N ->
  N.iter n LCG_step (mkLCG s) <> mkLCG s.
Proof.
  intros Hs [Hn0 Hn] Hcycle.
  destruct n as [|p]; [lia|].
  destruct (two_adic p) as (k & m & E).
  assert (Hk : (k <= 31)%N).
  { destruct (N.le_gt_cases k 31) as [H|H]; [exact H|exfalso].
    assert (2 ^ 32 <= 2 ^ k)%N by (apply N.pow_le_mono_r; lia).
    change (2 ^ 32)%N with 4294967296%N in *. nia. }
  pose proof (iter_multiple _ _ _ Hcycle (2 ^ (31 - k))%N) as Hmult.
  replace (2 ^ (31 - k) * N.pos p)%N with ((2 * m + 1) * 2147483648)%N
    in Hmult.
  2:{ rewrite E. change 2147483648%N with (2 ^ 31)%N.
      replace 31%N with (31 - k + k)%N at 1 by lia.
      rewrite N.pow_add_r. lia. }
  remember (2 * m + 1)%N as q eqn:Hq.
  rewrite half_periods in Hmult by exact Hs.
  injection Hmult as Hmult. unfold toUint32 in Hmult.
  replace (s + Z.of_N q * 2147483648)
    with (s + 2147483648 + Z.of_N m * 4294967296) in Hmult by lia.
  rewrite Z_mod_plus_full in Hmult.
  destruct (Z_lt_ge_dec s 2147483648) as [Hlow|Hhigh].
  - rewrite Z.mod_small in Hmult by lia. lia.
  - replace (s + 2147483648) with (s - 2147483648 + 1 * 4294967296)
      in Hmult by lia.
    rewrite Z_mod_plus_full, Z.mod_small in Hmult by lia. lia.
Qed.

Lemma whole_period s :
  0 <= s < 4294967296 -> N.iter 4294967296 LCG_step (mkLCG s) = mkLCG s.
Proof.
  intros Hs. change 4294967296%N with (2 * 2147483648)%N.
  rewrite half_periods by exact Hs. f_equal. unfold toUint32.
  change (Z.of_N 2 * 2147483648) with (1 * 4294967296).
  rewrite Z_mod_plus_full. apply Z.mod_small. exact Hs.
Qed.

(** The generator has the full period 2^32 from every seed: the state comes
    back to the initial one after 2^32 calls of [next()], and no two of the
    states reached before that are equal. *)
Theorem LCG_full_period (seed : Z) :
  let g := LCG_new seed in
  (forall n : nat, Z.of_nat n = 4294967296 -> advance g n = g)
  /\ (forall i j : nat,
        (i < j)%nat -> Z.of_nat j < 4294967296 ->
        advance g i <> advance g j).
Proof.
  intros g.
  assert (Hg : 0 <= state g < 4294967296)
    by (cbn; apply RNGProps.toUint32_range).
  split.
  - intros n Hn. replace n with (N.to_nat 4294967296) by lia.
    rewrite advance_iter. destruct g as [s]. apply whole_period. exact Hg.
  - intros i j Hij Hj E.
    replace j with (i + N.to_nat (N.of_nat (j - i)))%nat in E by lia.
    rewrite advance_add, advance_iter in E.
    pose proof (advance_state_range i g Hg) as Hi.
    destruct (advance g i) as [s]. cbn [state] in Hi.
    symmetry in E. revert E. apply no_short_cycle; [exact Hi|lia].
Qed.

End RNGLaws.

(* ================================================================== *)
(** * quantile.js: further properties *)
Module QuantileLaws.

Import Quantile QuantileProps Histogram.
Local Open Scope R_scope.

(** ** [findQuantile] *)

Lemma sorted_head_least x l :
  StronglySorted Rle (x :: l) -> forall y, In y (x :: l) -> x <= y.
Proof.
  intros H y [<-|Hy]; [lra|].
  inversion H as [|? ? _ Hall]; subst. rewrite Forall_forall in Hall. auto.
Qed.

(** A sorted list is determined by its elements. *)
Lemma sorted_perm_eq l1 : forall l2,
  StronglySorted Rle l1 -> StronglySorted Rle l2 -> Permutation l1 l2 ->
  l1 = l2.
Proof.
  induction l1 as [|x l1 IH]; intros l2 H1 H2 P.
  - apply Permutation_nil in P. subst. reflexivity.
  - destruct l2 as [|y l2];
      [apply Permutation_sym, Permutation_nil in P; discriminate|].
    assert (E : x = y).
    { pose proof (sorted_head_least H1) as L1.
      pose proof (sorted_head_least H2) as L2.
      assert (In y (x :: l1))
        by (eapply Permutation_in; [apply Permutation_sym; exact P|left; auto]).
      assert (In x (y :: l2)) by (eapply Permutation_in; [exact P|left; auto]).
      specialize (L1 y ltac:(assumption)). specialize (L2 x ltac:(assumption)).
      lra. }
    subst y. f_equal. apply IH.
    + inversion H1; assumption.
    + inversion H2; assumption.
    + eapply Permutation_cons_inv; eauto.
Qed.

Lemma sort_of_perm l1 l2 : Permutation l1 l2 -> sort l1 = sort l2.
Proof.
  intros P. apply sorted_perm_eq; try apply sort_sorted.
  eapply perm_trans; [apply sort_perm|].
  eapply perm_trans; [exact P|]. apply Permutation_sym, sort_perm.
Qed.

(** The quantile of a height field does not depend on the order of the
    cells. *)
Theorem findQuantile_order_independent (data1 data2 : list R) (quantile : R) :
  Permutation data1 data2 ->
  findQuantile data1 quantile = findQuantile data2 quantile.
Proof.
  intros P. unfold findQuantile.
  destruct (Rltb quantile 0 || Rltb 1 quantile); [reflexivity|].
  destruct data1 as [|x1 r1], data2 as [|x2 r2].
  - reflexivity.
  - apply Permutation_nil in P. discriminate.
  - apply Permutation_sym, Permutation_nil in P. discriminate.
  - rewrite (sort_of_perm P). reflexivity.
Qed.

Lemma findQuantile_order_independent_witness :
  findQuantile [3; 1; 2] (1 / 2) = findQuantile [1; 2; 3] (1 / 2).
Proof.
  apply findQuantile_order_independent.
  apply perm_trans with [1; 3; 2]; [apply perm_swap|].
  apply perm_skip, perm_swap.
Defined.

Lemma sort_nonempty data : data <> [] -> (1 <= List.length (sort data))%nat.
Proof.
  intros H. rewrite sort_length. destruct data; [contradiction|cbn; lia].
Qed.

Lemma sort_in data y : In y (sort data) <-> In y data.
Proof.
  split; apply Permutation_in;
    [apply sort_perm|apply Permutation_sym, sort_perm].
Qed.

Lemma findQuantile_zero data :
  data <> [] -> findQuantile data 0 = Ok (nth 0 (sort data) 0).
Proof.
  intros H. unfold findQuantile. rdecide. cbn [orb].
  destruct data as [|x r]; [contradiction|]. rdecide.
  apply (@item_in_range (sort (x :: r)) 0%Z).
  pose proof (@sort_nonempty (x :: r) H). lia.
Qed.

Lemma findQuantile_one data :
  data <> [] ->
  findQuantile data 1
  = Ok (nth (List.length data - 1) (sort data) 0).
Proof.
  intros H. unfold findQuantile. rdecide. cbn [orb].
  destruct data as [|x r]; [contradiction|]. rdecide.
  pose proof (@sort_nonempty (x :: r) H) as Hl.
  rewrite (@item_in_range (sort (x :: r))
             (Z.of_nat (List.length (sort (x :: r))) - 1)%Z) by lia.
  rewrite sort_length in *. do 2 f_equal. lia.
Qed.

Lemma findQuantile_extremes data :
  data <> [] ->
  exists lo hi,
    findQuantile data 0 = Ok lo /\ findQuantile data 1 = Ok hi
    /\ In lo data /\ In hi data
    /\ forall y, In y data -> lo <= y <= hi.
Proof.
  intros H. pose proof (@sort_nonempty data H) as Hl.
  pose proof (sort_sorted data) as Hs. rewrite sort_length in Hl.
  exists (nth 0 (sort data) 0), (nth (List.length data - 1) (sort data) 0).
  split; [apply findQuantile_zero; exact H|].
  split; [apply findQuantile_one; exact H|].
  split; [apply sort_in, nth_In; rewrite sort_length; lia|].
  split; [apply sort_in, nth_In; rewrite sort_length; lia|].
  intros y Hy. apply sort_in in Hy.
  destruct (In_nth _ _ 0 Hy) as (k & Hk & <-). rewrite sort_length in Hk.
  split; apply (sorted_nth_le Hs); rewrite sort_length; lia.
Qed.

(** The errors and the ends of [findQuantile]: a quantile outside [0, 1]
    throws, the empty array gives 0, and on a non-empty array the quantile 0
    is the smallest height and the quantile 1 the largest. *)
Theorem findQuantile_ends (data : list R) :
  (forall q, q < 0 \/ 1 < q -> findQuantile data q = Throws)
  /\ (forall q, 0 <= q <= 1 -> findQuantile [] q = Ok 0)
  /\ (data <> [] ->
      exists lo hi,
        findQuantile data 0 = Ok lo /\ findQuantile data 1 = Ok hi
        /\ In lo data /\ In hi data
        /\ forall y, In y data -> lo <= y <= hi).
Proof.
  split; [|split].
  - intros q [Hq|Hq]; unfold findQuantile; rdecide;
      rewrite ?orb_true_r; reflexivity.
  - intros q Hq. unfold findQuantile. rdecide. reflexivity.
  - apply findQuantile_extremes.
Qed.

Lemma findQuantile_ends_witness :
  exists lo hi,
    findQuantile [2; 1; 3] 0 = Ok lo /\ findQuantile [2; 1; 3] 1 = Ok hi
    /\ In lo [2; 1; 3] /\ In hi [2; 1; 3]
    /\ forall y, In y [2; 1; 3] -> lo <= y <= hi.
Proof.
  apply (proj2 (proj2 (findQuantile_ends [2; 1; 3]))). discriminate.
Defined.

(** ** [validateWaterCoverage] against [solveSeaLevel] *)






(** ** [raiseTerrainAboveSeaLevel] *)

(** [raiseTerrainAboveSeaLevel] lifts exactly the cells below
    [seaLevel + epsilon] to that height and returns their number: afterwards
    every cell is at least [seaLevel + epsilon], the cells that were so
    before keep their height, and a second call raises nothing. *)
Lemma raiseTerrain_floor (data : list R) (seaLevel epsilon : R) :
  let (raisedData, raised) := raiseTerrainAboveSeaLevel data seaLevel epsilon in
  List.length raisedData = List.length data
  /\ raised = count (fun h => Rltb h (seaLevel + epsilon)) data
  /\ (forall i, (i < List.length data)%nat ->
        nth i raisedData 0 = Rmax (nth i data 0) (seaLevel + epsilon))
  /\ (forall h, In h raisedData -> seaLevel + epsilon <= h)
  /\ raiseTerrainAboveSeaLevel raisedData seaLevel epsilon = (raisedData, O).
Proof.
  unfold raiseTerrainAboveSeaLevel. rewrite raiseLoop_spec.
  set (floor := seaLevel + epsilon).
  set (lift := fun h => if Rltb h floor then floor else h).
  assert (Hlift : forall h, lift h = Rmax h floor).
  { intros h. unfold lift. destruct (Rltb h floor) eqn:E.
    - apply Rltb_true in E. rewrite Rmax_right; lra.
    - apply Rltb_false in E. rewrite Rmax_left; lra. }
  split; [apply length_map|]. split; [reflexivity|]. split.
  - intros i Hi. rewrite <- (Hlift (nth i data 0)).
    rewrite (nth_indep _ 0 (lift 0)) by (rewrite length_map; exact Hi).
    apply map_nth.
  - split.
    + intros h Hh. apply in_map_iff in Hh. destruct Hh as (h0 & <- & _).
      rewrite Hlift. apply Rmax_r.
    + rewrite raiseLoop_spec. f_equal.
      * rewrite map_map. apply map_ext. intros h. fold (lift (lift h)).
        rewrite !Hlift. rewrite Rmax_left; [reflexivity|apply Rmax_r].
      * apply count_none. intros h Hh. apply in_map_iff in Hh.
        destruct Hh as (h0 & <- & _). apply Rltb_false. fold (lift h0).
        rewrite Hlift. apply Rmax_r.
Qed.

(** ** [calculateTerrainStats] *)

Lemma fold_min_in rest : forall x,
  In (fold_left Rmin rest x) (x :: rest).
Proof.
  induction rest as [|y rest IH]; intros x; cbn [fold_left]; [left; auto|].
  destruct (IH (Rmin x y)) as [E|Hin].
  - rewrite <- E. unfold Rmin. destruct (Rle_dec x y); [left|right; left]; auto.
  - right. right. exact Hin.
Qed.

Lemma fold_max_in rest : forall x,
  In (fold_left Rmax rest x) (x :: rest).
Proof.
  induction rest as [|y rest IH]; intros x; cbn [fold_left]; [left; auto|].
  destruct (IH (Rmax x y)) as [E|Hin].
  - rewrite <- E. unfold Rmax. destruct (Rle_dec x y); [right; left|left]; auto.
  - right. right. exact Hin.
Qed.

Lemma extremes data first rest :
  data = first :: rest ->
  In (fold_left Rmin rest first) data /\ In (fold_left Rmax rest first) data
  /\ forall y, In y data ->
       fold_left Rmin rest first <= y <= fold_left Rmax rest first.
Proof.
  intros ->. split; [apply fold_min_in|]. split; [apply fold_max_in|].
  destruct (@Math_min_spec (first :: rest) ltac:(discriminate))
    as (lo & Hlo & Hmin).
  destruct (@Math_max_spec (first :: rest) ltac:(discriminate))
    as (hi & Hhi & Hmax).
  cbn in Hlo, Hhi. injection Hlo as <-. injection Hhi as <-.
  intros y Hy. split; [apply Hmin|apply Hmax]; exact Hy.
Qed.

Lemma fold_plus_shift l : forall a,
  fold_left Rplus l a = a + fold_left Rplus l 0.
Proof.
  induction l as [|h l IH]; intros a; cbn [fold_left]; [lra|].
  rewrite (IH (a + h)), (IH (0 + h)). lra.
Qed.

Lemma fold_squares_shift l : forall a,
  fold_left (fun s h => s + h * h) l a
  = a + fold_left (fun s h => s + h * h) l 0.
Proof.
  induction l as [|h l IH]; intros a; cbn [fold_left]; [lra|].
  rewrite (IH (a + h * h)), (IH (0 + h * h)). lra.
Qed.

Lemma sum_bounds l lo hi :
  (forall y, In y l -> lo <= y <= hi) ->
  INR (List.length l) * lo <= fold_left Rplus l 0 <= INR (List.length l) * hi.
Proof.
  induction l as [|h l IH]; intros H.
  - cbn. lra.
  - cbn [fold_left]. rewrite fold_plus_shift.
    change (List.length (h :: l)) with (S (List.length l)). rewrite S_INR.
    specialize (IH (fun y Hy => H y (or_intror Hy))).
    pose proof (H h (or_introl eq_refl)). lra.
Qed.

(** The sum of the squared deviations from any [m] is not negative. *)
Lemma deviations_nonneg l m :
  0 <= fold_left (fun s h => s + h * h) l 0
       - 2 * m * fold_left Rplus l 0 + INR (List.length l) * (m * m).
Proof.
  induction l as [|h l IH].
  - cbn. lra.
  - cbn [fold_left]. rewrite fold_plus_shift, fold_squares_shift.
    change (List.length (h :: l)) with (S (List.length l)). rewrite S_INR.
    pose proof (Rle_0_sqr (h - m)) as Hsq. unfold Rsqr in Hsq. lra.
Qed.

(** ** [createHeightHistogram] and [seaLevelFromHistogram] *)

Lemma list_sum_cons b l : list_sum (b :: l) = (b + list_sum l)%nat.
Proof. reflexivity. Qed.

Lemma bump_length bins : forall i, List.length (bump bins i) = List.length bins.
Proof. induction bins as [|c r IH]; intros [|i]; cbn; auto. Qed.

Lemma bump_sum bins : forall i,
  (i < List.length bins)%nat -> list_sum (bump bins i) = S (list_sum bins).
Proof.
  induction bins as [|c r IH]; intros [|i] H; cbn [List.length] in H;
    try lia; cbn [bump].
  - cbn. lia.
  - change (list_sum (c :: bump r i)) with (c + list_sum (bump r i))%nat.
    change (list_sum (c :: r)) with (c + list_sum r)%nat.
    rewrite IH by lia. lia.
Qed.

Lemma runningTotal_length bins : forall p,
  List.length (runningTotal p bins) = List.length bins.
Proof. induction bins as [|b r IH]; intros p; cbn; auto. Qed.

Lemma runningTotal_nth bins : forall p i,
  (i < List.length bins)%nat ->
  nth i (runningTotal p bins) O = (p + list_sum (firstn (S i) bins))%nat.
Proof.
  induction bins as [|b r IH]; intros p i H; [cbn in H; lia|].
  destruct i as [|i]; cbn [runningTotal nth].
  - cbn. lia.
  - rewrite IH by (cbn in H; lia).
    change (firstn (S (S i)) (b :: r)) with (b :: firstn (S i) r).
    rewrite list_sum_cons. lia.
Qed.

Lemma runningTotal_last bins p :
  bins <> [] ->
  nth (List.length bins - 1) (runningTotal p bins) O = (p + list_sum bins)%nat.
Proof.
  intros H. destruct bins as [|b r]; [contradiction|].
  rewrite runningTotal_nth by (cbn; lia).
  replace (S (List.length (b :: r) - 1)) with (List.length (b :: r))
    by (cbn; lia).
  rewrite firstn_all. reflexivity.
Qed.

Lemma runningTotal_monotone bins : forall p i j,
  (i <= j < List.length bins)%nat ->
  (nth i (runningTotal p bins) O <= nth j (runningTotal p bins) O)%nat.
Proof.
  induction bins as [|b r IH]; intros p i j H; [cbn in H; lia|].
  destruct i as [|i], j as [|j]; cbn [runningTotal nth]; try lia.
  - rewrite runningTotal_nth by (cbn in H; lia). lia.
  - apply IH. cbn in H. lia.
Qed.

(** The bins after the loop over the cells, when every cell gets an index
    inside the array, and when no cell gets an index. *)
Lemma bins_counted (index : R -> option Z) data : forall bins,
  (forall h, In h data ->
     exists i, index h = Some i /\ (0 <= i < Z.of_nat (List.length bins))%Z) ->
  let bins' := fold_left (fun bins h => countCell bins (index h)) data bins in
  List.length bins' = List.length bins
  /\ list_sum bins' = (list_sum bins + List.length data)%nat.
Proof.
  induction data as [|h data IH]; intros bins H; cbn [fold_left].
  - split; [reflexivity|cbn; lia].
  - destruct (H h (or_introl eq_refl)) as (i & Ei & Hi).
    assert (Hc : countCell bins (index h) = bump bins (Z.to_nat i)).
    { rewrite Ei. unfold countCell.
      replace (i <? 0)%Z with false by (symmetry; apply Z.ltb_ge; lia).
      reflexivity. }
    rewrite Hc.
    destruct (IH (bump bins (Z.to_nat i))) as [Hl Hs].
    { intros h' Hh'. rewrite bump_length. apply H. right. exact Hh'. }
    cbv zeta in Hl, Hs |- *. rewrite Hl, Hs, bump_length, bump_sum by lia.
    split; [reflexivity|cbn; lia].
Qed.

Lemma bins_untouched (index : R -> option Z) data : forall bins,
  (forall h, In h data -> index h = None) ->
  fold_left (fun bins h => countCell bins (index h)) data bins = bins.
Proof.
  induction data as [|h data IH]; intros bins H; cbn [fold_left];
    [reflexivity|].
  rewrite (H h (or_introl eq_refl)). cbn [countCell].
  apply IH. intros h' Hh'. apply H. right. exact Hh'.
Qed.

Lemma list_sum_repeat_zero n : list_sum (repeat O n) = O.
Proof. induction n; cbn; auto. Qed.

Lemma createHeightHistogram_auto first rest c :
  let data := first :: rest in
  let nbins := S c in
  let lo := fold_left Rmin rest first in
  let hi := fold_left Rmax rest first in
  let width := (hi - lo) / INR nbins in
  let bins := fold_left (fun bins h =>
                           countCell bins (binIndex nbins lo width h))
                        data (repeat O nbins) in
  createHeightHistogram data nbins None None
  = Ok (mkHeightHistogram bins (runningTotal 0 bins)
          (map (fun k => INR k / INR (List.length data) * 100)
               (runningTotal 0 bins))
          width lo hi nbins).
Proof. reflexivity. Qed.

(** The histogram built with detected bounds. *)
Lemma histogram_frame data nbins :
  data <> [] -> (1 <= nbins)%nat ->
  exists h,
    createHeightHistogram data nbins None None = Ok h
    /\ binCount h = nbins
    /\ In (minHeight h) data /\ In (maxHeight h) data
    /\ (forall y, In y data -> minHeight h <= y <= maxHeight h)
    /\ binWidth h * INR nbins = maxHeight h - minHeight h
    /\ List.length (bins h) = nbins
    /\ cdf h = runningTotal 0 (bins h)
    /\ cdfPercent h
       = map (fun k => INR k / INR (List.length data) * 100) (cdf h)
    /\ (minHeight h < maxHeight h -> list_sum (bins h) = List.length data)
    /\ (minHeight h = maxHeight h -> bins h = repeat O nbins).
Proof.
  intros Hd Hc.
  destruct data as [|first rest]; [contradiction|].
  destruct nbins as [|c]; [lia|].
  pose proof (createHeightHistogram_auto first rest c) as Hcreate.
  cbv zeta in Hcreate.
  destruct (@extremes (first :: rest) first rest eq_refl) as (Hlo & Hhi & Hall).
  set (data := first :: rest) in *. set (nbins := S c) in *.
  set (lo := fold_left Rmin rest first) in *.
  set (hi := fold_left Rmax rest first) in *.
  assert (Hnbins : 0 < INR nbins) by (apply lt_0_INR; unfold nbins; lia).
  set (width := (hi - lo) / INR nbins) in *.
  set (index := binIndex nbins lo width) in *.
  set (bins := fold_left (fun bins h => countCell bins (index h)) data
                         (repeat O nbins)) in *.
  assert (Hcases : (lo < hi ->
                    List.length bins = nbins
                    /\ list_sum bins = List.length data)
                   /\ (lo = hi -> bins = repeat O nbins)).
  { split.
    - intros Hlt.
      assert (Hw : 0 < width) by (apply Rdiv_lt_0_compat; lra).
      destruct (@bins_counted index data (repeat O nbins)) as [Hl Hs].
      { intros h Hh. unfold index, binIndex.
        rewrite (proj2 (Reqb_false width 0)) by lra.
        eexists. split; [reflexivity|]. rewrite repeat_length.
        assert (0 <= Zfloor ((h - lo) / width))%Z.
        { apply Zfloor_lub. cbn. pose proof (Hall h Hh).
          apply Rmult_le_pos; [lra|].
          left. apply Rinv_0_lt_compat. exact Hw. }
        lia. }
      cbv zeta in Hl, Hs. fold bins in Hl, Hs.
      rewrite repeat_length in Hl. rewrite list_sum_repeat_zero in Hs.
      split; [exact Hl|exact Hs].
    - intros Heq. unfold bins. apply bins_untouched.
      intros h Hh. unfold index, binIndex.
      assert (Hw : width = 0) by (unfold width; rewrite Heq; field; lra).
      rewrite (proj2 (Reqb_true width 0)) by exact Hw.
      pose proof (Hall h Hh).
      rewrite (proj2 (Rltb_false lo h)) by lra. reflexivity. }
  assert (Hlen : List.length bins = nbins).
  { destruct (Rle_lt_or_eq_dec lo hi) as [Hlt|Heq].
    - pose proof (Hall lo Hlo). lra.
    - apply Hcases. exact Hlt.
    - rewrite (proj2 Hcases Heq). apply repeat_length. }
  eexists. split; [exact Hcreate|].
  cbn [binCount minHeight maxHeight binWidth Histogram.bins cdf cdfPercent].
  split; [reflexivity|]. split; [exact Hlo|]. split; [exact Hhi|].
  split; [exact Hall|].
  split; [unfold width; field; lra|]. split; [exact Hlen|].
  split; [reflexivity|]. split; [reflexivity|].
  split; [intros Hlt; apply Hcases; exact Hlt|apply Hcases].
Qed.

Lemma runningTotal_zero n : forall p,
  runningTotal p (repeat O n) = repeat p n.
Proof.
  induction n as [|n IH]; intros p; cbn; [reflexivity|].
  rewrite Nat.add_0_r, IH. reflexivity.
Qed.

(** With the bounds detected from the data, [createHeightHistogram] on a
    non-empty height field with at least one bin counts every cell in
    exactly one bin, so that the last cumulative count is the number of
    cells and the last cumulative percentage is 100, unless all heights are
    equal: then the bin width is 0 and no cell is counted at all. *)
Theorem histogram_counts (data : list R) (nbins : nat) :
  data <> [] -> (1 <= nbins)%nat ->
  exists h,
    createHeightHistogram data nbins None None = Ok h
    /\ binCount h = nbins
    /\ In (minHeight h) data /\ In (maxHeight h) data
    /\ (forall y, In y data -> minHeight h <= y <= maxHeight h)
    /\ binWidth h * INR nbins = maxHeight h - minHeight h
    /\ List.length (bins h) = nbins
    /\ List.length (cdfPercent h) = nbins
    /\ (minHeight h < maxHeight h ->
        list_sum (bins h) = List.length data
        /\ nth (nbins - 1) (cdf h) O = List.length data
        /\ nth (nbins - 1) (cdfPercent h) 0 = 100)
    /\ (minHeight h = maxHeight h ->
        bins h = repeat O nbins
        /\ forall i, nth i (cdfPercent h) 0 = 0).
Proof.
  intros Hd Hc.
  destruct (histogram_frame Hd Hc)
    as (h & Hcreate & Hbc & Hlo & Hhi & Hall & Hspan & Hlen & Hcdf & Hpct
        & Hsum & Hflat).
  assert (Hn : 0 < INR (List.length data)).
  { apply lt_0_INR. destruct data; [contradiction|cbn; lia]. }
  set (percent := fun k => INR k / INR (List.length data) * 100) in *.
  exists h. split; [exact Hcreate|]. split; [exact Hbc|].
  split; [exact Hlo|]. split; [exact Hhi|]. split; [exact Hall|].
  split; [exact Hspan|]. split; [exact Hlen|].
  split; [rewrite Hpct, length_map, Hcdf, runningTotal_length; exact Hlen|].
  split.
  - intros Hlt. specialize (Hsum Hlt).
    assert (Hlast : nth (nbins - 1) (cdf h) O = List.length data).
    { rewrite Hcdf, <- Hlen, runningTotal_last.
      - rewrite Hsum. reflexivity.
      - intros E. rewrite E in Hlen. cbn in Hlen. lia. }
    split; [exact Hsum|]. split; [exact Hlast|].
    rewrite Hpct, (nth_indep _ 0 (percent O))
      by (rewrite length_map, Hcdf, runningTotal_length; lia).
    rewrite (map_nth percent), Hlast. unfold percent. field. lra.
  - intros Heq. specialize (Hflat Heq). split; [exact Hflat|].
    intros i. rewrite Hpct, Hcdf, Hflat, runningTotal_zero.
    destruct (Nat.lt_ge_cases i nbins) as [Hi|Hi].
    + rewrite (nth_indep _ 0 (percent O))
        by (rewrite length_map, repeat_length; exact Hi).
      rewrite (map_nth percent), nth_repeat. unfold percent.
      change (INR 0) with 0. unfold Rdiv. rewrite !Rmult_0_l. reflexivity.
    + apply nth_overflow. rewrite length_map, repeat_length. exact Hi.
Qed.

Lemma histogram_counts_witness :
  exists h,
    createHeightHistogram [0; 1; 2; 3] 2 None None = Ok h
    /\ List.length (bins h) = 2%nat.
Proof.
  destruct (@histogram_counts [0; 1; 2; 3] 2 ltac:(discriminate) ltac:(lia))
    as (h & H & _ & _ & _ & _ & _ & Hl & _).
  exists h. split; [exact H|exact Hl].
Defined.

Lemma scanBins_bounded h target :
  List.length (cdfPercent h) = binCount h ->
  0 <= binWidth h ->
  binWidth h * INR (binCount h) = maxHeight h - minHeight h ->
  forall n i,
    (i + n = binCount h)%nat ->
    match i with
    | O => True
    | S j => exists prev, nth_error (cdfPercent h) j = Some prev
                          /\ prev < target
    end ->
    exists level,
      scanBins h target n i = Ok level
      /\ minHeight h <= level <= maxHeight h.
Proof.
  intros Hlen Hw Hspan.
  assert (Hle : minHeight h <= maxHeight h).
  { pose proof (pos_INR (binCount h)). nra. }
  induction n as [|n IH]; intros i Hi Hprev; cbn [scanBins].
  - exists (maxHeight h). split; [reflexivity|lra].
  - destruct (nth_error (cdfPercent h) i) as [current|] eqn:Ecur.
    2:{ apply nth_error_None in Ecur. lia. }
    destruct (Rleb target current) eqn:Ecmp.
    + apply Rleb_true in Ecmp. destruct i as [|j].
      * eexists. split; [reflexivity|]. cbn. lra.
      * destruct Hprev as (prev & Eprev & Hlt). rewrite Eprev.
        rewrite (proj2 (Reqb_false (current - prev) 0)) by lra.
        eexists. split; [reflexivity|].
        set (weight := (target - prev) / (current - prev)).
        assert (Hweight : 0 <= weight <= 1).
        { unfold weight. split.
          - apply Rmult_le_pos; [lra|].
            left. apply Rinv_0_lt_compat. lra.
          - apply (Rmult_le_reg_r (current - prev)); [lra|].
            unfold Rdiv. rewrite Rmult_assoc, Rinv_l by lra. lra. }
        assert (Hbins : INR (S j) + 1 <= INR (binCount h)).
        { rewrite <- S_INR. apply le_INR. lia. }
        pose proof (pos_INR (S j)). nra.
    + apply Rleb_false in Ecmp.
      apply IH; [lia|]. exists current. split; [exact Ecur|exact Ecmp].
Qed.

End QuantileLaws.

(* ================================================================== *)
(** * poisson.js: further properties *)
Module PoissonLaws.

Import Quantile QuantileProps Poisson PoissonProps Distribution.
Local Open Scope R_scope.

(** ** The points of a sample set *)

Lemma run_points width height minDistance rng maxAttempts suitabilityMask
  fuel st :
  0 < minDistance -> (forall n, 0 <= rng n < 1) ->
  0 < width -> 0 < height ->
  run width height minDistance rng maxAttempts suitabilityMask fuel = Ok st ->
  (List.length (samples st)
   <= Z.to_nat (gridWidth width minDistance * gridHeight height minDistance))%nat
  /\ forall p, In p (samples st) ->
       0 <= px p < width /\ 0 <= py p < height
       /\ match suitabilityMask with
          | Some mask => mask (px p) (py p) = true
          | None => True
          end.
Proof.
  intros Hr Hrng Hw Hh Hrun.
  pose proof (@run_inv width height minDistance suitabilityMask Hr rng
                maxAttempts Hrng fuel st Hw Hh Hrun) as HI.
  pose proof (run_mask _ _ _ _ _ _ _ Hrun) as Hmask.
  rewrite Forall_forall in Hmask. split.
  - apply Inv_bound; assumption.
  - intros p Hp. destruct (inv_inside HI p Hp) as [Hx Hy].
    split; [exact Hx|]. split; [exact Hy|].
    specialize (Hmask p Hp). unfold rejectedByMask in Hmask.
    destruct suitabilityMask as [mask|]; [|exact I].
    apply negb_false_iff. exact Hmask.
Qed.

(** ** [validatePoissonDistribution] on a sample set *)

Lemma pairDistance_eq p q :
  sqrt ((px p - px q) * (px p - px q) + (py p - py q) * (py p - py q))
  = distance p q.
Proof. unfold distance. f_equal. ring. Qed.

Lemma pairDistances_far r samples :
  (forall i j p q, i <> j ->
     nth_error samples i = Some p -> nth_error samples j = Some q ->
     r <= distance p q) ->
  Forall (fun dist => r <= dist) (pairDistances samples).
Proof.
  induction samples as [|p rest IH]; intros H; cbn [pairDistances];
    [constructor|].
  apply Forall_app. split.
  - apply Forall_forall. intros d Hd. apply in_map_iff in Hd.
    destruct Hd as (q & <- & Hq). cbv zeta. rewrite pairDistance_eq.
    destruct (In_nth_error _ _ Hq) as (k & Hk).
    apply (H O (S k)); [discriminate|reflexivity|exact Hk].
  - apply IH. intros i j p' q' Hij Hi Hj.
    apply (H (S i) (S j)); [lia|exact Hi|exact Hj].
Qed.

Lemma observe_fold distances : forall start r,
  Forall (fun dist => r <= dist) distances ->
  match start with Some m => r <= m | None => True end ->
  match fold_left observe distances start with
  | Some m => r <= m
  | None => distances = [] /\ start = None
  end.
Proof.
  induction distances as [|d rest IH]; intros start r Hall Hstart;
    cbn [fold_left].
  - destruct start; auto.
  - inversion Hall as [|? ? Hd Hrest]; subst.
    specialize (IH (observe start d) r Hrest).
    assert (Hobs : match observe start d with
                   | Some m => r <= m | None => True end).
    { unfold observe. destruct start as [m|]; [|exact Hd].
      destruct (Rltb d m); assumption. }
    specialize (IH Hobs).
    destruct (fold_left observe rest (observe start d)); [exact IH|].
    destruct IH as [_ E]. unfold observe in E.
    destruct start as [m|]; [destruct (Rltb d m)|]; discriminate.
Qed.

Lemma pairDistances_nil samples :
  pairDistances samples = [] -> (List.length samples <= 1)%nat.
Proof.
  destruct samples as [|p [|q rest]]; cbn; intros H; try lia. discriminate.
Qed.

(** ** Stratified sampling *)

Section StratifiedLaws.

Variables width height minDistance : R.
Variable rng : nat -> R.
Variable strataCount : nat.
Variable suitabilityMask : option (R -> R -> bool).

Hypothesis Hr : 0 < minDistance.
Hypothesis Hrng : forall n, 0 <= rng n < 1.
Hypothesis Hw : 0 < width.
Hypothesis Hh : 0 < height.
Hypothesis Hcount : (1 <= strataCount)%nat.

Local Abbreviation sw := (strataWidth width strataCount).
Local Abbreviation sh := (strataHeight height strataCount).

(** A point of the whole domain that passes the mask. *)
Definition admissible (p : point) : Prop :=
  0 <= px p < width /\ 0 <= py p < height
  /\ match suitabilityMask with
     | Some mask => mask (px p) (py p) = true
     | None => True
     end.

Lemma strata_positive : 0 < INR strataCount /\ 0 < sw /\ 0 < sh.
Proof.
  assert (H : 0 < INR strataCount) by (apply lt_0_INR; lia).
  split; [exact H|]. unfold strataWidth, strataHeight.
  split; apply Rdiv_lt_0_compat; assumption.
Qed.

Lemma strata_in sx sy :
  In (sx, sy) (strata strataCount) ->
  (sx < strataCount)%nat /\ (sy < strataCount)%nat.
Proof.
  unfold strata. intros H. apply in_flat_map in H.
  destruct H as (y & Hy & H). apply in_map_iff in H.
  destruct H as (x & [= <- <-] & Hx). apply in_seq in Hx, Hy. lia.
Qed.

Lemma sampleStratum_admissible fuel sx sy allSamples drawn r :
  (sx < strataCount)%nat -> (sy < strataCount)%nat ->
  Forall admissible allSamples ->
  sampleStratum width height minDistance rng strataCount suitabilityMask fuel
    (sx, sy) (allSamples, drawn) = Ok r ->
  Forall admissible (fst r).
Proof.
  intros Hsx Hsy Hall Hs. unfold sampleStratum in Hs.
  destruct strata_positive as (Hn & Hsw & Hsh).
  match type of Hs with
  | bind ?m _ = _ => destruct m as [st| | |] eqn:Hrun; try discriminate
  end.
  cbn [bind] in Hs. injection Hs as <-. cbn [fst].
  apply Forall_app. split; [exact Hall|].
  apply Forall_forall. intros p Hp. apply in_map_iff in Hp.
  destruct Hp as (q & <- & Hq).
  assert (Hshift : forall n, 0 <= rng (drawn + n) < 1) by (intros; apply Hrng).
  destruct (@run_points sw sh minDistance (fun n => rng (drawn + n)%nat) 30 _
              fuel st Hr Hshift Hsw Hsh Hrun) as [_ Hin].
  destruct (Hin q Hq) as (Hx & Hy & Hm).
  assert (Hwidth : sw * INR strataCount = width)
    by (unfold strataWidth; field; lra).
  assert (Hheight : sh * INR strataCount = height)
    by (unfold strataHeight; field; lra).
  assert (Hix : 0 <= INR sx /\ INR sx + 1 <= INR strataCount).
  { split; [apply pos_INR|]. rewrite <- S_INR. apply le_INR. lia. }
  assert (Hiy : 0 <= INR sy /\ INR sy + 1 <= INR strataCount).
  { split; [apply pos_INR|]. rewrite <- S_INR. apply le_INR. lia. }
  unfold admissible. cbn [px py]. split; [nra|]. split; [nra|].
  destruct suitabilityMask as [mask|]; [exact Hm|exact I].
Qed.

Lemma strataLoop_admissible fuel cells : forall acc r,
  (forall sx sy, In (sx, sy) cells ->
     (sx < strataCount)%nat /\ (sy < strataCount)%nat) ->
  Forall admissible (fst acc) ->
  strataLoop width height minDistance rng strataCount suitabilityMask fuel
    cells acc = Ok r ->
  Forall admissible (fst r).
Proof.
  induction cells as [|[sx sy] cells IH]; intros acc r Hcells Hacc Hloop;
    cbn [strataLoop] in Hloop.
  - injection Hloop as <-. exact Hacc.
  - match type of Hloop with
    | bind ?m _ = _ => destruct m as [r1| | |] eqn:Hs; try discriminate
    end.
    cbn [bind] in Hloop. destruct acc as [allSamples drawn].
    destruct (Hcells sx sy (or_introl eq_refl)) as [Hsx Hsy].
    cbn [fst] in Hacc.
    apply (IH r1 r); [| |exact Hloop].
    + intros x y Hxy. apply Hcells. right. exact Hxy.
    + exact (@sampleStratum_admissible fuel sx sy allSamples drawn r1
               Hsx Hsy Hacc Hs).
Qed.

Lemma strataLoop_returns fuel cells :
  (gridWidth sw minDistance * gridHeight sh minDistance <= 4294967295)%Z ->
  (2 * Z.to_nat (gridWidth sw minDistance * gridHeight sh minDistance)
   <= fuel)%nat ->
  forall acc, exists r,
    strataLoop width height minDistance rng strataCount suitabilityMask fuel
      cells acc = Ok r.
Proof.
  intros Hcells Hfuel. destruct strata_positive as (Hn & Hsw & Hsh).
  induction cells as [|[sx sy] cells IH]; intros [allSamples drawn];
    cbn [strataLoop].
  - eexists. reflexivity.
  - unfold sampleStratum.
    assert (Hshift : forall n, 0 <= rng (drawn + n) < 1) by (intros; apply Hrng).
    match goal with
    | |- context [run sw sh minDistance ?f 30 ?m fuel] =>
        pose proof (@run_terminates sw sh minDistance m Hr f 30 Hshift fuel
                      Hsw Hsh Hfuel) as Hrun
    end.
    replace (4294967295 <?
             gridWidth sw minDistance * gridHeight sh minDistance)%Z
      with false in Hrun by (symmetry; apply Z.ltb_ge; lia).
    destruct Hrun as (st & Hrun & _). rewrite Hrun. cbn [bind]. apply IH.
Qed.

Lemma stratified_admissible fuel points :
  stratifiedPoissonSampling width height minDistance rng strataCount
    suitabilityMask fuel = Ok points ->
  Forall admissible points.
Proof.
  unfold stratifiedPoissonSampling. intros H.
  match type of H with
  | bind ?m _ = _ => destruct m as [r| | |] eqn:Hloop; try discriminate
  end.
  cbn [bind] in H. injection H as <-.
  apply (@strataLoop_admissible fuel (strata strataCount) ([], O) r);
    [apply strata_in|constructor|exact Hloop].
Qed.

End StratifiedLaws.

End PoissonLaws.

(* ================================================================== *)
(** * slope.js and treePlacement.js: further properties *)
Module TreesLaws.

Import Quantile QuantileProps Trees TreesProps.
Local Open Scope R_scope.

(** ** [calculateSlopes] *)

Lemma atan_degrees m : 0 <= m -> 0 <= atan m * (180 / PI) < 90.
Proof.
  intros Hm. pose proof PI_RGT_0 as Hpi. pose proof (atan_bound m) as [_ Hup].
  assert (H0 : 0 <= atan m).
  { destruct Hm as [Hm|<-]; [|rewrite atan_0; lra].
    left. rewrite <- atan_0. apply atan_increasing. exact Hm. }
  assert (Hk : 0 < 180 / PI) by (apply Rdiv_lt_0_compat; lra).
  split; [apply Rmult_le_pos; lra|].
  replace 90 with (PI / 2 * (180 / PI)) by (field; lra).
  apply Rmult_lt_compat_r; assumption.
Qed.

Lemma flat_map_length_const {A B} (f : A -> list B) (l : list A) n :
  (forall a, In a l -> List.length (f a) = n) ->
  List.length (flat_map f l) = (List.length l * n)%nat.
Proof.
  induction l as [|a l IH]; intros H; cbn [flat_map]; [reflexivity|].
  rewrite length_app, (H a (or_introl eq_refl)), IH.
  - cbn. lia.
  - intros b Hb. apply H. right. exact Hb.
Qed.

(** On a height field that covers the grid and with a cell size other than
    0, [calculateSlopes] returns one slope for each cell of the grid, and
    every slope is a number of degrees in [[0, 90)]. *)
Theorem slopes_in_range (elevationData : list R) (width height : Z)
  (cellSize : R) :
  (0 <= width)%Z -> (0 <= height)%Z -> cellSize <> 0 ->
  (width * height <= Z.of_nat (List.length elevationData))%Z ->
  List.length (calculateSlopes elevationData width height cellSize)
  = Z.to_nat (width * height)
  /\ forall s, In s (calculateSlopes elevationData width height cellSize) ->
       0 <= s < 90.
Proof.
  intros Hw Hh _ _. unfold calculateSlopes. split.
  - rewrite (@flat_map_length_const _ _ _ _ (Z.to_nat width)).
    + rewrite indexes_length. lia.
    + intros y _. rewrite length_map. apply indexes_length.
  - intros s Hs. apply in_flat_map in Hs. destruct Hs as (y & _ & Hs).
    apply in_map_iff in Hs. destruct Hs as (x & <- & _).
    unfold slopeAt. apply atan_degrees. apply sqrt_pos.
Qed.

Lemma slopes_in_range_witness :
  List.length (calculateSlopes [0; 1; 4; 9] 2 2 1) = Z.to_nat (2 * 2)
  /\ forall s, In s (calculateSlopes [0; 1; 4; 9] 2 2 1) -> 0 <= s < 90.
Proof.
  apply slopes_in_range; [lia|lia|lra|cbn; lia].
Defined.

(** ** [getHeightAt] *)

Lemma floor_cell c a w :
  0 < c -> 0 <= a < IZR w * c ->
  (0 <= Zfloor (a / c) <= w - 1)%Z /\ 0 <= a / c - IZR (Zfloor (a / c)) < 1.
Proof.
  intros Hc [Ha0 Ha1].
  assert (Hq : 0 <= a / c < IZR w).
  { split.
    - apply Rmult_le_pos; [lra|]. left. apply Rinv_0_lt_compat. exact Hc.
    - apply (Rmult_lt_reg_r c); [exact Hc|].
      unfold Rdiv. rewrite Rmult_assoc, Rinv_l by lra. lra. }
  pose proof (Zfloor_bound (a / c)) as [Hlo Hhi]. split.
  - split.
    + apply Zfloor_lub. cbn. lra.
    + assert (Zfloor (a / c) < w)%Z by (apply lt_IZR; lra). lia.
  - lra.
Qed.

Lemma convex lo hi a b f :
  lo <= a <= hi -> lo <= b <= hi -> 0 <= f <= 1 ->
  lo <= a * (1 - f) + b * f <= hi.
Proof. intros. split; nra. Qed.

Lemma getHeightAt_cells (elevation : list R) (width height : Z)
  (cellSize : R) :
  0 < cellSize ->
  (forall worldX worldZ lo hi,
     0 <= worldX < IZR width * cellSize ->
     0 <= worldZ < IZR height * cellSize ->
     (forall i, (0 <= i < width * height)%Z -> lo <= get elevation i <= hi) ->
     lo <= getHeightAt worldX worldZ elevation width height cellSize <= hi)
  /\ (forall cellX cellZ,
        (0 <= cellX < width)%Z -> (0 <= cellZ < height)%Z ->
        getHeightAt (IZR cellX * cellSize) (IZR cellZ * cellSize)
          elevation width height cellSize
        = get elevation (cellZ * width + cellX)).
Proof.
  intros Hc. split.
  - intros worldX worldZ lo hi Hx Hz Hbound. unfold getHeightAt.
    destruct (@floor_cell cellSize worldX width Hc Hx) as [Hfx Hwx].
    destruct (@floor_cell cellSize worldZ height Hc Hz) as [Hfz Hwz].
    set (fX := Zfloor (worldX / cellSize)) in *.
    set (fZ := Zfloor (worldZ / cellSize)) in *.
    replace (Z.max 0 (Z.min (width - 1) fX)) with fX by lia.
    replace (Z.max 0 (Z.min (height - 1) fZ)) with fZ by lia.
    set (x1 := Z.min (width - 1) (fX + 1)).
    set (z1 := Z.min (height - 1) (fZ + 1)).
    assert (Hx1 : (0 <= x1 <= width - 1)%Z) by (unfold x1; lia).
    assert (Hz1 : (0 <= z1 <= height - 1)%Z) by (unfold z1; lia).
    apply convex; [apply convex| apply convex|lra];
      try lra; apply Hbound; nia.
  - intros cellX cellZ Hx Hz. unfold getHeightAt.
    replace (IZR cellX * cellSize / cellSize) with (IZR cellX)
      by (field; lra).
    replace (IZR cellZ * cellSize / cellSize) with (IZR cellZ)
      by (field; lra).
    rewrite !ZfloorZ.
    replace (Z.max 0 (Z.min (width - 1) cellX)) with cellX by lia.
    replace (Z.max 0 (Z.min (height - 1) cellZ)) with cellZ by lia.
    replace (IZR cellX - IZR cellX) with 0 by ring.
    replace (IZR cellZ - IZR cellZ) with 0 by ring.
    ring.
Qed.

(** ** [validateTreePositions] *)

(** On a height field that covers a grid of at least one cell, and with a
    cell size other than 0, [validateTreePositions] keeps, in their order,
    exactly the positions whose sampled height is above [seaLevel + 4],
    records that height in them, and changes nothing when applied to its own
    result. *)
Theorem validateTreePositions_filters (positions : list placement)
  (elevation : list R) (width height : Z) (cellSize seaLevel : R) :
  (1 <= width)%Z -> (1 <= height)%Z -> cellSize <> 0 ->
  (width * height <= Z.of_nat (List.length elevation))%Z ->
  let sampled := fun p =>
    getHeightAt (x p) (z p) elevation width height cellSize in
  let valid :=
    validateTreePositions positions elevation width height cellSize seaLevel in
  valid
  = map (fun p => mkPlacement (x p) (z p) (sampled p) (score p))
        (filter (fun p => Rltb (seaLevel + 4) (sampled p)) positions)
  /\ (forall p, In p valid ->
        seaLevel + 4 < placedHeight p /\ placedHeight p = sampled p)
  /\ (List.length valid <= List.length positions)%nat
  /\ validateTreePositions valid elevation width height cellSize seaLevel
     = valid.
Proof.
  intros _ _ _ _ sampled valid.
  assert (Hshape : forall l,
    validateTreePositions l elevation width height cellSize seaLevel
    = map (fun p => mkPlacement (x p) (z p) (sampled p) (score p))
          (filter (fun p => Rltb (seaLevel + 4) (sampled p)) l)).
  { induction l as [|p l IH]; [reflexivity|].
    unfold validateTreePositions in *. cbn [flat_map filter].
    rewrite IH. fold (sampled p).
    destruct (Rltb (seaLevel + 4) (sampled p)) eqn:E.
    - apply Rltb_true in E.
      rewrite (proj2 (Rleb_false (sampled p) seaLevel)) by lra.
      rewrite (proj2 (Rleb_false (sampled p) (seaLevel + 4))) by lra.
      reflexivity.
    - apply Rltb_false in E.
      destruct (Rleb (sampled p) seaLevel); [reflexivity|].
      rewrite (proj2 (Rleb_true (sampled p) (seaLevel + 4))) by lra.
      reflexivity. }
  assert (Hin : forall p, In p valid ->
            seaLevel + 4 < placedHeight p /\ placedHeight p = sampled p).
  { intros p Hp. unfold valid in Hp. rewrite Hshape in Hp.
    apply in_map_iff in Hp. destruct Hp as (q & <- & Hq).
    apply filter_In in Hq. destruct Hq as [_ Hq]. apply Rltb_true in Hq.
    cbn [placedHeight]. split; [exact Hq|reflexivity]. }
  split; [apply Hshape|]. split; [exact Hin|]. split.
  - unfold valid. rewrite Hshape, length_map. apply filter_length_le.
  - rewrite Hshape.
    assert (Hall : forall l,
              (forall p, In p l ->
                 seaLevel + 4 < placedHeight p /\ placedHeight p = sampled p) ->
              map (fun p => mkPlacement (x p) (z p) (sampled p) (score p))
                  (filter (fun p => Rltb (seaLevel + 4) (sampled p)) l) = l).
    { induction l as [|p l IH]; intros H; [reflexivity|]. cbn [filter].
      destruct (H p (or_introl eq_refl)) as [H1 H2].
      rewrite (proj2 (Rltb_true (seaLevel + 4) (sampled p))) by lra.
      cbn [map]. rewrite IH by (intros q Hq; apply H; right; exact Hq).
      rewrite <- H2. destruct p. reflexivity. }
    apply Hall. exact Hin.
Qed.

Lemma validateTreePositions_filters_witness :
  let positions := [mkPlacement 0 0 0 None; mkPlacement 1 0 0 None] in
  let valid := validateTreePositions positions [3; 9] 2 1 1 0 in
  (List.length valid <= 2)%nat
  /\ validateTreePositions valid [3; 9] 2 1 1 0 = valid
  /\ forall p, In p valid -> 0 + 4 < placedHeight p.
Proof.
  intros positions valid.
  destruct (@validateTreePositions_filters positions [3; 9] 2 1 1 0
              ltac:(lia) ltac:(lia) ltac:(lra) ltac:(cbn; lia))
    as (_ & Hin & Hlen & Hid).
  split; [exact Hlen|]. split; [exact Hid|].
  intros p Hp. exact (proj1 (Hin p Hp)).
Defined.

(** ** The placements of [generateTreePositions] *)

Lemma insertByScore_perm p l : Permutation (insertByScore p l) (p :: l).
Proof.
  induction l as [|q l IH]; cbn [insertByScore]; [reflexivity|].
  destruct (Rltb (scoreOf p) (scoreOf q)); [|reflexivity].
  apply perm_trans with (q :: p :: l); [apply perm_skip; exact IH|].
  apply perm_swap.
Qed.

Lemma sortByScore_perm l : Permutation (sortByScore l) l.
Proof.
  induction l as [|p l IH]; cbn [sortByScore]; [reflexivity|].
  apply perm_trans with (p :: sortByScore l); [apply insertByScore_perm|].
  apply perm_skip. exact IH.
Qed.

(** A relation that holds between any two elements at different positions
    of a list. *)
Fixpoint allPairs {A} (rel : A -> A -> Prop) (l : list A) : Prop :=
  match l with
  | [] => True
  | a :: rest => Forall (rel a) rest /\ allPairs rel rest
  end.

Lemma allPairs_of_index {A} (rel : A -> A -> Prop) l :
  (forall i j a b, i <> j -> nth_error l i = Some a ->
     nth_error l j = Some b -> rel a b) ->
  allPairs rel l.
Proof.
  induction l as [|a l IH]; intros H; cbn [allPairs]; [exact I|]. split.
  - apply Forall_forall. intros b Hb.
    destruct (In_nth_error _ _ Hb) as (k & Hk).
    apply (H O (S k)); [discriminate|reflexivity|exact Hk].
  - apply IH. intros i j x y Hij Hi Hj.
    apply (H (S i) (S j)); [lia|exact Hi|exact Hj].
Qed.

Lemma allPairs_index {A} (rel : A -> A -> Prop) l :
  (forall a b, rel a b -> rel b a) -> allPairs rel l ->
  forall i j a b, i <> j -> nth_error l i = Some a ->
    nth_error l j = Some b -> rel a b.
Proof.
  intros Hsym. induction l as [|c l IH]; intros Hall i j a b Hij Hi Hj.
  - destruct i; discriminate.
  - destruct Hall as [Hc Hl]. rewrite Forall_forall in Hc.
    destruct i as [|i], j as [|j]; cbn in Hi, Hj.
    + contradiction.
    + injection Hi as <-. apply Hc. eapply nth_error_In; eauto.
    + injection Hj as <-. apply Hsym, Hc. eapply nth_error_In; eauto.
    + apply (IH Hl i j); auto.
Qed.

Lemma allPairs_perm {A} (rel : A -> A -> Prop) l1 l2 :
  (forall a b, rel a b -> rel b a) ->
  Permutation l1 l2 -> allPairs rel l1 -> allPairs rel l2.
Proof.
  intros Hsym P. induction P as [|a l1 l2 P IH|a b l|l1 l2 l3 P1 IH1 P2 IH2];
    cbn [allPairs]; auto.
  - intros [Ha Hl]. split; [|apply IH; exact Hl].
    eapply Permutation_Forall; eauto.
  - intros (Hb & Ha & Hl).
    inversion Hb as [|? ? Hba Hbl]; subst.
    split; [constructor; [apply Hsym; exact Hba|exact Ha]|].
    split; assumption.
Qed.

Lemma allPairs_firstn {A} (rel : A -> A -> Prop) n : forall l,
  allPairs rel l -> allPairs rel (firstn n l).
Proof.
  induction n as [|n IH]; intros [|a l]; cbn [firstn allPairs]; auto.
  intros [Ha Hl]. split; [|apply IH; exact Hl].
  apply Forall_forall. intros b Hb. rewrite Forall_forall in Ha.
  apply Ha. eapply firstn_in; eauto.
Qed.

Lemma allPairs_map {A B} (f : A -> B) (relA : A -> A -> Prop)
  (relB : B -> B -> Prop) l :
  (forall a b, relA a b -> relB (f a) (f b)) ->
  allPairs relA l -> allPairs relB (map f l).
Proof.
  intros H. induction l as [|a l IH]; cbn [map allPairs]; auto.
  intros [Ha Hl]. split; [|apply IH; exact Hl].
  apply Forall_forall. intros b Hb. apply in_map_iff in Hb.
  destruct Hb as (c & <- & Hc). rewrite Forall_forall in Ha. apply H, Ha, Hc.
Qed.

(** Two placements at least [r] apart. *)
Definition apart (r : R) (p q : placement) : Prop :=
  r <= sqrt ((x p - x q) ^ 2 + (z p - z q) ^ 2).

Lemma apart_sym r p q : apart r p q -> apart r q p.
Proof.
  unfold apart. intros H.
  replace ((x q - x p) ^ 2 + (z q - z p) ^ 2)
    with ((x p - x q) ^ 2 + (z p - z q) ^ 2) by ring.
  exact H.
Qed.

Lemma scoreCandidates_map rng candidates elevation width height cellSize :
  forall n,
  map (fun q => (x q, z q))
      (scoreCandidates rng n candidates elevation width height cellSize)
  = map (fun pos => (Poisson.px pos, Poisson.py pos)) candidates.
Proof.
  induction candidates as [|pos rest IH]; intros n; cbn [scoreCandidates map];
    [reflexivity|].
  cbn [x z]. rewrite IH. reflexivity.
Qed.

Lemma allPairs_coordinates r (l : list placement) (pts : list Poisson.point) :
  map (fun q => (x q, z q)) l
  = map (fun pos => (Poisson.px pos, Poisson.py pos)) pts ->
  allPairs (fun a b => r <= Poisson.distance a b) pts ->
  allPairs (apart r) l.
Proof.
  revert pts. induction l as [|p l IH]; intros [|a pts] E H; try discriminate;
    cbn [allPairs]; [exact I|].
  cbn [map] in E. injection E as Ex Ez E. destruct H as [Ha Hl].
  split; [|apply (IH pts); assumption].
  apply Forall_forall. intros q Hq.
  destruct (In_nth_error _ _ Hq) as (k & Hk).
  assert (Hm : nth_error (map (fun q => (x q, z q)) l) k = Some (x q, z q))
    by (rewrite nth_error_map, Hk; reflexivity).
  rewrite E, nth_error_map in Hm.
  destruct (nth_error pts k) as [b|] eqn:Hb; [|discriminate].
  cbn in Hm. injection Hm as Hx Hz.
  rewrite Forall_forall in Ha. specialize (Ha b (nth_error_In _ _ Hb)).
  unfold apart, Poisson.distance in *. rewrite Ex, Ez, <- Hx, <- Hz. exact Ha.
Qed.

Lemma selectBest_apart r candidates targetCount elevation width height
  cellSize rng n :
  allPairs (fun a b => r <= Poisson.distance a b) candidates ->
  allPairs (apart r)
    (selectBestTreePositions candidates targetCount elevation width height
       cellSize rng n).
Proof.
  intros H. unfold selectBestTreePositions.
  destruct (Z.of_nat (List.length candidates) <=? targetCount)%Z.
  - apply (@allPairs_coordinates r _ candidates); [|exact H].
    rewrite map_map. reflexivity.
  - apply allPairs_firstn.
    apply (@allPairs_perm _ (apart r)
             (scoreCandidates rng n candidates elevation width height cellSize));
      [apply apart_sym|apply Permutation_sym, sortByScore_perm|].
    apply (@allPairs_coordinates r _ candidates); [|exact H].
    apply scoreCandidates_map.
Qed.

Lemma selectBest_length candidates targetCount elevation width height
  cellSize rng n :
  (Z.of_nat (List.length
     (selectBestTreePositions candidates targetCount elevation width height
        cellSize rng n)) <= Z.max 0 targetCount)%Z.
Proof.
  unfold selectBestTreePositions.
  destruct (Z.of_nat (List.length candidates) <=? targetCount)%Z eqn:E.
  - apply Z.leb_le in E. rewrite length_map. lia.
  - rewrite length_firstn. lia.
Qed.

(** [generateTreePositions] never returns more trees than its target, the
    integer part of suitableCells * FOREST_PERCENTAGE / 100 / 3, where the
    suitable cells are those of the mask in force. *)
Theorem trees_within_target (t : TerrainData) (config : TreeConfig)
  (rng : nat -> R) (fuel : nat) (placements : list placement) :
  generateTreePositions t config rng fuel = Ok placements ->
  match chooseMask t config with
  | None => placements = []
  | Some (_, suitableCells) =>
      (Z.of_nat (List.length placements)
       <= Z.max 0 (Zfloor (INR suitableCells
                           * orElse (FOREST_PERCENTAGE config) 0 / 100 / 3)))%Z
  end.
Proof.
  intros Hrun. unfold generateTreePositions in Hrun.
  destruct (chooseMask t config) as [[mask cells]|];
    [|injection Hrun as <-; reflexivity].
  destruct (Rleb (orElse (FOREST_PERCENTAGE config) 0) 0);
    [injection Hrun as <-; cbn; lia|].
  match type of Hrun with
  | bind ?m _ = _ => destruct m as [st| | |] eqn:Hst; try discriminate
  end.
  cbn [bind] in Hrun. injection Hrun as <-. apply selectBest_length.
Qed.

Lemma trees_within_target_witness :
  exists placements,
    generateTreePositions lowStrip defaultTrees treesStream 4 = Ok placements
    /\ match chooseMask lowStrip defaultTrees with
       | None => placements = []
       | Some (_, suitableCells) =>
           (Z.of_nat (List.length placements)
            <= Z.max 0 (Zfloor (INR suitableCells
                   * orElse (FOREST_PERCENTAGE defaultTrees) 0 / 100 / 3)))%Z
       end.
Proof.
  destruct strip_placements as (placements & _ & Hrun & _).
  exists placements. split; [exact Hrun|].
  exact (@trees_within_target lowStrip defaultTrees treesStream 4 placements
           Hrun).
Defined.

End TreesLaws.

(* ================================================================== *)
(** * elevationCurve.js: properties of the curves *)
Module CurveLaws.

Import Quantile QuantileProps Curve.
Local Open Scope R_scope.

(** The control points go strictly from left to right, and do not go
    down. *)
Fixpoint ascending (points : list controlPoint) : Prop :=
  match points with
  | [] => True
  | p0 :: rest =>
      match rest with
      | [] => True
      | p1 :: _ => x p0 < x p1 /\ y p0 <= y p1 /\ ascending rest
      end
  end.

(** The control points go strictly from left to right. *)
Fixpoint leftToRight (points : list controlPoint) : Prop :=
  match points with
  | [] => True
  | p0 :: rest =>
      match rest with
      | [] => True
      | p1 :: _ => x p0 < x p1 /\ leftToRight rest
      end
  end.

Lemma ascending_leftToRight points : ascending points -> leftToRight points.
Proof.
  induction points as [|p0 rest IH]; [auto|].
  destruct rest as [|p1 rest]; [auto|].
  intros (Hx & _ & H). split; [exact Hx|apply IH; exact H].
Qed.

Definition firstX (points : list controlPoint) : R :=
  match points with [] => 0 | p :: _ => x p end.
Definition firstY (points : list controlPoint) : R :=
  match points with [] => 0 | p :: _ => y p end.
Definition lastX (points : list controlPoint) : R := x (last points (mkControlPoint 0 0)).
Definition lastY (points : list controlPoint) : R := y (last points (mkControlPoint 0 0)).

Lemma segment_value (a b ya yb v : R) :
  a < b -> a <= v <= b -> ya <= yb ->
  ya <= ya + (v - a) / (b - a) * (yb - ya) <= yb.
Proof.
  intros Hab Hv Hy.
  assert (Ht : 0 <= (v - a) / (b - a) <= 1).
  { split.
    - apply Rmult_le_pos; [lra|]. left. apply Rinv_0_lt_compat. lra.
    - apply (Rmult_le_reg_r (b - a)); [lra|].
      unfold Rdiv. rewrite Rmult_assoc, Rinv_l by lra. lra. }
  split; nra.
Qed.

Lemma segment_monotone (a b ya yb v1 v2 : R) :
  a < b -> v1 <= v2 -> ya <= yb ->
  ya + (v1 - a) / (b - a) * (yb - ya) <= ya + (v2 - a) / (b - a) * (yb - ya).
Proof.
  intros Hab Hv Hy.
  assert (Hi : 0 < / (b - a)) by (apply Rinv_0_lt_compat; lra).
  unfold Rdiv.
  assert ((v1 - a) * / (b - a) <= (v2 - a) * / (b - a))
    by (apply Rmult_le_compat_r; lra).
  nra.
Qed.

(** On an ascending curve the loop over the segments computes a
    non-decreasing function between the first and the last control point. *)
Lemma segments_monotone points :
  points <> [] -> ascending points ->
  forall v1 v2, firstX points <= v1 -> v1 <= v2 -> v2 <= lastX points ->
  exists w1 w2,
    segments points v1 = Ok w1 /\ segments points v2 = Ok w2
    /\ firstY points <= w1 /\ w1 <= w2 /\ w2 <= lastY points.
Proof.
  induction points as [|p0 rest IH]; [contradiction|].
  intros _ Hasc v1 v2 H1 H12 H2.
  destruct rest as [|p1 rest].
  - exists (y p0), (y p0). unfold firstY, lastY. cbn.
    repeat split; try reflexivity; lra.
  - destruct Hasc as (Hx & Hy & Hrest).
    specialize (IH ltac:(discriminate) Hrest).
    change (firstX (p0 :: p1 :: rest)) with (x p0) in *.
    change (firstY (p0 :: p1 :: rest)) with (y p0).
    change (lastX (p0 :: p1 :: rest)) with (lastX (p1 :: rest)) in *.
    change (lastY (p0 :: p1 :: rest)) with (lastY (p1 :: rest)).
    change (firstX (p1 :: rest)) with (x p1) in IH.
    change (firstY (p1 :: rest)) with (y p1) in IH.
    assert (Hlast : x p1 <= lastX (p1 :: rest) /\ y p1 <= lastY (p1 :: rest)).
    { destruct (Rle_lt_dec (x p1) (lastX (p1 :: rest))) as [Hle|Hgt].
      - destruct (IH (x p1) (x p1) ltac:(lra) ltac:(lra) Hle)
          as (w1 & w2 & _ & _ & ? & ? & ?). split; lra.
      - exfalso.
        assert (Hgen : forall pts, pts <> [] -> ascending pts ->
                         firstX pts <= lastX pts).
        { clear. induction pts as [|q0 pts IHp]; [contradiction|].
          intros _ Ha.
          destruct pts as [|q1 pts]; [unfold firstX, lastX; cbn; lra|].
          destruct Ha as (Hq & _ & Ha).
          specialize (IHp ltac:(discriminate) Ha).
          change (lastX (q0 :: q1 :: pts)) with (lastX (q1 :: pts)).
          cbn [firstX] in *. lra. }
        pose proof (Hgen (p1 :: rest) ltac:(discriminate) Hrest) as Hf.
        cbn [firstX] in Hf. lra. }
    destruct Hlast as [HlastX HlastY].
    assert (Hfirst : forall v, x p0 <= v <= x p1 ->
              segments (p0 :: p1 :: rest) v
              = Ok (y p0 + (v - x p0) / (x p1 - x p0) * (y p1 - y p0))).
    { intros v Hv. cbn [segments].
      rewrite (proj2 (Rleb_true (x p0) v)) by lra.
      rewrite (proj2 (Rleb_true v (x p1))) by lra. cbn [andb].
      rewrite (proj2 (Reqb_false (x p1 - x p0) 0)) by lra. reflexivity. }
    assert (Hlater : forall v, x p1 < v ->
              segments (p0 :: p1 :: rest) v = segments (p1 :: rest) v).
    { intros v Hv. cbn [segments].
      rewrite (proj2 (Rleb_false v (x p1))) by lra.
      rewrite andb_false_r. reflexivity. }
    destruct (Rle_lt_dec v2 (x p1)) as [Hv2|Hv2].
    + rewrite (Hfirst v1), (Hfirst v2) by lra.
      eexists. eexists. split; [reflexivity|]. split; [reflexivity|].
      pose proof (@segment_value (x p0) (x p1) (y p0) (y p1) v1 Hx
                    ltac:(lra) Hy).
      pose proof (@segment_value (x p0) (x p1) (y p0) (y p1) v2 Hx
                    ltac:(lra) Hy).
      pose proof (@segment_monotone (x p0) (x p1) (y p0) (y p1) v1 v2 Hx
                    H12 Hy).
      repeat split; lra.
    + rewrite (Hlater v2) by lra.
      destruct (Rle_lt_dec v1 (x p1)) as [Hv1|Hv1].
      * rewrite (Hfirst v1) by lra.
        destruct (IH v2 v2 ltac:(lra) ltac:(lra) H2)
          as (w & w' & Hw & Hw' & Hlo & _ & Hhi).
        pose proof (@segment_value (x p0) (x p1) (y p0) (y p1) v1 Hx
                      ltac:(lra) Hy).
        eexists. exists w. split; [reflexivity|]. split; [exact Hw|].
        assert (w = w') by congruence. repeat split; lra.
      * rewrite (Hlater v1) by lra.
        destruct (IH v1 v2 ltac:(lra) H12 H2)
          as (w1 & w2 & Hw1 & Hw2 & Hlo & Hmid & Hhi).
        exists w1, w2. repeat split; auto; lra.
Qed.

(** [evaluate] on an ascending curve that starts at or before 0 and ends at
    or after 1. *)
Lemma evaluate_monotone curve :
  curve <> [] -> ascending curve -> firstX curve <= 0 -> 1 <= lastX curve ->
  forall v1 v2, v1 <= v2 ->
  exists w1 w2,
    evaluate curve v1 = Ok w1 /\ evaluate curve v2 = Ok w2
    /\ firstY curve <= w1 /\ w1 <= w2 /\ w2 <= lastY curve.
Proof.
  intros Hne Hasc H0 H1 v1 v2 Hv. unfold evaluate.
  apply segments_monotone; auto.
  - apply Rle_trans with 0; [exact H0|apply Rmax_l].
  - apply Rle_max_compat_l. apply Rle_min_compat_l. exact Hv.
  - apply Rle_trans with 1; [|exact H1].
    apply Rmax_lub; [lra|apply Rmin_l].
Qed.

Ltac ascends := cbn; repeat split; lra.

Lemma presets_ascending name curve :
  In (name, curve) ELEVATION_PRESETS ->
  curve <> [] /\ ascending curve
  /\ firstX curve = 0 /\ lastX curve = 1
  /\ 0 <= firstY curve /\ lastY curve <= 1.
Proof.
  unfold ELEVATION_PRESETS. cbn [In].
  intros [E|[E|[E|[E|[E|[E|[E|[]]]]]]]]; injection E as _ <-;
    (split; [discriminate|]); (split; [ascends|]);
    (split; [reflexivity|]); (split; [reflexivity|]); cbn; lra.
Qed.

(** The constructor leaves the points of every preset as they are written:
    they are in ascending order of [x]. *)
Lemma presets_constructed name curve :
  In (name, curve) ELEVATION_PRESETS -> PiecewiseLinearCurve_new curve = Ok curve.
Proof.
  unfold ELEVATION_PRESETS. cbn [In].
  intros [E|[E|[E|[E|[E|[E|[E|[]]]]]]]]; injection E as _ <-;
    unfold PiecewiseLinearCurve_new; cbn [TERRACED_RTS ROLLING_HILLS SHARP_ALPS
      FLATLANDS VOLCANIC CANYONS LINEAR sortByX insertByX x];
    f_equal; repeat (rdecide; cbn [insertByX x]); reflexivity.
Qed.

Lemma lookup_in {A} name (v : A) m :
  RNG.lookup name m = Some v -> In (name, v) m.
Proof.
  induction m as [|[k w] m IH]; cbn; [discriminate|].
  destruct (String.eqb k name) eqn:E.
  - apply String.eqb_eq in E. subst k. intros [= ->]. left. reflexivity.
  - intros H. right. apply IH. exact H.
Qed.

Lemma getPreset_curve name curve :
  getPreset name = Some curve -> exists key, In (key, curve) ELEVATION_PRESETS.
Proof.
  unfold getPreset.
  destruct (RNG.lookup name ELEVATION_PRESETS) as [preset|] eqn:E.
  - intros [= <-]. exists name. apply lookup_in. exact E.
  - destruct (existsb (String.eqb name) inheritedKeys); [discriminate|].
    intros [= <-]. exists "LINEAR"%string. cbn. tauto.
Qed.

Lemma preset_values name curve :
  getPreset name = Some curve ->
  forall v1 v2, v1 <= v2 ->
  exists w1 w2,
    evaluate curve v1 = Ok w1 /\ evaluate curve v2 = Ok w2
    /\ 0 <= w1 /\ w1 <= w2 /\ w2 <= 1.
Proof.
  intros Hp v1 v2 Hv.
  destruct (@getPreset_curve name curve Hp) as (key & Hin).
  destruct (@presets_ascending key curve Hin)
    as (Hne & Hasc & Hf & Hl & Hy0 & Hy1).
  destruct (@evaluate_monotone curve Hne Hasc ltac:(lra) ltac:(lra) v1 v2 Hv)
    as (w1 & w2 & E1 & E2 & Hlo & Hmid & Hhi).
  exists w1, w2. repeat split; auto; lra.
Qed.

(** Every curve that [getPreset] returns, for the name of a preset or, as
    the LINEAR fallback, for any name that is not a property inherited from
    [Object.prototype], maps every number to a value of [[0, 1]] and is
    non-decreasing: a higher noise value never gives a lower elevation. *)
Theorem preset_curves_monotone (name : string) (curve : PiecewiseLinearCurve) :
  getPreset name = Some curve ->
  forall v1 v2, v1 <= v2 ->
  exists w1 w2,
    evaluate curve v1 = Ok w1 /\ evaluate curve v2 = Ok w2
    /\ 0 <= w1 /\ w1 <= w2 /\ w2 <= 1.
Proof.
  intros Hp v1 v2 Hv.
  destruct (@preset_values name curve Hp v1 v2 Hv)
    as (w1 & w2 & E1 & E2 & H0 & H12 & H1).
  exists w1, w2. auto.
Qed.

Lemma preset_curves_monotone_witness :
  exists w1 w2,
    evaluate SHARP_ALPS (2 / 10) = Ok w1 /\ evaluate SHARP_ALPS (6 / 10) = Ok w2
    /\ 0 <= w1 /\ w1 <= w2 /\ w2 <= 1.
Proof.
  apply (@preset_curves_monotone "SHARP_ALPS" SHARP_ALPS); [reflexivity|lra].
Defined.

(** [getPreset] returns the preset of that name, LINEAR for any other name
    that the object does not inherit, and for the twelve inherited names a
    value that is not a curve, on which [applyElevationCurve] throws. *)
Lemma getPreset_fallback (name : string) :
  match RNG.lookup name ELEVATION_PRESETS with
  | Some preset => getPreset name = Some preset
  | None =>
      if existsb (String.eqb name) inheritedKeys
      then getPreset name = None
           /\ forall noiseData, applyElevationCurve noiseData name = Throws
      else getPreset name = Some LINEAR
           /\ forall v, evaluate LINEAR v = Ok (Rmax 0 (Rmin 1 v))
  end.
Proof.
  unfold getPreset, applyElevationCurve, getPreset.
  destruct (RNG.lookup name ELEVATION_PRESETS); [reflexivity|].
  destruct (existsb (String.eqb name) inheritedKeys).
  - split; reflexivity.
  - split; [reflexivity|]. intros v. unfold evaluate, LINEAR.
    set (c := Rmax 0 (Rmin 1 v)).
    assert (Hc : 0 <= c <= 1).
    { unfold c. split; [apply Rmax_l|]. apply Rmax_lub; [lra|apply Rmin_l]. }
    cbn [segments x y].
    rewrite (proj2 (Rleb_true 0 c)) by lra.
    rewrite (proj2 (Rleb_true c 1)) by lra. cbn [andb].
    rewrite (proj2 (Reqb_false (1 - 0) 0)) by lra. f_equal. field.
Qed.

(** ** Curves with any control points *)

Lemma leftToRight_tail p0 rest p :
  leftToRight (p0 :: rest) -> In p rest -> x p0 < x p.
Proof.
  revert p0. induction rest as [|p1 rest IH]; intros p0 H Hp; [destruct Hp|].
  destruct H as [Hx Hrest]. destruct Hp as [<-|Hp]; [exact Hx|].
  specialize (IH p1 Hrest Hp). lra.
Qed.

Lemma segments_at_point points :
  leftToRight points ->
  forall p, In p points -> segments points (x p) = Ok (y p).
Proof.
  induction points as [|p0 rest IH]; intros Hs p Hp; [destruct Hp|].
  destruct rest as [|p1 rest].
  - destruct Hp as [<-|[]]. reflexivity.
  - destruct Hs as [Hx Hrest]. cbn [segments].
    destruct Hp as [<-|[<-|Hp]].
    + rewrite (proj2 (Rleb_true (x p0) (x p0))) by lra.
      rewrite (proj2 (Rleb_true (x p0) (x p1))) by lra. cbn [andb].
      rewrite (proj2 (Reqb_false (x p1 - x p0) 0)) by lra.
      f_equal. unfold Rdiv. rewrite Rminus_diag. ring.
    + rewrite (proj2 (Rleb_true (x p0) (x p1))) by lra.
      rewrite (proj2 (Rleb_true (x p1) (x p1))) by lra. cbn [andb].
      rewrite (proj2 (Reqb_false (x p1 - x p0) 0)) by lra.
      f_equal. field. lra.
    + pose proof (@leftToRight_tail p1 rest p Hrest Hp).
      rewrite (proj2 (Rleb_false (x p) (x p1))) by lra.
      rewrite andb_false_r. apply IH; [exact Hrest|right; exact Hp].
Qed.

Lemma presetEvaluate_unit name v :
  getPreset name <> None -> 0 <= presetEvaluate name v <= 1.
Proof.
  intros Hp. unfold presetEvaluate.
  destruct (getPreset name) as [curve|] eqn:E; [|contradiction].
  destruct (@preset_values name curve E v v ltac:(lra))
    as (w1 & w2 & E1 & _ & H0 & H12 & H1).
  rewrite E1. lra.
Qed.

End CurveLaws.

(* ================================================================== *)
(** * erosion.js: properties of the hydraulic erosion *)
Module ErosionLaws.

Import Quantile QuantileProps Erosion.
Local Open Scope R_scope.

(** A list with values in [[0, 1]] that attains both ends. *)
Definition unitRange (l : list R) : Prop :=
  (forall v, In v l -> 0 <= v <= 1) /\ In 0 l /\ In 1 l.

(** A list whose values are all equal. *)
Definition constant (l : list R) : Prop := forall u v, In u l -> In v l -> u = v.

Lemma rescaled_unit (l : list R) lo hi :
  In lo l -> In hi l -> (forall v, In v l -> lo <= v <= hi) -> lo < hi ->
  unitRange (map (fun v => (v - lo) / (hi - lo)) l).
Proof.
  intros Hlo Hhi Hall Hlt.
  assert (Hi : 0 < / (hi - lo)) by (apply Rinv_0_lt_compat; lra).
  split; [|split].
  - intros w Hw. apply in_map_iff in Hw. destruct Hw as (v & <- & Hv).
    specialize (Hall v Hv). unfold Rdiv. split.
    + apply Rmult_le_pos; lra.
    + apply (Rmult_le_reg_r (hi - lo)); [lra|].
      rewrite Rmult_assoc, Rinv_l by lra. lra.
  - apply in_map_iff. exists lo. split; [|exact Hlo].
    unfold Rdiv. rewrite Rminus_diag. ring.
  - apply in_map_iff. exists hi. split; [|exact Hhi]. field. lra.
Qed.

Lemma fold_least rest : forall first,
  fold_left (fun m v => if Rltb v m then v else m) rest first
  = fold_left Rmin rest first.
Proof.
  induction rest as [|v rest IH]; intros first; cbn [fold_left]; [reflexivity|].
  rewrite IH. f_equal. unfold Rmin.
  destruct (Rltb v first) eqn:E.
  - apply Rltb_true in E. destruct (Rle_dec first v); [lra|reflexivity].
  - apply Rltb_false in E. destruct (Rle_dec first v); [reflexivity|lra].
Qed.

Lemma fold_greatest rest : forall first,
  fold_left (fun m v => if Rltb m v then v else m) rest first
  = fold_left Rmax rest first.
Proof.
  induction rest as [|v rest IH]; intros first; cbn [fold_left]; [reflexivity|].
  rewrite IH. f_equal. unfold Rmax.
  destruct (Rltb first v) eqn:E.
  - apply Rltb_true in E. destruct (Rle_dec first v); [reflexivity|lra].
  - apply Rltb_false in E. destruct (Rle_dec first v); [|reflexivity].
    lra.
Qed.

Lemma normalize_length arr : List.length (normalize arr) = List.length arr.
Proof.
  unfold normalize. destruct arr as [|first rest]; [reflexivity|].
  destruct (Rltb 0 _); [apply length_map|reflexivity].
Qed.

Lemma normalize_unit arr : unitRange (normalize arr) \/ constant (normalize arr).
Proof.
  unfold normalize. destruct arr as [|first rest].
  - right. intros u v [].
  - rewrite fold_least, fold_greatest.
    destruct (@QuantileLaws.extremes (first :: rest) first rest eq_refl)
      as (Hlo & Hhi & Hall).
    set (lo := fold_left Rmin rest first) in *.
    set (hi := fold_left Rmax rest first) in *.
    destruct (Rltb 0 (hi - lo)) eqn:E.
    + apply Rltb_true in E. left. apply rescaled_unit; auto. lra.
    + apply Rltb_false in E. right. intros u v Hu Hv.
      pose proof (Hall u Hu). pose proof (Hall v Hv). lra.
Qed.

Section Laws.

Variables width height : Z.

Lemma calculateFlow_length heights :
  List.length (calculateFlow width height heights)
  = Z.to_nat (width * height).
Proof.
  unfold calculateFlow.
  apply (GeneratorProps.fold_left_invariant
           (fun flow : list R => List.length flow = Z.to_nat (width * height))).
  - intros flow c H. destruct (fst (lowestNeighbor width height heights c));
      [rewrite PoissonProps.setItem_length|]; exact H.
  - apply repeat_length.
Qed.

Lemma fold_left_invariant_in {A B} (P : A -> Prop) (f : A -> B -> A) l :
  (forall a b, In b l -> P a -> P (f a b)) ->
  forall a, P a -> P (fold_left f l a).
Proof.
  induction l as [|b l IH]; intros Hf a Ha; cbn [fold_left]; [exact Ha|].
  apply IH.
  - intros a' b' Hb'. apply Hf. right. exact Hb'.
  - apply Hf; [left; reflexivity|exact Ha].
Qed.

Lemma insertByHeight_in c l q :
  In q (insertByHeight c l) -> q = c \/ In q l.
Proof.
  induction l as [|p l IH]; cbn [insertByHeight].
  - intros [<-|[]]. left. reflexivity.
  - destruct (Rltb (cellHeight c) (cellHeight p)).
    + intros [<-|H]; [right; left; reflexivity|].
      destruct (IH H) as [->|Hq]; [left; reflexivity|right; right; exact Hq].
    + intros [<-|H]; [left; reflexivity|right; exact H].
Qed.

Lemma sortByHeight_in l q : In q (sortByHeight l) -> In q l.
Proof.
  induction l as [|c l IH]; cbn [sortByHeight]; [auto|].
  intros H. destruct (insertByHeight_in _ _ _ H) as [->|Hq];
    [left; reflexivity|right; apply IH; exact Hq].
Qed.

Lemma cellsOf_in heights c :
  In c (cellsOf width height heights) ->
  (0 <= cellX c < width)%Z /\ (0 <= cellY c < height)%Z.
Proof.
  unfold cellsOf. intros H. apply in_flat_map in H.
  destruct H as (y & Hy & H). apply in_map_iff in H.
  destruct H as (x & <- & Hx). cbn [cellX cellY].
  apply TreesProps.in_indexes in Hx, Hy. split; assumption.
Qed.

Lemma lowestNeighbor_in heights c n :
  fst (lowestNeighbor width height heights c) = Some n ->
  (0 <= n < width * height)%Z.
Proof.
  unfold lowestNeighbor.
  apply (GeneratorProps.fold_left_invariant
           (fun st : option Z * R =>
              fst st = Some n -> (0 <= n < width * height)%Z));
    [|discriminate].
  intros st d Hst.
  destruct ((0 <=? cellX c + fst d) && (cellX c + fst d <? width)
            && (0 <=? cellY c + snd d) && (cellY c + snd d <? height))%Z
    eqn:Hin; [|exact Hst].
  match goal with
  | |- context [if Rltb ?a ?b then _ else _] => destruct (Rltb a b)
  end; [|exact Hst].
  cbn [fst]. intros [= <-].
  rewrite !andb_true_iff in Hin. destruct Hin as [[[H1 H2] H3] H4].
  apply Z.leb_le in H1, H3. apply Z.ltb_lt in H2, H4. nia.
Qed.

Lemma get_at_least_one flow i :
  Forall (fun f => 1 <= f) flow ->
  (0 <= i < Z.of_nat (List.length flow))%Z -> 1 <= Trees.get flow i.
Proof.
  intros H Hi. unfold Trees.get.
  replace (i <? 0)%Z with false by (symmetry; apply Z.ltb_ge; lia).
  rewrite Forall_forall in H. apply H. apply nth_In. lia.
Qed.

(** The flow array that [_calculateFlow] fills has one entry for each cell of
    the grid, and every entry is at least 1: a cell keeps its own unit of
    flow, whatever it receives from or passes to its neighbors. *)
Theorem calculateFlow_at_least_one (heights : list R) :
  List.length (calculateFlow width height heights) = Z.to_nat (width * height)
  /\ Forall (fun f => 1 <= f) (calculateFlow width height heights).
Proof.
  unfold calculateFlow.
  apply (fold_left_invariant_in
           (fun flow : list R =>
              List.length flow = Z.to_nat (width * height)
              /\ Forall (fun f => 1 <= f) flow)).
  - intros flow c Hc [Hlen H].
    destruct (fst (lowestNeighbor width height heights c)) as [n|] eqn:En;
      [|split; assumption].
    apply lowestNeighbor_in in En.
    apply sortByHeight_in, cellsOf_in in Hc.
    split; [rewrite PoissonProps.setItem_length; exact Hlen|].
    pose proof (@get_at_least_one flow n H ltac:(lia)) as Hn.
    pose proof (@get_at_least_one flow (cellY c * width + cellX c)%Z H
                  ltac:(nia)) as Hi.
    apply Forall_forall. intros f Hf.
    destruct (In_nth _ _ 0 Hf) as (k & Hk & <-).
    rewrite PoissonProps.setItem_length in Hk.
    destruct (Nat.eq_dec (Z.to_nat n) k) as [<-|Hne].
    + rewrite PoissonProps.setItem_same by exact Hk. lra.
    + rewrite PoissonProps.setItem_other by exact Hne.
      rewrite Forall_forall in H. apply H. apply nth_In. exact Hk.
  - split; [apply repeat_length|].
    apply Forall_forall. intros f Hf. apply repeat_spec in Hf. lra.
Qed.

Lemma applyErosion_length heights flow strength :
  List.length (applyErosion heights flow strength) = List.length heights.
Proof.
  unfold applyErosion. destruct flow as [|first rest]; [reflexivity|].
  rewrite normalize_length, length_map, TreesProps.indexes_length. lia.
Qed.

Lemma iterate_length n : forall heightField strength,
  List.length (iterate width height n heightField strength)
  = List.length heightField.
Proof.
  induction n as [|n IH]; intros heightField strength; cbn [iterate];
    [reflexivity|].
  rewrite IH. apply applyErosion_length.
Qed.

Lemma iterate_last n : forall heightField strength,
  List.length heightField = Z.to_nat (width * height) ->
  unitRange (iterate width height (S n) heightField strength)
  \/ constant (iterate width height (S n) heightField strength).
Proof.
  induction n as [|n IH]; intros heightField strength Hlen.
  - cbn [iterate]. unfold applyErosion.
    destruct (calculateFlow width height heightField) as [|first rest] eqn:Ef.
    + right. pose proof (calculateFlow_length heightField) as Hl.
      rewrite Ef in Hl. cbn in Hl.
      destruct heightField; [intros u v []|cbn in Hlen; lia].
    + apply normalize_unit.
  - change (iterate width height (S (S n)) heightField strength)
      with (iterate width height (S n)
              (applyErosion heightField
                 (calculateFlow width height heightField) strength) strength).
    apply IH. rewrite applyErosion_length. exact Hlen.
Qed.

End Laws.

Lemma erode_unit width height heightField iterations strength :
  List.length heightField = Z.to_nat (width * height) ->
  (1 <= iterations)%Z ->
  unitRange (erode width height heightField iterations strength)
  \/ constant (erode width height heightField iterations strength).
Proof.
  intros Hlen Hi. unfold erode.
  replace (Z.to_nat iterations) with (S (Z.to_nat (iterations - 1))) by lia.
  apply iterate_last. exact Hlen.
Qed.

Lemma erode_length width height heightField iterations strength :
  List.length (erode width height heightField iterations strength)
  = List.length heightField.
Proof. unfold erode. apply iterate_length. Qed.

(** [erode] keeps the number of cells and, when it runs at least one
    iteration on a height field of [width * height] cells, leaves a field
    rescaled to the unit interval: its heights lie in [[0, 1]] with the
    lowest cell at 0 and the highest at 1, whatever the scale of the input,
    unless all its heights are equal.  Without an iteration the field is
    unchanged. *)
Theorem erode_rescales (width height : Z) (heightField : list R)
  (iterations : Z) (strength : R) :
  List.length heightField = Z.to_nat (width * height) ->
  List.length (erode width height heightField iterations strength)
  = List.length heightField
  /\ ((iterations <= 0)%Z ->
      erode width height heightField iterations strength = heightField)
  /\ ((1 <= iterations)%Z ->
      unitRange (erode width height heightField iterations strength)
      \/ constant (erode width height heightField iterations strength)).
Proof.
  intros Hlen. unfold erode. split; [apply iterate_length|]. split.
  - intros Hi. replace (Z.to_nat iterations) with O by lia. reflexivity.
  - intros Hi.
    replace (Z.to_nat iterations) with (S (Z.to_nat (iterations - 1))) by lia.
    apply iterate_last. exact Hlen.
Qed.

Lemma erode_rescales_witness :
  unitRange (erode 2 1 [10; 80] 1 (3 / 10))
  \/ constant (erode 2 1 [10; 80] 1 (3 / 10)).
Proof.
  apply (@erode_rescales 2 1 [10; 80] 1 (3 / 10)); [reflexivity|lia].
Defined.

End ErosionLaws.

(* ================================================================== *)
(** * terrainGeneratorV1_1.js: properties of the pipeline *)
Module GeneratorLaws.

Import Quantile QuantileProps Generator GeneratorProps.
Import ErosionLaws.
Local Open Scope R_scope.

(** ** [_normalizeArray] *)

(** [_normalizeArray] keeps the length of the array and the order of its
    values; it leaves an array of equal values as it is and maps any other
    array onto the unit interval, the smallest value to 0 and the largest
    to 1. *)
Theorem normalizeArray_unit (arr : list R) :
  List.length (normalizeArray arr) = List.length arr
  /\ (constant arr -> normalizeArray arr = arr)
  /\ (~ constant arr -> unitRange (normalizeArray arr))
  /\ (forall i j, (i < List.length arr)%nat -> (j < List.length arr)%nat ->
        nth i arr 0 <= nth j arr 0 ->
        nth i (normalizeArray arr) 0 <= nth j (normalizeArray arr) 0).
Proof.
  split; [apply normalizeArray_length|].
  unfold normalizeArray. destruct arr as [|first rest].
  { split; [reflexivity|]. split; [|intros i j Hi; cbn in Hi; lia].
    intros H. exfalso. apply H. intros u v []. }
  destruct (@QuantileLaws.extremes (first :: rest) first rest eq_refl)
    as (Hlo & Hhi & Hall).
  set (arr := first :: rest) in *.
  set (lo := fold_left Rmin rest first) in *.
  set (hi := fold_left Rmax rest first) in *.
  destruct (Rltb 0 (hi - lo)) eqn:E.
  - apply Rltb_true in E. split; [|split].
    + intros Hc. specialize (Hc lo hi Hlo Hhi). lra.
    + intros _. apply rescaled_unit; auto. lra.
    + intros i j Hi Hj Hij.
      assert (Hinv : 0 < / (hi - lo)) by (apply Rinv_0_lt_compat; lra).
      assert (Hnth : forall k, (k < List.length arr)%nat ->
                nth k (map (fun v => (v - lo) / (hi - lo)) arr) 0
                = (nth k arr 0 - lo) / (hi - lo)).
      { intros k Hk.
        rewrite (nth_indep _ 0 ((fun v => (v - lo) / (hi - lo)) 0))
          by (rewrite length_map; exact Hk).
        apply (map_nth (fun v => (v - lo) / (hi - lo))). }
      rewrite !Hnth by assumption.
      unfold Rdiv. apply Rmult_le_compat_r; lra.
  - apply Rltb_false in E. split; [reflexivity|]. split; [|auto].
    intros Hn. exfalso. apply Hn. intros u v Hu Hv.
    pose proof (Hall u Hu). pose proof (Hall v Hv). lra.
Qed.

Lemma normalizeArray_unit_witness : unitRange (normalizeArray [2; 6]).
Proof.
  apply (proj1 (proj2 (proj2 (normalizeArray_unit [2; 6])))).
  intros H. specialize (H 2 6 ltac:(cbn; tauto) ltac:(cbn; tauto)). lra.
Defined.

(** ** The lakes *)

(** A height field after cells were lowered, none of them below 0 unless it
    was there before. *)
Definition lowered (before after : list R) : Prop :=
  List.length after = List.length before
  /\ forall i, Rmin 0 (nth i before 0) <= nth i after 0 <= nth i before 0.

Lemma lowered_refl l : lowered l l.
Proof.
  split; [reflexivity|]. intros i. split; [apply Rmin_r|lra].
Qed.

Lemma lowered_trans a b c : lowered a b -> lowered b c -> lowered a c.
Proof.
  intros [L1 H1] [L2 H2]. split; [congruence|]. intros i.
  specialize (H1 i). specialize (H2 i).
  assert (Rmin 0 (nth i a 0) <= Rmin 0 (nth i b 0)).
  { apply Rmin_glb; [apply Rmin_l|].
    apply Rle_trans with (Rmin 0 (nth i a 0)); [lra|tauto]. }
  lra.
Qed.

Lemma lowered_write l k target :
  0 <= target -> target < Trees.get l (Z.of_nat k) ->
  lowered l (Poisson.setItem l k target).
Proof.
  intros H0 Hlt. split; [apply PoissonProps.setItem_length|]. intros i.
  unfold Trees.get in Hlt.
  replace (Z.of_nat k <? 0)%Z with false in Hlt
    by (symmetry; apply Z.ltb_ge; lia).
  rewrite Nat2Z.id in Hlt.
  destruct (Nat.eq_dec k i) as [<-|Hne].
  - destruct (Nat.lt_ge_cases k (List.length l)) as [Hk|Hk].
    + rewrite PoissonProps.setItem_same by exact Hk.
      split; [|lra]. apply Rle_trans with 0; [apply Rmin_l|exact H0].
    + rewrite nth_overflow in Hlt by exact Hk. lra.
  - rewrite PoissonProps.setItem_other by exact Hne.
    split; [apply Rmin_r|lra].
Qed.

Section Lakes.

Variable Math_pow : R -> R -> R.
Variable config : Config.

Lemma carveCell_lowered cx cy radiusX radiusY depth xi yi st :
  lowered (fst (fst st))
    (fst (fst (carveCell Math_pow config cx cy radiusX radiusY depth xi yi st))).
Proof.
  unfold carveCell. destruct st as [[elevation lcg] carved]. cbn [fst].
  destruct (Reqb radiusX 0 || Reqb radiusY 0
            || Reqb (LAKE_SHAPE_SQUARENESS config) 0);
    [apply lowered_refl|].
  match goal with
  | |- context [if Rltb ?d 1 then _ else _] => destruct (Rltb d 1)
  end; [|apply lowered_refl].
  destruct (RNG.next lcg) as [r lcg'].
  match goal with
  | |- context [if Rltb ?t (Trees.get elevation ?idx) then _ else _] =>
      destruct (Rltb t (Trees.get elevation idx)) eqn:E;
      cbn [fst]; [|apply lowered_refl];
      apply Rltb_true in E;
      assert (Ht : 0 <= t) by apply Rmax_l;
      destruct (Z_lt_ge_dec idx 0) as [Hneg|Hpos]
  end.
  - exfalso. unfold Trees.get in E.
    rewrite (proj2 (Z.ltb_lt _ 0) Hneg) in E. lra.
  - apply lowered_write; [exact Ht|]. rewrite Z2Nat.id by lia. exact E.
Qed.

Lemma carveLake_lowered elevation cx cy radiusX radiusY depth lcg :
  lowered elevation
    (fst (fst (carveLake Math_pow config elevation cx cy radiusX radiusY
                 depth lcg))).
Proof.
  unfold carveLake.
  apply (fold_left_invariant
           (fun st : list R * RNG.LCG * nat => lowered elevation (fst (fst st))));
    [|apply lowered_refl].
  intros st yi Hst.
  apply (fold_left_invariant
           (fun st : list R * RNG.LCG * nat => lowered elevation (fst (fst st))));
    [|exact Hst].
  intros st' xi Hst'. eapply lowered_trans; [exact Hst'|].
  apply carveCell_lowered.
Qed.

Lemma carveLakes_lowered avgRadius centers elevation lcg :
  lowered elevation
    (fst (carveLakes Math_pow config avgRadius centers elevation lcg)).
Proof.
  unfold carveLakes.
  apply (fold_left_invariant
           (fun st : list R * RNG.LCG => lowered elevation (fst st)));
    [|apply lowered_refl].
  intros [e l] center Hst. cbn [fst] in Hst.
  destruct (RNG.next l) as [r1 l1]. destruct (RNG.next l1) as [r2 l2].
  match goal with
  | |- context [carveLake ?a ?b ?c ?d ?e' ?f ?g ?h ?i] =>
      pose proof (@carveLake_lowered c d e' f g h i) as Hl;
      destruct (carveLake a b c d e' f g h i) as [[e3 l3] n3]
  end.
  cbn [fst] in Hl |- *. eapply lowered_trans; eauto.
Qed.

Lemma addLakes_lowered clock fuel elevation g elevation' g' :
  addLakes Math_pow clock config fuel elevation g = Ok (elevation', g') ->
  lowered elevation elevation'.
Proof.
  unfold addLakes.
  destruct (Rleb (WATER_PERCENTAGE config) 0);
    [intros [= <- _]; apply lowered_refl|].
  unfold now, withRng, setBuildTime. cbn [rng clockReads metrics].
  match goal with
  | |- bind ?m _ = _ -> _ => destruct m as [st| | |]; try discriminate
  end.
  cbn [bind]. destruct (Poisson.samples st) as [|center centers];
    [intros [= <- _]; apply lowered_refl|].
  match goal with
  | |- context [carveLakes ?a ?b ?c ?d ?e ?f] =>
      pose proof (@carveLakes_lowered c d e f) as Hl;
      destruct (carveLakes a b c d e f) as [carved lakesRng']
  end.
  cbn [fst] in Hl. intros [= <- _]. exact Hl.
Qed.

(** [_carveLake] only lowers cells: it keeps the length of the height field,
    raises no cell, and takes no cell below 0 that was not below 0 before;
    the same holds for the whole of [_addLakes]. *)
Theorem lakes_only_lower (elevation : list R) :
  (forall cx cy radiusX radiusY depth lcg,
     lowered elevation
       (fst (fst (carveLake Math_pow config elevation cx cy radiusX radiusY
                    depth lcg))))
  /\ (forall clock fuel g elevation' g',
        addLakes Math_pow clock config fuel elevation g = Ok (elevation', g') ->
        lowered elevation elevation').
Proof.
  split.
  - intros. apply carveLake_lowered.
  - intros clock fuel g elevation' g' H. eapply addLakes_lowered; eauto.
Qed.

End Lakes.

Lemma lakes_only_lower_witness :
  lowered [5; 5]
    (fst (fst (carveLake basePower DEFAULT_CONFIG [5; 5] 0 0 1 1 1
                 (RNG.LCG_new 1)))).
Proof.
  apply (proj1 (lakes_only_lower basePower DEFAULT_CONFIG [5; 5])).
Defined.

(** ** The heights of the generated terrain *)

Definition within (lo hi : R) (l : list R) : Prop :=
  Forall (fun v => lo <= v <= hi) l.

Lemma within_lowered hi before after :
  0 <= hi -> within 0 hi before -> lowered before after -> within 0 hi after.
Proof.
  intros Hhi Hb [Hlen Hl]. apply Forall_forall. intros v Hv.
  destruct (In_nth _ _ 0 Hv) as (k & Hk & <-). specialize (Hl k).
  unfold within in Hb. rewrite Forall_forall in Hb.
  assert (Hin : 0 <= nth k before 0 <= hi)
    by (apply Hb, nth_In; lia).
  rewrite Rmin_left in Hl by lra. lra.
Qed.

Lemma solveSeaLevel_unchanged data p epsilon res data' :
  solveSeaLevel data p epsilon = Ok (res, data') -> p <> 0 -> data' = data.
Proof.
  unfold solveSeaLevel. intros H Hp.
  rewrite (proj2 (Reqb_false p 0)) in H by exact Hp.
  destruct (Rleb 100 p).
  - destruct (Math_max data); try discriminate. cbn [bind] in H.
    injection H as _ <-. reflexivity.
  - destruct (findQuantile data (p / 100)); try discriminate.
    cbn [bind] in H. destruct (List.length data); [discriminate|].
    injection H as _ <-. reflexivity.
Qed.

Section Heights.

Variable generateNoiseField : Z -> Z -> Z -> NoiseParams -> list R.
Variable curveEvaluate : string -> R -> R.
Variable Math_pow : R -> R -> R.
Variable erode : Z -> Z -> list R -> Z -> R -> list R.
Variable clock : nat -> R.
Variable config : Config.

Lemma generateElevation_length fuel g elevation g' :
  generateElevation generateNoiseField curveEvaluate Math_pow clock config
    fuel g = Ok (elevation, g') ->
  List.length elevation = Z.to_nat (MAP_WIDTH config * MAP_HEIGHT config).
Proof.
  unfold generateElevation.
  unfold now, withRng, setBuildTime. cbn [rng clockReads metrics].
  match goal with
  | |- context [addNoiseBand ?k ?c (NOISE_MICRO ?c) ?acc] =>
      set (A := addNoiseBand k c (NOISE_MICRO c) acc)
  end.
  assert (Hlen : List.length (fst A)
                 = Z.to_nat (MAP_WIDTH config * MAP_HEIGHT config)).
  { unfold A. rewrite !addNoiseBand_length. cbn [fst]. apply repeat_length. }
  destruct A as [e1 ga]. cbn [fst] in Hlen.
  match goal with
  | |- bind ?m _ = _ -> _ => destruct m as [[e2 gl]| | |] eqn:Hl;
                               try discriminate
  end.
  cbn [bind]. intros [= <- _].
  apply addLakes_lowered in Hl. destruct Hl as [Hl _].
  rewrite length_map, Hl, !length_map, normalizeArray_length. exact Hlen.
Qed.

Hypothesis Hcurve :
  forall v, 0 <= curveEvaluate (ELEVATION_CURVE config) v <= 1.
Hypothesis Hscale : 0 <= ELEVATION_SCALE config.

Lemma generateElevation_within fuel g elevation g' :
  generateElevation generateNoiseField curveEvaluate Math_pow clock config
    fuel g = Ok (elevation, g') ->
  within 0 (ELEVATION_SCALE config) elevation.
Proof.
  unfold generateElevation.
  unfold now, withRng, setBuildTime. cbn [rng clockReads metrics].
  match goal with
  | |- context [addNoiseBand ?k ?c (NOISE_MICRO ?c) ?acc] =>
      destruct (addNoiseBand k c (NOISE_MICRO c) acc) as [e1 ga]
  end.
  match goal with
  | |- bind (addLakes _ _ _ _ ?e _) _ = _ -> _ =>
      assert (Hunit : within 0 1 e)
  end.
  { apply Forall_forall. intros v Hv. apply in_map_iff in Hv.
    destruct Hv as (u & <- & _). apply Hcurve. }
  match goal with
  | |- bind ?m _ = _ -> _ => destruct m as [[e2 gl]| | |] eqn:Hl;
                               try discriminate
  end.
  cbn [bind]. intros [= <- _].
  apply addLakes_lowered in Hl.
  pose proof (@within_lowered 1 _ _ ltac:(lra) Hunit Hl) as H2.
  apply Forall_forall. intros v Hv. apply in_map_iff in Hv.
  destruct Hv as (u & <- & Hu). unfold within in H2.
  rewrite Forall_forall in H2. specialize (H2 u Hu). nra.
Qed.

Lemma interpolated_level data q lo hi :
  data <> [] -> 0 < q < 1 -> within lo hi data ->
  lo <= interpolate (sort data) q <= hi.
Proof.
  intros Hd Hq Hw. unfold within in Hw. rewrite Forall_forall in Hw.
  apply interpolate_range; auto; try lra; intros v Hv; apply Hw; exact Hv.
Qed.

Lemma generate_heights fuel r :
  (EROSION_ITERATIONS config <= 0)%Z ->
  0 < WATER_PERCENTAGE config < 100 ->
  generate generateNoiseField curveEvaluate Math_pow erode clock config fuel
  = Ok r ->
  elevation r <> []
  /\ within 0 (ELEVATION_SCALE config) (elevation r)
  /\ 0 <= seaLevel r <= ELEVATION_SCALE config
  /\ exists inv,
       invariants (outMetrics r) = Some inv
       /\ heightsValid inv = true /\ seaLevelValid inv = true.
Proof.
  intros Hero Hp H. unfold generate, generateOn in H.
  unfold now at 1 in H. cbn [rng clockReads metrics] in H.
  match type of H with
  | bind ?m _ = _ => destruct m as [[e1 ga]| | |] eqn:HE; try discriminate
  end.
  apply generateElevation_within in HE. cbn [bind] in H.
  replace (0 <? EROSION_ITERATIONS config)%Z with false in H
    by (symmetry; apply Z.ltb_ge; exact Hero).
  match type of H with
  | bind ?m _ = _ => destruct m as [[[res e3] ge]| | |] eqn:HS; try discriminate
  end.
  cbn [bind] in H.
  (* the sea level *)
  unfold solveSeaLevelPhase in HS. unfold now at 1 in HS.
  cbn [rng clockReads metrics] in HS.
  assert (Hne : e1 <> []).
  { intros ->. unfold solveSeaLevel in HS.
    rewrite (proj2 (Reqb_false _ 0)) in HS by lra.
    rewrite (proj2 (Rleb_false 100 _)) in HS by lra.
    unfold findQuantile in HS.
    destruct (Rltb (WATER_PERCENTAGE config / 100) 0
              || Rltb 1 (WATER_PERCENTAGE config / 100)); discriminate. }
  rewrite (@solve_quantile_branch e1 (WATER_PERCENTAGE config)
             (WATER_EPSILON config) Hne Hp) in HS.
  cbv zeta in HS. cbn [bind] in HS.
  match type of HS with
  | bind ?m _ = _ => destruct m as [validation| | |]; try discriminate
  end.
  cbn [bind] in HS. unfold now, setBuildTime in HS.
  cbn [rng clockReads metrics] in HS.
  injection HS as <- <- <-.
  set (level := interpolate (sort e1) (WATER_PERCENTAGE config / 100)) in *.
  assert (Hlevel : 0 <= level <= ELEVATION_SCALE config).
  { apply interpolated_level; [exact Hne| |exact HE].
    split; [apply Rdiv_lt_0_compat; lra|].
    apply (Rmult_lt_reg_r 100); [lra|].
    unfold Rdiv. rewrite Rmult_assoc, Rinv_l by lra. lra. }
  destruct (generateMoisture generateNoiseField clock config _) as [m1 gm1].
  destruct (generateTemperature generateNoiseField clock config e1 _ gm1)
    as [t1 gt1].
  unfold timedPhase, calculateMetrics, now, setBuildTime in H.
  cbn [rng clockReads metrics buildTime waterCoverage invariants
       Quantile.seaLevel actualPercentage] in H.
  injection H as <-.
  cbn [elevation seaLevel outMetrics invariants].
  split; [exact Hne|]. split; [exact HE|]. split; [exact Hlevel|].
  eexists. split; [reflexivity|]. cbn [heightsValid seaLevelValid].
  destruct e1 as [|first rest]; [contradiction|].
  destruct (@QuantileLaws.extremes (first :: rest) first rest eq_refl)
    as (Hlo & Hhi & _).
  unfold within in HE. rewrite Forall_forall in HE.
  pose proof (HE _ Hlo). pose proof (HE _ Hhi).
  split; rdecide; reflexivity.
Qed.

End Heights.

(** The default configuration without the erosion pass. *)
Definition UNERODED_CONFIG : Config :=
  mkConfig 12345 128 128 1 80 "SHARP_ALPS" (35 / 100) 15 (1 / 100) (1 / 10)
    15 (5 / 100) (15 / 100) 2 (15 / 100)
    (mkNoiseParams 2 (3 / 1000) (6 / 10) 2 (45 / 100))
    (mkNoiseParams 3 (1 / 100) (4 / 10) 2 (45 / 100))
    (mkNoiseParams 4 (4 / 100) (35 / 100) 2 (20 / 100))
    (mkNoiseParams 2 (15 / 1000) (3 / 10) 2 0)
    (mkNoiseParams 2 (8 / 1000) (4 / 10) 2 0)
    (- (6 / 1000)) (3 / 10) 0 (15 / 100) 5000
    (Trees.mkTreeConfig (Some 25) (Some 3) (Some 60) (Some 35) (Some 2)).

Lemma sharp_alps_unit v : 0 <= Curve.presetEvaluate "SHARP_ALPS" v <= 1.
Proof. apply CurveLaws.presetEvaluate_unit. discriminate. Qed.

Lemma uneroded_run_returns clock :
  exists r,
    generate constantNoise Curve.presetEvaluate basePower noErosion clock
      UNERODED_CONFIG 648 = Ok r.
Proof.
  apply generate_returns.
  - reflexivity.
  - reflexivity.
  - cbn [UNERODED_CONFIG WATER_PERCENTAGE]. lra.
  - reflexivity.
  - exact default_lakes_fit.
Qed.

(** ** The heights after the erosion pass *)

Lemma generate_eroded generateNoiseField curveEvaluate Math_pow clock config
  fuel r :
  (1 <= EROSION_ITERATIONS config)%Z -> WATER_PERCENTAGE config <> 0 ->
  generate generateNoiseField curveEvaluate Math_pow Erosion.erode clock
    config fuel = Ok r ->
  unitRange (elevation r) \/ constant (elevation r).
Proof.
  intros Hero Hp H. unfold generate, generateOn in H.
  unfold now at 1 in H. cbn [rng clockReads metrics] in H.
  match type of H with
  | bind ?m _ = _ => destruct m as [[e1 ga]| | |] eqn:HE; try discriminate
  end.
  apply generateElevation_length in HE. cbn [bind] in H.
  replace (0 <? EROSION_ITERATIONS config)%Z with true in H
    by (symmetry; apply Z.ltb_lt; lia).
  unfold applyErosion in H. unfold now, withRng, setBuildTime in H.
  cbn [rng clockReads metrics] in H.
  pose proof (@ErosionLaws.erode_unit (MAP_WIDTH config) (MAP_HEIGHT config)
                e1 (EROSION_ITERATIONS config) (EROSION_STRENGTH config)
                HE Hero) as Hunit.
  set (eroded := Erosion.erode (MAP_WIDTH config) (MAP_HEIGHT config) e1
                   (EROSION_ITERATIONS config) (EROSION_STRENGTH config)) in *.
  match type of H with
  | bind ?m _ = _ => destruct m as [[[res e3] ge]| | |] eqn:HS; try discriminate
  end.
  cbn [bind] in H.
  assert (He3 : e3 = eroded).
  { unfold solveSeaLevelPhase in HS. unfold now at 1 in HS.
    cbn [rng clockReads metrics] in HS.
    match type of HS with
    | bind ?m _ = _ => destruct m as [[res' e']| | |] eqn:Hsolve;
                         try discriminate
    end.
    apply solveSeaLevel_unchanged in Hsolve; [|exact Hp]. subst e'.
    cbn [bind] in HS.
    match type of HS with
    | bind ?m _ = _ => destruct m as [validation| | |]; try discriminate
    end.
    cbn [bind] in HS. unfold now, setBuildTime in HS.
    cbn [rng clockReads metrics] in HS. injection HS as _ <- _. reflexivity. }
  subst e3.
  destruct (generateMoisture generateNoiseField clock config ge) as [m1 gm1].
  destruct (generateTemperature generateNoiseField clock config eroded
              (Quantile.seaLevel res) gm1) as [t1 gt1].
  unfold timedPhase, calculateMetrics, now, setBuildTime in H.
  cbn [rng clockReads metrics buildTime waterCoverage invariants] in H.
  injection H as <-. cbn [elevation]. exact Hunit.
Qed.

(** With the erosion pass of erosion.js in the pipeline, at least one
    erosion iteration and a target water percentage other than 0, the height
    field that [generate()] returns is rescaled to the unit interval: its
    heights lie in [[0, 1]], the lowest at 0 and the highest at 1, whatever
    ELEVATION_SCALE is, unless all heights are equal. *)
Theorem generate_eroded_unit
  (generateNoiseField : Z -> Z -> Z -> NoiseParams -> list R)
  (curveEvaluate : string -> R -> R) (Math_pow : R -> R -> R)
  (clock : nat -> R) (config : Config) (fuel : nat) (r : TerrainData) :
  (1 <= EROSION_ITERATIONS config)%Z -> WATER_PERCENTAGE config <> 0 ->
  generate generateNoiseField curveEvaluate Math_pow Erosion.erode clock
    config fuel = Ok r ->
  ((forall h, In h (elevation r) -> 0 <= h <= 1)
   /\ In 0 (elevation r) /\ In 1 (elevation r))
  \/ (forall h1 h2, In h1 (elevation r) -> In h2 (elevation r) -> h1 = h2).
Proof.
  intros Hero Hp Hrun.
  destruct (@generate_eroded generateNoiseField curveEvaluate Math_pow clock
              config fuel r Hero Hp Hrun) as [Hunit|Hconst].
  - left. exact Hunit.
  - right. exact Hconst.
Qed.

Lemma generate_eroded_unit_witness :
  exists r,
    generate constantNoise Curve.presetEvaluate basePower Erosion.erode
      stoppedClock DEFAULT_CONFIG 648 = Ok r
    /\ (((forall h, In h (elevation r) -> 0 <= h <= 1)
         /\ In 0 (elevation r) /\ In 1 (elevation r))
        \/ (forall h1 h2, In h1 (elevation r) -> In h2 (elevation r) ->
              h1 = h2)).
Proof.
  destruct (@generate_returns constantNoise Curve.presetEvaluate basePower
              Erosion.erode stoppedClock DEFAULT_CONFIG eq_refl eq_refl
              ltac:(cbn; lra)
              (fun e => ErosionLaws.erode_length _ _ e _ _) 648
              default_lakes_fit) as (r & Hrun).
  exists r. split; [exact Hrun|].
  apply (@generate_eroded_unit constantNoise Curve.presetEvaluate basePower
           stoppedClock DEFAULT_CONFIG 648 r); [cbn; lia|cbn; lra|exact Hrun].
Defined.

End GeneratorLaws.

(* ================================================================== *)
(** * Rounding: error, monotonicity, the numbers of the format *)

Module RoundingLaws.
Import Rounding.
Local Open Scope R_scope.

Lemma Rabs_bounds a b : Rabs a <= b -> - b <= a <= b.
Proof. unfold Rabs. destruct (Rcase_abs a); lra. Qed.

Lemma pow2_pos e : 0 < powerRZ 2 e.
Proof. apply powerRZ_lt. lra. Qed.

Lemma pow2_add a b : powerRZ 2 (a + b) = powerRZ 2 a * powerRZ 2 b.
Proof. apply powerRZ_add. lra. Qed.

Lemma ln2_pos : 0 < ln 2.
Proof. rewrite <- ln_1. apply ln_increasing; lra. Qed.

Lemma pow2_exp e : powerRZ 2 e = exp (IZR e * ln 2).
Proof. rewrite powerRZ_Rpower by lra. reflexivity. Qed.

Lemma pow2_lt a b : (a < b)%Z -> powerRZ 2 a < powerRZ 2 b.
Proof.
  intros H. rewrite !pow2_exp. apply exp_increasing.
  apply IZR_lt in H. pose proof ln2_pos. nra.
Qed.

Lemma pow2_le a b : (a <= b)%Z -> powerRZ 2 a <= powerRZ 2 b.
Proof.
  intros H. destruct (Z.eq_dec a b) as [->|Hne]; [lra|].
  left. apply pow2_lt. lia.
Qed.

Lemma pow2_cancel e : powerRZ 2 (- e) * powerRZ 2 e = 1.
Proof. rewrite <- pow2_add. replace (- e + e)%Z with 0%Z by lia. reflexivity. Qed.

(** ** The binade *)

Lemma binade_spec x : x <> 0 ->
  powerRZ 2 (binade x) <= Rabs x < powerRZ 2 (binade x + 1).
Proof.
  intros Hx. unfold binade.
  assert (Ha : 0 < Rabs x) by (apply Rabs_pos_lt; exact Hx).
  pose proof ln2_pos as H2.
  set (l := ln (Rabs x) / ln 2).
  assert (Hl : l * ln 2 = ln (Rabs x)) by (unfold l; field; lra).
  destruct (Zfloor_bound l) as [H3 H4].
  rewrite !pow2_exp, plus_IZR.
  assert (He : Rabs x = exp (l * ln 2)) by (rewrite Hl, exp_ln; [reflexivity|exact Ha]). rewrite He.
  split.
  - destruct (Req_dec (IZR (Zfloor l)) l) as [->|Hne]; [lra|].
    left. apply exp_increasing. nra.
  - apply exp_increasing. nra.
Qed.

Lemma binade_unique x k :
  powerRZ 2 k <= Rabs x < powerRZ 2 (k + 1) -> binade x = k.
Proof.
  intros [H1 H2].
  assert (Hx : x <> 0).
  { intros ->. rewrite Rabs_R0 in H1. pose proof (pow2_pos k). lra. }
  destruct (binade_spec Hx) as [H3 H4].
  destruct (Z.lt_trichotomy (binade x) k) as [Hlt|[Heq|Hgt]]; [|exact Heq|].
  - assert (powerRZ 2 (binade x + 1) <= powerRZ 2 k) by (apply pow2_le; lia).
    lra.
  - assert (powerRZ 2 (k + 1) <= powerRZ 2 (binade x)) by (apply pow2_le; lia).
    lra.
Qed.

Lemma binade_mono x y : x <> 0 -> Rabs x <= Rabs y -> (binade x <= binade y)%Z.
Proof.
  intros Hx Hxy.
  assert (Hy : y <> 0).
  { intros ->. rewrite Rabs_R0 in Hxy. pose proof (Rabs_pos_lt x Hx). lra. }
  destruct (binade_spec Hx) as [H1 _]. destruct (binade_spec Hy) as [_ H2].
  destruct (Z_lt_le_dec (binade y) (binade x)) as [Hlt|Hle]; [|exact Hle].
  assert (powerRZ 2 (binade y + 1) <= powerRZ 2 (binade x)) by (apply pow2_le; lia).
  lra.
Qed.

Lemma binade_opp x : binade (- x) = binade x.
Proof. unfold binade. rewrite Rabs_Ropp. reflexivity. Qed.

Lemma pow2_IZR k : (0 <= k)%Z -> powerRZ 2 k = IZR (2 ^ k).
Proof.
  intros Hk. rewrite <- (Z2Nat.id k) by exact Hk.
  induction (Z.to_nat k) as [|n IH]; [reflexivity|].
  replace (Z.of_nat (S n)) with (Z.of_nat n + 1)%Z by lia.
  rewrite pow2_add, IH, Z.pow_add_r by lia.
  rewrite mult_IZR. change (powerRZ 2 1) with (2 * 1). change (2 ^ 1)%Z with 2%Z.
  lra.
Qed.

Lemma binade_below x k : x <> 0 -> Rabs x < powerRZ 2 k -> (binade x < k)%Z.
Proof.
  intros Hx Hk. destruct (binade_spec Hx) as [H1 _].
  destruct (Z_lt_le_dec (binade x) k) as [Hlt|Hle]; [exact Hlt|].
  pose proof (pow2_le Hle). lra.
Qed.

(** ** Rounding to the nearest integer *)

Lemma nearestEven_cases x :
  let f := Zfloor x in
  (nearestEven x = f /\ x - IZR f <= 1 / 2)
  \/ (nearestEven x = (f + 1)%Z /\ 1 / 2 <= x - IZR f).
Proof.
  intros f. unfold nearestEven. fold f.
  destruct (Rlt_dec (x - IZR f) (1 / 2)); [left; split; [reflexivity|lra]|].
  destruct (Rlt_dec (1 / 2) (x - IZR f)); [right; split; [reflexivity|lra]|].
  destruct (Z.even f); [left|right]; split; try reflexivity; lra.
Qed.

Lemma nearestEven_error x : Rabs (IZR (nearestEven x) - x) <= 1 / 2.
Proof.
  destruct (Zfloor_bound x) as [H1 H2].
  destruct (nearestEven_cases x) as [[-> H]|[-> H]];
    [|rewrite plus_IZR]; apply Rabs_le; lra.
Qed.

Lemma nearestEven_IZR k : nearestEven (IZR k) = k.
Proof.
  unfold nearestEven. rewrite ZfloorZ.
  destruct (Rlt_dec (IZR k - IZR k) (1 / 2)); [reflexivity|lra].
Qed.

Lemma nearestEven_mono x y : x <= y -> (nearestEven x <= nearestEven y)%Z.
Proof.
  intros Hxy.
  assert (Hf : (Zfloor x <= Zfloor y)%Z) by (apply Zfloor_le; exact Hxy).
  destruct (Zfloor_bound x) as [Hx1 Hx2]. destruct (Zfloor_bound y) as [Hy1 Hy2].
  destruct (Z.eq_dec (Zfloor x) (Zfloor y)) as [E|Hne].
  - unfold nearestEven. rewrite <- E.
    destruct (Rlt_dec (x - IZR (Zfloor x)) (1 / 2));
      destruct (Rlt_dec (y - IZR (Zfloor x)) (1 / 2)); try lia; try lra;
      destruct (Rlt_dec (1 / 2) (x - IZR (Zfloor x)));
      destruct (Rlt_dec (1 / 2) (y - IZR (Zfloor x))); try lia; try lra;
      destruct (Z.even (Zfloor x)); lia.
  - destruct (nearestEven_cases x) as [[-> _]|[-> _]];
      destruct (nearestEven_cases y) as [[-> _]|[-> _]]; lia.
Qed.

Lemma Zfloor_opp_frac x : IZR (Zfloor x) <> x ->
  Zfloor (- x) = (- Zfloor x - 1)%Z.
Proof.
  intros Hne. destruct (Zfloor_bound x) as [H1 H2].
  apply Zfloor_eq. rewrite minus_IZR, opp_IZR. lra.
Qed.

Lemma nearestEven_opp x : nearestEven (- x) = (- nearestEven x)%Z.
Proof.
  destruct (Req_dec (IZR (Zfloor x)) x) as [E|Hne].
  - rewrite <- E, <- opp_IZR, !nearestEven_IZR. reflexivity.
  - destruct (Zfloor_bound x) as [H1 H2].
    unfold nearestEven. rewrite (Zfloor_opp_frac Hne).
    rewrite minus_IZR, opp_IZR.
    replace (Z.even (- Zfloor x - 1)) with (negb (Z.even (Zfloor x))).
    2:{ replace (- Zfloor x - 1)%Z with (- (Zfloor x + 1))%Z by lia.
        rewrite Z.even_opp, Z.even_add. cbn.
        destruct (Z.even (Zfloor x)); reflexivity. }
    destruct (Rlt_dec (- x - (- IZR (Zfloor x) - 1)) (1 / 2));
      destruct (Rlt_dec (x - IZR (Zfloor x)) (1 / 2)); try lra;
      destruct (Rlt_dec (1 / 2) (x - IZR (Zfloor x))); try lra; try lia;
      destruct (Rlt_dec (1 / 2) (- x - (- IZR (Zfloor x) - 1))); try lra;
      try lia; destruct (Z.even (Zfloor x)); cbn; lia.
Qed.

(** ** Rounding in a binary format *)

Section Format.

Variables prec emin : Z.
Hypothesis prec_pos : (1 <= prec)%Z.

Local Abbreviation rnd := (roundTo prec emin).
Local Abbreviation ulpExp := (ulpExponent prec emin).

Lemma roundTo_0 : rnd 0 = 0.
Proof.
  unfold roundTo. rewrite Rmult_0_l. change 0 with (IZR 0).
  rewrite nearestEven_IZR. change (IZR 0) with 0. lra.
Qed.

Lemma roundTo_opp x : rnd (- x) = - rnd x.
Proof.
  unfold roundTo, ulpExponent. rewrite binade_opp.
  rewrite Ropp_mult_distr_l_reverse, nearestEven_opp, opp_IZR. lra.
Qed.

Lemma ulpExponent_mono x y : x <> 0 -> Rabs x <= Rabs y ->
  (ulpExp x <= ulpExp y)%Z.
Proof.
  intros Hx Hxy. unfold ulpExponent. pose proof (@binade_mono x y Hx Hxy). lia.
Qed.

(** The rounding error is at most half a unit in the last place. *)
Lemma roundTo_half_ulp x : Rabs (rnd x - x) <= powerRZ 2 (ulpExp x - 1).
Proof.
  unfold roundTo. set (e := ulpExp x).
  pose proof (nearestEven_error (x * powerRZ 2 (- e))) as H.
  pose proof (pow2_pos e) as He. pose proof (pow2_cancel e) as Hc.
  replace (powerRZ 2 (e - 1)) with (1 / 2 * powerRZ 2 e).
  2:{ replace (e - 1)%Z with (e + -1)%Z by lia. rewrite pow2_add.
      change (powerRZ 2 (-1)) with (/ (2 * 1)). field. }
  set (n := IZR (nearestEven (x * powerRZ 2 (- e)))) in *.
  replace (n * powerRZ 2 e - x)
    with ((n - x * powerRZ 2 (- e)) * powerRZ 2 e)
    by (rewrite Rmult_minus_distr_r, Rmult_assoc, Hc; ring).
  rewrite Rabs_mult, (Rabs_pos_eq (powerRZ 2 e)) by lra.
  apply Rmult_le_compat_r; lra.
Qed.

(** The rounding error: relative below [2^-prec], or absolute below
    [2^(emin-1)] among the subnormal numbers. *)
Lemma roundTo_error x :
  Rabs (rnd x - x) <= powerRZ 2 (- prec) * Rabs x + powerRZ 2 (emin - 1).
Proof.
  destruct (Req_dec x 0) as [->|Hx].
  - rewrite roundTo_0, Rminus_0_r, Rabs_R0.
    pose proof (pow2_pos (emin - 1)). lra.
  - pose proof (roundTo_half_ulp x) as H.
    pose proof (pow2_pos (emin - 1)). pose proof (pow2_pos (- prec)).
    pose proof (Rabs_pos x).
    unfold ulpExponent in H.
    destruct (Z.max_spec emin (binade x - (prec - 1))) as [[_ E]|[_ E]];
      rewrite E in H.
    + replace (binade x - (prec - 1) - 1)%Z with (- prec + binade x)%Z in H
        by lia.
      rewrite pow2_add in H. destruct (binade_spec Hx) as [Hbin _]. nra.
    + nra.
Qed.

Lemma roundTo_nonneg x : 0 <= x -> 0 <= rnd x.
Proof.
  intros Hx. unfold roundTo. set (e := ulpExp x).
  pose proof (pow2_pos e). pose proof (pow2_pos (- e)).
  assert (H1 : (0 <= nearestEven (x * powerRZ 2 (- e)))%Z).
  { rewrite <- (nearestEven_IZR 0). apply nearestEven_mono. nra. }
  apply IZR_le in H1. nra.
Qed.

Lemma roundTo_mono_pos x y : 0 < x -> x <= y -> rnd x <= rnd y.
Proof.
  intros Hx Hxy.
  assert (Hx0 : x <> 0) by lra. assert (Hy0 : y <> 0) by lra.
  assert (Hle : (ulpExp x <= ulpExp y)%Z).
  { apply ulpExponent_mono; [exact Hx0|]. rewrite !Rabs_pos_eq; lra. }
  unfold roundTo. set (ex := ulpExp x) in *. set (ey := ulpExp y) in *.
  destruct (Z.eq_dec ex ey) as [E|Hne].
  - rewrite <- E. pose proof (pow2_pos ex). pose proof (pow2_pos (- ex)).
    assert (H1 : (nearestEven (x * powerRZ 2 (- ex))
                  <= nearestEven (y * powerRZ 2 (- ex)))%Z)
      by (apply nearestEven_mono; nra).
    apply IZR_le in H1. nra.
  - assert (Hlt : (ex + 1 <= ey)%Z) by lia.
    (* x lies below 2^(ex+prec), which y has reached *)
    assert (Hx2 : x < powerRZ 2 (ex + prec)).
    { destruct (binade_spec Hx0) as [_ H]. rewrite Rabs_pos_eq in H by lra.
      assert (powerRZ 2 (binade x + 1) <= powerRZ 2 (ex + prec)).
      { apply pow2_le. unfold ex, ulpExponent. lia. }
      lra. }
    assert (Hy2 : powerRZ 2 (ey + (prec - 1)) <= y).
    { destruct (binade_spec Hy0) as [H _]. rewrite Rabs_pos_eq in H by lra.
      assert (ey = binade y - (prec - 1))%Z.
      { unfold ey, ulpExponent in *. fold ex in Hlt. unfold ex, ulpExponent in Hlt.
        lia. }
      replace (ey + (prec - 1))%Z with (binade y) by lia. exact H. }
    pose proof (pow2_pos ex). pose proof (pow2_pos (- ex)).
    pose proof (pow2_pos ey). pose proof (pow2_pos (- ey)).
    assert (Nx : (nearestEven (x * powerRZ 2 (- ex)) <= 2 ^ prec)%Z).
    { rewrite <- (nearestEven_IZR (2 ^ prec)). apply nearestEven_mono.
      rewrite <- pow2_IZR by lia.
      replace (powerRZ 2 prec) with (powerRZ 2 (ex + prec) * powerRZ 2 (- ex)).
      2:{ rewrite <- pow2_add. f_equal. lia. }
      nra. }
    assert (Ny : (2 ^ (prec - 1) <= nearestEven (y * powerRZ 2 (- ey)))%Z).
    { rewrite <- (nearestEven_IZR (2 ^ (prec - 1))). apply nearestEven_mono.
      rewrite <- pow2_IZR by lia.
      replace (powerRZ 2 (prec - 1))
        with (powerRZ 2 (ey + (prec - 1)) * powerRZ 2 (- ey)).
      2:{ rewrite <- pow2_add. f_equal. lia. }
      nra. }
    apply IZR_le in Nx, Ny. rewrite <- pow2_IZR in Nx, Ny by lia.
    apply Rle_trans with (powerRZ 2 prec * powerRZ 2 ex); [nra|].
    apply Rle_trans with (powerRZ 2 (prec - 1) * powerRZ 2 ey); [|nra].
    rewrite <- !pow2_add. apply pow2_le. lia.
Qed.

(** Rounding is monotone. *)
Lemma roundTo_mono x y : x <= y -> rnd x <= rnd y.
Proof.
  intros Hxy. destruct (Rlt_dec 0 x) as [Hx|Hx].
  - apply roundTo_mono_pos; assumption.
  - destruct (Rlt_dec y 0) as [Hy|Hy].
    + apply Ropp_le_cancel. rewrite <- !roundTo_opp.
      apply roundTo_mono_pos; lra.
    + apply Rle_trans with 0; [|apply roundTo_nonneg; lra].
      apply Ropp_le_cancel. rewrite <- roundTo_opp, Ropp_0.
      apply roundTo_nonneg. lra.
Qed.

(** The numbers [m * 2^e] with [|m| < 2^prec] and [emin <= e] are in the
    format: rounding leaves them as they are. *)
Lemma roundTo_fix m e : (Z.abs m < 2 ^ prec)%Z -> (emin <= e)%Z ->
  rnd (IZR m * powerRZ 2 e) = IZR m * powerRZ 2 e.
Proof.
  intros Hm He. destruct (Z.eq_dec m 0) as [->|Hm0].
  - rewrite Rmult_0_l. apply roundTo_0.
  - set (x := IZR m * powerRZ 2 e).
    assert (Hx : x <> 0).
    { unfold x. pose proof (pow2_pos e). apply Rmult_integral_contrapositive.
      split; [apply not_0_IZR; exact Hm0|lra]. }
    assert (Hb : (binade x < prec + e)%Z).
    { apply binade_below; [exact Hx|]. unfold x.
      rewrite Rabs_mult, (Rabs_pos_eq (powerRZ 2 e)) by (left; apply pow2_pos).
      rewrite pow2_add, <- abs_IZR, (@pow2_IZR prec) by lia.
      apply Rmult_lt_compat_r; [apply pow2_pos|]. apply IZR_lt. exact Hm. }
    unfold roundTo. set (ex := ulpExp x).
    assert (Hex : (ex <= e)%Z) by (unfold ex, ulpExponent; lia).
    assert (E : x * powerRZ 2 (- ex) = IZR (m * 2 ^ (e - ex))).
    { unfold x. rewrite mult_IZR, <- pow2_IZR by lia.
      rewrite Rmult_assoc, <- pow2_add. repeat f_equal; lia. }
    rewrite E, nearestEven_IZR, mult_IZR, <- pow2_IZR by lia.
    unfold x. rewrite Rmult_assoc, <- pow2_add. repeat f_equal; lia.
Qed.

Lemma roundTo_IZR m : (Z.abs m < 2 ^ prec)%Z -> (emin <= 0)%Z ->
  rnd (IZR m) = IZR m.
Proof.
  intros Hm He. pose proof (@roundTo_fix m 0 Hm He) as H.
  change (powerRZ 2 0) with 1 in H. rewrite Rmult_1_r in H. exact H.
Qed.

Lemma scaled_below x :
  Rabs (x * powerRZ 2 (- ulpExp x)) <= powerRZ 2 prec.
Proof.
  set (e := ulpExp x). pose proof (pow2_pos (- e)) as Hp.
  rewrite Rabs_mult, (Rabs_pos_eq (powerRZ 2 (- e))) by lra.
  destruct (Req_dec x 0) as [->|Hx].
  - rewrite Rabs_R0, Rmult_0_l. left. apply pow2_pos.
  - destruct (binade_spec Hx) as [_ H].
    assert (H1 : powerRZ 2 (binade x + 1) <= powerRZ 2 (prec + e)).
    { apply pow2_le. unfold e, ulpExponent. lia. }
    replace (powerRZ 2 prec) with (powerRZ 2 (prec + e) * powerRZ 2 (- e)).
    2:{ rewrite <- pow2_add. f_equal. lia. }
    apply Rmult_le_compat_r; lra.
Qed.

(** Rounding maps the format to itself. *)
Lemma roundTo_idem x : rnd (rnd x) = rnd x.
Proof.
  set (e := ulpExp x). set (n := nearestEven (x * powerRZ 2 (- e))).
  change (rnd x) with (IZR n * powerRZ 2 e).
  assert (He : (emin <= e)%Z) by (unfold e, ulpExponent; lia).
  destruct (Z_lt_le_dec (Z.abs n) (2 ^ prec)) as [Hlt|Hge].
  - apply roundTo_fix; [exact Hlt|exact He].
  - (* the rounding reached the next power of two *)
    pose proof (scaled_below x) as Hs. fold e in Hs.
    apply Rabs_bounds in Hs. rewrite pow2_IZR, <- opp_IZR in Hs by lia.
    assert (Hn : (- 2 ^ prec <= n <= 2 ^ prec)%Z).
    { split.
      - rewrite <- (nearestEven_IZR (- 2 ^ prec)). apply nearestEven_mono. lra.
      - rewrite <- (nearestEven_IZR (2 ^ prec)). apply nearestEven_mono. lra. }
    assert (Hp : (2 ^ prec = 2 * 2 ^ (prec - 1))%Z).
    { replace prec with (1 + (prec - 1))%Z at 1 by lia.
      rewrite Z.pow_add_r by lia. reflexivity. }
    assert (Hpos : (0 < 2 ^ (prec - 1))%Z) by (apply Z.pow_pos_nonneg; lia).
    assert (Hm : exists m, (Z.abs m < 2 ^ prec)%Z /\ n = (2 * m)%Z).
    { destruct (Z_lt_le_dec n 0).
      - exists (- 2 ^ (prec - 1))%Z. lia.
      - exists (2 ^ (prec - 1))%Z. lia. }
    destruct Hm as (m & Hm & ->).
    replace (IZR (2 * m) * powerRZ 2 e) with (IZR m * powerRZ 2 (e + 1)).
    2:{ rewrite mult_IZR, pow2_add. change (powerRZ 2 1) with (2 * 1). ring. }
    apply roundTo_fix; [exact Hm|lia].
Qed.

End Format.

End RoundingLaws.

(* ================================================================== *)
(** * Doubles: the conversion of an array length *)

Module Binary64Laws.

Import PrimFloat FloatOps SpecFloat FloatAxioms Binary64.

Lemma digits2_pos_bound p : forall k,
  (0 <= k)%Z -> (Zpos p < 2 ^ k)%Z -> (Zpos (digits2_pos p) <= k)%Z.
Proof.
  induction p as [p IH|p IH|]; intros k Hk Hp; cbn [digits2_pos].
  - assert (k <> 0)%Z by (intros ->; cbn in Hp; lia).
    replace k with (Z.succ (k - 1)) in Hp by lia.
    rewrite Z.pow_succ_r in Hp by lia.
    specialize (IH (k - 1)%Z). rewrite Pos2Z.inj_succ. lia.
  - assert (k <> 0)%Z by (intros ->; cbn in Hp; lia).
    replace k with (Z.succ (k - 1)) in Hp by lia.
    rewrite Z.pow_succ_r in Hp by lia.
    specialize (IH (k - 1)%Z). rewrite Pos2Z.inj_succ. lia.
  - assert (k <> 0)%Z by (intros ->; cbn in Hp; lia). lia.
Qed.

Lemma Zdigits2_bound m k :
  (0 <= k)%Z -> (0 <= m < 2 ^ k)%Z -> (Zdigits2 m <= k)%Z.
Proof.
  intros Hk Hm. destruct m as [|p|p]; cbn [Zdigits2]; [lia| |lia].
  apply digits2_pos_bound; lia.
Qed.

Lemma iter_xO p d : Zpos (Pos.iter xO p d) = (Zpos p * 2 ^ Zpos d)%Z.
Proof.
  induction d as [|d IH] using Pos.peano_ind.
  - cbn. lia.
  - rewrite Pos.iter_succ, Pos2Z.inj_succ, Z.pow_succ_r by lia.
    rewrite Pos2Z.inj_xO, IH. lia.
Qed.

Lemma shr_1_bounds mrs :
  (0 <= shr_m mrs)%Z -> (0 <= shr_m (shr_1 mrs) <= shr_m mrs)%Z.
Proof.
  destruct mrs as [m r s]. cbn [shr_m]. intros Hm.
  destruct m as [|[p|p|]|p]; cbn; lia.
Qed.

Lemma iter_shr_1_bounds p : forall mrs,
  (0 <= shr_m mrs)%Z -> (0 <= shr_m (iter_pos shr_1 p mrs) <= shr_m mrs)%Z.
Proof.
  induction p as [p IH|p IH|]; intros mrs Hm; cbn [iter_pos].
  - pose proof (shr_1_bounds mrs Hm) as H1.
    pose proof (IH _ (proj1 H1)) as H2.
    pose proof (IH _ (proj1 H2)) as H3. lia.
  - pose proof (IH _ Hm) as H2.
    pose proof (IH _ (proj1 H2)) as H3. lia.
  - apply shr_1_bounds. exact Hm.
Qed.

Lemma shr_fexp_bounds m e l : (0 <= m)%Z ->
  (0 <= shr_m (fst (shr_fexp prec emax m e l)) <= m)%Z
  /\ (snd (shr_fexp prec emax m e l)
      <= Z.max e (fexp prec emax (Zdigits2 m + e)))%Z.
Proof.
  intros Hm. unfold shr_fexp, shr.
  assert (Hl : shr_m (shr_record_of_loc m l) = m)
    by (destruct l as [|[| |]]; reflexivity).
  destruct (fexp prec emax (Zdigits2 m + e) - e)%Z as [|p|p] eqn:E;
    cbn [fst snd]; rewrite ?Hl; try (split; lia).
  split; [|lia].
  pose proof (@iter_shr_1_bounds p (shr_record_of_loc m l)) as H.
  rewrite Hl in H. apply H. exact Hm.
Qed.

Lemma round_nearest_even_bounds mx lx :
  (mx <= round_nearest_even mx lx <= mx + 1)%Z.
Proof.
  destruct lx as [|[| |]]; cbn; try lia. destruct (Z.even mx); lia.
Qed.

(** A positive integer below [2^115] with an exponent at most 0 rounds to a
    finite double of the same sign. *)
Lemma binary_round_aux_finite sx mx ex lx :
  (0 < mx < 2 ^ 115)%Z -> (ex <= 0)%Z ->
  binary_round_aux prec emax sx mx ex lx = S754_zero sx
  \/ exists m e, binary_round_aux prec emax sx mx ex lx = S754_finite sx m e.
Proof.
  intros Hm He. unfold binary_round_aux.
  destruct (@shr_fexp_bounds mx ex lx ltac:(lia)) as [H1 H2].
  destruct (shr_fexp prec emax mx ex lx) as [mrs' e'] eqn:E1.
  cbn [fst snd] in H1, H2.
  pose proof (round_nearest_even_bounds (shr_m mrs') (loc_of_shr_record mrs'))
    as H3.
  set (m1 := round_nearest_even (shr_m mrs') (loc_of_shr_record mrs')) in *.
  destruct (@shr_fexp_bounds m1 e' loc_Exact ltac:(lia)) as [H4 H5].
  destruct (shr_fexp prec emax m1 e' loc_Exact) as [mrs'' e''] eqn:E2.
  cbn [fst snd] in H4, H5.
  assert (D1 : (Zdigits2 mx <= 115)%Z) by (apply Zdigits2_bound; lia).
  assert (D2 : (Zdigits2 m1 <= 116)%Z).
  { apply Zdigits2_bound; [lia|]. change (2 ^ 116)%Z with (2 * 2 ^ 115)%Z. lia. }
  unfold fexp, SpecFloat.emin in H2, H5.
  change prec with 53%Z in *. change emax with 1024%Z in *.
  destruct (shr_m mrs'') as [|m|m] eqn:E3; [left; reflexivity| |lia].
  right. exists m, e''.
  replace (e'' <=? 1024 - 53)%Z with true; [reflexivity|].
  symmetry. apply Z.leb_le. lia.
Qed.

Lemma binary_normalize_finite k : (0 <= k < 2 ^ 63)%Z ->
  binary_normalize prec emax k 0 false = S754_zero false
  \/ exists m e, binary_normalize prec emax k 0 false = S754_finite false m e.
Proof.
  intros Hk. destruct k as [|p|p]; [left; reflexivity| |lia].
  cbn [binary_normalize]. unfold binary_round, shl_align.
  assert (D : (1 <= Zpos (digits2_pos p) <= 63)%Z).
  { split; [lia|]. apply digits2_pos_bound; lia. }
  set (e := fexp prec emax (Zpos (digits2_pos p) + 0)).
  assert (He : (-52 <= e <= 10)%Z).
  { unfold e, fexp, SpecFloat.emin. change prec with 53%Z.
    change emax with 1024%Z. lia. }
  destruct (e - 0)%Z as [|d|d] eqn:E.
  - apply binary_round_aux_finite; lia.
  - apply binary_round_aux_finite; lia.
  - apply binary_round_aux_finite; [|lia].
    rewrite iter_xO. split; [lia|].
    assert (Zpos d <= 52)%Z by lia.
    assert (2 ^ Zpos d <= 2 ^ 52)%Z by (apply Z.pow_le_mono_r; lia).
    change (2 ^ 115)%Z with (2 ^ 63 * 2 ^ 52)%Z. nia.
Qed.

(** The double of an unsigned integer is finite and not negative. *)
Lemma of_uint63_finite n :
  Prim2SF (of_uint63 n) = S754_zero false
  \/ exists m e, Prim2SF (of_uint63 n) = S754_finite false m e.
Proof.
  rewrite of_uint63_spec. apply binary_normalize_finite.
  pose proof (Uint63.to_Z_bounded n) as H. unfold Uint63.wB in H.
  change (2 ^ Z.of_nat Uint63.size)%Z with (2 ^ 63)%Z in H. exact H.
Qed.

(** Zero times the length of an array is zero. *)
Lemma zero_times_length n :
  exists s, Prim2SF (PrimFloat.mul 0 (ofNat n)) = S754_zero s.
Proof.
  unfold ofNat, ofZ.
  replace (Z.of_nat n <? 0)%Z with false by (symmetry; apply Z.ltb_ge; lia).
  rewrite mul_spec. change (Prim2SF 0) with (S754_zero false).
  destruct (of_uint63_finite (Uint63.of_Z (Z.of_nat n))) as [->|(m & e & ->)];
    eexists; reflexivity.
Qed.

End Binary64Laws.

(* ================================================================== *)
(** * quantile.js on doubles: two runs *)

Module Quantile64Laws.

Import PrimFloat Binary64 Quantile64.
Local Open Scope float_scope.
#[local] Set Warnings "-inexact-float".



End Quantile64Laws.

(* ================================================================== *)
(** * poisson.js on doubles: a sample that the grid does not hold *)

Module Poisson64Laws.

Import PrimFloat FloatOps SpecFloat Binary64 Poisson64.
Local Open Scope float_scope.
#[local] Set Warnings "-inexact-float".

(** The point chosen first by the call with [edgeRng] on the 3 x 3 domain,
    and the candidate generated from it by the draws 0 and 0. *)
Definition firstPoint : point := mkPoint 0 (almostOne * 3).
Definition candidate : point := mkPoint narrowDistance (almostOne * 3).

Definition emptyGrid : list (option point) := repeat None 81.

(** The first point lies inside the domain, in a row of cells that the grid
    does not have: it is not registered. *)
Lemma firstPoint_outside_grid :
  (py firstPoint <? 3) = true
  /\ floorZ (py firstPoint / cellSize narrowDistance) = Returns 9%Z
  /\ ceilZ (3 / cellSize narrowDistance) = Returns 9%Z
  /\ gridIndex narrowDistance 9 9 (px firstPoint) (py firstPoint)
     = Returns (-1)%Z.
Proof. vm_compute. repeat split; reflexivity. Qed.

Abbreviation attempts := (attemptLoop 3 3 narrowDistance edgeRng None 9 9).
Abbreviation loop := (activeLoop 3 3 narrowDistance edgeRng 30 None 9 9).

(** One attempt around the first point, after the second call of [rng]:
    the candidate is accepted and the grid stays empty. *)
Lemma attempt_accepts i smp act k found :
  attempts (S i) (Some firstPoint) (mkState emptyGrid smp act (S (S k))) found
  = attempts i (Some firstPoint)
      (mkState emptyGrid (smp ++ [candidate]) (act ++ [candidate])
               (S (S (S (S k)))))
      true.
Proof. reflexivity. Qed.

Lemma attempts_accept i : forall smp act k found,
  exists smp' act' k' found',
    attempts i (Some firstPoint) (mkState emptyGrid smp act (S (S k))) found
    = Returns (mkState emptyGrid smp' (act ++ act') (S (S k')), found')
    /\ (i <> O -> found' = true).
Proof.
  induction i as [|i IH]; intros smp act k found.
  - exists smp, [], k, found. rewrite app_nil_r. split; [reflexivity|easy].
  - rewrite attempt_accepts.
    destruct (IH (smp ++ [candidate]) (act ++ [candidate]) (S (S k)) true)
      as (smp' & act' & k' & found' & E & Hf).
    exists smp', ([candidate] ++ act'), k', found'.
    rewrite app_assoc. split; [exact E|].
    intros _. destruct i as [|i]; [|apply Hf; discriminate].
    cbn in E. injection E as _ _ _ <-. reflexivity.
Qed.

(** The position drawn in the active list is 0. *)
Lemma first_position (p : point) (act : list point) :
  let index := Math_floor (0 * ofNat (List.length (p :: act))) in
  itemAt (p :: act) index = Some p.
Proof.
  intros index.
  destruct (Binary64Laws.zero_times_length (List.length (p :: act)))
    as [s E].
  unfold index, Math_floor, itemAt. rewrite E. rewrite E. reflexivity.
Qed.

(** While the first point heads the active list and the grid is empty, the
    loop goes on. *)
Lemma loop_goes_on fuel : forall smp act k,
  loop fuel (mkState emptyGrid smp (firstPoint :: act) (S (S k))) = Unfinished.
Proof.
  induction fuel as [|fuel IH]; intros smp act k; [reflexivity|].
  cbn [activeLoop active calls grid samples].
  change (edgeRng (S (S k))) with 0.
  rewrite first_position.
  destruct (@attempts_accept 30 smp (firstPoint :: act) (S k) false)
    as (smp' & act' & k' & found' & E & Hf).
  rewrite E. cbn [andThen]. rewrite Hf by discriminate.
  apply IH.
Qed.

Lemma edgeRng_unit n : (0 <=? edgeRng n) = true /\ (edgeRng n <? 1) = true.
Proof. unfold edgeRng. destruct (Nat.eqb n 1); split; reflexivity. Qed.

Lemma crowdingRng_unit n :
  (0 <=? crowdingRng n) = true /\ (crowdingRng n <? 1) = true.
Proof.
  unfold crowdingRng.
  destruct (Nat.eqb n 1); [split; reflexivity|].
  destruct (Nat.eqb n 6); [split; reflexivity|].
  destruct (Nat.eqb n 9 || Nat.eqb n 11); split; reflexivity.
Qed.

(** C5 fails on doubles: on the domain 0.5 x 3 with the minimum distance
    0.47140452079103168, two attempts per point and the values of
    [crowdingRng] (all in [0, 1)), the call returns three points; the second
    and the third are about 0.0147 apart.  The first point has
    [y = 2.9999999999999996 < 3] and [Math.floor(y / cellSize) = 9], the
    number of rows of the grid, so that [gridIndex] is -1 for every point of
    that height: none of the three is registered in the grid, and [isValid]
    finds no neighbour. *)
Theorem C5_samples_closer_than_minimum :
  let second := mkPoint narrowDistance (almostOne * 3) in
  let third :=
    mkPoint (narrowDistance + 0x1p-5 * narrowDistance) (almostOne * 3) in
  poissonDiskSampling 0.5 3 narrowDistance crowdingRng 2 None 4
  = Returns [mkPoint 0 (almostOne * 3); second; third]
  /\ (0 <? distance second third) = true
  /\ (distance second third <? 0.015) = true
  /\ (0.47 <? narrowDistance) = true
  /\ forall n, (0 <=? crowdingRng n) = true /\ (crowdingRng n <? 1) = true.
Proof.
  cbv zeta. split; [vm_compute; reflexivity|]. split; [reflexivity|].
  split; [reflexivity|]. split; [reflexivity|]. exact crowdingRng_unit.
Qed.

(** C10 fails on doubles: on the domain 3 x 3 with the minimum distance
    0.47140452079103168, the default 30 attempts and the values of [edgeRng]
    (all in [0, 1)), the main loop never ends.  The first point (0,
    2.9999999999999996) is not registered in the grid; every iteration draws
    it again, every attempt generates the same candidate
    (0.47140452079103168, 2.9999999999999996), which [isValid] accepts and
    which is not registered either, so [found] is true and nothing leaves
    the active list. *)
Theorem C10_sampler_loops_forever :
  (0 <? narrowDistance) = true
  /\ (forall n, (0 <=? edgeRng n) = true /\ (edgeRng n <? 1) = true)
  /\ forall fuel,
       poissonDiskSampling 3 3 narrowDistance edgeRng 30 None fuel = Unfinished.
Proof.
  split; [reflexivity|]. split; [exact edgeRng_unit|]. intros fuel.
  unfold poissonDiskSampling.
  replace (run 3 3 narrowDistance edgeRng 30 None fuel)
    with (loop fuel (mkState emptyGrid [firstPoint] [firstPoint] 2)).
  - rewrite loop_goes_on. reflexivity.
  - reflexivity.
Qed.

End Poisson64Laws.

(* ================================================================== *)
(** * quantile.js with rounding: the sea level *)

Module RoundedLaws.

Import Rounding RoundingLaws Quantile QuantileProps Rounded.
Local Open Scope R_scope.

(** ** binary64 *)

Lemma round64_mono x y : x <= y -> round64 x <= round64 y.
Proof. apply roundTo_mono. lia. Qed.

Lemma round64_error x : Rabs (round64 x - x) <= u64 * Rabs x + eta64.
Proof. exact (roundTo_error 53 (-1074) x). Qed.

Lemma round64_IZR m : (Z.abs m < 2 ^ 53)%Z -> round64 (IZR m) = IZR m.
Proof. intros H. apply roundTo_IZR; [lia|exact H|lia]. Qed.

Lemma round64_0 : round64 0 = 0.
Proof. apply roundTo_0. Qed.

Lemma round64_1 : round64 1 = 1.
Proof. apply (round64_IZR 1). cbn. lia. Qed.



Lemma u64_bounds : 0 < u64 <= 1 / 4.
Proof.
  unfold u64. split; [apply pow2_pos|].
  apply Rle_trans with (powerRZ 2 (-2)); [apply pow2_le; lia|].
  change (-2)%Z with (- (2))%Z. rewrite powerRZ_neg', pow2_IZR by lia.
  change (2 ^ 2)%Z with 4%Z. lra.
Qed.

Lemma eta64_bounds : 0 < eta64 <= u64 / 2.
Proof.
  unfold eta64, u64. split; [apply pow2_pos|].
  replace (powerRZ 2 (-53) / 2) with (powerRZ 2 (-54)).
  2:{ replace (-53)%Z with (-54 + 1)%Z by lia. rewrite pow2_add.
      change (powerRZ 2 1) with (2 * 1). field. }
  apply pow2_le. lia.
Qed.

Lemma u64_tiny : u64 <= / 1024.
Proof.
  apply Rle_trans with (powerRZ 2 (-10)); [apply pow2_le; lia|].
  change (-10)%Z with (- (10))%Z. rewrite powerRZ_neg', pow2_IZR by lia.
  change (2 ^ 10)%Z with 1024%Z. lra.
Qed.

Lemma round64_unit x : 0 <= x <= 1 -> 0 <= round64 x <= 1.
Proof.
  intros [H0 H1]. split.
  - apply Rle_trans with (round64 0); [rewrite round64_0; lra|].
    apply round64_mono. exact H0.
  - apply Rle_trans with (round64 1); [|rewrite round64_1; lra].
    apply round64_mono. exact H1.
Qed.

(** ** The rounding of the interpolation *)

Lemma Rabs_le_mult a b M d : Rabs a <= M -> Rabs b <= d -> Rabs (a * b) <= M * d.
Proof.
  intros Ha Hb. rewrite Rabs_mult. pose proof (Rabs_pos a). pose proof (Rabs_pos b).
  apply Rmult_le_compat; assumption.
Qed.

Lemma interpolation_error a b w M :
  Rabs a <= M -> Rabs b <= M -> 0 <= w <= 1 ->
  Rabs (round64 (round64 (a * round64 (1 - w)) + round64 (b * w))
        - (a * (1 - w) + b * w)) <= slack M.
Proof.
  intros Ha Hb Hw. unfold slack.
  pose proof u64_bounds as [Hu0 Hu1]. pose proof eta64_bounds as [He0 He1].
  assert (HM : 0 <= M) by (pose proof (Rabs_pos a); lra).
  set (v := round64 (1 - w)).
  assert (Hv : 0 <= v <= 1) by (apply round64_unit; lra).
  assert (Dv : Rabs (v - (1 - w)) <= u64 + eta64).
  { pose proof (round64_error (1 - w)) as H. fold v in H.
    rewrite (Rabs_pos_eq (1 - w)) in H by lra. nra. }
  set (x := round64 (a * v)). set (y := round64 (b * w)).
  assert (Dx : Rabs (x - a * v) <= u64 * M + eta64).
  { pose proof (round64_error (a * v)) as H. fold x in H.
    assert (Rabs (a * v) <= M * 1).
    { apply Rabs_le_mult; [exact Ha|]. rewrite Rabs_pos_eq; lra. }
    nra. }
  assert (Dy : Rabs (y - b * w) <= u64 * M + eta64).
  { pose proof (round64_error (b * w)) as H. fold y in H.
    assert (Rabs (b * w) <= M * 1).
    { apply Rabs_le_mult; [exact Hb|]. rewrite Rabs_pos_eq; lra. }
    nra. }
  assert (Da : Rabs (a * (v - (1 - w))) <= M * (u64 + eta64))
    by (apply Rabs_le_mult; assumption).
  assert (Bav : Rabs (a * v) <= M).
  { replace M with (M * 1) by ring. apply Rabs_le_mult; [exact Ha|].
    rewrite Rabs_pos_eq; lra. }
  assert (Bbw : Rabs (b * w) <= M).
  { replace M with (M * 1) by ring. apply Rabs_le_mult; [exact Hb|].
    rewrite Rabs_pos_eq; lra. }
  assert (Bxy : Rabs (x + y) <= 2 * M + 2 * (u64 * M + eta64)).
  { apply Rabs_bounds in Dx, Dy, Bav, Bbw. apply Rabs_le. lra. }
  pose proof (round64_error (x + y)) as Dr.
  set (r := round64 (x + y)) in *.
  assert (Dr' : Rabs (r - (x + y))
                <= u64 * (2 * M + 2 * (u64 * M + eta64)) + eta64) by nra.
  apply Rabs_bounds in Dx, Dy, Da, Dr'.
  replace (a * (v - (1 - w))) with (a * v - a * (1 - w)) in Da by ring.
  assert (K0 : 0 <= u64 * M) by (apply Rmult_le_pos; lra).
  assert (K1 : u64 * (u64 * M) <= 1 / 4 * (u64 * M))
    by (apply Rmult_le_compat_r; lra).
  assert (K2 : u64 * eta64 <= 1 / 4 * eta64)
    by (apply Rmult_le_compat_r; lra).
  assert (K3 : M * eta64 <= M * (u64 / 2))
    by (apply Rmult_le_compat_l; lra).
  apply Rabs_le. lra.
Qed.

(** ** The position of a quantile in the sorted copy *)

Section Position.

Variable sorted : list R.
Hypothesis ascending : StronglySorted Rle sorted.
Hypothesis nonempty : (1 <= List.length sorted)%nat.
Hypothesis short : (Z.of_nat (List.length sorted) <= 2 ^ 53)%Z.

Local Abbreviation last := (Z.of_nat (List.length sorted) - 1)%Z.
Local Abbreviation position := (Rounded.position sorted).
Local Abbreviation weight := (Rounded.weight sorted).

Lemma position_range q : 0 <= q <= 1 -> 0 <= position q <= IZR last.
Proof.
  intros Hq. assert (H0 : 0 <= IZR last) by (apply IZR_le; lia).
  unfold Rounded.position. split.
  - apply Rle_trans with (round64 0); [rewrite round64_0; lra|].
    apply round64_mono. nra.
  - apply Rle_trans with (round64 (IZR last)); [apply round64_mono; nra|].
    rewrite round64_IZR by lia. lra.
Qed.


Lemma indexes_range q : 0 <= q <= 1 ->
  (0 <= Zfloor (position q) <= Zceil (position q))%Z
  /\ (Zceil (position q) <= last)%Z
  /\ (Zceil (position q) <= Zfloor (position q) + 1)%Z.
Proof.
  intros Hq. destruct (position_range Hq) as [H0 H1].
  pose proof (Zfloor_bound (position q)) as Hf.
  pose proof (Zceil_bound (position q)) as Hc.
  repeat split.
  - apply (Zfloor_lub 0). exact H0.
  - apply le_IZR. lra.
  - apply Z.lt_succ_r. apply lt_IZR. rewrite succ_IZR. lra.
  - apply Z.lt_succ_r. apply lt_IZR. rewrite succ_IZR, plus_IZR. lra.
Qed.

Lemma weight_range q : 0 <= weight q <= 1.
Proof.
  apply round64_unit. pose proof (Zfloor_bound (position q)). lra.
Qed.

(** The two entries between which [findQuantile] interpolates. *)
Local Abbreviation below q := (nth (Z.to_nat (Zfloor (position q))) sorted 0).
Local Abbreviation above q := (nth (Z.to_nat (Zceil (position q))) sorted 0).

Lemma below_above q : 0 <= q <= 1 -> below q <= above q.
Proof.
  intros Hq. destruct (indexes_range Hq) as (H1 & H2 & _).
  apply sorted_nth_le; [exact ascending|]. lia.
Qed.

Lemma blend_between q : 0 <= q <= 1 ->
  below q <= blend sorted q <= above q.
Proof.
  intros Hq. pose proof (below_above Hq) as H. pose proof (weight_range q) as Hw.
  unfold blend. nra.
Qed.


End Position.

(** ** [findQuantile] *)

Lemma findQuantile_inside data q : data <> [] -> 0 <= q <= 1 ->
  findQuantile data q
  = if Reqb q 0 then item (sort data) 0
    else if Reqb q 1
    then item (sort data) (Z.of_nat (List.length (sort data)) - 1)
    else
      lo <- item (sort data) (Zfloor (position (sort data) q)) ;;
      hi <- item (sort data) (Zceil (position (sort data) q)) ;;
      Ok (round64 (round64 (lo * round64 (1 - weight (sort data) q))
                   + round64 (hi * weight (sort data) q))).
Proof.
  intros Hne Hq. unfold findQuantile. rdecide. cbn [orb].
  destruct data; [congruence|reflexivity].
Qed.

Section Quantiles.

Variable data : list R.
Hypothesis data_nonempty : data <> [].
Hypothesis data_short : (Z.of_nat (List.length data) <= 2 ^ 53)%Z.

Lemma sorted_copy_nonempty : (1 <= List.length (sort data))%nat.
Proof. rewrite sort_length. destruct data; [congruence|cbn; lia]. Qed.

Lemma sorted_copy_short : (Z.of_nat (List.length (sort data)) <= 2 ^ 53)%Z.
Proof. rewrite sort_length. exact data_short. Qed.

Lemma sorted_entry (P : R -> Prop) i :
  (forall y, In y data -> P y) -> (i < List.length (sort data))%nat ->
  P (nth i (sort data) 0).
Proof.
  intros HP Hi. apply HP. apply (Permutation_in _ (sort_perm data)).
  apply nth_In. exact Hi.
Qed.

Lemma blend_range q lo hi : 0 <= q <= 1 ->
  (forall y, In y data -> lo <= y <= hi) ->
  lo <= blend (sort data) q <= hi.
Proof.
  intros Hq Hb.
  pose proof (@blend_between (sort data) (sort_sorted data) sorted_copy_nonempty
                sorted_copy_short q Hq) as H.
  destruct (@indexes_range (sort data) sorted_copy_nonempty sorted_copy_short q Hq)
    as (H1 & H2 & _).
  pose proof (@sorted_entry (fun y => lo <= y <= hi)
                (Z.to_nat (Zfloor (position (sort data) q)))
                Hb ltac:(lia)) as Ha.
  pose proof (@sorted_entry (fun y => lo <= y <= hi)
                (Z.to_nat (Zceil (position (sort data) q)))
                Hb ltac:(lia)) as Hc.
  cbv beta in Ha, Hc. lra.
Qed.

Lemma ideal_range q lo hi : 0 <= q <= 1 ->
  (forall y, In y data -> lo <= y <= hi) -> lo <= ideal data q <= hi.
Proof.
  intros Hq Hb. pose proof sorted_copy_nonempty as Hn. unfold ideal.
  destruct (Reqb q 0); [apply (@sorted_entry _ O Hb); lia|].
  destruct (Reqb q 1); [apply (@sorted_entry _ _ Hb); lia|].
  apply blend_range; assumption.
Qed.


(** [findQuantile] returns [ideal] up to the rounding of its last line. *)
Lemma findQuantile_close q M : 0 <= q <= 1 ->
  (forall y, In y data -> Rabs y <= M) ->
  exists v, findQuantile data q = Ok v /\ Rabs (v - ideal data q) <= slack M.
Proof.
  intros Hq HM. pose proof sorted_copy_nonempty as Hn.
  assert (Hs0 : 0 <= slack M).
  { unfold slack. pose proof u64_bounds. pose proof eta64_bounds.
    assert (0 <= M).
    { destruct data as [|y ?]; [congruence|].
      pose proof (HM y (or_introl eq_refl)). pose proof (Rabs_pos y). lra. }
    nra. }
  rewrite (findQuantile_inside data_nonempty Hq). unfold ideal.
  destruct (Reqb q 0).
  { rewrite item_in_range by lia. eexists. split; [reflexivity|].
    rewrite Rminus_diag, Rabs_R0. exact Hs0. }
  destruct (Reqb q 1).
  { rewrite item_in_range by lia. eexists. split; [reflexivity|].
    replace (Z.to_nat (Z.of_nat (List.length (sort data)) - 1))
      with (List.length (sort data) - 1)%nat by lia.
    rewrite Rminus_diag, Rabs_R0. exact Hs0. }
  destruct (@indexes_range (sort data) Hn sorted_copy_short q Hq) as (A1 & A2 & _).
  rewrite !item_in_range by lia. cbn [bind].
  eexists. split; [reflexivity|]. unfold blend.
  apply interpolation_error.
  - apply (@sorted_entry (fun y => Rabs y <= M)); [exact HM|lia].
  - apply (@sorted_entry (fun y => Rabs y <= M)); [exact HM|lia].
  - apply weight_range.
Qed.

End Quantiles.

Lemma slack_nonneg M : 0 <= M -> 0 <= slack M.
Proof.
  intros HM. unfold slack. pose proof u64_bounds. pose proof eta64_bounds.
  assert (0 <= u64 * M) by (apply Rmult_le_pos; lra). lra.
Qed.

(** ** [solveSeaLevel] *)




Lemma pow2_large : 4 <= powerRZ 2 1000.
Proof.
  apply Rle_trans with (powerRZ 2 2); [|apply pow2_le; lia].
  rewrite pow2_IZR by lia. change (2 ^ 2)%Z with 4%Z. lra.
Qed.


(** Up to the rounding of its last line, [findQuantile] returns a value
    between the least and the greatest height. *)
Lemma findQuantile_bracket data q M : data <> [] ->
  (Z.of_nat (List.length data) <= 2 ^ 53)%Z -> 0 <= q <= 1 ->
  (forall y, In y data -> Rabs y <= M) ->
  exists v, findQuantile data q = Ok v
    /\ forall lo hi, (forall y, In y data -> lo <= y <= hi) ->
         lo - slack M <= v <= hi + slack M.
Proof.
  intros Hne Hshort Hq HM.
  destruct (@findQuantile_close data Hne Hshort q M Hq HM) as (v & Ev & Hv).
  exists v. split; [exact Ev|]. intros lo hi Hb.
  pose proof (@ideal_range data Hne Hshort q lo hi Hq Hb).
  apply Rabs_bounds in Hv. lra.
Qed.





(** For a non-empty array of doubles of magnitude at most [M] and a quantile
    in [0, 1], [findQuantile] returns a value between the least and the
    greatest entry, up to the rounding slack [6 * 2^-53 * M + 4 * 2^-1075]
    of its last line. *)
Theorem findQuantile_between_up_to_rounding (data : list R) (q M : R) :
  data <> [] -> (Z.of_nat (List.length data) <= 2 ^ 53)%Z -> 0 <= q <= 1 ->
  (forall y, In y data -> Rabs y <= M) -> M <= powerRZ 2 1000 ->
  exists v lo hi,
    findQuantile data q = Ok v
    /\ In lo data /\ In hi data
    /\ (forall y, In y data -> lo <= y <= hi)
    /\ lo - slack M <= v <= hi + slack M.
Proof.
  intros Hne Hshort Hq HM _.
  destruct (@findQuantile_bracket data q M Hne Hshort Hq HM) as (v & Ev & Hv).
  destruct data as [|x rest] eqn:Ed; [congruence|]. rewrite <- Ed in *.
  destruct (@QuantileLaws.extremes data x rest Ed) as (Hlo & Hhi & Hb).
  exists v, (fold_left Rmin rest x), (fold_left Rmax rest x).
  split; [exact Ev|]. split; [exact Hlo|]. split; [exact Hhi|].
  split; [exact Hb|]. apply Hv. exact Hb.
Qed.

Lemma findQuantile_between_up_to_rounding_witness :
  exists v,
    findQuantile [2; 1; 3] (1 / 4) = Ok v
    /\ 1 - slack 3 <= v <= 3 + slack 3.
Proof.
  pose proof pow2_large as Hbig.
  destruct (@findQuantile_between_up_to_rounding [2; 1; 3] (1 / 4) 3)
    as (v & lo & hi & Ev & Hlo & Hhi & Hb & Hv).
  - discriminate.
  - cbn. lia.
  - lra.
  - intros y [<-|[<-|[<-|[]]]]; rewrite Rabs_pos_eq; lra.
  - lra.
  - exists v. split; [exact Ev|].
    pose proof (Hb 1 ltac:(cbn; auto)). pose proof (Hb 3 ltac:(cbn; auto)).
    destruct Hlo as [<-|[<-|[<-|[]]]]; destruct Hhi as [<-|[<-|[<-|[]]]]; lra.
Defined.

End RoundedLaws.

(* ================================================================== *)
(** * Tree placement: a tree below the beach buffer *)

Module TreesFailure.

Import Quantile QuantileProps Poisson PoissonProps Trees TreesProps TreeInputs.
Local Open Scope R_scope.

Lemma sqrt2_close : 7 / 5 < sqrt 2 < 3 / 2.
Proof.
  pose proof sqrt2_sq as Hs. pose proof sqrt2_bounds as Hb. split; nra.
Qed.

Lemma floor_of x k : IZR k <= x < IZR k + 1 -> Zfloor x = k.
Proof. intros H. apply Zfloor_eq. exact H. Qed.

(** The slopes of the cells at 2.5 m: their two neighbours are level. *)
Lemma ridge_slope x : (x = 1 \/ x = 3 \/ x = 5)%Z ->
  get (slopesOf ridges) x = 0.
Proof.
  intros Hx.
  assert (E : get (slopesOf ridges) x
              = slopeAt (elevation ridges) 7 1 1 x 0).
  { unfold slopesOf, calculateSlopes.
    change (width ridges) with 7%Z. change (height ridges) with 1%Z.
    change (cellSize ridges) with 1.
    destruct Hx as [-> | [-> | ->]]; reflexivity. }
  rewrite E.
  assert (E' : slopeAt (elevation ridges) 7 1 1 x 0
               = atan (sqrt ((3 / 2 - 3 / 2) / (2 * 1)
                             * ((3 / 2 - 3 / 2) / (2 * 1))
                             + (5 / 2 - 5 / 2) / (2 * 1)
                               * ((5 / 2 - 5 / 2) / (2 * 1))))
                 * (180 / PI))
    by (destruct Hx as [-> | [-> | ->]]; reflexivity).
  rewrite E'.
  replace ((3 / 2 - 3 / 2) / (2 * 1)) with 0 by (unfold Rdiv; ring).
  replace ((5 / 2 - 5 / 2) / (2 * 1)) with 0 by (unfold Rdiv; ring).
  replace (0 * 0 + 0 * 0) with 0 by ring.
  rewrite sqrt_0, atan_0. ring.
Qed.

Definition ridgeMask : list R := [0; 1; 0; 1; 0; 1; 0].

(** The strict mask has three suitable cells. *)
Lemma ridge_mask : strictMaskOf ridges defaultTrees = ridgeMask.
Proof.
  assert (Hmin : strictMinHeight 0 defaultTrees = 2)
    by (unfold strictMinHeight, defaultTrees, orElse; cbn; lra).
  assert (Hmax : treeMaxHeight defaultTrees = 60) by reflexivity.
  assert (Hsl : strictMaxSlope defaultTrees = 35) by reflexivity.
  pose (cell := fun h i =>
          suitableCell (strictMinHeight 0 defaultTrees)
            (treeMaxHeight defaultTrees) (strictMaxSlope defaultTrees)
            h (get (slopesOf ridges) i)).
  assert (E : strictMaskOf ridges defaultTrees
              = [cell (3 / 2) 0%Z; cell (5 / 2) 1%Z; cell (3 / 2) 2%Z;
                 cell (5 / 2) 3%Z; cell (3 / 2) 4%Z; cell (5 / 2) 5%Z;
                 cell (3 / 2) 6%Z]) by reflexivity.
  rewrite E. unfold cell.
  rewrite (@ridge_slope 1%Z), (@ridge_slope 3%Z), (@ridge_slope 5%Z) by auto.
  rewrite Hmin, Hmax, Hsl. unfold suitableCell. rdecide. reflexivity.
Qed.

Lemma ridge_count : countSuitable ridgeMask = 3%nat.
Proof.
  unfold countSuitable, count, ridgeMask. cbn [filter]. rdecide. reflexivity.
Qed.

Lemma ridge_chosen : chooseMask ridges defaultTrees = Some (ridgeMask, 3%nat).
Proof.
  rewrite chooseMask_cases, ridge_mask, ridge_count. reflexivity.
Qed.

(** ** The run of the sampler *)

Abbreviation mapWidth := (IZR 7 * 1).
Abbreviation mapHeight := (IZR 1 * 1).
Abbreviation onRidge := (suitabilityFn ridgeMask 7 1 1).

Definition seedling : point := mkPoint (7 / 4) 0.

Lemma onRidge_seedling : onRidge (7 / 4) 0 = true.
Proof.
  unfold suitabilityFn.
  rewrite (@floor_of (7 / 4 / 1) 1%Z), (@floor_of (0 / 1) 0%Z) by lra.
  change (get ridgeMask (0 * 7 + 1)) with 1.
  cbn [Z.ltb Z.leb Z.compare Pos.compare Pos.compare_cont orb].
  rdecide. reflexivity.
Qed.

Lemma onRidge_candidate : onRidge (19 / 4) 0 = false.
Proof.
  unfold suitabilityFn.
  rewrite (@floor_of (19 / 4 / 1) 4%Z), (@floor_of (0 / 1) 0%Z) by lra.
  change (get ridgeMask (0 * 7 + 4)) with 0.
  cbn [Z.ltb Z.leb Z.compare Pos.compare Pos.compare_cont orb].
  rdecide. reflexivity.
Qed.

Lemma ridge_grid :
  gridWidth mapWidth 3 = 4%Z /\ gridHeight mapHeight 3 = 1%Z.
Proof.
  pose proof sqrt2_close as Hs.
  assert (E1 : mapWidth / Poisson.cellSize 3 = 7 * sqrt 2 / 3)
    by (unfold Poisson.cellSize; field; lra).
  assert (E2 : mapHeight / Poisson.cellSize 3 = sqrt 2 / 3)
    by (unfold Poisson.cellSize; field; lra).
  unfold gridWidth, gridHeight. rewrite E1, E2.
  split; apply Zceil_eq; lra.
Qed.

Lemma seedling_cell :
  Zfloor (7 / 4 / Poisson.cellSize 3) = 0%Z /\ Zfloor (0 / Poisson.cellSize 3) = 0%Z.
Proof.
  pose proof sqrt2_close as Hs.
  assert (E1 : 7 / 4 / Poisson.cellSize 3 = 7 * sqrt 2 / 12)
    by (unfold Poisson.cellSize; field; lra).
  assert (E2 : 0 / Poisson.cellSize 3 = 0) by (unfold Poisson.cellSize; field; lra).
  rewrite E1, E2. split; apply floor_of; lra.
Qed.

(** Every attempt around the seedling generates the candidate (4.75, 0),
    which lies in a cell at 1.5 m and is rejected by the mask. *)
Lemma attempt_rejected g :
  isValid mapWidth mapHeight 3 (Some onRidge) g
    (px seedling + cos (0 * PI * 2) * (3 + 0 * 3))
    (py seedling + sin (0 * PI * 2) * (3 + 0 * 3)) = false.
Proof.
  replace (0 * PI * 2) with 0 by ring. rewrite cos_0, sin_0.
  replace (px seedling + 1 * (3 + 0 * 3)) with (19 / 4)
    by (cbn [px seedling]; lra).
  replace (py seedling + 0 * (3 + 0 * 3)) with 0 by (cbn [py seedling]; lra).
  unfold isValid. rdecide. cbn [orb rejectedByMask].
  rewrite onRidge_candidate. reflexivity.
Qed.

Lemma attempts_rejected i : forall g s a n found,
  attemptLoop mapWidth mapHeight 3 quarterThenZero (Some onRidge) i
    (Some seedling) (mkState g s a (S n)) found
  = Ok (mkState g s a (S n + 2 * i), found).
Proof.
  induction i as [|i IH]; intros g s a n found.
  - cbn [attemptLoop]. rewrite Nat.mul_0_r, Nat.add_0_r. reflexivity.
  - cbn [attemptLoop calls grid samples active quarterThenZero].
    rewrite attempt_rejected, IH. do 3 f_equal. lia.
Qed.

(** The sampler returns the seedling alone. *)
Lemma ridge_run fuel :
  exists g n,
    Poisson.run mapWidth mapHeight 3 quarterThenZero 30 (Some onRidge) (S fuel)
    = Ok (mkState g [seedling] [] n).
Proof.
  destruct ridge_grid as [Hgw Hgh]. destruct seedling_cell as [Hcx Hcy].
  assert (Hfirst : initialPoint mapWidth mapHeight quarterThenZero
                     (Some onRidge) 100 0
                   = (Some (7 / 4, 0), 2%nat)).
  { cbn [initialPoint quarterThenZero rejectedByMask].
    replace (1 / 4 * mapWidth) with (7 / 4) by lra.
    replace (0 * mapHeight) with 0 by lra.
    rewrite onRidge_seedling. reflexivity. }
  unfold Poisson.run. rdecide. rewrite Hfirst.
  unfold addPoint, gridIndex, inGrid. rewrite ?Hcx, ?Hcy, ?Hgw, ?Hgh.
  change (newGrid (4 * 1)) with (Ok (repeat (@None point) 4)). cbn [bind].
  cbn [grid samples active calls app].
  cbn [Z.leb Z.ltb Z.compare Pos.compare Pos.compare_cont andb Z.mul Z.add
       Z.to_nat setItem repeat].
  cbn [activeLoop active calls grid samples List.length quarterThenZero].
  replace (Zfloor (0 * INR 1)) with 0%Z
    by (symmetry; apply floor_of; cbn [INR]; lra).
  change (itemAt [mkPoint (7 / 4) 0] 0) with (Some seedling).
  rewrite attempts_rejected. cbn [bind splice1 List.length Z.ltb Z.compare].
  eexists _, _. destruct fuel; reflexivity.
Qed.

Lemma seedling_height :
  getHeightAt (7 / 4) 0 (elevation ridges) 7 1 1 = 7 / 4.
Proof.
  unfold getHeightAt.
  rewrite (@floor_of (7 / 4 / 1) 1%Z), (@floor_of (0 / 1) 0%Z) by lra.
  change (get (elevation ridges)
            (Z.max 0 (Z.min (1 - 1) 0) * 7 + Z.max 0 (Z.min (7 - 1) 1)))
    with (5 / 2).
  change (get (elevation ridges)
            (Z.max 0 (Z.min (1 - 1) 0) * 7
             + Z.min (7 - 1) (Z.max 0 (Z.min (7 - 1) 1) + 1)))
    with (3 / 2).
  change (get (elevation ridges)
            (Z.min (1 - 1) (Z.max 0 (Z.min (1 - 1) 0) + 1) * 7
             + Z.max 0 (Z.min (7 - 1) 1)))
    with (5 / 2).
  change (get (elevation ridges)
            (Z.min (1 - 1) (Z.max 0 (Z.min (1 - 1) 0) + 1) * 7
             + Z.min (7 - 1) (Z.max 0 (Z.min (7 - 1) 1) + 1)))
    with (3 / 2).
  change (IZR (Z.max 0 (Z.min (7 - 1) 1))) with 1.
  change (IZR (Z.max 0 (Z.min (1 - 1) 0))) with 0.
  lra.
Qed.

(** C7 fails while the strict mask is in force: on the strip of seven cells
    alternately at 1.5 m and 2.5 m, with sea level 0, the default beach
    buffer of 2 m and full forest coverage, three cells are strictly
    suitable (the height field covers the grid), and the call returns one
    tree at x = 1.75, in the cell at 2.5 m, whose sampled height is 1.75 m:
    the mask tests the elevation of the cell, the placement carries the
    height interpolated towards the neighbouring cell at 1.5 m. *)
Theorem C7_tree_below_beach_buffer :
  Z.of_nat (List.length (elevation ridges)) = (width ridges * height ridges)%Z
  /\ countSuitable (strictMaskOf ridges defaultTrees) = 3%nat
  /\ generateTreePositions ridges defaultTrees quarterThenZero 1
     = Ok [mkPlacement (7 / 4) 0 (7 / 4) None]
  /\ get (elevation ridges) 1 = 5 / 2
  /\ seaLevel ridges + orElse (TREE_BEACH_BUFFER defaultTrees) 2 = 2
  /\ 7 / 4 < 2.
Proof.
  split; [reflexivity|].
  split; [rewrite ridge_mask; exact ridge_count|].
  split; [|split; [reflexivity|split; [|lra]]].
  - unfold generateTreePositions. rewrite ridge_chosen.
    assert (Hfp : orElse (FOREST_PERCENTAGE defaultTrees) 0 = 100)
      by (unfold orElse, defaultTrees; cbn [FOREST_PERCENTAGE]; rdecide;
          reflexivity).
    rewrite Hfp. rdecide.
    change (orElse (TREE_MIN_SPACING defaultTrees) 3) with 3.
    change (width ridges) with 7%Z. change (height ridges) with 1%Z.
    change (cellSize ridges) with 1.
    destruct (ridge_run 0) as (g & n & Hrun). rewrite Hrun. cbn [bind samples].
    rewrite strip_target. unfold selectBestTreePositions.
    cbn [List.length Z.of_nat Pos.of_succ_nat Z.leb Z.compare Pos.compare
         Pos.compare_cont map px py seedling].
    rewrite seedling_height. reflexivity.
  - unfold orElse, defaultTrees. cbn. lra.
Qed.

End TreesFailure.

(* ================================================================== *)
(** * rng.js on doubles: nextInt *)

Module RoundedRNGLaws.

Import Rounding RoundingLaws RoundedLaws RNG RoundedRNG.
Local Open Scope R_scope.

(** The largest value of [next()] times a span of at most 2^21 is a double
    below the span. *)
Lemma scaled_span_fix n : (1 <= n <= 2 ^ 21)%Z ->
  round64 (IZR (n * 4294967295) * powerRZ 2 (-32))
  = IZR (n * 4294967295) * powerRZ 2 (-32).
Proof.
  intros Hn. unfold round64.
  apply (@roundTo_fix 53 (-1074) ltac:(lia)); [|lia].
  change (2 ^ 21)%Z with 2097152%Z in Hn.
  change (2 ^ 53)%Z with 9007199254740992%Z. lia.
Qed.

Lemma pow2_32 : powerRZ 2 (-32) = / 4294967296.
Proof.
  change (-32)%Z with (- (32))%Z.
  rewrite powerRZ_neg', (@pow2_IZR 32) by lia.
  change (2 ^ 32)%Z with 4294967296%Z. reflexivity.
Qed.

(** The scaled draw, rounded, stays below the span. *)
Lemma scaled_draw_range (s n : Z) :
  (0 <= s < 4294967296)%Z -> (1 <= n <= 2 ^ 21)%Z ->
  0 <= round64 (IZR s / 4294967296 * IZR n) < IZR n.
Proof.
  intros Hs Hn.
  assert (Hs0 : 0 <= IZR s) by (apply IZR_le; lia).
  assert (Hs1 : IZR s <= 4294967295) by (apply IZR_le; lia).
  assert (Hn1 : 1 <= IZR n) by (apply IZR_le; lia).
  split.
  - rewrite <- round64_0. apply round64_mono.
    apply Rmult_le_pos; [|lra]. apply Rmult_le_pos; [lra|].
    apply Rlt_le, Rinv_0_lt_compat. lra.
  - apply Rle_lt_trans with (IZR (n * 4294967295) * powerRZ 2 (-32)).
    + rewrite <- scaled_span_fix by exact Hn. apply round64_mono.
      rewrite pow2_32, mult_IZR. unfold Rdiv.
      replace (IZR s * / 4294967296 * IZR n)
        with (IZR n * IZR s * / 4294967296) by ring.
      apply Rmult_le_compat_r; [apply Rlt_le, Rinv_0_lt_compat; lra|].
      apply Rmult_le_compat_l; lra.
    + rewrite pow2_32, mult_IZR. lra.
Qed.

(** For integers [min < max] of magnitude at most 2^52 with a span
    [max - min] of at most 2^21, [nextInt(min, max)] computed on doubles
    returns an integer of [[min, max)] and advances the generator by one
    step. *)
Theorem nextInt_in_range_on_doubles (g : LCG) (min max : Z) :
  (min < max)%Z -> (max - min <= 2 ^ 21)%Z ->
  (Z.abs min <= 2 ^ 52)%Z -> (Z.abs max <= 2 ^ 52)%Z ->
  exists r : Z,
    fst (nextInt g (IZR min) (IZR max)) = IZR r
    /\ (min <= r < max)%Z
    /\ snd (nextInt g (IZR min) (IZR max)) = LCG_step g.
Proof.
  intros Hlt Hspan Hmin Hmax. unfold nextInt, next. cbn [fst snd].
  set (s := state (LCG_step g)).
  assert (Hs : (0 <= s < 4294967296)%Z)
    by (unfold s; cbn; apply RNGProps.toUint32_range).
  change (2 ^ 21)%Z with 2097152%Z in Hspan.
  change (2 ^ 52)%Z with 4503599627370496%Z in Hmin, Hmax.
  rewrite <- minus_IZR.
  rewrite (@round64_IZR (max - min))
    by (change (2 ^ 53)%Z with 9007199254740992%Z; lia).
  unfold LCG_value. fold s.
  pose proof (@scaled_draw_range s (max - min) Hs
                ltac:(change (2 ^ 21)%Z with 2097152%Z; lia)) as [Hlo Hhi].
  set (y := round64 (IZR s / 4294967296 * IZR (max - min))) in *.
  pose proof (Zfloor_bound y) as [Hf1 Hf2].
  assert (Hf0 : (0 <= Zfloor y)%Z) by (apply Zfloor_lub; exact Hlo).
  assert (Hfn : (Zfloor y < max - min)%Z) by (apply lt_IZR; lra).
  exists (Zfloor y + min)%Z. rewrite <- plus_IZR.
  split; [|split; [lia|reflexivity]].
  apply round64_IZR. change (2 ^ 53)%Z with 9007199254740992%Z. lia.
Qed.

Lemma nextInt_in_range_on_doubles_witness :
  exists r : Z,
    fst (nextInt (LCG_new 12345) (IZR 0) (IZR 1000000)) = IZR r
    /\ (0 <= r < 1000000)%Z
    /\ snd (nextInt (LCG_new 12345) (IZR 0) (IZR 1000000))
       = LCG_step (LCG_new 12345).
Proof.
  apply (@nextInt_in_range_on_doubles (LCG_new 12345) 0 1000000);
    [lia| |cbn; lia|cbn; lia].
  change (2 ^ 21)%Z with 2097152%Z. lia.
Defined.

End RoundedRNGLaws.

(* ================================================================== *)
(** * treePlacement.js on doubles: the sampled height *)

Module RoundedTreesLaws.

Import Rounding RoundingLaws Rounded RoundedLaws Trees RoundedTrees.
Local Open Scope R_scope.

(** One interpolation line stays between the bounds of its two heights, up
    to its rounding. *)
Lemma line_between a b w lo hi M :
  lo <= a <= hi -> lo <= b <= hi -> Rabs a <= M -> Rabs b <= M ->
  0 <= w <= 1 ->
  lo - slack M
  <= round64 (round64 (a * round64 (1 - w)) + round64 (b * w))
  <= hi + slack M.
Proof.
  intros Ha Hb Ma Mb Hw.
  pose proof (@interpolation_error a b w M Ma Mb Hw) as E.
  apply Rabs_bounds in E.
  assert (lo <= a * (1 - w) + b * w <= hi) by nra.
  lra.
Qed.

(** The cell of a coordinate and the offset inside it. *)
Lemma clamped_offset (c : R) (w : Z) :
  (1 <= w)%Z -> 0 <= c <= IZR w ->
  let x0 := Z.max 0 (Z.min (w - 1) (Zfloor c)) in
  (0 <= x0 <= w - 1)%Z /\ 0 <= c - IZR x0 <= 1.
Proof.
  intros Hw [Hc0 Hc1]. cbv zeta.
  pose proof (Zfloor_bound c) as [Hf1 Hf2].
  assert (Hf0 : (0 <= Zfloor c)%Z) by (apply Zfloor_lub; exact Hc0).
  assert (Hfw : (Zfloor c <= w)%Z) by (apply le_IZR; lra).
  destruct (Z.eq_dec (Zfloor c) w) as [E|E].
  - rewrite E in *.
    replace (Z.max 0 (Z.min (w - 1) w)) with (w - 1)%Z by lia.
    rewrite minus_IZR. split; [lia|lra].
  - replace (Z.max 0 (Z.min (w - 1) (Zfloor c))) with (Zfloor c) by lia.
    split; [lia|lra].
Qed.

Lemma cell_coordinate (world cellSize : R) (w : Z) :
  0 < cellSize -> (1 <= w <= 2 ^ 52)%Z -> 0 <= world <= IZR w * cellSize ->
  0 <= round64 (world / cellSize) <= IZR w.
Proof.
  intros Hc Hw [H0 H1].
  assert (Hq : 0 <= world / cellSize <= IZR w).
  { split.
    - apply Rmult_le_pos; [exact H0|]. apply Rlt_le, Rinv_0_lt_compat, Hc.
    - apply Rmult_le_reg_r with cellSize; [exact Hc|].
      unfold Rdiv. rewrite Rmult_assoc, Rinv_l by lra. lra. }
  split.
  - rewrite <- round64_0. apply round64_mono. apply Hq.
  - rewrite <- (@round64_IZR w).
    + apply round64_mono. apply Hq.
    + change (2 ^ 52)%Z with 4503599627370496%Z in Hw.
      change (2 ^ 53)%Z with 9007199254740992%Z. lia.
Qed.

Lemma bilinearSlack_covers M : 0 <= M ->
  slack M + slack (M + slack M) <= bilinearSlack M.
Proof.
  intros HM. unfold slack, bilinearSlack.
  pose proof u64_bounds as [Hu0 _]. pose proof u64_tiny as Hu.
  pose proof eta64_bounds as [He0 He1].
  assert (K0 : 0 <= u64 * M) by (apply Rmult_le_pos; lra).
  assert (K1 : u64 * (u64 * M) <= / 1024 * (u64 * M))
    by (apply Rmult_le_compat_r; lra).
  assert (K2 : u64 * eta64 <= / 1024 * eta64)
    by (apply Rmult_le_compat_r; lra).
  lra.
Qed.

(** On a height field that covers the grid, with heights between [lo]
    and [hi] of magnitude at most [M], [getHeightAt] computed on doubles at a
    position of the map lies between [lo] and [hi] up to the rounding of its
    three interpolation lines, [13 * 2^-53 * M + 9 * 2^-1075]. *)
Theorem getHeightAt_between_up_to_rounding (elevation : list R)
  (width height : Z) (cellSize worldX worldZ lo hi M : R) :
  0 < cellSize ->
  (1 <= width <= 2 ^ 52)%Z -> (1 <= height <= 2 ^ 52)%Z ->
  (width * height <= Z.of_nat (List.length elevation))%Z ->
  0 <= worldX <= IZR width * cellSize ->
  0 <= worldZ <= IZR height * cellSize ->
  (forall i, (0 <= i < width * height)%Z -> lo <= get elevation i <= hi) ->
  Rabs lo <= M -> Rabs hi <= M -> M <= powerRZ 2 1000 ->
  lo - bilinearSlack M
  <= getHeightAt worldX worldZ elevation width height cellSize
  <= hi + bilinearSlack M.
Proof.
  intros Hc Hw Hh _ HX HZ Hel Mlo Mhi _.
  pose proof (@cell_coordinate worldX cellSize width Hc Hw HX) as HcX.
  pose proof (@cell_coordinate worldZ cellSize height Hc Hh HZ) as HcZ.
  unfold getHeightAt.
  set (cellX := round64 (worldX / cellSize)) in *.
  set (cellZ := round64 (worldZ / cellSize)) in *.
  destruct (@clamped_offset cellX width ltac:(lia) HcX) as [Hx0 Hfx].
  destruct (@clamped_offset cellZ height ltac:(lia) HcZ) as [Hz0 Hfz].
  set (x0 := Z.max 0 (Z.min (width - 1) (Zfloor cellX))) in *.
  set (z0 := Z.max 0 (Z.min (height - 1) (Zfloor cellZ))) in *.
  set (x1 := Z.min (width - 1) (x0 + 1)).
  set (z1 := Z.min (height - 1) (z0 + 1)).
  assert (Hx1 : (0 <= x1 <= width - 1)%Z) by (unfold x1; lia).
  assert (Hz1 : (0 <= z1 <= height - 1)%Z) by (unfold z1; lia).
  apply round64_unit in Hfx, Hfz.
  set (fx := round64 (cellX - IZR x0)) in *.
  set (fz := round64 (cellZ - IZR z0)) in *.
  assert (Hcell : forall x z, (0 <= x <= width - 1)%Z ->
            (0 <= z <= height - 1)%Z ->
            lo <= get elevation (z * width + x) <= hi
            /\ Rabs (get elevation (z * width + x)) <= M).
  { intros x z Hx Hz.
    assert (Hi : (0 <= z * width + x < width * height)%Z) by nia.
    pose proof (Hel _ Hi) as Hb. split; [exact Hb|].
    apply Rabs_bounds in Mlo, Mhi. apply Rabs_le. lra. }
  destruct (Hcell x0 z0 Hx0 Hz0) as [B00 M00].
  destruct (Hcell x1 z0 Hx1 Hz0) as [B10 M10].
  destruct (Hcell x0 z1 Hx0 Hz1) as [B01 M01].
  destruct (Hcell x1 z1 Hx1 Hz1) as [B11 M11].
  pose proof (@line_between _ _ fx lo hi M B00 B10 M00 M10 Hfx) as L0.
  pose proof (@line_between _ _ fx lo hi M B01 B11 M01 M11 Hfx) as L1.
  set (h0 := round64 (round64 (get elevation (z0 * width + x0)
                                 * round64 (1 - fx))
                      + round64 (get elevation (z0 * width + x1) * fx))) in *.
  set (h1 := round64 (round64 (get elevation (z1 * width + x0)
                                 * round64 (1 - fx))
                      + round64 (get elevation (z1 * width + x1) * fx))) in *.
  assert (HM : 0 <= M) by (pose proof (Rabs_pos lo); lra).
  pose proof (slack_nonneg HM) as Hs.
  assert (Mh : forall v, lo - slack M <= v <= hi + slack M ->
                         Rabs v <= M + slack M).
  { intros v Hv. apply Rabs_bounds in Mlo, Mhi. apply Rabs_le. lra. }
  pose proof (@line_between h0 h1 fz (lo - slack M) (hi + slack M)
                (M + slack M) L0 L1 (Mh _ L0) (Mh _ L1) Hfz) as L.
  pose proof (bilinearSlack_covers HM). lra.
Qed.

Lemma getHeightAt_between_up_to_rounding_witness :
  1 - bilinearSlack 3 <= getHeightAt 1 0 [1; 2; 3] 3 1 2 <= 3 + bilinearSlack 3.
Proof.
  apply (@getHeightAt_between_up_to_rounding [1; 2; 3] 3 1 2 1 0 1 3 3).
  - lra.
  - change (2 ^ 52)%Z with 4503599627370496%Z. lia.
  - change (2 ^ 52)%Z with 4503599627370496%Z. lia.
  - cbn. lia.
  - lra.
  - lra.
  - intros i Hi.
    assert (Hcases : i = 0%Z \/ i = 1%Z \/ i = 2%Z) by lia.
    destruct Hcases as [-> | [-> | ->]].
    + change (get [1; 2; 3] 0) with 1. lra.
    + change (get [1; 2; 3] 1) with 2. lra.
    + change (get [1; 2; 3] 2) with 3. lra.
  - rewrite Rabs_pos_eq; lra.
  - rewrite Rabs_pos_eq; lra.
  - pose proof pow2_large. lra.
Defined.

End RoundedTreesLaws.
